(** * The query layer of tcli: expression evaluation and plans

    A shallow embedding of [query/expression_exec.go] and [query/plan.go],
    and the properties of the evaluator and of the row and column plans
    that the design document states about them. *)

From Stdlib Require Import ZArith List Bool Lia Floats Permutation Sorted.
From Stdlib Require Import Strings.Byte.
From stdpp Require Import gmap strings list.

Set Warnings "-register-all".
Local Open Scope Z_scope.

(** ** Outcomes of a Go call

    A call returns normally, aborts with a runtime panic, or (for the
    loops that are run with a step budget) has not returned within
    the budget. *)

Inductive res (A : Type) : Type :=
| Ret (a : A)
| Panic (msg : string)
| OutOfFuel.

Arguments Ret {A} a.
Arguments Panic {A} msg.
Arguments OutOfFuel {A}.

Global Instance res_ret : MRet res := fun A a => Ret a.

Global Instance res_bind : MBind res := fun A B k m =>
  match m with
  | Ret a => k a
  | Panic msg => Panic msg
  | OutOfFuel => OutOfFuel
  end.

(** Go's [error] values; [None] is the nil error. *)
Inductive error : Type := errorString (msg : string).

Definition errors_New (msg : string) : option error := Some (errorString msg).

(** ** Byte slices: the part of package [bytes] the code calls *)

Definition cmp_byte (x y : byte) : comparison :=
  N.compare (Byte.to_N x) (Byte.to_N y).

(** [bytes.Compare]: lexicographic, -1, 0 or +1. *)
Fixpoint Compare (a b : list byte) : Z :=
  match a, b with
  | [], [] => 0
  | [], _ :: _ => -1
  | _ :: _, [] => 1
  | x :: a', y :: b' =>
      match cmp_byte x y with
      | Eq => Compare a' b'
      | Lt => -1
      | Gt => 1
      end
  end.

(** [bytes.HasPrefix s prefix]. *)
Fixpoint HasPrefix (s prefix : list byte) : bool :=
  match prefix, s with
  | [], _ => true
  | _ :: _, [] => false
  | y :: p', x :: s' => if N.eqb (Byte.to_N x) (Byte.to_N y) then HasPrefix s' p' else false
  end.

(** [bytes.Equal]. *)
Definition Equal (a b : list byte) : bool := Z.eqb (Compare a b) 0.

(** A slice that may be nil: [None] is the nil slice, [Some []] an empty
    slice that is not nil.  The functions of [bytes] read a nil slice as
    an empty one. *)
Definition slice := option (list byte).

Definition contents (s : slice) : list byte :=
  match s with Some b => b | None => [] end.

(** ** Runtime values

    The dynamic types that an [any] holds somewhere in the two files.  The
    integer types keep their Go type, since the type switches list them
    one by one. *)

Inductive intkind : Type :=
| Kint | Kint8 | Kint16 | Kint32 | Kint64
| Kuint | Kuint8 | Kuint16 | Kuint32 | Kuint64.

Inductive value (E : Type) : Type :=
| VNil                                  (* the nil interface *)
| VBytes (b : list byte)                (* []byte *)
| VString (s : string)                  (* string *)
| VInt (k : intkind) (i : Z)            (* int ... uint64 *)
| VFloat (f : float)                    (* float32, float64 *)
| VBool (b : bool)                      (* bool *)
| VList (l : list (value E))            (* []any *)
| VMap (m : gmap string (value E))      (* map[string]any *)
| VJSON (m : gmap string (value E))     (* JSON, a named map type *)
| VExprs (l : list E).                  (* []Expression *)

Arguments VNil {E}.
Arguments VBytes {E} b.
Arguments VString {E} s.
Arguments VInt {E} k i.
Arguments VFloat {E} f.
Arguments VBool {E} b.
Arguments VList {E} l.
Arguments VMap {E} m.
Arguments VJSON {E} m.
Arguments VExprs {E} l.

(** ** The expression tree *)

(** Modelled from the spec: the type tag, declared outside the two files;
    the design document gives it the three values the code names. *)
Inductive Type_ : Type := TSTR | TNUMBER | TBOOL.

Definition Type_eqb (a b : Type_) : bool :=
  match a, b with
  | TSTR, TSTR | TNUMBER, TNUMBER | TBOOL, TBOOL => true
  | _, _ => false
  end.

(** The operators [BinaryOpExpr.Execute] switches on; [OtherOp] stands for
    every operator value it does not list. *)
Inductive Operator : Type :=
| Eq_ | NotEq | PrefixMatch | RegExpMatch | And | Or
| Add | Sub | Mul | Div | Gt_ | Gte | Lt_ | Lte | In_ | Between
| OtherOp.

(** The keywords of a [FieldExpr]; [OtherKW] is any keyword besides the two
    the code handles. *)
Inductive KVKeyword : Type := KeyKW | ValueKW | OtherKW.

Inductive Expression : Type :=
| StringExpr (Data : string)
| FieldExpr (Field : KVKeyword)
| BinaryOpExpr (Op : Operator) (Left Right : Expression)
| NotExpr (Right : Expression)
| FunctionCallExpr (Name : string) (Args : list Expression) (Result : value Expression)
| NameExpr (Data : string)
| NumberExpr (Int : Z)
| FloatExpr (Float : float)
| BoolExpr (Bool : bool)
| ListExpr (List : list Expression)
| FieldAccessExpr (Left FieldName : Expression).

Abbreviation any := (value Expression).

(** A Go pair [(T, error)]. *)
Definition result (A : Type) : Type := (A * option error)%type.

Record KVPair : Type := { Key : list byte; Value : list byte }.

(** [NewKVP]: the pair of the two slices. *)
Definition NewKVP (key val : slice) : KVPair :=
  {| Key := contents key; Value := contents val |}.

(** A scalar function of the registry.  The body is given the row, the
    argument expressions as written, and what each of them evaluates to on
    the row: evaluation has no effect, so this is what the body could
    compute by evaluating them itself. *)
Record Function : Type := {
  FName : string;
  NumArgs : Z;
  VarArgs : bool;
  Body : KVPair -> list Expression -> list (res (result any)) -> res (result any)
}.

(** What the two files use and do not define. *)
Class Externals : Type := {
  (** the static return type of a node (method [ReturnType]) *)
  ReturnType : Expression -> Type_;
  (** the registry lookup for a call node, by its name *)
  GetScalarFunction : string -> result (option Function);
  (** arithmetic on two values, by operator character *)
  executeMathOp : any -> any -> byte -> res (result any);
  (** the stringification that [+] on strings uses *)
  toString : any -> string;
  (** [regexp.Compile]: the matcher of a pattern, or an error *)
  regexp_Compile : string -> result (list byte -> bool);
  (** [strconv.ParseFloat s 64] *)
  ParseFloat : string -> option float
}.

(** ** Coercions and comparisons on values *)

(** Modelled from the spec: [convertToByteArray], [convertToInt] and
    [convertToFloat], the coercion helpers of the value model, which are
    defined outside the two files.  Each converts the values of its own
    kind and reports anything else as not convertible, with the zero value
    of the target type. *)
Definition convertToByteArray (v : any) : list byte * bool :=
  match v with
  | VString s => (String.list_byte_of_string s, true)
  | VBytes b => (b, true)
  | _ => ([], false)
  end.

(** The bounds of [int64], and the integers of each Go type, [int] and
    [uint] being of 64 bits. *)
Definition MinInt64 : Z := - 2 ^ 63.
Definition MaxInt64 : Z := 2 ^ 63 - 1.

Definition is_int64 (i : Z) : bool := (MinInt64 <=? i) && (i <=? MaxInt64).

Definition in_kind (k : intkind) (i : Z) : bool :=
  match k with
  | Kint | Kint64 => is_int64 i
  | Kint8 => (- 2 ^ 7 <=? i) && (i <? 2 ^ 7)
  | Kint16 => (- 2 ^ 15 <=? i) && (i <? 2 ^ 15)
  | Kint32 => (- 2 ^ 31 <=? i) && (i <? 2 ^ 31)
  | Kuint | Kuint64 => (0 <=? i) && (i <? 2 ^ 64)
  | Kuint8 => (0 <=? i) && (i <? 2 ^ 8)
  | Kuint16 => (0 <=? i) && (i <? 2 ^ 16)
  | Kuint32 => (0 <=? i) && (i <? 2 ^ 32)
  end.

(** The integers of a type that [int64] does not hold: those of [uint]
    and [uint64] above [MaxInt64]. *)
Definition beyond_int64 (k : intkind) (i : Z) : bool :=
  match k with
  | Kuint | Kuint64 => MaxInt64 <? i
  | _ => false
  end.

(** The result of [convertToInt] is a signed integer of 64 bits; every
    integer of every type but [uint] and [uint64] is one as it is, and an
    [uint] or [uint64] above [MaxInt64] is not convertible: the coercion
    fails, it does not truncate. *)
Definition convertToInt (v : any) : Z * bool :=
  match v with
  | VInt k i => if beyond_int64 k i then (0, false) else (i, true)
  | _ => (0, false)
  end.

Definition convertToFloat (v : any) : float * bool :=
  match v with
  | VFloat f => (f, true)
  | _ => (0%float, false)
  end.

(** Modelled from the spec: [execStringCompare], the byte-lexicographic
    comparison of two string-like values under a relational operator,
    defined outside the two files. *)
Definition execStringCompare (left_ right_ : any) (op : string) : result bool :=
  let '(lb, lok) := convertToByteArray left_ in
  let '(rb, rok) := convertToByteArray right_ in
  if negb lok || negb rok then (false, errors_New "Invalid string compare operand")
  else
    let c := Compare lb rb in
    if String.eqb op "=" then (c =? 0, None)
    else if String.eqb op ">" then (c >? 0, None)
    else if String.eqb op ">=" then (c >=? 0, None)
    else if String.eqb op "<" then (c <? 0, None)
    else if String.eqb op "<=" then (c <=? 0, None)
    else (false, errors_New "Unknown operator").

(** Modelled from the spec: [execNumberCompare], the numeric comparison of
    two values under a relational operator, defined outside the two files:
    on two integers, or on two floats. *)
Definition execNumberCompare (left_ right_ : any) (op : string) : result bool :=
  match convertToInt left_, convertToInt right_ with
  | (li, true), (ri, true) =>
      if String.eqb op "=" then (li =? ri, None)
      else if String.eqb op ">" then (li >? ri, None)
      else if String.eqb op ">=" then (li >=? ri, None)
      else if String.eqb op "<" then (li <? ri, None)
      else if String.eqb op "<=" then (li <=? ri, None)
      else (false, errors_New "Unknown operator")
  | _, _ =>
      match convertToFloat left_, convertToFloat right_ with
      | (lf, true), (rf, true) =>
          if String.eqb op "=" then (PrimFloat.eqb lf rf, None)
          else if String.eqb op ">" then (PrimFloat.ltb rf lf, None)
          else if String.eqb op ">=" then (PrimFloat.leb rf lf, None)
          else if String.eqb op "<" then (PrimFloat.ltb lf rf, None)
          else if String.eqb op "<=" then (PrimFloat.leb lf rf, None)
          else (false, errors_New "Unknown operator")
      | _, _ => (false, errors_New "Invalid number compare operand")
      end
  end.

(** ** [expression_exec.go]: evaluation

    Each method takes what its operands evaluate to on the row.  An operand
    that the Go code does not reach is an argument that the definition does
    not inspect. *)

Section Execute.
Context `{X : Externals}.

Abbreviation evaluated := (res (result any)).

(** [execEqual]: the comparison is chosen by a type switch on the value of
    the left_ operand. *)
Definition execEqual (L R : evaluated) : res (result bool) :=
  '(rleft, err) ← L;
  if err is Some _ then Ret (false, err) else
  '(rright, err) ← R;
  if err is Some _ then Ret (false, err) else
  let invalid := Ret (false, errors_New "Invalid = operator left type") in
  match rleft with
  | VString _ | VBytes _ =>
      let '(left_, lok) := convertToByteArray rleft in
      let '(right_, rok) := convertToByteArray rright in
      if lok && rok then Ret (Equal left_ right_, None) else invalid
  | VInt _ _ =>
      let '(lint, lok) := convertToInt rleft in
      let '(rint, rok) := convertToInt rright in
      if lok && rok then Ret (lint =? rint, None) else invalid
  | VBool lbool =>
      match rright with
      | VBool rbool => Ret (Bool.eqb lbool rbool, None)
      | _ => invalid
      end
  | _ => invalid
  end.

Definition execNotEqual (L R : evaluated) : res (result bool) :=
  '(ret, err) ← execEqual L R;
  if err is Some _ then Ret (false, err) else Ret (negb ret, None).

Definition execPrefixMatch (L R : evaluated) : res (result bool) :=
  '(rleft, err) ← L;
  if err is Some _ then Ret (false, err) else
  '(rright, err) ← R;
  if err is Some _ then Ret (false, err) else
  let '(left_, lok) := convertToByteArray rleft in
  let '(right_, rok) := convertToByteArray rright in
  if negb lok || negb rok then Ret (false, errors_New "^= left value error")
  else Ret (HasPrefix left_ right_, None).

Definition execRegexpMatch (L R : evaluated) : res (result bool) :=
  '(rleft, err) ← L;
  if err is Some _ then Ret (false, err) else
  '(rright, err) ← R;
  if err is Some _ then Ret (false, err) else
  let '(left_, lok) := convertToByteArray rleft in
  let '(right_, rok) := convertToByteArray rright in
  if negb lok || negb rok then Ret (false, errors_New "~= left value error")
  else
    let '(re, err) := regexp_Compile (String.string_of_list_byte right_) in
    if err is Some _ then Ret (false, err) else Ret (re left_, None).

Definition execAnd (L R : evaluated) : res (result bool) :=
  '(rleft, err) ← L;
  if err is Some _ then Ret (false, err) else
  match rleft with
  | VBool left_ =>
      if negb left_ then Ret (false, None) else
      '(rright, err) ← R;
      if err is Some _ then Ret (false, err) else
      match rright with
      | VBool right_ => Ret (left_ && right_, None)
      | _ => Ret (false, errors_New "& right value type not bool")
      end
  | _ => Ret (false, errors_New "& left value type not bool")
  end.

Definition execOr (L R : evaluated) : res (result bool) :=
  '(rleft, err) ← L;
  if err is Some _ then Ret (false, err) else
  match rleft with
  | VBool left_ =>
      if left_ then Ret (true, None) else
      '(rright, err) ← R;
      if err is Some _ then Ret (false, err) else
      match rright with
      | VBool right_ => Ret (left_ || right_, None)
      | _ => Ret (false, errors_New "| right value type not bool")
      end
  | _ => Ret (false, errors_New "| left value type not bool")
  end.

Definition execMath (L R : evaluated) (op : byte) : evaluated :=
  '(left_, err) ← L;
  if err is Some _ then Ret (VBool false, err) else
  '(right_, err) ← R;
  if err is Some _ then Ret (VBool false, err) else
  executeMathOp left_ right_ op.

Definition boxed (r : result bool) : evaluated := Ret (VBool r.1, r.2).

Definition execNumberCompare_m (L R : evaluated) (op : string) : evaluated :=
  '(left_, err) ← L;
  if err is Some _ then Ret (VBool false, err) else
  '(right_, err) ← R;
  if err is Some _ then Ret (VBool false, err) else
  boxed (execNumberCompare left_ right_ op).

Definition execStringCompare_m (L R : evaluated) (op : string) : evaluated :=
  '(left_, err) ← L;
  if err is Some _ then Ret (VBool false, err) else
  '(right_, err) ← R;
  if err is Some _ then Ret (VBool false, err) else
  boxed (execStringCompare left_ right_ op).

(** The loops of [execStringIn] and [execNumberIn] over the elements of
    the list; [ev] evaluates an element on the row. *)
Fixpoint execStringIn_loop (ev : Expression -> evaluated) (left_ : any)
    (l : list Expression) : evaluated :=
  match l with
  | [] => Ret (VBool false, None)
  | expr :: rest =>
      if negb (Type_eqb (ReturnType expr) TSTR)
      then Ret (VBool false, errors_New "operator in right expression type is not string")
      else
        '(lvalue, err) ← ev expr;
        if err is Some _ then Ret (VBool false, err) else
        let '(cmp, err) := execStringCompare left_ lvalue "=" in
        if err is Some _ then Ret (VBool false, err) else
        if cmp then Ret (VBool true, None)
        else execStringIn_loop ev left_ rest
  end.

Definition execStringIn (L : evaluated) (Right : Expression)
    (ev : Expression -> evaluated) : evaluated :=
  '(left_, err) ← L;
  if err is Some _ then Ret (VBool false, err) else
  match Right with
  | ListExpr rlist => execStringIn_loop ev left_ rlist
  | _ => Ret (VBool false, errors_New "operator in right expression is not list")
  end.

Fixpoint execNumberIn_loop (ev : Expression -> evaluated) (left_ : any)
    (l : list Expression) : evaluated :=
  match l with
  | [] => Ret (VBool false, None)
  | expr :: rest =>
      if negb (Type_eqb (ReturnType expr) TNUMBER)
      then Ret (VBool false, errors_New "operator in right expression type is not number")
      else
        '(lvalue, err) ← ev expr;
        if err is Some _ then Ret (VBool false, err) else
        let '(cmp, err) := execNumberCompare left_ lvalue "=" in
        if err is Some _ then Ret (VBool false, err) else
        if cmp then Ret (VBool true, None)
        else execNumberIn_loop ev left_ rest
  end.

Definition execNumberIn (L : evaluated) (Right : Expression)
    (ev : Expression -> evaluated) : evaluated :=
  '(left_, err) ← L;
  if err is Some _ then Ret (VBool false, err) else
  match Right with
  | ListExpr rlist => execNumberIn_loop ev left_ rlist
  | _ => Ret (VBool false, errors_New "operator in right expression is not list")
  end.

Definition execStringBetween (L : evaluated) (Right : Expression)
    (ev : Expression -> evaluated) : evaluated :=
  '(left_, err) ← L;
  if err is Some _ then Ret (VBool false, err) else
  match Right with
  | ListExpr [lexpr; uexpr] =>
      if negb (Type_eqb (ReturnType lexpr) TSTR)
      then Ret (VBool false,
                errors_New "operator between lower boundary expression type is not string")
      else if negb (Type_eqb (ReturnType uexpr) TSTR)
      then Ret (VBool false,
                errors_New "operator between upper boundary expression type is not string")
      else
        '(lval, err) ← ev lexpr;
        if err is Some _ then Ret (VBool false, err) else
        '(uval, err) ← ev uexpr;
        if err is Some _ then Ret (VBool false, err) else
        let '(cmp, err) := execStringCompare lval uval "<" in
        if err is Some _ then Ret (VBool false, err) else
        if negb cmp
        then Ret (VBool false,
                  errors_New "operator between lower boundary is greater than upper boundary.")
        else
          let '(lcmp, err) := execStringCompare lval left_ "<=" in
          if err is Some _ then Ret (VBool false, err) else
          if negb lcmp then Ret (VBool false, None) else
          let '(ucmp, err) := execStringCompare left_ uval "<=" in
          if err is Some _ then Ret (VBool false, err) else
          Ret (VBool ucmp, None)
  | _ => Ret (VBool false, errors_New "operator between right expression is invalid")
  end.

Definition execNumberBetween (L : evaluated) (Right : Expression)
    (ev : Expression -> evaluated) : evaluated :=
  '(left_, err) ← L;
  if err is Some _ then Ret (VBool false, err) else
  match Right with
  | ListExpr [lexpr; uexpr] =>
      if negb (Type_eqb (ReturnType lexpr) TNUMBER)
      then Ret (VBool false,
                errors_New "operator between lower boundary expression type is not string")
      else if negb (Type_eqb (ReturnType uexpr) TNUMBER)
      then Ret (VBool false,
                errors_New "operator between upper boundary expression type is not string")
      else
        '(lval, err) ← ev lexpr;
        if err is Some _ then Ret (VBool false, err) else
        '(uval, err) ← ev uexpr;
        if err is Some _ then Ret (VBool false, err) else
        let '(cmp, err) := execNumberCompare lval uval "<" in
        if err is Some _ then Ret (VBool false, err) else
        if negb cmp
        then Ret (VBool false,
                  errors_New "operator between lower boundary is greater than upper boundary.")
        else
          let '(lcmp, err) := execNumberCompare lval left_ "<=" in
          if err is Some _ then Ret (VBool false, err) else
          if negb lcmp then Ret (VBool false, None) else
          let '(ucmp, err) := execNumberCompare left_ uval "<=" in
          if err is Some _ then Ret (VBool false, err) else
          Ret (VBool ucmp, None)
  | _ => Ret (VBool false, errors_New "operator between right expression is invalid")
  end.

Definition execStringConcate (L R : evaluated) : evaluated :=
  '(lval, err) ← L;
  if err is Some _ then Ret (VString "", err) else
  '(rval, err) ← R;
  if err is Some _ then Ret (VString "", err) else
  Ret (VString (toString lval +:+ toString rval), None).

(** [NotExpr.Execute]. *)
Definition execNot (R : evaluated) : evaluated :=
  '(rright, err) ← R;
  if err is Some _ then Ret (VNil, err) else
  match rright with
  | VBool right_ => Ret (VBool (negb right_), None)
  | _ => Ret (VNil, errors_New "! right value error")
  end.

(** [executeFunc]: the arity check, then the body. *)
Definition executeFunc (kv : KVPair) (Args : list Expression)
    (args : list evaluated) (funcObj : Function) : evaluated :=
  if negb (VarArgs funcObj) && negb (Z.of_nat (length Args) =? NumArgs funcObj)
  then Ret (VNil, errors_New "Function require arguments")
  else Body funcObj kv Args args.

(** [FunctionCallExpr.Execute]: a node that holds a result returns it. *)
Definition execCall (kv : KVPair) (Name : string) (Args : list Expression)
    (Result : any) (args : list evaluated) : evaluated :=
  match Result with
  | VNil =>
      let '(funcObj, err) := GetScalarFunction Name in
      if err is Some _ then Ret (VNil, err) else
      match funcObj with
      | Some f => executeFunc kv Args args f
      | None => Panic "nil pointer dereference"
      end
  | _ => Ret (Result, None)
  end.

(** [execDictAccess]: access by key. *)
Definition execDictAccess (fieldName : string) (left_ : any) : evaluated :=
  let found (o : option any) : evaluated :=
    match o with
    | Some fval => Ret (fval, None)
    | None => Ret (VString "", None)
    end in
  match left_ with
  | VMap lval => found (lval !! fieldName)
  | VJSON lval => found (lval !! fieldName)
  | VString lval =>
      if String.eqb lval "" then found None
      else Ret (VNil, errors_New "Invalid left type not JSON")
  | _ => Ret (VNil, errors_New "Invalid left type not JSON")
  end.

(** [execListAccess]: access by position.  The index is compared with the
    length only; indexing a slice at a negative position panics. *)
Definition execListAccess (idx : Z) (left_ : any) : evaluated :=
  match left_ with
  | VList lval =>
      let lvallen := Z.of_nat (length lval) in
      if idx <? lvallen then
        if idx <? 0 then Panic "index out of range"
        else
          match lval !! Z.to_nat idx with
          | Some fval => Ret (fval, None)
          | None => Panic "index out of range"
          end
      else Ret (VString "", None)
  | VString lval =>
      if String.eqb lval "" then Ret (VString "", None)
      else Ret (VNil, errors_New "Invalid left type not List")
  | _ => Ret (VNil, errors_New "Invalid left type not List")
  end.

(** [FieldAccessExpr.Execute]. *)
Definition execFieldAccess (L : evaluated) (FieldName : Expression) : evaluated :=
  '(left_, err) ← L;
  if err is Some _ then Ret (VNil, err) else
  match FieldName with
  | StringExpr Data => execDictAccess Data left_
  | NumberExpr Int => execListAccess Int left_
  | _ => Ret (VNil, errors_New "Invalid field name")
  end.

Definition unboxed (r : res (result bool)) : evaluated :=
  '(b, err) ← r; Ret (VBool b, err).

(** [Execute], for every node. *)
Fixpoint Execute (e : Expression) (kv : KVPair) {struct e} : evaluated :=
  match e with
  | StringExpr Data => Ret (VBytes (String.list_byte_of_string Data), None)
  | FieldExpr Field =>
      match Field with
      | KeyKW => Ret (VBytes (Key kv), None)
      | ValueKW => Ret (VBytes (Value kv), None)
      | OtherKW => Ret (VNil, errors_New "Invalid Field")
      end
  | BinaryOpExpr Op Left Right =>
      let leftTp := ReturnType Left in
      let L := Execute Left kv in
      let R := Execute Right kv in
      let ev := fun x => Execute x kv in
      match Op with
      | Eq_ => unboxed (execEqual L R)
      | NotEq => unboxed (execNotEqual L R)
      | PrefixMatch => unboxed (execPrefixMatch L R)
      | RegExpMatch => unboxed (execRegexpMatch L R)
      | And => unboxed (execAnd L R)
      | Or => unboxed (execOr L R)
      | Add =>
          if Type_eqb (ReturnType Left) TSTR then execStringConcate L R
          else execMath L R "+"%byte
      | Sub => execMath L R "-"%byte
      | Mul => execMath L R "*"%byte
      | Div => execMath L R "/"%byte
      | Gt_ =>
          match leftTp with
          | TSTR => execStringCompare_m L R ">"
          | _ => execNumberCompare_m L R ">"
          end
      | Gte =>
          match leftTp with
          | TSTR => execStringCompare_m L R ">="
          | _ => execNumberCompare_m L R ">="
          end
      | Lt_ =>
          match leftTp with
          | TSTR => execStringCompare_m L R "<"
          | _ => execNumberCompare_m L R "<"
          end
      | Lte =>
          match leftTp with
          | TSTR => execStringCompare_m L R "<="
          | _ => execNumberCompare_m L R "<="
          end
      | In_ =>
          match leftTp with
          | TSTR => execStringIn L Right ev
          | _ => execNumberIn L Right ev
          end
      | Between =>
          match leftTp with
          | TSTR => execStringBetween L Right ev
          | _ => execNumberBetween L Right ev
          end
      | OtherOp => Ret (VNil, errors_New "Unknown operator")
      end
  | NotExpr Right => execNot (Execute Right kv)
  | FunctionCallExpr Name Args Result =>
      execCall kv Name Args Result (map (fun a => Execute a kv) Args)
  | NameExpr Data => Ret (VString Data, None)
  | NumberExpr Int => Ret (VInt Kint64 Int, None)
  | FloatExpr Float => Ret (VFloat Float, None)
  | BoolExpr Bool => Ret (VBool Bool, None)
  | ListExpr List => Ret (VExprs List, None)
  | FieldAccessExpr Left FieldName => execFieldAccess (Execute Left kv) FieldName
  end.

(** ** The filter adapter *)

(** [WhereStmt], of which the adapter reads the root expression. *)
Record WhereStmt : Type := { Expr : Expression }.

Record FilterExec : Type := { Ast : WhereStmt }.

(** [filterBatch]: row by row, each result must be a boolean. *)
Fixpoint filterBatch (e : FilterExec) (kvps : list KVPair) : res (result (list bool)) :=
  match kvps with
  | [] => Ret ([], None)
  | kvp :: rest =>
      '(result_, err) ← Execute (Expr (Ast e)) kvp;
      if err is Some _ then Ret ([], err) else
      match result_ with
      | VBool bresult =>
          '(ret, err) ← filterBatch e rest;
          if err is Some _ then Ret ([], err) else Ret (bresult :: ret, None)
      | _ => Ret ([], errors_New "Expression result is not boolean")
      end
  end.

(** [Filter]: one row through [filterBatch]. *)
Definition Filter (e : FilterExec) (kvp : KVPair) : res (result bool) :=
  '(ret, err) ← filterBatch e [kvp];
  if err is Some _ then Ret (false, err) else
  match ret with
  | b :: _ => Ret (b, None)
  | [] => Panic "index out of range"
  end.

End Execute.

(** ** [container/heap] of the Go library, on a slice

    The plans sort through the library's binary heap.  [less] is the
    element comparison behind the method [Less] of the slice type; as it
    evaluates expressions and asserts types, it may panic. *)

Module heap.
Section Heap.
Context {A : Type} (less : A -> A -> res bool).

(** The methods of the slice type: [Less], [Swap], [Push], [Pop]. *)
Definition Less (h : list A) (i j : nat) : res bool :=
  match h !! i, h !! j with
  | Some l, Some r => less l r
  | _, _ => Panic "index out of range"
  end.

Definition Swap (h : list A) (i j : nat) : res (list A) :=
  match h !! i, h !! j with
  | Some x, Some y => Ret (<[i := y]> (<[j := x]> h))
  | _, _ => Panic "index out of range"
  end.

(** [up]: each round moves [j] to its parent [(j - 1) / 2], which for
    [j = 0] is [0] again, in Go as on [nat]; [fuel] bounds the rounds. *)
Fixpoint up (fuel : nat) (h : list A) (j : nat) : res (list A) :=
  match fuel with
  | O => OutOfFuel
  | S fuel' =>
      let i := ((j - 1) / 2)%nat in
      if (i =? j)%nat then Ret h else
      b ← Less h j i;
      if negb b then Ret h else
      h' ← Swap h i j;
      up fuel' h' i
  end.

(** [down]: sift position [i] down within the first [n] elements. *)
Fixpoint down (fuel : nat) (h : list A) (i n : nat) : res (list A) :=
  match fuel with
  | O => OutOfFuel
  | S fuel' =>
      let j1 := (2 * i + 1)%nat in
      if (n <=? j1)%nat then Ret h else
      let j2 := (j1 + 1)%nat in
      b2 ← (if (j2 <? n)%nat then Less h j2 j1 else Ret false);
      let j := if (b2 : bool) then j2 else j1 in
      b ← Less h j i;
      if negb b then Ret h else
      h' ← Swap h i j;
      down fuel' h' j n
  end.

(** [heap.Init]: [down] from position [n/2 - 1] to position [0]; [k]
    counts the positions left. *)
Fixpoint Init_from (k : nat) (h : list A) (n : nat) : res (list A) :=
  match k with
  | O => Ret h
  | S i => h' ← down (S n) h i n; Init_from i h' n
  end.

Definition Init (h : list A) : res (list A) :=
  let n := length h in Init_from (n / 2) h n.

(** [heap.Push]: append, then [up] from the last position, which reaches
    the root in at most as many rounds as the slice is long. *)
Definition Push (h : list A) (x : A) : res (list A) :=
  let h' := h ++ [x] in
  up (length h') h' (length h' - 1).

(** [heap.Pop]: swap the root with the last element, sift the new root
    down in the rest, cut the last element off and return it.  On an empty
    slice the swap indexes position -1. *)
Definition Pop (h : list A) : res (A * list A) :=
  match length h with
  | O => Panic "index out of range"
  | S n =>
      h1 ← Swap h 0 n;
      h2 ← down (S n) h1 0 n;
      match h2 !! n with
      | Some x => Ret (x, take n h2)
      | None => Panic "index out of range"
      end
  end.

End Heap.
End heap.

(** ** [plan.go]: the interfaces *)

(** What [Next] of a row plan returns: key, value and error.  All three
    nil is the end of the stream. *)
Definition row := (slice * slice * option error)%type.

Definition is_end (r : row) : bool :=
  let '(k, v, err) := r in
  match k, v, err with
  | None, None, None => true
  | _, _, _ => false
  end.

Definition Column := list byte.

(** What [Next] of a column plan returns: the columns, nil at the end of
    the stream, and the error. *)
Definition columns := (option (list Column) * option error)%type.

(** The storage cursor: [Seek] and [Next], on the state [C] of the
    cursor.  A call to the store returns. *)
Class Cursor (C : Type) : Type := {
  Seek : list byte -> C -> option error * C;
  CursorNext : C -> row * C
}.

(** The transaction: [Cursor()] and [Get]. *)
Record Txn (C : Type) : Type := {
  TxnCursor : result (option C);
  Get : list byte -> result slice
}.
Arguments TxnCursor {C} t.
Arguments Get {C} t key.

(** The interface [Plan], on the state [S] of a plan. *)
Class Plan (S : Type) : Type := {
  Init : S -> res (option error * S);
  Next : S -> res (row * S)
}.

(** The interface [FinalPlan]. *)
Class FinalPlan (S : Type) : Type := {
  FInit : S -> res (option error * S);
  FNext : S -> res (columns * S);
  FieldNameList : S -> list string
}.

Inductive OrderType : Type := ASC | DESC.

Definition is_DESC (o : OrderType) : bool :=
  match o with DESC => true | ASC => false end.

(** [OrderField]: the column name, the expression and the direction. *)
Record OrderField : Type := {
  OName : string;
  Field : Expression;
  Order : OrderType
}.

(** ** The scans

    [iter] is nil until [Init] has opened the cursor.  The loop of a scan
    reads the cursor until a row passes, the cursor ends, or a call fails;
    [fuel] bounds the rows it may read in one call. *)

Definition failed {S : Type} (err : option error) (s : S) : res (row * S) :=
  Ret ((None, None, err), s).

Definition finished {S : Type} (s : S) : res (row * S) :=
  Ret ((None, None, None), s).

Module FullScanPlan.
Section Def.
Context `{X : Externals} {C : Type} `{Cur : Cursor C}.

Record t : Type := {
  Txn_ : Txn C;
  Filter_ : FilterExec;
  iter : option C
}.

Definition Init (p : t) : res (option error * t) :=
  let '(it, err) := TxnCursor (Txn_ p) in
  let p := {| Txn_ := Txn_ p; Filter_ := Filter_ p; iter := it |} in
  if err is Some _ then Ret (err, p) else
  match it with
  | None => Panic "nil pointer dereference"
  | Some c =>
      let '(err, c') := Seek [] c in
      Ret (err, {| Txn_ := Txn_ p; Filter_ := Filter_ p; iter := Some c' |})
  end.

Fixpoint loop (fuel : nat) (f : FilterExec) (c : C) : res (row * C) :=
  match fuel with
  | O => OutOfFuel
  | S fuel' =>
      let '((key, val, err), c') := CursorNext c in
      if err is Some _ then failed err c' else
      match key with
      | None => finished c'
      | Some _ =>
          '(ok, err) ← Filter f (NewKVP key val);
          if err is Some _ then failed err c' else
          if (ok : bool) then Ret ((key, val, None), c')
          else loop fuel' f c'
      end
  end.

Definition Next (fuel : nat) (p : t) : res (row * t) :=
  match iter p with
  | None => Panic "nil pointer dereference"
  | Some c =>
      '(r, c') ← loop fuel (Filter_ p) c;
      Ret (r, {| Txn_ := Txn_ p; Filter_ := Filter_ p; iter := Some c' |})
  end.

End Def.
Arguments t : clear implicits.
End FullScanPlan.

Module EmptyResultPlan.

Record t : Type := { }.

Definition Init (p : t) : res (option error * t) := Ret (None, p).

Definition Next (p : t) : res (row * t) := finished p.

End EmptyResultPlan.

Module PrefixScanPlan.
Section Def.
Context `{X : Externals} {C : Type} `{Cur : Cursor C}.

Record t : Type := {
  Txn_ : Txn C;
  Filter_ : FilterExec;
  Prefix : string;
  iter : option C
}.

Definition with_iter (p : t) (it : option C) : t :=
  {| Txn_ := Txn_ p; Filter_ := Filter_ p; Prefix := Prefix p; iter := it |}.

Definition Init (p : t) : res (option error * t) :=
  let '(it, err) := TxnCursor (Txn_ p) in
  let p := with_iter p it in
  if err is Some _ then Ret (err, p) else
  match it with
  | None => Panic "nil pointer dereference"
  | Some c =>
      let '(err, c') := Seek (String.list_byte_of_string (Prefix p)) c in
      Ret (err, with_iter p (Some c'))
  end.

Fixpoint loop (fuel : nat) (f : FilterExec) (pb : list byte) (c : C) : res (row * C) :=
  match fuel with
  | O => OutOfFuel
  | S fuel' =>
      let '((key, val, err), c') := CursorNext c in
      if err is Some _ then failed err c' else
      match key with
      | None => finished c'
      | Some k =>
          (* Key not have the prefix *)
          if negb (HasPrefix k pb) then finished c' else
          (* Filter with the expression *)
          '(ok, err) ← Filter f (NewKVP key val);
          if err is Some _ then failed err c' else
          if (ok : bool) then Ret ((key, val, None), c')
          else loop fuel' f pb c'
      end
  end.

Definition Next (fuel : nat) (p : t) : res (row * t) :=
  let pb := String.list_byte_of_string (Prefix p) in
  match iter p with
  | None => Panic "nil pointer dereference"
  | Some c =>
      '(r, c') ← loop fuel (Filter_ p) pb c;
      Ret (r, with_iter p (Some c'))
  end.

End Def.
Arguments t : clear implicits.
End PrefixScanPlan.

Module RangeScanPlan.
Section Def.
Context `{X : Externals} {C : Type} `{Cur : Cursor C}.

Record t : Type := {
  Txn_ : Txn C;
  Filter_ : FilterExec;
  Start : slice;
  End_ : slice;
  iter : option C
}.

Definition with_iter (p : t) (it : option C) : t :=
  {| Txn_ := Txn_ p; Filter_ := Filter_ p; Start := Start p; End_ := End_ p; iter := it |}.

Definition Init (p : t) : res (option error * t) :=
  let '(it, err) := TxnCursor (Txn_ p) in
  let p := with_iter p it in
  if err is Some _ then Ret (err, p) else
  match Start p with
  | Some start =>
      match it with
      | None => Panic "nil pointer dereference"
      | Some c =>
          let '(err, c') := Seek start c in
          Ret (err, with_iter p (Some c'))
      end
  | None => Ret (None, p)
  end.

(** [p.End != nil && bytes.Compare(key, p.End) > 0]. *)
Definition beyond (end_ : slice) (k : list byte) : bool :=
  match end_ with
  | Some e => Compare k e >? 0
  | None => false
  end.

Fixpoint loop (fuel : nat) (f : FilterExec) (end_ : slice) (c : C) : res (row * C) :=
  match fuel with
  | O => OutOfFuel
  | S fuel' =>
      let '((key, val, err), c') := CursorNext c in
      if err is Some _ then failed err c' else
      match key with
      | None => finished c'
      | Some k =>
          (* Key is greater than End *)
          if beyond end_ k then finished c' else
          (* Filter with the expression *)
          '(ok, err) ← Filter f (NewKVP key val);
          if err is Some _ then failed err c' else
          if (ok : bool) then Ret ((key, val, None), c')
          else loop fuel' f end_ c'
      end
  end.

Definition Next (fuel : nat) (p : t) : res (row * t) :=
  match iter p with
  | None => Panic "nil pointer dereference"
  | Some c =>
      '(r, c') ← loop fuel (Filter_ p) (End_ p) c;
      Ret (r, with_iter p (Some c'))
  end.

End Def.
Arguments t : clear implicits.
End RangeScanPlan.

(** ** Multi-get *)

Module MultiGetPlan.
Section Def.
Context `{X : Externals} {C : Type}.

Record t : Type := {
  Txn_ : Txn C;
  Filter_ : FilterExec;
  Keys : list string;
  numKeys : Z;
  idx : Z
}.

Definition with_idx (p : t) (i : Z) : t :=
  {| Txn_ := Txn_ p; Filter_ := Filter_ p; Keys := Keys p;
     numKeys := numKeys p; idx := i |}.

Definition Init (p : t) : res (option error * t) := Ret (None, p).

(** The loop of [Next]; [n] is [numKeys - idx], the keys still to look up,
    and the loop leaves when it is zero. *)
Fixpoint loop (n : nat) (p : t) : res (row * t) :=
  match n with
  | O => finished p
  | S n' =>
      if idx p <? 0 then Panic "index out of range" else
      match Keys p !! Z.to_nat (idx p) with
      | None => Panic "index out of range"
      | Some k =>
          let key := Some (String.list_byte_of_string k) in
          let p := with_idx p (idx p + 1) in
          let '(val, err) := Get (Txn_ p) (contents key) in
          if err is Some _ then failed err p else
          match val with
          | None => (* No Value *) loop n' p
          | Some _ =>
              '(ok, err) ← Filter (Filter_ p) (NewKVP key val);
              if err is Some _ then failed err p else
              if (ok : bool) then Ret ((key, val, None), p)
              else loop n' p
          end
      end
  end.

Definition Next (p : t) : res (row * t) :=
  loop (Z.to_nat (numKeys p - idx p)) p.

End Def.
Arguments t : clear implicits.
End MultiGetPlan.

(** ** Limit *)

Module LimitPlan.
Section Def.
Context {St : Type} `{Child : Plan St}.

Record t : Type := {
  Start : Z;
  Count : Z;
  current : Z;
  skips : Z;
  ChildPlan : St
}.

Definition Init (p : t) : res (option error * t) :=
  '(err, c) ← Init (ChildPlan p);
  Ret (err, {| Start := Start p; Count := Count p; current := 0; skips := 0;
               ChildPlan := c |}).

Definition with_child (p : t) (c : St) : t :=
  {| Start := Start p; Count := Count p; current := current p; skips := skips p;
     ChildPlan := c |}.

(** After the skipping loop. *)
Definition yield (p : t) : res (row * t) :=
  if current p >=? Count p then finished p else
  '(r, c) ← Next (ChildPlan p);
  let p := with_child p c in
  let '(k, v, err) := r in
  if err is Some _ then failed err p else
  if is_end r then finished p else
  Ret ((k, v, None),
       {| Start := Start p; Count := Count p; current := current p + 1;
          skips := skips p; ChildPlan := ChildPlan p |}).

(** The loop [for p.skips < p.Start]; [n] is [Start - skips], the rows
    still to discard. *)
Fixpoint skip (n : nat) (p : t) : res (row * t) :=
  match n with
  | O => yield p
  | S n' =>
      '(r, c) ← Next (ChildPlan p);
      let p := with_child p c in
      let '(k, v, err) := r in
      if err is Some _ then failed err p else
      if is_end r then finished p else
      skip n' {| Start := Start p; Count := Count p; current := current p;
                 skips := skips p + 1; ChildPlan := ChildPlan p |}
  end.

Definition Next (p : t) : res (row * t) :=
  skip (Z.to_nat (Start p - skips p)) p.

End Def.
Arguments t : clear implicits.
End LimitPlan.

Module FinalLimitPlan.
Section Def.
Context {St : Type} `{Child : FinalPlan St}.

Record t : Type := {
  Start : Z;
  Count : Z;
  current : Z;
  skips : Z;
  ChildPlan : St;
  FieldNames : list string
}.

Definition Init (p : t) : res (option error * t) :=
  '(err, c) ← FInit (ChildPlan p);
  Ret (err, {| Start := Start p; Count := Count p; current := 0; skips := 0;
               ChildPlan := c; FieldNames := FieldNames p |}).

Definition with_child (p : t) (c : St) : t :=
  {| Start := Start p; Count := Count p; current := current p; skips := skips p;
     ChildPlan := c; FieldNames := FieldNames p |}.

Definition yield (p : t) : res (columns * t) :=
  if current p >=? Count p then Ret ((None, None), p) else
  '(r, c) ← FNext (ChildPlan p);
  let p := with_child p c in
  let '(cols, err) := r in
  if err is Some _ then Ret ((None, err), p) else
  match cols with
  | None => Ret ((None, None), p)
  | Some _ =>
      Ret ((cols, None),
           {| Start := Start p; Count := Count p; current := current p + 1;
              skips := skips p; ChildPlan := ChildPlan p;
              FieldNames := FieldNames p |})
  end.

Fixpoint skip (n : nat) (p : t) : res (columns * t) :=
  match n with
  | O => yield p
  | S n' =>
      '(r, c) ← FNext (ChildPlan p);
      let p := with_child p c in
      let '(cols, err) := r in
      if err is Some _ then Ret ((None, err), p) else
      match cols with
      | None => Ret ((None, None), p)
      | Some _ =>
          skip n' {| Start := Start p; Count := Count p; current := current p;
                     skips := skips p + 1; ChildPlan := ChildPlan p;
                     FieldNames := FieldNames p |}
      end
  end.

Definition Next (p : t) : res (columns * t) :=
  skip (Z.to_nat (Start p - skips p)) p.

End Def.
Arguments t : clear implicits.
End FinalLimitPlan.

(** ** Order *)

(** The comparisons shared by the two row types: the sign of the
    comparison of two integers or two floats, reversed for [DESC]. *)
Definition compareInt (lint rint : Z) (reverse : bool) : Z :=
  if lint =? rint then 0
  else if reverse then (if lint >? rint then -1 else 1)
  else (if lint <? rint then -1 else 1).

Definition compareFloat (lf rf : float) (reverse : bool) : Z :=
  if PrimFloat.eqb lf rf then 0
  else if reverse then (if PrimFloat.ltb rf lf then -1 else 1)
  else (if PrimFloat.ltb lf rf then -1 else 1).

Definition compareBytes (lb rb : list byte) (reverse : bool) : Z :=
  if reverse then 0 - Compare lb rb else Compare lb rb.

Definition compareBools (lbool rbool : bool) (reverse : bool) : Z :=
  let lint := if lbool then 1 else 0 in
  let rint := if rbool then 1 else 0 in
  compareInt lint rint reverse.

Module OrderPlan.
Section Def.
Context `{X : Externals} {St : Type} `{Child : Plan St}.

Record orderRow : Type := {
  key : slice;
  value_ : slice;
  orders : list OrderField
}.

(** [compareBool] asserts that both values are booleans; the switch of
    [Less] has checked the left one only. *)
Definition compareBool (lval rval : any) (reverse : bool) : res Z :=
  match lval, rval with
  | VBool lbool, VBool rbool => Ret (compareBools lbool rbool reverse)
  | _, _ => Panic "interface conversion: interface {} is not bool"
  end.

(** The type switch of [Less] on the left value: [None] is its default
    case.  The case of the integers does not list [uint8]. *)
Definition compare_field (lval rval : any) (reverse : bool) : option (res Z) :=
  match lval with
  | VInt Kuint8 _ => None
  | VInt _ _ =>
      Some (Ret (compareInt (convertToInt lval).1 (convertToInt rval).1 reverse))
  | VFloat _ =>
      Some (Ret (compareFloat (convertToFloat lval).1 (convertToFloat rval).1 reverse))
  | VBytes _ | VString _ =>
      Some (Ret (compareBytes (convertToByteArray lval).1 (convertToByteArray rval).1
                   reverse))
  | VBool _ => Some (compareBool lval rval reverse)
  | _ => None
  end.

(** The loop of [Less] over the order fields; the errors of the two
    evaluations are dropped. *)
Fixpoint Less_loop (lkv rkv : KVPair) (os : list OrderField) : res bool :=
  match os with
  | [] => Ret false
  | order :: rest =>
      '(lval, _) ← Execute (Field order) lkv;
      '(rval, _) ← Execute (Field order) rkv;
      match compare_field lval rval (is_DESC (Order order)) with
      | None => Ret false
      | Some c =>
          compare ← c;
          if compare <? 0 then Ret true
          else if compare >? 0 then Ret false
          else Less_loop lkv rkv rest
      end
  end.

Definition Less (l r : orderRow) : res bool :=
  let lkv := NewKVP (key l) (value_ l) in
  let rkv := NewKVP (key r) (value_ r) in
  Less_loop lkv rkv (orders l).

Record t : Type := {
  Orders : list OrderField;
  ChildPlan : St;
  pos : Z;
  total : Z;
  sorted : option (list orderRow)
}.

(** [Init]: the result of the child's [Init] is not looked at. *)
Definition Init (p : t) : res (option error * t) :=
  h ← heap.Init Less [];
  '(_, c) ← Init (ChildPlan p);
  Ret (None, {| Orders := Orders p; ChildPlan := c; pos := 0; total := 0;
                sorted := Some h |}).

(** [prepare]: push the rows of the child until it ends; [fuel] bounds
    the rows. *)
Fixpoint prepare (fuel : nat) (p : t) : res (option error * t) :=
  match fuel with
  | O => OutOfFuel
  | S fuel' =>
      '(r, c) ← Next (ChildPlan p);
      let p := {| Orders := Orders p; ChildPlan := c; pos := pos p; total := total p;
                  sorted := sorted p |} in
      let '(k, v, err) := r in
      if err is Some _ then Ret (err, p) else
      (* Take all data *)
      if is_end r then Ret (None, p) else
      let row_ := {| key := k; value_ := v; orders := Orders p |} in
      match sorted p with
      | None => Panic "nil pointer dereference"
      | Some h =>
          h' ← heap.Push Less h row_;
          prepare fuel' {| Orders := Orders p; ChildPlan := ChildPlan p; pos := pos p;
                           total := total p + 1; sorted := Some h' |}
      end
  end.

Definition Next (fuel : nat) (p : t) : res (row * t) :=
  '(err, p) ← (if total p =? 0 then prepare fuel p else Ret (None, p));
  if err is Some _ then failed err p else
  if pos p <? total p then
    match sorted p with
    | None => Panic "nil pointer dereference"
    | Some h =>
        '(row_, h') ← heap.Pop Less h;
        Ret ((key row_, value_ row_, None),
             {| Orders := Orders p; ChildPlan := ChildPlan p; pos := pos p + 1;
                total := total p; sorted := Some h' |})
    end
  else finished p.

End Def.
Arguments t : clear implicits.
End OrderPlan.

(** [strconv.ParseInt s 10 64] of the Go library: an optional sign, then
    decimal digits, at least one; the value must fit 64 bits. *)
Definition digit (b : byte) : option Z :=
  let n := Z.of_N (Byte.to_N b) in
  if (48 <=? n) && (n <=? 57) then Some (n - 48) else None.

Fixpoint digits (acc : Z) (s : list byte) : option Z :=
  match s with
  | [] => Some acc
  | b :: rest =>
      match digit b with
      | Some d => digits (acc * 10 + d) rest
      | None => None
      end
  end.

Definition ParseInt (s : string) : option Z :=
  let signed (neg : bool) (ds : list byte) : option Z :=
    match ds with
    | [] => None
    | _ :: _ =>
        match digits 0 ds with
        | Some n =>
            let v := if neg then - n else n in
            if (- 2 ^ 63 <=? v) && (v <=? 2 ^ 63 - 1) then Some v else None
        | None => None
        end
    end in
  match String.list_byte_of_string s with
  | [] => None
  | b :: rest =>
      if Byte.eqb b "+"%byte then signed false rest
      else if Byte.eqb b "-"%byte then signed true rest
      else signed false (b :: rest)
  end.

Module FinalOrderPlan.
Section Def.
Context `{X : Externals} {St : Type} `{Child : FinalPlan St}.

Record orderColumnsRow : Type := {
  cols : list Column;
  orders : list OrderField;
  orderPos : list Z;
  orderTypes : list Type_
}.

Definition compareBool (lval rval : list byte) (reverse : bool) : Z :=
  let lbool := Equal lval (String.list_byte_of_string "true") in
  let rbool := Equal rval (String.list_byte_of_string "true") in
  compareBools lbool rbool reverse.

(** [compareNumber]: both values as integers, else both as floats, else
    equal. *)
Definition compareNumber (lval rval : list byte) (reverse : bool) : Z :=
  let ints :=
    match ParseInt (String.string_of_list_byte lval) with
    | Some lint =>
        match ParseInt (String.string_of_list_byte rval) with
        | Some rint => Some (compareInt lint rint reverse)
        | None => None
        end
    | None => None
    end in
  match ints with
  | Some c => c
  | None =>
      match ParseFloat (String.string_of_list_byte lval) with
      | Some lfloat =>
          match ParseFloat (String.string_of_list_byte rval) with
          | Some rfloat => compareFloat lfloat rfloat reverse
          | None => 0
          end
      | None => 0
      end
  end.

Definition at_ {A : Type} (l : list A) (i : Z) : res A :=
  if i <? 0 then Panic "index out of range" else
  match l !! Z.to_nat i with
  | Some x => Ret x
  | None => Panic "index out of range"
  end.

(** The loop of [Less]; [i] is the position in [l.orders].  The switch of
    the source has a default case, [return false], for a type tag other
    than the three of [Type_]. *)
Fixpoint Less_loop (l r : orderColumnsRow) (i : Z) (os : list OrderField) : res bool :=
  match os with
  | [] => Ret false
  | o :: rest =>
      oidx ← at_ (orderPos l) i;
      let desc := is_DESC (Order o) in
      lval ← at_ (cols l) oidx;
      rval ← at_ (cols r) oidx;
      tp ← at_ (orderTypes l) i;
      let compare :=
        match tp with
        | TSTR => compareBytes lval rval desc
        | TBOOL => compareBool lval rval desc
        | TNUMBER => compareNumber lval rval desc
        end in
      if compare <? 0 then Ret true
      else if compare >? 0 then Ret false
      else Less_loop l r (i + 1) rest
  end.

Definition Less (l r : orderColumnsRow) : res bool := Less_loop l r 0 (orders l).

Record t : Type := {
  Orders : list OrderField;
  FieldNames : list string;
  ChildPlan : St;
  pos : Z;
  total : Z;
  sorted : option (list orderColumnsRow);
  orderPos_ : list Z;
  orderTypes_ : list Type_
}.

(** [findOrderIdx]: the first position of the name among the field
    names. *)
Fixpoint findOrderIdx_from (i : Z) (fname : string) (names : list string) : result Z :=
  match names with
  | [] => (0, errors_New "Cannot find field")
  | fn :: rest =>
      if String.eqb fname fn then (i, None) else findOrderIdx_from (i + 1) fname rest
  end.

Definition findOrderIdx (p : t) (o : OrderField) : result Z :=
  findOrderIdx_from 0 (OName o) (FieldNames p).

(** The loop of [Init] over the order fields: the positions and types
    collected so far, or the error of a name that is not found. *)
Fixpoint Init_loop (p : t) (os : list OrderField) (ps : list Z) (ts : list Type_)
    : option error * (list Z * list Type_) :=
  match os with
  | [] => (None, (ps, ts))
  | o :: rest =>
      let '(idx, err) := findOrderIdx p o in
      if err is Some _ then (err, (ps, ts))
      else Init_loop p rest (ps ++ [idx]) (ts ++ [ReturnType (Field o)])
  end.

(** [Init]: the result of the child's [Init] is not looked at. *)
Definition Init (p : t) : res (option error * t) :=
  let '(err, (ps, ts)) := Init_loop p (Orders p) [] [] in
  let p := {| Orders := Orders p; FieldNames := FieldNames p; ChildPlan := ChildPlan p;
              pos := 0; total := 0; sorted := sorted p;
              orderPos_ := ps; orderTypes_ := ts |} in
  if err is Some _ then Ret (err, p) else
  h ← heap.Init Less [];
  '(_, c) ← FInit (ChildPlan p);
  Ret (None, {| Orders := Orders p; FieldNames := FieldNames p; ChildPlan := c;
                pos := 0; total := 0; sorted := Some h;
                orderPos_ := ps; orderTypes_ := ts |}).

Definition with_heap (p : t) (c : St) (pos_ total_ : Z)
    (h : option (list orderColumnsRow)) : t :=
  {| Orders := Orders p; FieldNames := FieldNames p; ChildPlan := c;
     pos := pos_; total := total_; sorted := h;
     orderPos_ := orderPos_ p; orderTypes_ := orderTypes_ p |}.

Fixpoint prepare (fuel : nat) (p : t) : res (option error * t) :=
  match fuel with
  | O => OutOfFuel
  | S fuel' =>
      '(r, c) ← FNext (ChildPlan p);
      let p := with_heap p c (pos p) (total p) (sorted p) in
      let '(col, err) := r in
      if err is Some _ then Ret (err, p) else
      match col with
      | None => Ret (None, p)
      | Some cs =>
          let row_ := {| cols := cs; orders := Orders p; orderPos := orderPos_ p;
                         orderTypes := orderTypes_ p |} in
          match sorted p with
          | None => Panic "nil pointer dereference"
          | Some h =>
              h' ← heap.Push Less h row_;
              prepare fuel' (with_heap p (ChildPlan p) (pos p) (total p + 1) (Some h'))
          end
      end
  end.

Definition Next (fuel : nat) (p : t) : res (columns * t) :=
  '(err, p) ← (if total p =? 0 then prepare fuel p else Ret (None, p));
  if err is Some _ then Ret ((None, err), p) else
  if pos p <? total p then
    match sorted p with
    | None => Panic "nil pointer dereference"
    | Some h =>
        '(row_, h') ← heap.Pop Less h;
        Ret ((Some (cols row_), None),
             with_heap p (ChildPlan p) (pos p + 1) (total p) (Some h'))
    end
  else Ret ((None, None), p).

End Def.
Arguments t : clear implicits.
End FinalOrderPlan.

(** ** An environment to run the definitions in *)

(** Modelled from the spec: [ReturnType], a method of every node that is
    defined outside the two files.  The design document gives each node a
    static type among string, number and boolean: the literals and the
    [key] and [value] fields have the type of what they hold, the logical
    and relational operators are boolean, [+] is a string when its left
    operand is one, the other arithmetic is a number; [other] is the type
    of the nodes whose value is only known at run time (calls and field
    accesses). *)
Fixpoint ReturnType_spec (other : Expression -> Type_) (e : Expression) : Type_ :=
  match e with
  | StringExpr _ | FieldExpr _ | NameExpr _ => TSTR
  | NumberExpr _ | FloatExpr _ => TNUMBER
  | BoolExpr _ | NotExpr _ => TBOOL
  | BinaryOpExpr Add l _ =>
      match ReturnType_spec other l with TSTR => TSTR | _ => TNUMBER end
  | BinaryOpExpr (Sub | Mul | Div) _ _ => TNUMBER
  | BinaryOpExpr _ _ _ => TBOOL
  | FunctionCallExpr _ _ _ | ListExpr _ | FieldAccessExpr _ _ => other e
  end.

(** Two scalar functions for the registry.  [int] gives the integer that
    the text of its argument denotes and fails on any other argument;
    [decode] reads the text as an integer or as a boolean and else keeps
    it as text. *)
Definition text_of (v : any) : option string :=
  match v with
  | VBytes b => Some (String.string_of_list_byte b)
  | VString s => Some s
  | _ => None
  end.

Definition int_body (kv : KVPair) (Args : list Expression)
    (args : list (res (result any))) : res (result any) :=
  match args with
  | [a] =>
      '(v, err) ← a;
      if err is Some _ then Ret (VNil, err) else
      match text_of v ≫= ParseInt with
      | Some n => Ret (VInt Kint64 n, None)
      | None => Ret (VNil, errors_New "int: not an integer")
      end
  | _ => Ret (VNil, errors_New "int: one argument")
  end.

Definition decode_body (kv : KVPair) (Args : list Expression)
    (args : list (res (result any))) : res (result any) :=
  match args with
  | [a] =>
      '(v, err) ← a;
      if err is Some _ then Ret (VNil, err) else
      match text_of v with
      | Some s =>
          match ParseInt s with
          | Some n => Ret (VInt Kint64 n, None)
          | None =>
              if String.eqb s "true" then Ret (VBool true, None)
              else if String.eqb s "false" then Ret (VBool false, None)
              else Ret (VString s, None)
          end
      | None => Ret (VNil, errors_New "decode: not a text")
      end
  | _ => Ret (VNil, errors_New "decode: one argument")
  end.

Definition registry (name : string) : result (option Function) :=
  if String.eqb name "int"
  then (Some {| FName := "int"; NumArgs := 1; VarArgs := false; Body := int_body |}, None)
  else if String.eqb name "decode"
  then (Some {| FName := "decode"; NumArgs := 1; VarArgs := false; Body := decode_body |},
        None)
  else (None, errors_New "Cannot find function").

(** The environment with this registry, for a choice [other] of the static
    types that the design document leaves open.  Arithmetic, regular
    expressions and float syntax play no part in what follows. *)
Definition demo (other : Expression -> Type_) : Externals := {|
  ReturnType := ReturnType_spec other;
  GetScalarFunction := registry;
  executeMathOp := fun _ _ _ => Ret (VNil, errors_New "executeMathOp");
  toString := fun v => default "" (text_of v);
  regexp_Compile := fun _ => (fun _ => false, errors_New "regexp");
  ParseFloat := fun _ => None
|}.

(** The environment [demo] with a [ParseFloat] that reads two decimal
    numbers, for the examples of the comparison of floats. *)
Definition parse_halves (s : string) : option float :=
  if String.eqb s "1.5" then Some 1.5%float
  else if String.eqb s "2.5" then Some 2.5%float
  else None.

Definition demo_floats : Externals := {|
  ReturnType := ReturnType_spec (fun _ => TSTR);
  GetScalarFunction := registry;
  executeMathOp := fun _ _ _ => Ret (VNil, errors_New "executeMathOp");
  toString := fun v => default "" (text_of v);
  regexp_Compile := fun _ => (fun _ => false, errors_New "regexp");
  ParseFloat := parse_halves
|}.

Definition B (s : string) : list byte := String.list_byte_of_string s.

(** What the store of the examples holds at a position: a key and a
    value, or an error of the storage. *)
Definition stored : Type := (list byte * list byte + error)%type.

Definition read (x : stored) : row :=
  match x with
  | inl (k, v) => (Some k, Some v, None)
  | inr e => (None, None, Some e)
  end.

Fixpoint seek_list (k : list byte) (c : list stored) : list stored :=
  match c with
  | inl (k', _) :: c' => if Compare k' k <? 0 then seek_list k c' else c
  | _ => c
  end.

(** A cursor over a list of the store, and a plan that replays a list of
    results: what the store and a child plan are in the examples. *)
Global Instance list_Cursor : Cursor (list stored) := {|
  Seek := fun k c => (None, seek_list k c);
  CursorNext := fun c =>
    match c with
    | [] => ((None, None, None), [])
    | x :: c' => (read x, c')
    end
|}.

Global Instance list_Plan : Plan (list row) := {|
  Init := fun s => Ret (None, s);
  Next := fun s =>
    match s with
    | [] => Ret ((None, None, None), [])
    | r :: s' => Ret (r, s')
    end
|}.

Global Instance list_FinalPlan : FinalPlan (list columns) := {|
  FInit := fun s => Ret (None, s);
  FNext := fun s =>
    match s with
    | [] => Ret ((None, None), [])
    | r :: s' => Ret (r, s')
    end;
  FieldNameList := fun _ => []
|}.

Definition kv_row (k v : string) : row := (Some (B k), Some (B v), None).

Definition kv (k v : string) : stored := inl (B k, B v).

(** * Vocabulary of the statements *)

Definition is_bool (v : any) : bool :=
  match v with VBool _ => true | _ => false end.

Definition is_text (v : any) : bool :=
  match v with VBytes _ | VString _ => true | _ => false end.

Definition is_int (v : any) : bool :=
  match v with VInt _ _ => true | _ => false end.

(** The text of a string-like value. *)
Definition bytes_of (v : any) : list byte := (convertToByteArray v).1.

(** The value is an integer that [convertToInt] converts, and the signed
    integer of 64 bits that it converts to. *)
Definition converts_to_int (v : any) : bool := (convertToInt v).2.

(** An integer of its Go type that [convertToInt] converts: a signed
    integer of 64 bits. *)
Definition int64_value (v : any) : bool :=
  match v with
  | VInt k i => in_kind k i && negb (beyond_int64 k i)
  | _ => false
  end.

(** An integer that the order plan compares as the integer it is: its
    type is one that the type switch of [orderRow.Less] lists, which
    [uint8] is not, it is an integer of its type, and [convertToInt]
    converts it. *)
Definition ordered_int (k : intkind) (i : Z) : Prop :=
  k <> Kuint8 /\ in_kind k i = true /\ beyond_int64 k i = false.

Definition int_of (v : any) : Z := (convertToInt v).1.

Definition bool_of (v : any) : bool :=
  match v with VBool b => b | _ => false end.

(** The rows of the two examples of equality: the value of the first reads
    as a boolean, that of the second as an integer. *)
Definition row_true : KVPair := {| Key := B "k1"; Value := B "true" |}.
Definition row_seven : KVPair := {| Key := B "k2"; Value := B "7" |}.

Definition decode_value : Expression :=
  FunctionCallExpr "decode" [FieldExpr ValueKW] VNil.

(** Equality chosen by the declared type of the left operand: whenever
    both operands evaluate and [=] gives a boolean, the comparison is the
    one of the type that the left operand declares. *)
Definition equal_by_declared_type (X : Externals) : Prop :=
  forall (l r : Expression) (kv : KVPair) (vl vr : any) (b : bool),
    Execute l kv = Ret (vl, None) ->
    Execute r kv = Ret (vr, None) ->
    Execute (BinaryOpExpr Eq_ l r) kv = Ret (VBool b, None) ->
    match ReturnType l with
    | TSTR => is_text vl = true /\ is_text vr = true /\ b = Equal (bytes_of vl) (bytes_of vr)
    | TNUMBER => is_int vl = true /\ is_int vr = true /\ b = (int_of vl =? int_of vr)
    | TBOOL => is_bool vl = true /\ is_bool vr = true /\ b = Bool.eqb (bool_of vl) (bool_of vr)
    end.

(** A list held by a call node as its result, for the examples of
    access by position. *)
Definition held_list : Expression := FunctionCallExpr "list" [] (VList [VInt Kint 1]).

(** ** Streams of plans *)

(** The plans as instances of the interface; a scan and an order plan at
    the budget [fuel] of one call. *)
Definition FullScanPlan_plan `{X : Externals} {C : Type} `{Cur : Cursor C}
    (fuel : nat) : Plan (FullScanPlan.t C) :=
  {| Init := FullScanPlan.Init; Next := FullScanPlan.Next fuel |}.

Definition PrefixScanPlan_plan `{X : Externals} {C : Type} `{Cur : Cursor C}
    (fuel : nat) : Plan (PrefixScanPlan.t C) :=
  {| Init := PrefixScanPlan.Init; Next := PrefixScanPlan.Next fuel |}.

Definition RangeScanPlan_plan `{X : Externals} {C : Type} `{Cur : Cursor C}
    (fuel : nat) : Plan (RangeScanPlan.t C) :=
  {| Init := RangeScanPlan.Init; Next := RangeScanPlan.Next fuel |}.

Definition EmptyResultPlan_plan : Plan EmptyResultPlan.t :=
  {| Init := EmptyResultPlan.Init; Next := EmptyResultPlan.Next |}.

Definition MultiGetPlan_plan `{X : Externals} {C : Type} : Plan (MultiGetPlan.t C) :=
  {| Init := MultiGetPlan.Init; Next := MultiGetPlan.Next |}.

Definition LimitPlan_plan {St : Type} `{Child : Plan St} : Plan (LimitPlan.t St) :=
  {| Init := LimitPlan.Init; Next := LimitPlan.Next |}.

Definition OrderPlan_plan `{X : Externals} {St : Type} `{Child : Plan St}
    (fuel : nat) : Plan (OrderPlan.t St) :=
  {| Init := OrderPlan.Init; Next := OrderPlan.Next fuel |}.

Definition FinalLimitPlan_plan {St : Type} `{Child : FinalPlan St}
    : FinalPlan (FinalLimitPlan.t St) :=
  {| FInit := FinalLimitPlan.Init; FNext := FinalLimitPlan.Next;
     FieldNameList := FinalLimitPlan.FieldNames |}.

Definition FinalOrderPlan_plan `{X : Externals} {St : Type} `{Child : FinalPlan St}
    (fuel : nat) : FinalPlan (FinalOrderPlan.t St) :=
  {| FInit := FinalOrderPlan.Init; FNext := FinalOrderPlan.Next fuel;
     FieldNameList := FinalOrderPlan.FieldNames |}.

(** The end-of-stream results. *)
Definition end_of_rows : row := (None, None, None).
Definition end_of_columns : columns := (None, None).

(** [yields s rs s']: called again and again from the state [s], the plan
    returns the rows [rs], in this order and without error, then the end
    of the stream, which leaves it in the state [s']. *)
Inductive yields {St : Type} `{P : Plan St} : St -> list (slice * slice) -> St -> Prop :=
| yields_end (s s' : St) :
    Next s = Ret (end_of_rows, s') -> yields s [] s'
| yields_row (s s' s'' : St) (k v : slice) (rs : list (slice * slice)) :
    Next s = Ret ((k, v, None), s') ->
    is_end (k, v, None) = false ->
    yields s' rs s'' ->
    yields s ((k, v) :: rs) s''.

(** [produces s rs s']: called again and again from the state [s], the
    plan returns the rows [rs], in this order and without error, and is
    then in the state [s']; what it returns after that is left open. *)
Inductive produces {St : Type} `{P : Plan St} : St -> list (slice * slice) -> St -> Prop :=
| produces_nil (s : St) : produces s [] s
| produces_row (s s' s'' : St) (k v : slice) (rs : list (slice * slice)) :
    Next s = Ret ((k, v, None), s') ->
    is_end (k, v, None) = false ->
    produces s' rs s'' ->
    produces s ((k, v) :: rs) s''.

(** [ended n s]: the next [n] calls from the state [s] all return the end
    of the stream. *)
Fixpoint ended {St : Type} `{P : Plan St} (n : nat) (s : St) : Prop :=
  match n with
  | O => True
  | S n' => exists s', Next s = Ret (end_of_rows, s') /\ ended n' s'
  end.

(** The end of the stream is final: after a call that returned it, every
    further call returns it. *)
Definition sentinel_is_final {St : Type} (P : Plan St) : Prop :=
  forall s s', Next s = Ret (end_of_rows, s') -> forall n, ended n s'.

Fixpoint Fended {St : Type} `{P : FinalPlan St} (n : nat) (s : St) : Prop :=
  match n with
  | O => True
  | S n' => exists s', FNext s = Ret (end_of_columns, s') /\ Fended n' s'
  end.

Definition Fsentinel_is_final {St : Type} (P : FinalPlan St) : Prop :=
  forall s s', FNext s = Ret (end_of_columns, s') -> forall n, Fended n s'.

(** [rowless n s]: none of the next [n] calls from [s] returns a row; each
    returns the end of the stream or an error. *)
Fixpoint rowless {St : Type} `{P : Plan St} (n : nat) (s : St) : Prop :=
  match n with
  | O => True
  | S n' => exists err s', Next s = Ret ((None, None, err), s') /\ rowless n' s'
  end.

(** The same for the cursor, whose end the scans read off a nil key. *)
Fixpoint cursor_ended {C : Type} `{Cur : Cursor C} (n : nat) (c : C) : Prop :=
  match n with
  | O => True
  | S n' => exists v c', CursorNext c = ((None, v, None), c') /\ cursor_ended n' c'
  end.

Definition cursor_end_is_final {C : Type} (Cur : Cursor C) : Prop :=
  forall c v c', CursorNext c = ((None, v, None), c') -> forall n, cursor_ended n c'.

(** The keys among the next [n] results of the cursor. *)
Fixpoint cursor_keys {C : Type} `{Cur : Cursor C} (n : nat) (c : C) : list (list byte) :=
  match n with
  | O => []
  | S n' =>
      let '((k, _, _), c') := CursorNext c in
      match k with
      | Some k => k :: cursor_keys n' c'
      | None => cursor_keys n' c'
      end
  end.

(** From the state [c] on, the cursor gives its keys in ascending order. *)
Definition ascending_from {C : Type} `{Cur : Cursor C} (c : C) : Prop :=
  forall n, StronglySorted (fun a b => Compare a b <= 0) (cursor_keys n c).

(** From the state [c] on, the cursor gives no key below [start], as after
    a seek to [start]. *)
Definition not_below {C : Type} `{Cur : Cursor C} (start : list byte) (c : C) : Prop :=
  forall n, Forall (fun k => Compare start k <= 0) (cursor_keys n c).

(** The keys that the cursor still holds all end the scan. *)
Definition barren {C : Type} `{Cur : Cursor C} (stop : list byte -> bool) (c : C) : Prop :=
  forall n, Forall (fun k => stop k = true) (cursor_keys n c).

(** The loop of the three scans: the scans differ in the test [stop] on
    the key that ends the scan. *)
Fixpoint scan_loop `{X : Externals} {C : Type} `{Cur : Cursor C}
    (stop : list byte -> bool) (fuel : nat) (f : FilterExec) (c : C) : res (row * C) :=
  match fuel with
  | O => OutOfFuel
  | S fuel' =>
      let '((key, val, err), c') := CursorNext c in
      if err is Some _ then failed err c' else
      match key with
      | None => finished c'
      | Some k =>
          if stop k then finished c' else
          '(ok, err) ← Filter f (NewKVP key val);
          if err is Some _ then failed err c' else
          if (ok : bool) then Ret ((key, val, None), c')
          else scan_loop stop fuel' f c'
      end
  end.

(** A limit plan by its fields. *)
Definition limit_state {St : Type} (start count cur sk : Z) (s : St) : LimitPlan.t St :=
  {| LimitPlan.Start := start; LimitPlan.Count := count; LimitPlan.current := cur;
     LimitPlan.skips := sk; LimitPlan.ChildPlan := s |}.

(** A limit plan that has nothing more to return: its child has ended for
    good, or it has discarded [Start] rows and returned [Count]. *)
Definition limit_done {St : Type} `{Child : Plan St} (p : LimitPlan.t St) : Prop :=
  (forall n, ended n (LimitPlan.ChildPlan p)) \/
  (LimitPlan.Start p <= LimitPlan.skips p /\ LimitPlan.Count p <= LimitPlan.current p).

Definition final_limit_done {St : Type} `{Child : FinalPlan St}
    (p : FinalLimitPlan.t St) : Prop :=
  (forall n, Fended n (FinalLimitPlan.ChildPlan p)) \/
  (FinalLimitPlan.Start p <= FinalLimitPlan.skips p
   /\ FinalLimitPlan.Count p <= FinalLimitPlan.current p).

(** ** Order of the elements of a heap *)

(** [x] is not above [y]: the comparison says that [y] is not less than
    [x]. *)
Definition not_above {A : Type} (less : A -> A -> res bool) (x y : A) : Prop :=
  less y x = Ret false.

(** The slice is a heap: no element is less than its parent. *)
Definition heap_ordered {A : Type} (less : A -> A -> res bool) (h : list A) : Prop :=
  forall k x y, (0 < k)%nat -> h !! k = Some y -> h !! ((k - 1) / 2)%nat = Some x ->
                not_above less x y.

(** The comparison is a strict weak order on the elements of [U]: it
    returns on every pair, never says less both ways, and not being above
    is transitive.  The three are checked by running the comparison. *)
Definition returns_bool (r : res bool) (b : bool) : bool :=
  match r with
  | Ret b' => Bool.eqb b b'
  | _ => false
  end.

Definition strict_weak_on {A : Type} (less : A -> A -> res bool) (U : list A) : bool :=
  forallb (fun a => forallb (fun b =>
    (returns_bool (less a b) true || returns_bool (less a b) false)
    && (negb (returns_bool (less a b) true) || returns_bool (less b a) false)
    && forallb (fun c =>
         negb (returns_bool (less b a) false && returns_bool (less c b) false)
         || returns_bool (less c a) false) U) U) U.

(** The comparison returns on every pair of elements of [U]. *)
Definition total_on {A : Type} (less : A -> A -> res bool) (U : list A) : bool :=
  forallb (fun a => forallb (fun b =>
    returns_bool (less a b) true || returns_bool (less a b) false) U) U.

(** The row that [prepare] pushes for a pair of the child, the pair of a
    row, and an order plan by its fields. *)
Definition order_row (Orders : list OrderField) (kv : slice * slice) : OrderPlan.orderRow :=
  {| OrderPlan.key := kv.1; OrderPlan.value_ := kv.2; OrderPlan.orders := Orders |}.

Definition row_pair (r : OrderPlan.orderRow) : slice * slice :=
  (OrderPlan.key r, OrderPlan.value_ r).

Definition order_state {St : Type} (Orders : list OrderField) (s : St) (pos total : Z)
    (h : option (list OrderPlan.orderRow)) : OrderPlan.t St :=
  {| OrderPlan.Orders := Orders; OrderPlan.ChildPlan := s; OrderPlan.pos := pos;
     OrderPlan.total := total; OrderPlan.sorted := h |}.

(** The order of two pairs under the comparison of the order fields. *)
Definition row_not_above `{X : Externals} (Orders : list OrderField)
    (a b : slice * slice) : Prop :=
  not_above OrderPlan.Less (order_row Orders a) (order_row Orders b).

(** The rows on the heap of an order plan are rows: none is the triple
    of the end of the stream.  [Init] leaves an empty heap, and [prepare]
    pushes rows of the child only. *)
Definition order_well_formed {St : Type} (p : OrderPlan.t St) : Prop :=
  forall h x, OrderPlan.sorted p = Some h -> x ∈ h ->
    is_end (OrderPlan.key x, OrderPlan.value_ x, None) = false.

(** An order plan that has nothing more to return: it has returned its
    rows, and its child has ended for good if there were none. *)
Definition order_done {St : Type} `{Child : Plan St} (p : OrderPlan.t St) : Prop :=
  OrderPlan.total p <= OrderPlan.pos p /\
  (OrderPlan.total p <> 0 \/ forall n, ended n (OrderPlan.ChildPlan p)).

Definition final_order_done {St : Type} `{Child : FinalPlan St}
    (p : FinalOrderPlan.t St) : Prop :=
  FinalOrderPlan.total p <= FinalOrderPlan.pos p /\
  (FinalOrderPlan.total p <> 0 \/ forall n, Fended n (FinalOrderPlan.ChildPlan p)).

(** ** Data of the examples *)

Definition X0 : Externals := demo (fun _ => TSTR).

(** The store of the examples of the design document: keys a1, a2, b1. *)
Definition store3 : list stored := [kv "a1" "x"; kv "a2" "y"; kv "b1" "z"].

Definition no_txn : Txn (list stored) :=
  {| TxnCursor := (None, None); Get := fun _ => (None, None) |}.

(** The filter [value = "y"]. *)
Definition value_is_y : FilterExec :=
  {| Ast := {| Expr := BinaryOpExpr Eq_ (FieldExpr ValueKW) (StringExpr "y") |} |}.

Definition prefix_a_scan : PrefixScanPlan.t (list stored) :=
  {| PrefixScanPlan.Txn_ := no_txn; PrefixScanPlan.Filter_ := value_is_y;
     PrefixScanPlan.Prefix := "a"; PrefixScanPlan.iter := Some store3 |}.

(** A child of five rows. *)
Definition five_rows : list row :=
  [kv_row "k1" "v1"; kv_row "k2" "v2"; kv_row "k3" "v3"; kv_row "k4" "v4";
   kv_row "k5" "v5"].

Definition pair_of (k v : string) : slice * slice := (Some (B k), Some (B v)).





(** The order by [!(key = "x" & key)]: the field is true on a key other
    than x, and fails on the key x, whose value is then nil. *)
Definition by_not : list OrderField :=
  [{| OName := "b";
      Field := NotExpr (BinaryOpExpr And
                          (BinaryOpExpr Eq_ (FieldExpr KeyKW) (StringExpr "x"))
                          (FieldExpr KeyKW));
      Order := ASC |}].

Definition rows2 : list row := [kv_row "x" "1"; kv_row "a" "2"].


(** The statement on the end of the stream for a prefix scan whose cursor
    is in the state [c]: once [Next] has returned the end of the stream,
    every further call returns it. *)
Definition prefix_scan_end_final_at `{X : Externals} {C : Type} `{Cur : Cursor C}
    (f : FilterExec) (prefix : string) (t : Txn C) (c : C) (fuel : nat) : Prop :=
  forall p',
    PrefixScanPlan.Next fuel
      {| PrefixScanPlan.Txn_ := t; PrefixScanPlan.Filter_ := f;
         PrefixScanPlan.Prefix := prefix; PrefixScanPlan.iter := Some c |}
    = Ret (end_of_rows, p') ->
    forall n, ended (P := PrefixScanPlan_plan fuel) n p'.

(** The filter [true], and two stores for the prefix "a": in the first the
    key "b" is followed by an error of the storage, in the second by the
    key "a1", out of order. *)
Definition accept_all : FilterExec := {| Ast := {| Expr := BoolExpr true |} |}.

Definition store_then_error : list stored := [kv "b" "1"; inr (errorString "io")].

Definition store_out_of_order : list stored := [kv "b" "1"; kv "a1" "2"].

(** A multi-get plan for the key "z" over a store that does not hold it. *)
Definition get_z : MultiGetPlan.t (list stored) :=
  {| MultiGetPlan.Txn_ := no_txn; MultiGetPlan.Filter_ := accept_all;
     MultiGetPlan.Keys := ["z"%string]; MultiGetPlan.numKeys := 1; MultiGetPlan.idx := 0 |}.

(** A child whose [Init] fails. *)
Definition failing_Init : Plan unit :=
  {| Init := fun s => Ret (errors_New "cursor", s);
     Next := fun s => Ret ((None, None, None), s) |}.

(** ** Shapes of expressions and of values *)

(** An expression without a call node. *)
Fixpoint call_free (e : Expression) : bool :=
  match e with
  | StringExpr _ | FieldExpr _ | NameExpr _ | NumberExpr _ | FloatExpr _
  | BoolExpr _ => true
  | BinaryOpExpr _ l r => call_free l && call_free r
  | NotExpr r => call_free r
  | FunctionCallExpr _ _ _ => false
  | ListExpr l => forallb call_free l
  | FieldAccessExpr l f => call_free l && call_free f
  end.

(** A value that is neither a list nor a map. *)
Definition is_scalar (v : any) : bool :=
  match v with
  | VList _ | VMap _ | VJSON _ => false
  | _ => true
  end.

(** The operators whose method returns [false] beside every error it
    returns: equality, the two matches, the logical operators, [in] and
    [between]. *)
Definition boolean_operator (op : Operator) : bool :=
  match op with
  | Eq_ | NotEq | PrefixMatch | RegExpMatch | And | Or | In_ | Between => true
  | _ => false
  end.

(** A field name that [FieldAccessExpr.Execute] accepts: a string or a
    number literal. *)
Definition is_accessor (e : Expression) : bool :=
  match e with
  | StringExpr _ | NumberExpr _ => true
  | _ => false
  end.

(** The access [e.f1.f2 ... fn]. *)
Definition access_path (e : Expression) (path : list Expression) : Expression :=
  fold_left FieldAccessExpr path e.

(** The empty string that an access returns for what it does not find. *)
Definition missing : res (result any) := Ret (VString "", None).

(** A result of a method that returns a Go [bool]: false beside an
    error. *)
Definition false_on_error (r : res (result bool)) : Prop :=
  forall b e, r = Ret (b, Some e) -> b = false.

(** The same for the boxed result of a node. *)
Definition bool_false_on_error (v : any) (err : option error) : Prop :=
  exists b, v = VBool b /\ (err <> None -> b = false).

(** ** Proof steps *)

(** One case analysis on what a hypothesis matches on. *)
Ltac case_step H :=
  match type of H with
  | context [match ?x with _ => _ end] => is_var x; destruct x
  | context [match ?x with _ => _ end] => destruct x eqn:?
  end.

Ltac cases_of H :=
  unfold mbind, res_bind in H;
  repeat (cbn beta iota in H; case_step H); cbn beta iota in H.

Ltac bool_result H :=
  first [discriminate H
        | injection H as <- <-; eexists; split;
          [reflexivity | first [congruence | intros _; reflexivity]]].


(** What [in] takes an element of its list for, on a row: an expression
    of the declared type [tp] that evaluates to the value [v] without
    error, [v] being of the kind [ok]. *)
Definition element_of `{X : Externals} (tp : Type_) (ok : any -> bool) (kv : KVPair)
    (e : Expression) (v : any) : Prop :=
  ReturnType e = tp /\ Execute e kv = Ret (v, None) /\ ok v = true.

(** The externals of arithmetic return, and return scalars. *)
Definition math_returns_scalars (X : Externals) : Prop :=
  forall a b op, exists v err, executeMathOp a b op = Ret (v, err) /\ is_scalar v = true.

(** A node that returns a scalar on a row, and a list node whose elements
    do. *)
Definition returns_scalar `{X : Externals} (kv : KVPair) (e : Expression) : Prop :=
  exists v err, Execute e kv = Ret (v, err) /\ is_scalar v = true.

Definition elements_return `{X : Externals} (kv : KVPair) (e : Expression) : Prop :=
  match e with
  | ListExpr l => Forall (returns_scalar kv) l
  | _ => True
  end.

(** The goal that a node returns a scalar, on a node that computes. *)
Ltac returned := eexists _, _; split; reflexivity.

(** ** What a cursor gives and what a scan makes of it *)

(** [cursor_gives c rows c']: read again and again from the state [c], the
    cursor gives the rows [rows], in this order and without error, then
    its end, a nil key, which leaves it in the state [c']. *)
Inductive cursor_gives {C : Type} `{Cur : Cursor C}
    : C -> list (list byte * slice) -> C -> Prop :=
| cursor_gives_end (c c' : C) (v : slice) :
    CursorNext c = ((None, v, None), c') -> cursor_gives c [] c'
| cursor_gives_row (c c' c'' : C) (k : list byte) (v : slice)
    (rows : list (list byte * slice)) :
    CursorNext c = ((Some k, v, None), c') ->
    cursor_gives c' rows c'' ->
    cursor_gives c ((k, v) :: rows) c''.

(** The filter accepts a row of the cursor; the filter decides it, that
    is, returns a boolean on it without error. *)
Definition accepts `{X : Externals} (f : FilterExec) (r : list byte * slice) : bool :=
  match Filter f (NewKVP (Some r.1) r.2) with
  | Ret (true, None) => true
  | _ => false
  end.

Definition decides `{X : Externals} (f : FilterExec) (r : list byte * slice) : Prop :=
  exists b, Filter f (NewKVP (Some r.1) r.2) = Ret (b, None).

(** The rows before the first one whose key stops the scan. *)
Fixpoint before_stop (stop : list byte -> bool) (rows : list (list byte * slice))
    : list (list byte * slice) :=
  match rows with
  | [] => []
  | r :: rest => if stop r.1 then [] else r :: before_stop stop rest
  end.

(** A row of the cursor as a plan returns it. *)
Definition as_pair (r : list byte * slice) : slice * slice := (Some r.1, r.2).

(** What a scan returns of the rows of its cursor: of the rows before the
    first one that stops it, those that the filter accepts. *)
Definition scanned `{X : Externals} (stop : list byte -> bool) (f : FilterExec)
    (rows : list (list byte * slice)) : list (slice * slice) :=
  map as_pair (List.filter (accepts f) (before_stop stop rows)).

(** The loop of the scans as a plan on the state of the cursor. *)
Definition scan_plan `{X : Externals} {C : Type} `{Cur : Cursor C}
    (stop : list byte -> bool) (fuel : nat) (f : FilterExec) : Plan C :=
  {| Init := fun c => Ret (None, c); Next := scan_loop stop fuel f |}.

(** The keys of the rows are in ascending order; none is below [start]. *)
Definition ascending_rows (rows : list (list byte * slice)) : Prop :=
  StronglySorted (fun a b => Compare a.1 b.1 <= 0) rows.

Definition rows_not_below (start : list byte) (rows : list (list byte * slice)) : Prop :=
  Forall (fun r => Compare start r.1 <= 0) rows.

(** The three rows of [store3] as the cursor gives them. *)
Definition rows_of_store3 : list (list byte * slice) :=
  [(B "a1", Some (B "x")); (B "a2", Some (B "y")); (B "b1", Some (B "z"))].

Definition full_scan_of (f : FilterExec) (c : list stored) : FullScanPlan.t (list stored) :=
  {| FullScanPlan.Txn_ := no_txn; FullScanPlan.Filter_ := f; FullScanPlan.iter := Some c |}.

Definition prefix_scan_of (f : FilterExec) (prefix : string) (c : list stored)
    : PrefixScanPlan.t (list stored) :=
  {| PrefixScanPlan.Txn_ := no_txn; PrefixScanPlan.Filter_ := f;
     PrefixScanPlan.Prefix := prefix; PrefixScanPlan.iter := Some c |}.

Definition range_scan_of (f : FilterExec) (start end_ : slice) (c : list stored)
    : RangeScanPlan.t (list stored) :=
  {| RangeScanPlan.Txn_ := no_txn; RangeScanPlan.Filter_ := f;
     RangeScanPlan.Start := start; RangeScanPlan.End_ := end_;
     RangeScanPlan.iter := Some c |}.

(** ** Multi-get: the constructor and what a key gives *)

(** [sort.Strings] of the Go library puts the strings in increasing order,
    the order of their bytes.  Which algorithm sorts does not show in the
    result, two strings that compare equal being the same string; here it
    is sorting by insertion. *)
Fixpoint insert_String (k : string) (l : list string) : list string :=
  match l with
  | [] => [k]
  | x :: l' => if Compare (B k) (B x) <=? 0 then k :: l else x :: insert_String k l'
  end.

Definition sort_Strings (keys : list string) : list string :=
  foldr insert_String [] keys.

(** [NewMultiGetPlan]: the keys are sorted. *)
Definition NewMultiGetPlan {C : Type} (t : Txn C) (f : FilterExec) (keys : list string)
    : MultiGetPlan.t C :=
  let keys := sort_Strings keys in
  {| MultiGetPlan.Txn_ := t; MultiGetPlan.Filter_ := f; MultiGetPlan.Keys := keys;
     MultiGetPlan.idx := 0; MultiGetPlan.numKeys := Z.of_nat (length keys) |}.

(** The other constructors fill the fields in. *)
Definition NewFullScanPlan {C : Type} (t : Txn C) (f : FilterExec) : FullScanPlan.t C :=
  {| FullScanPlan.Txn_ := t; FullScanPlan.Filter_ := f; FullScanPlan.iter := None |}.

Definition NewEmptyResultPlan {C : Type} (t : Txn C) (f : FilterExec) : EmptyResultPlan.t :=
  EmptyResultPlan.Build_t.

Definition NewPrefixScanPlan {C : Type} (t : Txn C) (f : FilterExec) (p : string)
    : PrefixScanPlan.t C :=
  {| PrefixScanPlan.Txn_ := t; PrefixScanPlan.Filter_ := f; PrefixScanPlan.Prefix := p;
     PrefixScanPlan.iter := None |}.

Definition NewRangeScanPlan {C : Type} (t : Txn C) (f : FilterExec) (start end_ : slice)
    : RangeScanPlan.t C :=
  {| RangeScanPlan.Txn_ := t; RangeScanPlan.Filter_ := f; RangeScanPlan.Start := start;
     RangeScanPlan.End_ := end_; RangeScanPlan.iter := None |}.

(** What the plan returns for a key: the key and its value, when the
    store holds a value for it and the filter accepts the row. *)
Definition fetched `{X : Externals} {C : Type} (t : Txn C) (f : FilterExec) (k : string)
    : option (slice * slice) :=
  match Get t (B k) with
  | (Some v, None) => if accepts f (B k, Some v) then Some (Some (B k), Some v) else None
  | _ => None
  end.

(** The key can be looked up: the store returns no error for it, and the
    filter decides the row of a value that it holds. *)
Definition gettable `{X : Externals} {C : Type} (t : Txn C) (f : FilterExec) (k : string)
    : Prop :=
  exists val, Get t (B k) = (val, None)
              /\ forall v, val = Some v -> decides f (B k, Some v).

(** The order of two rows by their keys. *)
Definition key_le (a b : slice * slice) : Prop := Compare (contents a.1) (contents b.1) <= 0.

(** A store of two keys for the examples of multi-get. *)
Definition txn_ab : Txn (list stored) :=
  {| TxnCursor := (None, None);
     Get := fun k => if Equal k (B "a") then (Some (B "1"), None)
                     else if Equal k (B "b") then (Some (B "2"), None)
                     else (None, None) |}.

(** ** Streams of a column plan *)

(** [Fyields s rs s']: called again and again from the state [s], the
    column plan returns the rows [rs], in this order and without error,
    then the end of the stream, which leaves it in the state [s']. *)
Inductive Fyields {St : Type} `{P : FinalPlan St} : St -> list (list Column) -> St -> Prop :=
| Fyields_end (s s' : St) :
    FNext s = Ret (end_of_columns, s') -> Fyields s [] s'
| Fyields_row (s s' s'' : St) (cols : list Column) (rs : list (list Column)) :
    FNext s = Ret ((Some cols, None), s') ->
    Fyields s' rs s'' ->
    Fyields s (cols :: rs) s''.

(** A limit plan on columns by its fields. *)
Definition final_limit_state {St : Type} (start count cur sk : Z) (s : St)
    (names : list string) : FinalLimitPlan.t St :=
  {| FinalLimitPlan.Start := start; FinalLimitPlan.Count := count;
     FinalLimitPlan.current := cur; FinalLimitPlan.skips := sk;
     FinalLimitPlan.ChildPlan := s; FinalLimitPlan.FieldNames := names |}.

(** A child of rows that fails after its second row. *)
Definition two_rows_then_error : list row :=
  [kv_row "k1" "v1"; kv_row "k2" "v2"; (Some (B "k3"), None, errors_New "io")].

(** A child of four rows of columns. *)
Definition four_column_rows : list columns :=
  [(Some [B "1"], None); (Some [B "2"], None); (Some [B "3"], None); (Some [B "4"], None)].

(** ** Orders by one field of bytes *)

(** The order of two byte slices in a direction: [a] is not after [b]. *)
Definition bytes_le (desc : bool) (a b : list byte) : Prop :=
  if desc then Compare b a <= 0 else Compare a b <= 0.

(** The comparison [less] is that of the bytes [val] of the elements in
    the direction [desc], on the elements of [U]. *)
Definition compares_bytes {A : Type} (less : A -> A -> res bool) (U : list A)
    (val : A -> list byte) (desc : bool) : Prop :=
  forall a b, a ∈ U -> b ∈ U ->
    less a b = Ret (if desc then Compare (val b) (val a) <? 0
                    else Compare (val a) (val b) <? 0).

(** The order by the key, in a direction. *)
Definition by_key (o : OrderType) : list OrderField :=
  [{| OName := "key"; Field := FieldExpr KeyKW; Order := o |}].

(** A child that fails after its third row. *)
Definition three_rows_then_error : list row :=
  [kv_row "k2" "b"; kv_row "k3" "c"; kv_row "k1" "a"; (None, None, errors_New "io")].

(** ** The order plan on columns *)

(** The row that [prepare] pushes for the columns [cs] of the child. *)
Definition columns_row {St : Type} (p : FinalOrderPlan.t St) (cs : list Column)
    : FinalOrderPlan.orderColumnsRow :=
  {| FinalOrderPlan.cols := cs; FinalOrderPlan.orders := FinalOrderPlan.Orders p;
     FinalOrderPlan.orderPos := FinalOrderPlan.orderPos_ p;
     FinalOrderPlan.orderTypes := FinalOrderPlan.orderTypes_ p |}.

(** [idx] is the first position of the name among the names. *)
Definition first_index (names : list string) (fname : string) (idx : Z) : Prop :=
  0 <= idx /\ names !! Z.to_nat idx = Some fname
  /\ forall j, (j < Z.to_nat idx)%nat -> names !! j <> Some fname.

(** The order of two rows of columns under the comparison of the plan. *)
Definition columns_not_above `{X : Externals} {St : Type} (p : FinalOrderPlan.t St)
    (a b : list Column) : Prop :=
  not_above FinalOrderPlan.Less (columns_row p a) (columns_row p b).

(** The column at a position, empty when the row is shorter. *)
Definition column (idx : Z) (cs : list Column) : list byte :=
  default [] (cs !! Z.to_nat idx).

(** A plan on columns before [Init], and three rows of two columns. *)
Definition final_order_of (os : list OrderField) (names : list string) (c : list columns)
    : FinalOrderPlan.t (list columns) :=
  {| FinalOrderPlan.Orders := os; FinalOrderPlan.FieldNames := names;
     FinalOrderPlan.ChildPlan := c; FinalOrderPlan.pos := 0; FinalOrderPlan.total := 0;
     FinalOrderPlan.sorted := None; FinalOrderPlan.orderPos_ := [];
     FinalOrderPlan.orderTypes_ := [] |}.

Definition by_name_b : list OrderField :=
  [{| OName := "b"; Field := FieldExpr ValueKW; Order := ASC |}].

Definition three_column_rows : list columns :=
  [(Some [B "k2"; B "y"], None); (Some [B "k3"; B "z"], None); (Some [B "k1"; B "x"], None)].

(** The plan over [three_column_rows] as [Init] leaves it for the order
    by the second of the names a, b. *)
Definition by_b_plan : FinalOrderPlan.t (list columns) :=
  {| FinalOrderPlan.Orders := by_name_b; FinalOrderPlan.FieldNames := ["a"; "b"]%string;
     FinalOrderPlan.ChildPlan := three_column_rows; FinalOrderPlan.pos := 0;
     FinalOrderPlan.total := 0; FinalOrderPlan.sorted := Some [];
     FinalOrderPlan.orderPos_ := [1]; FinalOrderPlan.orderTypes_ := [TSTR] |}.

(** ** Orders by fields of integers *)

(** The strict lexicographic order of two lists of integers, as the loop
    of [Less] decides it: the first position where they differ. *)
Fixpoint lex_ltb (x y : list Z) : bool :=
  match x, y with
  | a :: x', b :: y' =>
      if a <? b then true else if b <? a then false else lex_ltb x' y'
  | _, _ => false
  end.

(** The integer of a field in the direction of the field. *)
Definition signed (o : OrderField) (n : Z) : Z :=
  if is_DESC (Order o) then - n else n.

(** Every order field evaluates on the row to an integer that the order
    plan compares, [val o] for the field [o], a signed integer of 64 bits;
    and the integers of the row in the directions of the fields. *)
Definition int_fields `{X : Externals} (Orders : list OrderField)
    (val : OrderField -> Z) (r : slice * slice) : Prop :=
  Forall (fun o => exists k e,
            Execute (Field o) (NewKVP r.1 r.2) = Ret (VInt k (val o), e)
            /\ ordered_int k (val o)) Orders.

Definition int_keys (Orders : list OrderField) (val : OrderField -> Z) : list Z :=
  map (fun o => signed o (val o)) Orders.

(** The comparison [less] is the lexicographic one of the keys [key] of
    the elements of [U], which are of one length. *)
Definition compares_keys {A : Type} (less : A -> A -> res bool) (U : list A)
    (key : A -> list Z) (n : nat) : Prop :=
  (forall a, a ∈ U -> length (key a) = n) /\
  (forall a b, a ∈ U -> b ∈ U -> less a b = Ret (lex_ltb (key a) (key b))).

(** The counters of an order plan and its heap are in step: the heap
    holds the rows that are counted and not yet returned. *)
Definition order_in_step {St : Type} (p : OrderPlan.t St) : Prop :=
  exists h, OrderPlan.sorted p = Some h
            /\ 0 <= OrderPlan.pos p
            /\ OrderPlan.total p - OrderPlan.pos p = Z.of_nat (length h).

(** The order by the value read as an integer, descending, then by the key
    read as an integer, ascending, for the examples: both through [int]. *)
Definition by_int_desc_then_key : list OrderField :=
  [{| OName := "n"; Field := FunctionCallExpr "int" [FieldExpr ValueKW] VNil; Order := DESC |};
   {| OName := "k"; Field := FunctionCallExpr "int" [FieldExpr KeyKW] VNil; Order := ASC |}].

Definition rows_of_pairs : list row :=
  [kv_row "2" "5"; kv_row "1" "7"; kv_row "1" "5"].

(** The integers of the two fields on a row of the example. *)
Definition pair_ints (r : slice * slice) (o : OrderField) : Z :=
  default 0 (ParseInt (String.string_of_list_byte
                         (contents (if String.eqb (OName o) "n" then r.2 else r.1)))).

(** ** Operands and rows that fail *)

(** The operators that evaluate both operands before anything else: all
    but the logical ones, [in] and [between], and the unknown ones. *)
Definition strict_operator (op : Operator) : bool :=
  match op with
  | Eq_ | NotEq | PrefixMatch | RegExpMatch
  | Add | Sub | Mul | Div | Gt_ | Gte | Lt_ | Lte => true
  | _ => false
  end.

Definition known_operator (op : Operator) : bool :=
  match op with OtherOp => false | _ => true end.

(** [cursor_reads c rows c']: read again and again from the state [c], the
    cursor gives the rows [rows], in this order and without error, and is
    then in the state [c']; what it gives after that is left open. *)
Inductive cursor_reads {C : Type} `{Cur : Cursor C}
    : C -> list (list byte * slice) -> C -> Prop :=
| cursor_reads_nil (c : C) : cursor_reads c [] c
| cursor_reads_row (c c' c'' : C) (k : list byte) (v : slice)
    (rows : list (list byte * slice)) :
    CursorNext c = ((Some k, v, None), c') ->
    cursor_reads c' rows c'' ->
    cursor_reads c ((k, v) :: rows) c''.

(** The filter [int(value) = 1], which fails on a value that is no
    integer, and a store whose second value is none. *)
Definition value_is_one : FilterExec :=
  {| Ast := {| Expr := BinaryOpExpr Eq_ (FunctionCallExpr "int" [FieldExpr ValueKW] VNil)
                         (NumberExpr 1) |} |}.

Definition store_with_text : list stored := [kv "a" "0"; kv "b" "x"; kv "c" "1"].

(** * Properties of the evaluator *)

Section Evaluator.
Context `{X : Externals}.

(** *** Logical operators *)

Lemma execAnd_left_false (R : res (result any)) :
  execAnd (Ret (VBool false, None)) R = Ret (false, None).
Proof. reflexivity. Qed.

Lemma execOr_left_true (R : res (result any)) :
  execOr (Ret (VBool true, None)) R = Ret (true, None).
Proof. reflexivity. Qed.

Lemma execAnd_left_not_bool (v : any) (R : res (result any)) :
  is_bool v = false ->
  execAnd (Ret (v, None)) R = Ret (false, errors_New "& left value type not bool").
Proof. destruct v; simpl; intros; congruence. Qed.

Lemma execOr_left_not_bool (v : any) (R : res (result any)) :
  is_bool v = false ->
  execOr (Ret (v, None)) R = Ret (false, errors_New "| left value type not bool").
Proof. destruct v; simpl; intros; congruence. Qed.

Lemma execAnd_right_not_bool (v : any) :
  is_bool v = false ->
  execAnd (Ret (VBool true, None)) (Ret (v, None))
  = Ret (false, errors_New "& right value type not bool").
Proof. destruct v; simpl; intros; congruence. Qed.

Lemma execOr_right_not_bool (v : any) :
  is_bool v = false ->
  execOr (Ret (VBool false, None)) (Ret (v, None))
  = Ret (false, errors_New "| right value type not bool").
Proof. destruct v; simpl; intros; congruence. Qed.

Lemma execAnd_bools (a b : bool) :
  execAnd (Ret (VBool a, None)) (Ret (VBool b, None)) = Ret (a && b, None).
Proof. destruct a, b; reflexivity. Qed.

Lemma execOr_bools (a b : bool) :
  execOr (Ret (VBool a, None)) (Ret (VBool b, None)) = Ret (a || b, None).
Proof. destruct a, b; reflexivity. Qed.

Lemma Execute_And (l r : Expression) (kv : KVPair) :
  Execute (BinaryOpExpr And l r) kv = unboxed (execAnd (Execute l kv) (Execute r kv)).
Proof. reflexivity. Qed.

Lemma Execute_Or (l r : Expression) (kv : KVPair) :
  Execute (BinaryOpExpr Or l r) kv = unboxed (execOr (Execute l kv) (Execute r kv)).
Proof. reflexivity. Qed.

Lemma Execute_Eq (l r : Expression) (kv : KVPair) :
  Execute (BinaryOpExpr Eq_ l r) kv = unboxed (execEqual (Execute l kv) (Execute r kv)).
Proof. reflexivity. Qed.

(** *** Equality *)

(** What [execEqual] computes from the two values. *)
Lemma execEqual_values (vl vr : any) :
  execEqual (Ret (vl, None)) (Ret (vr, None)) =
  Ret (if is_text vl && is_text vr then (Equal (bytes_of vl) (bytes_of vr), None)
       else if converts_to_int vl && converts_to_int vr
       then (int_of vl =? int_of vr, None)
       else if is_bool vl && is_bool vr then (Bool.eqb (bool_of vl) (bool_of vr), None)
       else (false, errors_New "Invalid = operator left type")).
Proof.
  unfold converts_to_int, int_of.
  destruct vl as [| | |kl il| | | | | |], vr as [| | |kr ir| | | | | |];
    try reflexivity; simpl;
    try (destruct (beyond_int64 kl il); reflexivity).
  destruct (beyond_int64 kl il), (beyond_int64 kr ir); reflexivity.
Qed.

(** *** Range *)

Lemma execStringBetween_bytes (L : res (result any)) (lexpr uexpr : Expression)
    (ev : Expression -> res (result any)) (left_ lo hi : list byte) :
  ReturnType lexpr = TSTR -> ReturnType uexpr = TSTR ->
  L = Ret (VBytes left_, None) ->
  ev lexpr = Ret (VBytes lo, None) -> ev uexpr = Ret (VBytes hi, None) ->
  execStringBetween L (ListExpr [lexpr; uexpr]) ev =
  if Compare lo hi <? 0
  then Ret (VBool ((Compare lo left_ <=? 0) && (Compare left_ hi <=? 0)), None)
  else Ret (VBool false,
            errors_New "operator between lower boundary is greater than upper boundary.").
Proof.
  intros Hl Hu -> Hlo Hhi. unfold execStringBetween. simpl.
  rewrite Hl, Hu, Hlo, Hhi. simpl.
  unfold execStringCompare. simpl.
  destruct (Compare lo hi <? 0); simpl; [|reflexivity].
  destruct (Compare lo left_ <=? 0); reflexivity.
Qed.

Lemma execNumberBetween_ints (L : res (result any)) (lexpr uexpr : Expression)
    (ev : Expression -> res (result any)) (kl klo khi : intkind) (left_ lo hi : Z) :
  ReturnType lexpr = TNUMBER -> ReturnType uexpr = TNUMBER ->
  L = Ret (VInt kl left_, None) ->
  ev lexpr = Ret (VInt klo lo, None) -> ev uexpr = Ret (VInt khi hi, None) ->
  beyond_int64 kl left_ = false -> beyond_int64 klo lo = false ->
  beyond_int64 khi hi = false ->
  execNumberBetween L (ListExpr [lexpr; uexpr]) ev =
  if lo <? hi
  then Ret (VBool ((lo <=? left_) && (left_ <=? hi)), None)
  else Ret (VBool false,
            errors_New "operator between lower boundary is greater than upper boundary.").
Proof.
  intros Hl Hu -> Hlo Hhi Hbl Hblo Hbhi. unfold execNumberBetween. simpl.
  rewrite Hl, Hu, Hlo, Hhi. simpl. unfold execNumberCompare. simpl.
  rewrite Hbl, Hblo, Hbhi. simpl.
  destruct (lo <? hi); simpl; [|reflexivity].
  destruct (lo <=? left_); reflexivity.
Qed.

Lemma Compare_refl (a : list byte) : Compare a a = 0.
Proof.
  induction a as [|x a IH]; simpl; [reflexivity|].
  unfold cmp_byte. rewrite N.compare_refl. exact IH.
Qed.

(** *** Field and index access *)

Lemma execDictAccess_returns (fieldName : string) (left_ : any) :
  exists r, execDictAccess fieldName left_ = Ret r.
Proof.
  destruct left_; simpl; eauto.
  - destruct (String.eqb s ""); eauto.
  - destruct (m !! fieldName); eauto.
  - destruct (m !! fieldName); eauto.
Qed.

Lemma execListAccess_in_range (idx : Z) (lval : list any) (fval : any) :
  0 <= idx -> lval !! Z.to_nat idx = Some fval ->
  execListAccess idx (VList lval) = Ret (fval, None).
Proof.
  intros Hidx Hl. unfold execListAccess.
  pose proof (lookup_lt_Some _ _ _ Hl) as Hlen.
  destruct (Z.ltb_spec idx (Z.of_nat (length lval))); [|lia].
  destruct (Z.ltb_spec idx 0); [lia|].
  rewrite Hl. reflexivity.
Qed.

Lemma execListAccess_beyond (idx : Z) (lval : list any) :
  Z.of_nat (length lval) <= idx ->
  execListAccess idx (VList lval) = Ret (VString "", None).
Proof.
  intros H. unfold execListAccess.
  destruct (Z.ltb_spec idx (Z.of_nat (length lval))); [lia|reflexivity].
Qed.

Lemma execListAccess_negative (idx : Z) (x : any) (lval : list any) :
  idx < 0 ->
  execListAccess idx (VList (x :: lval)) = Panic "index out of range".
Proof.
  intros H. unfold execListAccess.
  destruct (Z.ltb_spec idx (Z.of_nat (length (x :: lval)))); [|simpl in *; lia].
  destruct (Z.ltb_spec idx 0); [reflexivity|lia].
Qed.

End Evaluator.

(** * The statements of the design document on the evaluator *)

(** C6.  Logical AND and OR take booleans on both sides.  A left operand
    that is not a boolean is an error; AND with a false left operand is
    false, and OR with a true left operand is true, whatever the right
    operand is and whatever its evaluation would do, since it is not
    evaluated; when the left operand does not decide the result, a right
    operand that is not a boolean is an error, and on two booleans the
    result is their conjunction or disjunction. *)
Theorem and_or_strict_and_short_circuit `{X : Externals}
    (l r : Expression) (kv : KVPair) :
  (forall v, Execute l kv = Ret (v, None) -> is_bool v = false ->
     (exists e, Execute (BinaryOpExpr And l r) kv = Ret (VBool false, Some e)) /\
     (exists e, Execute (BinaryOpExpr Or l r) kv = Ret (VBool false, Some e))) /\
  (Execute l kv = Ret (VBool false, None) ->
     Execute (BinaryOpExpr And l r) kv = Ret (VBool false, None)) /\
  (Execute l kv = Ret (VBool true, None) ->
     Execute (BinaryOpExpr Or l r) kv = Ret (VBool true, None)) /\
  (forall v, Execute r kv = Ret (v, None) -> is_bool v = false ->
     (Execute l kv = Ret (VBool true, None) ->
        exists e, Execute (BinaryOpExpr And l r) kv = Ret (VBool false, Some e)) /\
     (Execute l kv = Ret (VBool false, None) ->
        exists e, Execute (BinaryOpExpr Or l r) kv = Ret (VBool false, Some e))) /\
  (forall a b, Execute l kv = Ret (VBool a, None) -> Execute r kv = Ret (VBool b, None) ->
     Execute (BinaryOpExpr And l r) kv = Ret (VBool (a && b), None) /\
     Execute (BinaryOpExpr Or l r) kv = Ret (VBool (a || b), None)).
Proof.
  rewrite Execute_And, Execute_Or.
  split; [|split; [|split; [|split]]].
  - intros v Hl Hv. rewrite Hl.
    rewrite (execAnd_left_not_bool _ _ Hv), (execOr_left_not_bool _ _ Hv).
    split; eexists; reflexivity.
  - intros Hl. rewrite Hl, execAnd_left_false. reflexivity.
  - intros Hl. rewrite Hl, execOr_left_true. reflexivity.
  - intros v Hr Hv. split; intros Hl; rewrite Hl, Hr.
    + rewrite (execAnd_right_not_bool _ Hv). eexists; reflexivity.
    + rewrite (execOr_right_not_bool _ Hv). eexists; reflexivity.
  - intros a b Hl Hr. rewrite Hl, Hr, execAnd_bools, execOr_bools.
    split; reflexivity.
Qed.

(** The right operand of the example panics when it is evaluated: AND
    with a false left operand returns false all the same. *)
Lemma and_or_strict_and_short_circuit_witness :
  @Execute X0
    (BinaryOpExpr And (BoolExpr false) (FieldAccessExpr held_list (NumberExpr (-1))))
    row_true
  = Ret (VBool false, None).
Proof.
  apply (and_or_strict_and_short_circuit (X := X0)).
  reflexivity.
Defined.

(** C7.  Access by position with a negative index into a list: the index
    is below the length, the element at the index is read, and the
    evaluation panics. *)
Theorem list_access_negative_index_panics `{X : Externals} (kv : KVPair) :
  Execute (FieldAccessExpr held_list (NumberExpr (-1))) kv = Panic "index out of range".
Proof. reflexivity. Qed.

(** C2.  [between] with equal bounds: the check of the bounds is the strict
    comparison [lower < upper], and the evaluation ends in the error of a
    lower bound greater than the upper one, for strings and for
    numbers. *)
Theorem between_equal_bounds_is_error `{X : Externals} (kv : KVPair) :
  (forall s, ReturnType (StringExpr s) = TSTR ->
     Execute (BinaryOpExpr Between (StringExpr s) (ListExpr [StringExpr s; StringExpr s])) kv
     = Ret (VBool false,
            errors_New "operator between lower boundary is greater than upper boundary.")) /\
  (forall n, ReturnType (NumberExpr n) = TNUMBER ->
     Execute (BinaryOpExpr Between (NumberExpr n) (ListExpr [NumberExpr n; NumberExpr n])) kv
     = Ret (VBool false,
            errors_New "operator between lower boundary is greater than upper boundary.")).
Proof.
  split.
  - intros s Hs. cbn [Execute]. rewrite Hs.
    erewrite execStringBetween_bytes by (try exact Hs; reflexivity).
    rewrite Compare_refl. reflexivity.
  - intros n Hn. cbn [Execute]. rewrite Hn.
    erewrite execNumberBetween_ints by (try exact Hn; reflexivity).
    rewrite Z.ltb_irrefl. reflexivity.
Qed.

Lemma between_equal_bounds_is_error_witness :
  @Execute X0
    (BinaryOpExpr Between (StringExpr "m") (ListExpr [StringExpr "m"; StringExpr "m"]))
    row_true
  = Ret (VBool false,
         errors_New "operator between lower boundary is greater than upper boundary.").
Proof.
  apply (proj1 (between_equal_bounds_is_error (X := X0) row_true)).
  reflexivity.
Defined.

(** C5, as amended.  Equality is chosen by the type that the left operand
    has at run time: on two string-like values it compares the bytes, on
    two integers that convert to signed integers of 64 bits the numbers,
    on two booleans the truth values, and on any other pair of values it
    is an error; so it is on two integers of which one is an [uint] or
    [uint64] above the greatest [int64], which does not convert.  The
    declared type of the operands plays no part. *)
Theorem equal_by_runtime_type `{X : Externals}
    (l r : Expression) (kv : KVPair) (vl vr : any) :
  Execute l kv = Ret (vl, None) ->
  Execute r kv = Ret (vr, None) ->
  Execute (BinaryOpExpr Eq_ l r) kv =
    (if is_text vl && is_text vr
     then Ret (VBool (Equal (bytes_of vl) (bytes_of vr)), None)
     else if converts_to_int vl && converts_to_int vr
     then Ret (VBool (int_of vl =? int_of vr), None)
     else if is_bool vl && is_bool vr
     then Ret (VBool (Bool.eqb (bool_of vl) (bool_of vr)), None)
     else Ret (VBool false, errors_New "Invalid = operator left type"))
  /\ (forall kl il kr ir, vl = VInt kl il -> vr = VInt kr ir ->
        in_kind kl il = true -> in_kind kr ir = true ->
        Execute (BinaryOpExpr Eq_ l r) kv =
          if beyond_int64 kl il || beyond_int64 kr ir
          then Ret (VBool false, errors_New "Invalid = operator left type")
          else Ret (VBool (il =? ir), None))
  /\ (forall kl il, vl = VInt kl il -> in_kind kl il = true ->
        converts_to_int vl = true -> int_of vl = il /\ is_int64 il = true).
Proof.
  intros Hl Hr.
  assert (Execute (BinaryOpExpr Eq_ l r) kv =
            (if is_text vl && is_text vr
             then Ret (VBool (Equal (bytes_of vl) (bytes_of vr)), None)
             else if converts_to_int vl && converts_to_int vr
             then Ret (VBool (int_of vl =? int_of vr), None)
             else if is_bool vl && is_bool vr
             then Ret (VBool (Bool.eqb (bool_of vl) (bool_of vr)), None)
             else Ret (VBool false, errors_New "Invalid = operator left type"))) as Heq.
  { rewrite Execute_Eq, Hl, Hr, execEqual_values.
    destruct (is_text vl && is_text vr); [reflexivity|].
    destruct (converts_to_int vl && converts_to_int vr); [reflexivity|].
    destruct (is_bool vl && is_bool vr); reflexivity. }
  split; [exact Heq|]. split.
  - intros kl il kr ir -> -> _ _. rewrite Heq. unfold converts_to_int, int_of. simpl.
    destruct (beyond_int64 kl il), (beyond_int64 kr ir); reflexivity.
  - intros kl il -> Hkind. unfold converts_to_int, int_of. simpl.
    destruct (beyond_int64 kl il) eqn:Hb; [discriminate|]. intros _.
    split; [reflexivity|].
    unfold is_int64, MinInt64, MaxInt64 in *.
    destruct kl; cbn [in_kind beyond_int64] in Hkind, Hb; try exact Hkind;
      apply andb_true_iff in Hkind as [H1 H2]; apply Z.leb_le in H1;
      apply Z.ltb_lt in H2; try apply Z.ltb_ge in Hb; unfold MaxInt64 in *;
      apply andb_true_iff; split; apply Z.leb_le; lia.
Qed.

Lemma equal_by_runtime_type_witness :
  @Execute X0 (BinaryOpExpr Eq_ decode_value (NumberExpr 7)) row_seven
  = Ret (VBool true, None).
Proof.
  apply (proj1 (equal_by_runtime_type (X := X0)
                  decode_value (NumberExpr 7) row_seven (VInt Kint64 7) (VInt Kint64 7)
                  eq_refl eq_refl)).
Defined.

(** C5, as stated, fails.  The node [decode(value)] has one declared type,
    whatever the types are that the nodes declare; on a row whose value
    reads as a boolean [=] compares it with [true] as a boolean, and on a
    row whose value reads as an integer [=] compares it with [7] as an
    integer. *)
Lemma equal_by_declared_type_fails :
  ~ exists other, equal_by_declared_type (demo other).
Proof.
  intros [other H].
  pose proof (H decode_value (BoolExpr true) row_true (VBool true) (VBool true) true
                eq_refl eq_refl eq_refl) as H1.
  pose proof (H decode_value (NumberExpr 7) row_seven (VInt Kint64 7) (VInt Kint64 7) true
                eq_refl eq_refl eq_refl) as H2.
  destruct (@ReturnType (demo other) decode_value);
    simpl in H1, H2; intuition discriminate.
Qed.

(** * The statements on [Init] and on the comparison of numbers *)

Lemma findOrderIdx_from_found (fname : string) (names : list string) (i : Z) :
  (FinalOrderPlan.findOrderIdx_from i fname names).2 = None <-> In fname names.
Proof.
  revert i. induction names as [|fn rest IH]; intros i; simpl.
  - split; [discriminate|tauto].
  - destruct (String.eqb_spec fname fn) as [->|Hne]; simpl.
    + split; auto.
    + rewrite IH. split; [auto|]. intros [Heq|Hin]; [congruence|exact Hin].
Qed.

Lemma Init_loop_error `{X : Externals} {St : Type}
    (p : FinalOrderPlan.t St) (os : list OrderField) (ps : list Z) (ts : list Type_) :
  (FinalOrderPlan.Init_loop p os ps ts).1 = None <->
  Forall (fun o => In (OName o) (FinalOrderPlan.FieldNames p)) os.
Proof.
  revert ps ts. induction os as [|o rest IH]; intros ps ts; simpl.
  - split; [constructor|reflexivity].
  - unfold FinalOrderPlan.findOrderIdx.
    pose proof (findOrderIdx_from_found (OName o) (FinalOrderPlan.FieldNames p) 0) as Hf.
    destruct (FinalOrderPlan.findOrderIdx_from 0 (OName o) (FinalOrderPlan.FieldNames p))
      as [idx [e|]]; simpl in *.
    + split; [discriminate|].
      intros HF. inversion HF; subst. apply Hf in H1. discriminate.
    + rewrite IH. split.
      * intros HF. constructor; [apply Hf; reflexivity|exact HF].
      * intros HF. inversion HF; assumption.
Qed.

(** C10.  [OrderPlan.Init] returns nil whatever error the [Init] of the
    child returns.  [FinalOrderPlan.Init] returns nil whatever error the
    [Init] of the child returns when every order field names one of the
    field names that the plan holds (those of its child), and it returns an
    error exactly when some order field names none of them. *)
Theorem order_plans_Init_discards_child_error `{X : Externals} :
  (forall {St : Type} `{Child : Plan St} (p : OrderPlan.t St) (err : option error) (c : St),
     Init (OrderPlan.ChildPlan p) = Ret (err, c) ->
     exists p', OrderPlan.Init p = Ret (None, p') /\ OrderPlan.ChildPlan p' = c) /\
  (forall {St : Type} `{Child : FinalPlan St} (p : FinalOrderPlan.t St)
          (err : option error) (c : St),
     FInit (FinalOrderPlan.ChildPlan p) = Ret (err, c) ->
     (Forall (fun o => In (OName o) (FinalOrderPlan.FieldNames p))
             (FinalOrderPlan.Orders p) ->
        exists p', FinalOrderPlan.Init p = Ret (None, p')
                   /\ FinalOrderPlan.ChildPlan p' = c) /\
     (forall e p', FinalOrderPlan.Init p = Ret (Some e, p') ->
        Exists (fun o => ~ In (OName o) (FinalOrderPlan.FieldNames p))
               (FinalOrderPlan.Orders p))).
Proof.
  split.
  - intros St Child p err c Hc. unfold OrderPlan.Init. simpl. rewrite Hc. simpl.
    eexists; split; reflexivity.
  - intros St Child p err c Hc.
    pose proof (Init_loop_error p (FinalOrderPlan.Orders p) [] []) as Hloop.
    unfold FinalOrderPlan.Init.
    destruct (FinalOrderPlan.Init_loop p (FinalOrderPlan.Orders p) [] [])
      as [e [ps ts]]; simpl in *.
    split.
    + intros HF. apply Hloop in HF. subst e. simpl. rewrite Hc. simpl.
      eexists; split; reflexivity.
    + intros e' p' Hinit. destruct e as [e|].
      * apply neg_Forall_Exists_neg.
        -- intros o. apply (in_dec String.string_dec).
        -- intros HF. apply Hloop in HF. discriminate.
      * simpl in Hinit. rewrite Hc in Hinit. simpl in Hinit. discriminate.
Qed.

(** A child whose [Init] fails, under an order plan. *)
Lemma order_plans_Init_discards_child_error_witness :
  exists p',
    @OrderPlan.Init X0 unit failing_Init (order_state [] tt 0 0 None) = Ret (None, p')
    /\ OrderPlan.ChildPlan p' = tt.
Proof.
  apply (proj1 (order_plans_Init_discards_child_error (X := X0))
           unit failing_Init _ (errors_New "cursor") tt).
  reflexivity.
Defined.

(** What [strconv.ParseInt] returns is a signed integer of 64 bits. *)
Lemma ParseInt_is_int64 (s : string) (v : Z) : ParseInt s = Some v -> is_int64 v = true.
Proof.
  unfold ParseInt, is_int64, MinInt64, MaxInt64.
  assert (forall (neg : bool) (ds : list byte),
            match ds with
            | [] => None
            | _ :: _ =>
                match digits 0 ds with
                | Some n =>
                    let v := if neg then - n else n in
                    if (- 2 ^ 63 <=? v) && (v <=? 2 ^ 63 - 1) then Some v else None
                | None => None
                end
            end = Some v -> (- 2 ^ 63 <=? v) && (v <=? 2 ^ 63 - 1) = true) as Hs.
  { intros neg [|d ds]; [discriminate|].
    destruct (digits 0 (d :: ds)) as [n|]; [|discriminate]. cbv zeta.
    destruct ((- 2 ^ 63 <=? (if neg then - n else n))
              && ((if neg then - n else n) <=? 2 ^ 63 - 1)) eqn:Hr; [|discriminate].
    intros [= <-]. exact Hr. }
  destruct (String.list_byte_of_string s) as [|b rest]; [discriminate|].
  destruct (Byte.eqb b "+"); [exact (Hs false rest)|].
  destruct (Byte.eqb b "-"); [exact (Hs true rest)|exact (Hs false (b :: rest))].
Qed.

(** The comparison of two floats of the Go code, on the specification of
    the floats of IEEE 754. *)
Lemma SFcompare_antisym (x y : SpecFloat.spec_float) :
  SpecFloat.SFcompare y x = option_map CompOpp (SpecFloat.SFcompare x y).
Proof.
  destruct x as [sx|sx| |sx mx ex], y as [sy|sy| |sy my ey]; simpl;
    try reflexivity; try (destruct sx; reflexivity); try (destruct sy; reflexivity);
    try (destruct sx, sy; reflexivity).
  f_equal. rewrite (Z.compare_antisym ex ey).
  pose proof (Pos.compare_cont_antisym mx my Eq) as Hm. simpl in Hm. rewrite <- Hm.
  destruct sx, sy; try reflexivity;
    destruct (ex ?= ey)%Z; simpl; try reflexivity;
    destruct (Pos.compare_cont Eq mx my); reflexivity.
Qed.

Lemma float_eqb_sym (a b : float) : PrimFloat.eqb b a = PrimFloat.eqb a b.
Proof.
  rewrite !FloatAxioms.eqb_spec. unfold SpecFloat.SFeqb.
  rewrite (SFcompare_antisym (FloatOps.Prim2SF a) (FloatOps.Prim2SF b)).
  destruct (SpecFloat.SFcompare (FloatOps.Prim2SF a) (FloatOps.Prim2SF b)) as [[| |]|];
    reflexivity.
Qed.

Lemma float_ltb_strict (a b : float) :
  PrimFloat.ltb a b = true -> PrimFloat.eqb a b = false /\ PrimFloat.ltb b a = false.
Proof.
  rewrite !FloatAxioms.ltb_spec, FloatAxioms.eqb_spec.
  unfold SpecFloat.SFltb, SpecFloat.SFeqb.
  rewrite (SFcompare_antisym (FloatOps.Prim2SF a) (FloatOps.Prim2SF b)).
  destruct (SpecFloat.SFcompare (FloatOps.Prim2SF a) (FloatOps.Prim2SF b)) as [[| |]|];
    simpl; intros H; try discriminate; split; reflexivity.
Qed.

(** The sign of the comparison of two integers: zero for equal ones, and
    for [ASC] negative when the left one is the smaller and positive when
    it is the greater, the other way round for [DESC]. *)
Lemma compareInt_orders (a b : Z) (reverse : bool) :
  (a = b -> compareInt a b reverse = 0) /\
  (a < b -> compareInt a b reverse = if reverse then 1 else -1) /\
  (b < a -> compareInt a b reverse = if reverse then -1 else 1).
Proof.
  unfold compareInt. rewrite Z.gtb_ltb.
  destruct (Z.eqb_spec a b), (Z.ltb_spec a b), (Z.ltb_spec b a), reverse;
    repeat split; intros; try reflexivity; lia.
Qed.

(** The same of two floats; a float that is no number is neither equal
    to, nor less, nor greater than any other, and the comparison is then
    positive. *)
Lemma compareFloat_orders (a b : float) (reverse : bool) :
  (PrimFloat.eqb a b = true -> compareFloat a b reverse = 0) /\
  (PrimFloat.ltb a b = true -> compareFloat a b reverse = if reverse then 1 else -1) /\
  (PrimFloat.ltb b a = true -> compareFloat a b reverse = if reverse then -1 else 1) /\
  (PrimFloat.eqb a b = false -> PrimFloat.ltb a b = false -> PrimFloat.ltb b a = false ->
   compareFloat a b reverse = 1).
Proof.
  unfold compareFloat. split; [|split; [|split]].
  - intros ->. reflexivity.
  - intros H. destruct (float_ltb_strict _ _ H) as [-> Hba]. rewrite H, Hba.
    destruct reverse; reflexivity.
  - intros H. destruct (float_ltb_strict _ _ H) as [Heq Hab].
    rewrite float_eqb_sym in Heq. rewrite Heq, H, Hab. destruct reverse; reflexivity.
  - intros -> -> ->. destruct reverse; reflexivity.
Qed.

(** C8.  The comparison of two column values as numbers.  When both read
    as integers, which are then signed integers of 64 bits, it is the
    comparison of the integers: zero for equal ones, and for [ASC]
    negative when the left one is the smaller and positive when it is the
    greater, the other way round for [DESC].  Else, when both read as
    floats, it is the comparison of the floats, in the same way.  Else
    they compare equal.  The result is an integer, there is no error to
    return. *)
Theorem compareNumber_int_then_float_then_equal `{X : Externals}
    (lval rval : list byte) (reverse : bool) :
  let ls := String.string_of_list_byte lval in
  let rs := String.string_of_list_byte rval in
  let c := FinalOrderPlan.compareNumber lval rval reverse in
  (forall lint rint, ParseInt ls = Some lint -> ParseInt rs = Some rint ->
     is_int64 lint = true /\ is_int64 rint = true
     /\ c = compareInt lint rint reverse
     /\ (lint = rint -> c = 0)
     /\ (lint < rint -> c = if reverse then 1 else -1)
     /\ (rint < lint -> c = if reverse then -1 else 1)) /\
  (forall lfloat rfloat, ParseInt ls = None \/ ParseInt rs = None ->
     ParseFloat ls = Some lfloat -> ParseFloat rs = Some rfloat ->
     c = compareFloat lfloat rfloat reverse
     /\ (PrimFloat.eqb lfloat rfloat = true -> c = 0)
     /\ (PrimFloat.ltb lfloat rfloat = true -> c = if reverse then 1 else -1)
     /\ (PrimFloat.ltb rfloat lfloat = true -> c = if reverse then -1 else 1)
     /\ (PrimFloat.eqb lfloat rfloat = false -> PrimFloat.ltb lfloat rfloat = false ->
         PrimFloat.ltb rfloat lfloat = false -> c = 1)) /\
  (ParseInt ls = None \/ ParseInt rs = None ->
   ParseFloat ls = None \/ ParseFloat rs = None ->
     c = 0).
Proof.
  intros ls rs c. unfold c, FinalOrderPlan.compareNumber. fold ls rs.
  split; [|split].
  - intros lint rint Hl Hr. rewrite Hl, Hr.
    split; [exact (ParseInt_is_int64 _ _ Hl)|]. split; [exact (ParseInt_is_int64 _ _ Hr)|].
    split; [reflexivity|]. apply compareInt_orders.
  - intros lfloat rfloat Hint Hl Hr.
    assert (match ParseInt ls with
            | Some lint => match ParseInt rs with
                           | Some rint => Some (compareInt lint rint reverse)
                           | None => None
                           end
            | None => None
            end = None) as ->.
    { destruct Hint as [->| ->]; [reflexivity|]. destruct (ParseInt ls); reflexivity. }
    rewrite Hl, Hr. split; [reflexivity|]. apply compareFloat_orders.
  - intros Hint Hfloat.
    assert (match ParseInt ls with
            | Some lint => match ParseInt rs with
                           | Some rint => Some (compareInt lint rint reverse)
                           | None => None
                           end
            | None => None
            end = None) as ->.
    { destruct Hint as [->| ->]; [reflexivity|]. destruct (ParseInt ls); reflexivity. }
    destruct Hfloat as [->| ->]; [reflexivity|].
    destruct (ParseFloat ls); reflexivity.
Qed.

(** The example of the design document, "abc" against "def"; two
    integers, 12 against 7; and two floats, 1.5 against 2.5, ascending
    and descending. *)
Lemma compareNumber_int_then_float_then_equal_witness :
  @FinalOrderPlan.compareNumber X0 (B "abc") (B "def") false = 0
  /\ @FinalOrderPlan.compareNumber X0 (B "12") (B "7") false = 1
  /\ @FinalOrderPlan.compareNumber demo_floats (B "1.5") (B "2.5") false = -1
  /\ @FinalOrderPlan.compareNumber demo_floats (B "1.5") (B "2.5") true = 1.
Proof.
  split; [|split; [|split]].
  - apply (proj2 (proj2 (compareNumber_int_then_float_then_equal
                           (X := X0) (B "abc") (B "def") false)));
      left; reflexivity.
  - destruct (proj1 (compareNumber_int_then_float_then_equal
                       (X := X0) (B "12") (B "7") false) 12 7 eq_refl eq_refl)
      as (_ & _ & _ & _ & _ & Hgt).
    apply Hgt. lia.
  - destruct (proj1 (proj2 (compareNumber_int_then_float_then_equal
                              (X := demo_floats) (B "1.5") (B "2.5") false))
                1.5%float 2.5%float (or_introl eq_refl) eq_refl eq_refl)
      as (_ & _ & Hlt & _).
    apply Hlt. reflexivity.
  - destruct (proj1 (proj2 (compareNumber_int_then_float_then_equal
                              (X := demo_floats) (B "1.5") (B "2.5") true))
                1.5%float 2.5%float (or_introl eq_refl) eq_refl eq_refl)
      as (_ & _ & Hlt & _).
    apply Hlt. reflexivity.
Defined.

(** * Properties of the scans *)

Section Scans.
Context `{X : Externals} {C : Type} `{Cur : Cursor C}.

Lemma FullScanPlan_loop_scan (fuel : nat) (f : FilterExec) (c : C) :
  FullScanPlan.loop fuel f c = scan_loop (fun _ => false) fuel f c.
Proof.
  revert c. induction fuel as [|fuel IH]; intros c; simpl; [reflexivity|].
  destruct (CursorNext c) as [[[key val] err] c'].
  destruct err; [reflexivity|]. destruct key; [|reflexivity].
  destruct (Filter f _) as [[ok [e|]]| |]; simpl; try reflexivity.
  destruct ok; [reflexivity|apply IH].
Qed.

Lemma PrefixScanPlan_loop_scan (fuel : nat) (f : FilterExec) (pb : list byte) (c : C) :
  PrefixScanPlan.loop fuel f pb c = scan_loop (fun k => negb (HasPrefix k pb)) fuel f c.
Proof.
  revert c. induction fuel as [|fuel IH]; intros c; simpl; [reflexivity|].
  destruct (CursorNext c) as [[[key val] err] c'].
  destruct err; [reflexivity|]. destruct key as [k|]; [|reflexivity].
  destruct (negb (HasPrefix k pb)); [reflexivity|].
  destruct (Filter f _) as [[ok [e|]]| |]; simpl; try reflexivity.
  destruct ok; [reflexivity|apply IH].
Qed.

Lemma RangeScanPlan_loop_scan (fuel : nat) (f : FilterExec) (end_ : slice) (c : C) :
  RangeScanPlan.loop fuel f end_ c = scan_loop (RangeScanPlan.beyond end_) fuel f c.
Proof.
  revert c. induction fuel as [|fuel IH]; intros c; simpl; [reflexivity|].
  destruct (CursorNext c) as [[[key val] err] c'].
  destruct err; [reflexivity|]. destruct key as [k|]; [|reflexivity].
  destruct (RangeScanPlan.beyond end_ k); [reflexivity|].
  destruct (Filter f _) as [[ok [e|]]| |]; simpl; try reflexivity.
  destruct ok; [reflexivity|apply IH].
Qed.

(** A result of the loop with a key is a row of the cursor that the scan
    did not stop at and that the filter accepts. *)
Lemma scan_loop_row (stop : list byte -> bool) (fuel : nat) (f : FilterExec) (c c' : C)
    (k : list byte) (v : slice) (err : option error) :
  scan_loop stop fuel f c = Ret ((Some k, v, err), c') ->
  err = None /\ stop k = false /\ Filter f (NewKVP (Some k) v) = Ret (true, None).
Proof.
  revert c. induction fuel as [|fuel IH]; intros c; simpl; [discriminate|].
  destruct (CursorNext c) as [[[key val] e] c1].
  destruct e; [discriminate|]. destruct key as [k1|]; [|discriminate].
  destruct (stop k1) eqn:Hstop; [discriminate|].
  intros H.
  destruct (Filter f (NewKVP (Some k1) val)) as [[ok [e|]]| |] eqn:HF;
    simpl in H; try discriminate.
  destruct ok.
  - inversion H; subst. auto.
  - eapply IH; eauto.
Qed.

End Scans.

(** * The statement of the design document on the scans *)

(** C1.  A result of [Next] of a scan that has a key has no error, and the
    filter returns true on its row; the key of a prefix scan starts with
    the prefix, and the key of a range scan is not greater than [End] when
    [End] is given. *)
Theorem scan_rows_pass_filter_and_bounds `{X : Externals} {C : Type} `{Cur : Cursor C}
    (fuel : nat) (k : list byte) (v : slice) (err : option error) :
  (forall p p', FullScanPlan.Next fuel p = Ret ((Some k, v, err), p') ->
     err = None /\ Filter (FullScanPlan.Filter_ p) (NewKVP (Some k) v) = Ret (true, None)) /\
  (forall p p', PrefixScanPlan.Next fuel p = Ret ((Some k, v, err), p') ->
     err = None /\ Filter (PrefixScanPlan.Filter_ p) (NewKVP (Some k) v) = Ret (true, None)
     /\ HasPrefix k (String.list_byte_of_string (PrefixScanPlan.Prefix p)) = true) /\
  (forall p p', RangeScanPlan.Next fuel p = Ret ((Some k, v, err), p') ->
     err = None /\ Filter (RangeScanPlan.Filter_ p) (NewKVP (Some k) v) = Ret (true, None)
     /\ forall e, RangeScanPlan.End_ p = Some e -> Compare k e <= 0).
Proof.
  split; [|split].
  - intros p p'. unfold FullScanPlan.Next.
    destruct (FullScanPlan.iter p) as [c|]; [|discriminate].
    rewrite FullScanPlan_loop_scan.
    destruct (scan_loop _ fuel _ c) as [[r c']| |] eqn:Hloop; simpl; try discriminate.
    intros H. inversion H; subst.
    apply scan_loop_row in Hloop. tauto.
  - intros p p'. unfold PrefixScanPlan.Next.
    destruct (PrefixScanPlan.iter p) as [c|]; [|discriminate].
    rewrite PrefixScanPlan_loop_scan.
    destruct (scan_loop _ fuel _ c) as [[r c']| |] eqn:Hloop; simpl; try discriminate.
    intros H. inversion H; subst.
    apply scan_loop_row in Hloop. destruct Hloop as (? & Hstop & ?).
    apply negb_false_iff in Hstop. auto.
  - intros p p'. unfold RangeScanPlan.Next.
    destruct (RangeScanPlan.iter p) as [c|]; [|discriminate].
    rewrite RangeScanPlan_loop_scan.
    destruct (scan_loop _ fuel _ c) as [[r c']| |] eqn:Hloop; simpl; try discriminate.
    intros H. inversion H; subst.
    apply scan_loop_row in Hloop. destruct Hloop as (? & Hstop & ?).
    split; [assumption|]. split; [assumption|].
    intros e He. unfold RangeScanPlan.beyond in Hstop. rewrite He in Hstop.
    rewrite Z.gtb_ltb in Hstop. apply Z.ltb_ge in Hstop. exact Hstop.
Qed.

(** The prefix scan of the store a1, a2, b1 with prefix "a" under the
    filter [value = "y"]: its row is a2. *)
Lemma scan_rows_pass_filter_and_bounds_witness :
  @Filter X0 value_is_y (NewKVP (Some (B "a2")) (Some (B "y"))) = Ret (true, None)
  /\ HasPrefix (B "a2") (B "a") = true.
Proof.
  assert (@PrefixScanPlan.Next X0 _ _ 3 prefix_a_scan
          = Ret ((Some (B "a2"), Some (B "y"), None),
                 PrefixScanPlan.with_iter prefix_a_scan (Some [kv "b1" "z"]))) as Hn
    by (vm_compute; reflexivity).
  destruct (proj1 (proj2 (scan_rows_pass_filter_and_bounds
                            (X := X0) (C := list stored)
                            3 (B "a2") (Some (B "y")) None)) _ _ Hn) as (_ & HF & HP).
  split; [exact HF|exact HP].
Defined.

(** * Properties of the limit *)

Section Limit.
Context {St : Type} `{Child : Plan St}.

Abbreviation limit_yields := (yields (P := LimitPlan_plan)).

(** Past the rows to discard, [Next] is [yield]. *)
Lemma LimitPlan_Next_skipped (start count cur sk : Z) (s : St) :
  start <= sk ->
  LimitPlan.Next (limit_state start count cur sk s)
  = LimitPlan.yield (limit_state start count cur sk s).
Proof.
  intros H. unfold LimitPlan.Next. simpl.
  replace (Z.to_nat (start - sk)) with 0%nat by lia. reflexivity.
Qed.

(** Past the rows to discard, the plan passes on the rows of its child
    until it has returned [Count] of them. *)
Lemma limit_yields_skipped (s s' : St) (rs : list (slice * slice)) :
  yields s rs s' ->
  forall start count cur sk, start <= sk ->
    exists p', limit_yields (limit_state start count cur sk s)
                 (take (Z.to_nat (count - cur)) rs) p'.
Proof.
  induction 1 as [s s' Hn|s s1 s' k v rs Hn Hrow Hrs IH];
    intros start count cur sk Hsk.
  - rewrite take_nil.
    assert (exists p', LimitPlan.yield (limit_state start count cur sk s)
                       = Ret (end_of_rows, p')) as [p' Hp'].
    { unfold LimitPlan.yield. simpl.
      destruct (cur >=? count); [eexists; reflexivity|].
      rewrite Hn. eexists; reflexivity. }
    exists p'. apply yields_end.
    change (@Next _ LimitPlan_plan ?p) with (LimitPlan.Next p).
    rewrite LimitPlan_Next_skipped by assumption. exact Hp'.
  - destruct (Z.geb_spec cur count) as [Hge|Hlt].
    + replace (Z.to_nat (count - cur)) with 0%nat by lia. simpl.
      eexists. apply yields_end.
      change (@Next _ LimitPlan_plan ?p) with (LimitPlan.Next p).
      rewrite LimitPlan_Next_skipped by assumption.
      unfold LimitPlan.yield. simpl.
      destruct (Z.geb_spec cur count); [reflexivity|lia].
    + replace (Z.to_nat (count - cur)) with (S (Z.to_nat (count - (cur + 1)))) by lia.
      simpl.
      destruct (IH start count (cur + 1) sk Hsk) as [p' Hp'].
      exists p'. eapply yields_row; [|exact Hrow|exact Hp'].
      change (@Next _ LimitPlan_plan ?p) with (LimitPlan.Next p).
      rewrite LimitPlan_Next_skipped by assumption.
      unfold LimitPlan.yield. simpl.
      destruct (Z.geb_spec cur count); [lia|].
      rewrite Hn. simpl. simpl in Hrow. rewrite Hrow. reflexivity.
Qed.

(** The loop that discards [n] rows: it takes them from the child and
    goes on with [yield], or ends with the child. *)
Lemma LimitPlan_skip_spec (n : nat) :
  forall (s s' : St) (rs : list (slice * slice)), yields s rs s' ->
  forall start count cur sk,
    ((n <= length rs)%nat ->
       exists sn, yields sn (drop n rs) s' /\
         LimitPlan.skip n (limit_state start count cur sk s)
         = LimitPlan.yield (limit_state start count cur (sk + Z.of_nat n) sn)) /\
    ((length rs < n)%nat ->
       LimitPlan.skip n (limit_state start count cur sk s)
       = finished (limit_state start count cur (sk + Z.of_nat (length rs)) s')).
Proof.
  induction n as [|n IH]; intros s s' rs Hy start count cur sk.
  - split; [|lia]. intros _. exists s. split; [exact Hy|].
    simpl. rewrite Z.add_0_r. reflexivity.
  - inversion Hy as [s0 s0' Hn|s0 s1 s0' k v rs' Hn Hrow Hrs]; subst.
    + split; [simpl; lia|]. intros _. simpl. rewrite Hn. simpl.
      rewrite Z.add_0_r. reflexivity.
    + destruct (IH s1 s' rs' Hrs start count cur (sk + 1)) as [IH1 IH2].
      split.
      * intros Hlen. simpl in Hlen.
        destruct IH1 as (sn & Hsn & Heq); [lia|].
        exists sn. split; [exact Hsn|].
        simpl. rewrite Hn. simpl. simpl in Hrow. rewrite Hrow.
        unfold limit_state in Heq. simpl. rewrite Heq.
        replace (sk + 1 + Z.of_nat n) with (sk + Z.pos (Pos.of_succ_nat n)) by lia.
        reflexivity.
      * intros Hlen. simpl in Hlen.
        simpl. rewrite Hn. simpl. simpl in Hrow. rewrite Hrow.
        unfold limit_state in IH2. simpl. rewrite IH2 by lia.
        replace (sk + 1 + Z.of_nat (length rs'))
          with (sk + Z.pos (Pos.of_succ_nat (length rs'))) by lia.
        reflexivity.
Qed.

Lemma yields_same_Next {S1 : Type} (P1 : Plan S1) (p q p' : S1)
    (out : list (slice * slice)) :
  @Next _ P1 p = @Next _ P1 q -> @yields _ P1 q out p' -> @yields _ P1 p out p'.
Proof.
  intros Heq Hy. inversion Hy; subst.
  - apply yields_end. rewrite Heq. assumption.
  - eapply yields_row; [rewrite Heq| |]; eassumption.
Qed.

Lemma limit_yields_from_Init (s s' : St) (rs : list (slice * slice)) (start count : Z) :
  0 <= start -> 0 <= count -> yields s rs s' ->
  exists p', limit_yields (limit_state start count 0 0 s)
               (take (Z.to_nat count) (drop (Z.to_nat start) rs)) p'.
Proof.
  intros Hs Hc Hy.
  destruct (LimitPlan_skip_spec (Z.to_nat start) s s' rs Hy start count 0 0) as [H1 H2].
  destruct (Nat.le_gt_cases (Z.to_nat start) (length rs)) as [Hle|Hgt].
  - destruct (H1 Hle) as (sn & Hsn & Heq).
    destruct (limit_yields_skipped sn s' _ Hsn start count 0 (0 + Z.of_nat (Z.to_nat start)))
      as [p' Hp']; [lia|].
    exists p'. rewrite Z.sub_0_r in Hp'.
    eapply yields_same_Next; [|exact Hp'].
    change (@Next _ LimitPlan_plan ?p) with (LimitPlan.Next p).
    rewrite (LimitPlan_Next_skipped start count 0 (0 + Z.of_nat (Z.to_nat start))) by lia.
    rewrite <- Heq. unfold LimitPlan.Next. simpl.
    rewrite Z.sub_0_r. reflexivity.
  - rewrite drop_ge by lia. rewrite take_nil.
    eexists. apply yields_end.
    change (@Next _ LimitPlan_plan ?p) with (LimitPlan.Next p).
    unfold LimitPlan.Next. simpl. rewrite Z.sub_0_r.
    rewrite (H2 Hgt). reflexivity.
Qed.

(** The same over a child that has [Start + Count] rows to give, whatever
    it does after them. *)
Lemma LimitPlan_skip_produces (n : nat) :
  forall (s s' : St) (rs : list (slice * slice)), produces s rs s' -> length rs = n ->
  forall start count cur sk,
    LimitPlan.skip n (limit_state start count cur sk s)
    = LimitPlan.yield (limit_state start count cur (sk + Z.of_nat n) s').
Proof.
  induction n as [|n IH]; intros s s' rs Hp Hlen start count cur sk.
  - destruct rs; [|discriminate]. inversion Hp; subst.
    simpl. rewrite Z.add_0_r. reflexivity.
  - inversion Hp as [|s0 s1 s0' k v rs' Hn Hrow Hrs]; subst; [discriminate|].
    simpl in Hlen. simpl. rewrite Hn. simpl. simpl in Hrow. rewrite Hrow.
    pose proof (IH s1 s' rs' Hrs ltac:(lia) start count cur (sk + 1)) as Heq.
    unfold limit_state in Heq. simpl. rewrite Heq.
    replace (sk + 1 + Z.of_nat n) with (sk + Z.pos (Pos.of_succ_nat n)) by lia.
    reflexivity.
Qed.

Lemma limit_yields_produced (s s' : St) (rs : list (slice * slice)) :
  produces s rs s' ->
  forall start count cur sk, start <= sk -> Z.of_nat (length rs) = count - cur ->
    exists p', limit_yields (limit_state start count cur sk s) rs p'.
Proof.
  induction 1 as [s|s s1 s' k v rs Hn Hrow Hrs IH]; intros start count cur sk Hsk Hlen.
  - eexists. apply yields_end.
    change (@Next _ LimitPlan_plan ?p) with (LimitPlan.Next p).
    rewrite LimitPlan_Next_skipped by assumption.
    unfold LimitPlan.yield. simpl. simpl in Hlen.
    destruct (Z.geb_spec cur count); [reflexivity|lia].
  - simpl in Hlen.
    destruct (IH start count (cur + 1) sk Hsk ltac:(lia)) as [p' Hp'].
    exists p'. eapply yields_row; [|exact Hrow|exact Hp'].
    change (@Next _ LimitPlan_plan ?p) with (LimitPlan.Next p).
    rewrite LimitPlan_Next_skipped by assumption.
    unfold LimitPlan.yield. simpl.
    destruct (Z.geb_spec cur count); [lia|].
    rewrite Hn. simpl. simpl in Hrow. rewrite Hrow. reflexivity.
Qed.

Lemma produces_app_inv {S1 : Type} (P1 : Plan S1) (n : nat) :
  forall (s s' : S1) (rs : list (slice * slice)),
    @produces _ P1 s rs s' -> (n <= length rs)%nat ->
    exists sn, @produces _ P1 s (take n rs) sn /\ @produces _ P1 sn (drop n rs) s'.
Proof.
  induction n as [|n IH]; intros s s' rs Hp Hlen.
  - exists s. split; [constructor|exact Hp].
  - inversion Hp as [|s0 s1 s0' k v rs' Hn Hrow Hrs]; subst; [simpl in Hlen; lia|].
    simpl in Hlen. destruct (IH s1 s' rs' Hrs ltac:(lia)) as (sn & H1 & H2).
    exists sn. split; [|exact H2]. simpl. eapply produces_row; eauto.
Qed.

Lemma limit_produced_from_Init (s s' : St) (rs : list (slice * slice)) (start count : Z) :
  0 <= start -> 0 <= count -> produces s rs s' ->
  Z.of_nat (length rs) = start + count ->
  exists p', limit_yields (limit_state start count 0 0 s) (drop (Z.to_nat start) rs) p'.
Proof.
  intros Hs Hc Hp Hlen.
  destruct (produces_app_inv _ (Z.to_nat start) s s' rs Hp ltac:(lia)) as (sn & H1 & H2).
  destruct (limit_yields_produced sn s' _ H2 start count 0 (0 + Z.of_nat (Z.to_nat start)))
    as [p' Hp']; [lia|rewrite length_drop; lia|].
  exists p'. eapply yields_same_Next; [|exact Hp'].
  change (@Next _ LimitPlan_plan ?p) with (LimitPlan.Next p).
  rewrite (LimitPlan_Next_skipped start count 0 (0 + Z.of_nat (Z.to_nat start))) by lia.
  unfold LimitPlan.Next. simpl. rewrite Z.sub_0_r.
  apply (LimitPlan_skip_produces (Z.to_nat start) s sn (take (Z.to_nat start) rs) H1).
  rewrite length_take. lia.
Qed.

End Limit.

(** What a plan yields is determined by its state. *)
Lemma yields_deterministic {St : Type} `{P : Plan St} (s p1 p2 : St)
    (out1 out2 : list (slice * slice)) :
  yields s out1 p1 -> yields s out2 p2 -> out1 = out2 /\ p1 = p2.
Proof.
  intros H1. revert out2 p2.
  induction H1 as [s s' Hn|s s1 s' k v rs Hn Hrow Hrs IH]; intros out2 p2 H2;
    inversion H2 as [t t' Hn2|t t1 t' k2 v2 rs2 Hn2 Hrow2 Hrs2]; subst;
    rewrite Hn in Hn2; inversion Hn2; subst.
  - auto.
  - discriminate.
  - discriminate.
  - destruct (IH _ _ Hrs2) as [-> ->]. auto.
Qed.

(** * The statement of the design document on the limit *)

(** C3.  Over a child that yields the rows [rs] and then ends, the limit
    plan with [Start >= 0] and [Count >= 0], once initialised, yields the
    rows of [rs] after the first [Start], up to [Count] of them and in the
    order of the child, then the end of the stream: nothing when the child
    has no more than [Start] rows.  It yields these rows and no others.
    Over a child that has [Start + Count] rows to give, whatever it does
    after them, the plan yields the last [Count] of these, then the end of
    the stream. *)
Theorem limit_discards_start_then_yields_count {St : Type} `{Child : Plan St}
    (s s' : St) (rs : list (slice * slice)) (start count : Z) :
  0 <= start -> 0 <= count ->
  (yields s rs s' ->
     (exists p', yields (P := LimitPlan_plan) (limit_state start count 0 0 s)
                   (take (Z.to_nat count) (drop (Z.to_nat start) rs)) p') /\
     (forall out p', yields (P := LimitPlan_plan) (limit_state start count 0 0 s) out p' ->
        out = take (Z.to_nat count) (drop (Z.to_nat start) rs))) /\
  (produces s rs s' -> Z.of_nat (length rs) = start + count ->
     (exists p', yields (P := LimitPlan_plan) (limit_state start count 0 0 s)
                   (drop (Z.to_nat start) rs) p') /\
     (forall out p', yields (P := LimitPlan_plan) (limit_state start count 0 0 s) out p' ->
        out = drop (Z.to_nat start) rs)).
Proof.
  intros Hs Hc. split.
  - intros Hy.
    destruct (limit_yields_from_Init s s' rs start count Hs Hc Hy) as [p' Hp'].
    split; [exists p'; exact Hp'|].
    intros out q Hq. destruct (yields_deterministic _ _ _ _ _ Hq Hp') as [-> _].
    reflexivity.
  - intros Hp Hlen.
    destruct (limit_produced_from_Init s s' rs start count Hs Hc Hp Hlen) as [p' Hp'].
    split; [exists p'; exact Hp'|].
    intros out q Hq. destruct (yields_deterministic _ _ _ _ _ Hq Hp') as [-> _].
    reflexivity.
Qed.

Lemma five_rows_yields :
  yields (P := list_Plan) five_rows
    [pair_of "k1" "v1"; pair_of "k2" "v2"; pair_of "k3" "v3"; pair_of "k4" "v4";
     pair_of "k5" "v5"] [].
Proof.
  repeat (eapply yields_row; [reflexivity|reflexivity|]).
  apply yields_end. reflexivity.
Defined.

(** The two examples of the design document: Limit(Start=2, Count=2) over
    five rows yields the third and the fourth; Limit(Start=10, Count=1)
    yields nothing. *)
Lemma limit_discards_start_then_yields_count_witness :
  (exists p', yields (P := LimitPlan_plan) (limit_state 2 2 0 0 five_rows)
                [pair_of "k3" "v3"; pair_of "k4" "v4"] p') /\
  (exists p', yields (P := LimitPlan_plan) (limit_state 10 1 0 0 five_rows) [] p').
Proof.
  split.
  - apply (proj1 (limit_discards_start_then_yields_count (Child := list_Plan)
                    five_rows [] _ 2 2 ltac:(lia) ltac:(lia)) five_rows_yields).
  - apply (proj1 (limit_discards_start_then_yields_count (Child := list_Plan)
                    five_rows [] _ 10 1 ltac:(lia) ltac:(lia)) five_rows_yields).
Defined.

(** * The order of byte slices *)

Lemma Compare_le_trans (a b c : list byte) :
  Compare a b <= 0 -> Compare b c <= 0 -> Compare a c <= 0.
Proof.
  revert b c. induction a as [|x a IH]; intros [|y b] [|z c]; simpl; try lia.
  unfold cmp_byte.
  destruct (N.compare_spec (Byte.to_N x) (Byte.to_N y));
    destruct (N.compare_spec (Byte.to_N y) (Byte.to_N z));
    destruct (N.compare_spec (Byte.to_N x) (Byte.to_N z));
    try lia.
  apply IH.
Qed.

(** Above the prefix, the keys that start with it come first. *)
Lemma HasPrefix_upward (p k1 k2 : list byte) :
  Compare p k1 <= 0 -> HasPrefix k1 p = false -> Compare k1 k2 <= 0 ->
  HasPrefix k2 p = false.
Proof.
  revert k1 k2. induction p as [|y p IH]; intros [|x k1] [|z k2]; simpl;
    try discriminate; try lia; try reflexivity.
  unfold cmp_byte.
  destruct (N.compare_spec (Byte.to_N y) (Byte.to_N x));
    destruct (N.compare_spec (Byte.to_N x) (Byte.to_N z));
    destruct (N.eqb_spec (Byte.to_N x) (Byte.to_N y));
    destruct (N.eqb_spec (Byte.to_N z) (Byte.to_N y));
    try lia; try reflexivity.
  apply IH.
Qed.

Lemma beyond_upward (end_ : slice) (k1 k2 : list byte) :
  RangeScanPlan.beyond end_ k1 = true -> Compare k1 k2 <= 0 ->
  RangeScanPlan.beyond end_ k2 = true.
Proof.
  destruct end_ as [e|]; simpl; [|discriminate].
  rewrite !Z.gtb_ltb. intros H1 H2. apply Z.ltb_lt in H1. apply Z.ltb_lt.
  destruct (Z.le_gt_cases (Compare k2 e) 0) as [Hle|Hgt]; [|lia].
  pose proof (Compare_le_trans _ _ _ H2 Hle). lia.
Qed.

(** * The end of the stream of a scan *)

Section ScanEnd.
Context `{X : Externals} {C : Type} `{Cur : Cursor C}.

Lemma cursor_ended_no_keys (c : C) :
  (forall n, cursor_ended n c) -> forall n, cursor_keys n c = [].
Proof.
  intros H n. revert c H. induction n as [|n IH]; intros c H; simpl; [reflexivity|].
  destruct (H 1%nat) as (v & c' & Hc & _). rewrite Hc.
  apply IH. intros m. destruct (H (S m)) as (v2 & c2 & Hc2 & Hm).
  rewrite Hc in Hc2. inversion Hc2; subst. exact Hm.
Qed.

Lemma barren_step (stop : list byte -> bool) (c c' : C) (r : row) :
  barren stop c -> CursorNext c = (r, c') ->
  barren stop c' /\ (forall k, r.1.1 = Some k -> stop k = true).
Proof.
  intros Hb Hc. split.
  - intros n. specialize (Hb (S n)). simpl in Hb. rewrite Hc in Hb.
    destruct r as [[[k|] v] e]; [inversion Hb; assumption|assumption].
  - intros k Hk. specialize (Hb 1%nat). simpl in Hb. rewrite Hc in Hb.
    destruct r as [[k0 v] e]. simpl in Hk. subst k0. inversion Hb; assumption.
Qed.

(** On a barren cursor one round of the loop returns no row. *)
Lemma scan_loop_barren (stop : list byte -> bool) (fuel : nat) (f : FilterExec) (c : C) :
  barren stop c ->
  exists err c', scan_loop stop (S fuel) f c = Ret ((None, None, err), c')
                 /\ barren stop c'.
Proof.
  intros Hb. simpl.
  destruct (CursorNext c) as [[[key val] err] c'] eqn:Hc.
  destruct (barren_step _ _ _ _ Hb Hc) as [Hb' Hk]. simpl in Hk.
  destruct err as [e|]; [exists (Some e), c'; auto|].
  destruct key as [k|]; [|exists None, c'; auto].
  rewrite (Hk k eq_refl). exists None, c'; auto.
Qed.

(** The loop returns the end of the stream at the end of the cursor or at
    a key that stops the scan; when the keys come in ascending order and
    the stopping keys are closed upwards among the keys [good] of the
    cursor, nothing but stopping keys is left. *)
Lemma scan_loop_end_barren (stop : list byte -> bool) (good : list byte -> Prop)
    (fuel : nat) (f : FilterExec) :
  cursor_end_is_final Cur ->
  (forall k1 k2, good k1 -> good k2 -> stop k1 = true -> Compare k1 k2 <= 0 ->
                 stop k2 = true) ->
  forall c c',
    ascending_from c ->
    (forall n, Forall good (cursor_keys n c)) ->
    scan_loop stop fuel f c = Ret (end_of_rows, c') ->
    barren stop c'.
Proof.
  intros Hfinal Hup. induction fuel as [|fuel IH]; intros c c' Hasc Hgood; simpl;
    [discriminate|].
  destruct (CursorNext c) as [[[key val] err] c1] eqn:Hc.
  assert (ascending_from c1) as Hasc1.
  { intros n. specialize (Hasc (S n)). simpl in Hasc. rewrite Hc in Hasc.
    destruct key; [inversion Hasc; assumption|assumption]. }
  assert (forall n, Forall good (cursor_keys n c1)) as Hgood1.
  { intros n. specialize (Hgood (S n)). simpl in Hgood. rewrite Hc in Hgood.
    destruct key; [inversion Hgood; assumption|assumption]. }
  destruct err as [e|]; [discriminate|].
  destruct key as [k|].
  - destruct (stop k) eqn:Hstop.
    + intros H. inversion H; subst c1. intros n.
      specialize (Hasc (S n)). simpl in Hasc. rewrite Hc in Hasc.
      specialize (Hgood (S n)). simpl in Hgood. rewrite Hc in Hgood.
      inversion Hasc as [|? ? _ Hall]; subst. inversion Hgood as [|? ? Hgk Hgl]; subst.
      rewrite Forall_forall in *. intros k2 Hk2.
      apply (Hup k k2); auto.
    + intros H.
      destruct (Filter f (NewKVP (Some k) val)) as [[ok [e|]]| |];
        simpl in H; try discriminate.
      destruct ok; [discriminate|]. eapply IH; eauto.
  - intros H. inversion H; subst c1. intros n.
    rewrite cursor_ended_no_keys; [constructor|].
    eapply Hfinal; eauto.
Qed.

Lemma cursor_ended_barren (stop : list byte -> bool) (c : C) :
  (forall n, cursor_ended n c) -> barren stop c.
Proof. intros H n. rewrite cursor_ended_no_keys by assumption. constructor. Qed.

(** At the end of the cursor one round of the loop returns the end of the
    stream. *)
Lemma scan_loop_cursor_ended (stop : list byte -> bool) (fuel : nat) (f : FilterExec)
    (c : C) :
  (forall n, cursor_ended n c) ->
  exists c', scan_loop stop (S fuel) f c = Ret (end_of_rows, c')
             /\ forall n, cursor_ended n c'.
Proof.
  intros H. simpl. destruct (H 1%nat) as (v & c' & Hc & _). rewrite Hc.
  exists c'. split; [reflexivity|].
  intros m. destruct (H (S m)) as (v2 & c2 & Hc2 & Hm).
  rewrite Hc in Hc2. inversion Hc2; subst. exact Hm.
Qed.

Lemma scan_loop_never_stops_end (fuel : nat) (f : FilterExec) (c c' : C) :
  cursor_end_is_final Cur ->
  scan_loop (fun _ => false) fuel f c = Ret (end_of_rows, c') ->
  forall n, cursor_ended n c'.
Proof.
  intros Hfinal. revert c. induction fuel as [|fuel IH]; intros c; simpl; [discriminate|].
  destruct (CursorNext c) as [[[key val] err] c1] eqn:Hc.
  destruct err as [e|]; [discriminate|].
  destruct key as [k|].
  - intros H.
    destruct (Filter f (NewKVP (Some k) val)) as [[ok [e|]]| |];
      simpl in H; try discriminate.
    destruct ok; [discriminate|]. eapply IH; eauto.
  - intros H. inversion H; subst c1. eapply Hfinal; eauto.
Qed.

End ScanEnd.

(** * The end of the stream of the plans without a heap *)

Lemma EmptyResultPlan_final : sentinel_is_final EmptyResultPlan_plan.
Proof.
  intros s s' _ n. revert s'. induction n as [|n IH]; intros s'; simpl; [exact I|].
  exists s'. split; [reflexivity|apply IH].
Qed.

Section ScanFinal.
Context `{X : Externals} {C : Type} `{Cur : Cursor C}.

Lemma FullScanPlan_ended (fuel : nat) (p : FullScanPlan.t C) (c : C) :
  FullScanPlan.iter p = Some c -> (forall n, cursor_ended n c) ->
  forall n, ended (P := FullScanPlan_plan (S fuel)) n p.
Proof.
  intros Hit Hc n. revert p c Hit Hc. induction n as [|n IH]; intros p c Hit Hc;
    [exact I|].
  destruct (scan_loop_cursor_ended (fun _ => false) fuel (FullScanPlan.Filter_ p) c Hc)
    as (c' & Hloop & Hc').
  eexists. split.
  - cbn [Next FullScanPlan_plan]. unfold FullScanPlan.Next.
    rewrite Hit, FullScanPlan_loop_scan, Hloop. reflexivity.
  - eapply IH; [reflexivity|exact Hc'].
Qed.

Lemma FullScanPlan_final (fuel : nat) :
  cursor_end_is_final Cur -> sentinel_is_final (FullScanPlan_plan (S fuel)).
Proof.
  intros Hfinal p p' Hn.
  cbn [Next FullScanPlan_plan] in Hn. unfold FullScanPlan.Next in Hn.
  destruct (FullScanPlan.iter p) as [c|]; [|discriminate].
  rewrite FullScanPlan_loop_scan in Hn.
  destruct (scan_loop _ (S fuel) _ c) as [[r c']| |] eqn:Hloop; try discriminate.
  cbn in Hn. inversion Hn; subst.
  eapply FullScanPlan_ended; [reflexivity|].
  eapply scan_loop_never_stops_end; eauto.
Qed.

Lemma PrefixScanPlan_rowless (fuel : nat) (p : PrefixScanPlan.t C) (c : C) :
  PrefixScanPlan.iter p = Some c ->
  barren (fun k => negb (HasPrefix k (String.list_byte_of_string (PrefixScanPlan.Prefix p))))
         c ->
  forall n, rowless (P := PrefixScanPlan_plan (S fuel)) n p.
Proof.
  intros Hit Hc n. revert p c Hit Hc. induction n as [|n IH]; intros p c Hit Hc;
    [exact I|].
  destruct (scan_loop_barren _ fuel (PrefixScanPlan.Filter_ p) c Hc)
    as (err & c' & Hloop & Hc').
  exists err. eexists. split.
  - cbn [Next PrefixScanPlan_plan]. unfold PrefixScanPlan.Next.
    rewrite Hit, PrefixScanPlan_loop_scan, Hloop. reflexivity.
  - eapply IH; [reflexivity|exact Hc'].
Qed.

Lemma PrefixScanPlan_end_rowless (fuel : nat) (p p' : PrefixScanPlan.t C) (c : C) :
  cursor_end_is_final Cur ->
  PrefixScanPlan.iter p = Some c ->
  ascending_from c ->
  not_below (String.list_byte_of_string (PrefixScanPlan.Prefix p)) c ->
  PrefixScanPlan.Next (S fuel) p = Ret (end_of_rows, p') ->
  forall n, rowless (P := PrefixScanPlan_plan (S fuel)) n p'.
Proof.
  intros Hfinal Hit Hasc Hlow Hn.
  unfold PrefixScanPlan.Next in Hn. rewrite Hit, PrefixScanPlan_loop_scan in Hn.
  destruct (scan_loop _ (S fuel) _ c) as [[r c']| |] eqn:Hloop; try discriminate.
  cbn in Hn. inversion Hn; subst.
  eapply PrefixScanPlan_rowless; [reflexivity|]. simpl.
  eapply (scan_loop_end_barren _
            (fun k => Compare (String.list_byte_of_string (PrefixScanPlan.Prefix p)) k <= 0));
    eauto.
  intros k1 k2 Hg1 Hg2 Hs Hle. apply negb_true_iff in Hs. apply negb_true_iff.
  exact (HasPrefix_upward _ k1 k2 Hg1 Hs Hle).
Qed.

Lemma RangeScanPlan_rowless (fuel : nat) (p : RangeScanPlan.t C) (c : C) :
  RangeScanPlan.iter p = Some c ->
  barren (RangeScanPlan.beyond (RangeScanPlan.End_ p)) c ->
  forall n, rowless (P := RangeScanPlan_plan (S fuel)) n p.
Proof.
  intros Hit Hc n. revert p c Hit Hc. induction n as [|n IH]; intros p c Hit Hc;
    [exact I|].
  destruct (scan_loop_barren _ fuel (RangeScanPlan.Filter_ p) c Hc)
    as (err & c' & Hloop & Hc').
  exists err. eexists. split.
  - cbn [Next RangeScanPlan_plan]. unfold RangeScanPlan.Next.
    rewrite Hit, RangeScanPlan_loop_scan, Hloop. reflexivity.
  - eapply IH; [reflexivity|exact Hc'].
Qed.

Lemma RangeScanPlan_end_rowless (fuel : nat) (p p' : RangeScanPlan.t C) (c : C) :
  cursor_end_is_final Cur ->
  RangeScanPlan.iter p = Some c ->
  ascending_from c ->
  RangeScanPlan.Next (S fuel) p = Ret (end_of_rows, p') ->
  forall n, rowless (P := RangeScanPlan_plan (S fuel)) n p'.
Proof.
  intros Hfinal Hit Hasc Hn.
  unfold RangeScanPlan.Next in Hn. rewrite Hit, RangeScanPlan_loop_scan in Hn.
  destruct (scan_loop _ (S fuel) _ c) as [[r c']| |] eqn:Hloop; try discriminate.
  cbn in Hn. inversion Hn; subst.
  eapply RangeScanPlan_rowless; [reflexivity|]. simpl.
  eapply (scan_loop_end_barren _ (fun _ => True)); eauto.
  - intros k1 k2 _ _. apply beyond_upward.
  - intros n. apply Forall_forall. auto.
Qed.

(** Multi-get returns the end of the stream when its keys are used up. *)
Lemma MultiGetPlan_loop_end (n : nat) (p p' : MultiGetPlan.t C) :
  n = Z.to_nat (MultiGetPlan.numKeys p - MultiGetPlan.idx p) ->
  MultiGetPlan.loop n p = Ret (end_of_rows, p') ->
  Z.to_nat (MultiGetPlan.numKeys p' - MultiGetPlan.idx p') = 0%nat.
Proof.
  revert p. induction n as [|n IH]; intros p Hn; simpl.
  - intros H. inversion H; subst. auto.
  - destruct (MultiGetPlan.idx p <? 0); [discriminate|].
    destruct (MultiGetPlan.Keys p !! _) as [k|]; [|discriminate].
    destruct (Get _ _) as [val [e|]]; [discriminate|].
    assert (n = Z.to_nat (MultiGetPlan.numKeys (MultiGetPlan.with_idx p (MultiGetPlan.idx p + 1))
                          - MultiGetPlan.idx (MultiGetPlan.with_idx p (MultiGetPlan.idx p + 1))))
      as Hn' by (simpl; lia).
    destruct val as [val|]; [|apply IH; exact Hn'].
    intros H.
    destruct (Filter _ _) as [[ok [e|]]| |]; simpl in H; try discriminate.
    destruct ok; [discriminate|]. eapply IH; eauto.
Qed.

Lemma MultiGetPlan_final : sentinel_is_final (MultiGetPlan_plan (C := C)).
Proof.
  intros p p' Hn. cbn [Next MultiGetPlan_plan] in Hn. unfold MultiGetPlan.Next in Hn.
  apply MultiGetPlan_loop_end in Hn; [|reflexivity].
  intros n. induction n as [|n IH]; [exact I|].
  exists p'. split; [|exact IH].
  cbn [Next MultiGetPlan_plan]. unfold MultiGetPlan.Next. rewrite Hn. reflexivity.
Qed.

End ScanFinal.

Lemma ended_all_step {St : Type} `{P : Plan St} (s : St) :
  (forall n, ended n s) ->
  exists s', Next s = Ret (end_of_rows, s') /\ forall n, ended n s'.
Proof.
  intros H. destruct (H 1%nat) as (s' & Hs & _). exists s'. split; [exact Hs|].
  intros m. destruct (H (S m)) as (s2 & Hs2 & Hm).
  rewrite Hs in Hs2. inversion Hs2; subst. exact Hm.
Qed.

Lemma Fended_all_step {St : Type} `{P : FinalPlan St} (s : St) :
  (forall n, Fended n s) ->
  exists s', FNext s = Ret (end_of_columns, s') /\ forall n, Fended n s'.
Proof.
  intros H. destruct (H 1%nat) as (s' & Hs & _). exists s'. split; [exact Hs|].
  intros m. destruct (H (S m)) as (s2 & Hs2 & Hm).
  rewrite Hs in Hs2. inversion Hs2; subst. exact Hm.
Qed.

Lemma is_end_true (r : row) : is_end r = true -> r = end_of_rows.
Proof. destruct r as [[[k|] [v|]] [e|]]; simpl; intros H; try discriminate; reflexivity. Qed.

Section LimitFinal.
Context {St : Type} `{Child : Plan St}.

Lemma LimitPlan_yield_end (p p' : LimitPlan.t St) :
  sentinel_is_final Child ->
  LimitPlan.Start p <= LimitPlan.skips p ->
  LimitPlan.yield p = Ret (end_of_rows, p') -> limit_done p'.
Proof.
  intros Hfinal Hsk. unfold LimitPlan.yield.
  destruct (Z.geb_spec (LimitPlan.current p) (LimitPlan.Count p)) as [Hge|Hlt].
  - intros H. inversion H; subst. right. split; assumption.
  - destruct (Next (LimitPlan.ChildPlan p)) as [[r c]| |] eqn:Hc; try discriminate.
    cbn. destruct r as [[k v] [e|]]; [discriminate|].
    destruct (is_end (k, v, None)) eqn:He.
    + intros H. inversion H; subst. left. simpl.
      apply is_end_true in He. rewrite He in Hc. eapply Hfinal; eauto.
    + intros H. inversion H; subst. discriminate.
Qed.

Lemma LimitPlan_skip_end (n : nat) (p p' : LimitPlan.t St) :
  sentinel_is_final Child ->
  n = Z.to_nat (LimitPlan.Start p - LimitPlan.skips p) ->
  LimitPlan.skip n p = Ret (end_of_rows, p') -> limit_done p'.
Proof.
  intros Hfinal. revert p. induction n as [|n IH]; intros p Hn; simpl.
  - apply LimitPlan_yield_end; [assumption|lia].
  - destruct (Next (LimitPlan.ChildPlan p)) as [[r c]| |] eqn:Hc; try discriminate.
    cbn. destruct r as [[k v] [e|]]; [discriminate|].
    destruct (is_end (k, v, None)) eqn:He.
    + intros H. inversion H; subst. left. simpl.
      apply is_end_true in He. rewrite He in Hc. eapply Hfinal; eauto.
    + apply IH. simpl. lia.
Qed.

Lemma LimitPlan_done_Next (p : LimitPlan.t St) :
  limit_done p -> exists p', LimitPlan.Next p = Ret (end_of_rows, p') /\ limit_done p'.
Proof.
  intros [Hc|[Hsk Hcur]].
  - destruct (ended_all_step _ Hc) as (c' & Hn & Hc').
    unfold LimitPlan.Next.
    destruct (Z.to_nat (LimitPlan.Start p - LimitPlan.skips p)) as [|n]; simpl.
    + unfold LimitPlan.yield.
      destruct (LimitPlan.current p >=? LimitPlan.Count p).
      * exists p. split; [reflexivity|left; exact Hc].
      * rewrite Hn. cbn. eexists. split; [reflexivity|left; exact Hc'].
    + rewrite Hn. cbn. eexists. split; [reflexivity|left; exact Hc'].
  - unfold LimitPlan.Next.
    replace (Z.to_nat (LimitPlan.Start p - LimitPlan.skips p)) with 0%nat by lia.
    simpl. unfold LimitPlan.yield.
    destruct (Z.geb_spec (LimitPlan.current p) (LimitPlan.Count p)); [|lia].
    exists p. split; [reflexivity|right; split; assumption].
Qed.

Lemma LimitPlan_final : sentinel_is_final Child -> sentinel_is_final LimitPlan_plan.
Proof.
  intros Hfinal p p' Hn.
  assert (limit_done p') as Hd.
  { eapply LimitPlan_skip_end; [exact Hfinal|reflexivity|exact Hn]. }
  clear Hn. intros n. revert p' Hd. induction n as [|n IH]; intros p' Hd; [exact I|].
  destruct (LimitPlan_done_Next _ Hd) as (q & Hq & Hdq).
  exists q. split; [exact Hq|apply IH; exact Hdq].
Qed.

End LimitFinal.

Section FinalLimitFinal.
Context {St : Type} `{Child : FinalPlan St}.

Lemma FinalLimitPlan_yield_end (p p' : FinalLimitPlan.t St) :
  Fsentinel_is_final Child ->
  FinalLimitPlan.Start p <= FinalLimitPlan.skips p ->
  FinalLimitPlan.yield p = Ret (end_of_columns, p') -> final_limit_done p'.
Proof.
  intros Hfinal Hsk. unfold FinalLimitPlan.yield.
  destruct (Z.geb_spec (FinalLimitPlan.current p) (FinalLimitPlan.Count p)) as [Hge|Hlt].
  - intros H. inversion H; subst. right. split; assumption.
  - destruct (FNext (FinalLimitPlan.ChildPlan p)) as [[r c]| |] eqn:Hc; try discriminate.
    cbn. destruct r as [cols [e|]]; [discriminate|].
    destruct cols as [cols|].
    + intros H. inversion H.
    + intros H. inversion H; subst. left. simpl. eapply Hfinal; eauto.
Qed.

Lemma FinalLimitPlan_skip_end (n : nat) (p p' : FinalLimitPlan.t St) :
  Fsentinel_is_final Child ->
  n = Z.to_nat (FinalLimitPlan.Start p - FinalLimitPlan.skips p) ->
  FinalLimitPlan.skip n p = Ret (end_of_columns, p') -> final_limit_done p'.
Proof.
  intros Hfinal. revert p. induction n as [|n IH]; intros p Hn; simpl.
  - apply FinalLimitPlan_yield_end; [assumption|lia].
  - destruct (FNext (FinalLimitPlan.ChildPlan p)) as [[r c]| |] eqn:Hc; try discriminate.
    cbn. destruct r as [cols [e|]]; [discriminate|].
    destruct cols as [cols|].
    + apply IH. simpl. lia.
    + intros H. inversion H; subst. left. simpl. eapply Hfinal; eauto.
Qed.

Lemma FinalLimitPlan_done_Next (p : FinalLimitPlan.t St) :
  final_limit_done p ->
  exists p', FinalLimitPlan.Next p = Ret (end_of_columns, p') /\ final_limit_done p'.
Proof.
  intros [Hc|[Hsk Hcur]].
  - destruct (Fended_all_step _ Hc) as (c' & Hn & Hc').
    unfold FinalLimitPlan.Next.
    destruct (Z.to_nat (FinalLimitPlan.Start p - FinalLimitPlan.skips p)) as [|n]; simpl.
    + unfold FinalLimitPlan.yield.
      destruct (FinalLimitPlan.current p >=? FinalLimitPlan.Count p).
      * exists p. split; [reflexivity|left; exact Hc].
      * rewrite Hn. cbn. eexists. split; [reflexivity|left; exact Hc'].
    + rewrite Hn. cbn. eexists. split; [reflexivity|left; exact Hc'].
  - unfold FinalLimitPlan.Next.
    replace (Z.to_nat (FinalLimitPlan.Start p - FinalLimitPlan.skips p)) with 0%nat by lia.
    simpl. unfold FinalLimitPlan.yield.
    destruct (Z.geb_spec (FinalLimitPlan.current p) (FinalLimitPlan.Count p)); [|lia].
    exists p. split; [reflexivity|right; split; assumption].
Qed.

Lemma FinalLimitPlan_final :
  Fsentinel_is_final Child -> Fsentinel_is_final FinalLimitPlan_plan.
Proof.
  intros Hfinal p p' Hn.
  assert (final_limit_done p') as Hd.
  { eapply FinalLimitPlan_skip_end; [exact Hfinal|reflexivity|exact Hn]. }
  clear Hn. intros n. revert p' Hd. induction n as [|n IH]; intros p' Hd; [exact I|].
  destruct (FinalLimitPlan_done_Next _ Hd) as (q & Hq & Hdq).
  exists q. split; [exact Hq|apply IH; exact Hdq].
Qed.

End FinalLimitFinal.

(** * The heap *)

Section HeapPermutation.
Context {A : Type} (less : A -> A -> res bool).

Lemma insert_one_Permutation (l : list A) (j : nat) (a y : A) :
  l !! j = Some y -> y :: <[j := a]> l ≡ₚ a :: l.
Proof.
  revert j. induction l as [|b l IH]; intros [|j]; simpl; try discriminate.
  - intros [= ->]. apply perm_swap.
  - intros Hj. rewrite perm_swap. rewrite (IH _ Hj). apply perm_swap.
Qed.

Lemma swapped_Permutation (h : list A) (i j : nat) (x y : A) :
  h !! i = Some x -> h !! j = Some y -> <[i := y]> (<[j := x]> h) ≡ₚ h.
Proof.
  revert i j. induction h as [|a h IH]; intros [|i] [|j]; simpl; try discriminate.
  - intros [= ->] [= ->]. reflexivity.
  - intros [= ->] Hj. apply insert_one_Permutation. exact Hj.
  - intros Hi [= ->]. apply insert_one_Permutation. exact Hi.
  - intros Hi Hj. rewrite (IH _ _ Hi Hj). reflexivity.
Qed.

Lemma swapped_lookup (h : list A) (i j k : nat) (x y : A) :
  h !! i = Some x -> h !! j = Some y ->
  <[i := y]> (<[j := x]> h) !! k
  = if decide (k = i) then Some y else if decide (k = j) then Some x else h !! k.
Proof.
  intros Hi Hj.
  pose proof (lookup_lt_Some _ _ _ Hi). pose proof (lookup_lt_Some _ _ _ Hj).
  destruct (decide (k = i)) as [->|Hki].
  - apply list_lookup_insert_eq. rewrite length_insert. assumption.
  - rewrite list_lookup_insert_ne by congruence.
    destruct (decide (k = j)) as [->|Hkj].
    + apply list_lookup_insert_eq. assumption.
    + apply list_lookup_insert_ne. congruence.
Qed.

Lemma Swap_inv (h h' : list A) (i j : nat) :
  heap.Swap h i j = Ret h' ->
  exists x y, h !! i = Some x /\ h !! j = Some y /\ h' = <[i := y]> (<[j := x]> h).
Proof.
  unfold heap.Swap. destruct (h !! i) as [x|]; [|discriminate].
  destruct (h !! j) as [y|]; [|discriminate].
  intros [= <-]. eauto.
Qed.

Lemma Swap_Permutation (h h' : list A) (i j : nat) :
  heap.Swap h i j = Ret h' -> h ≡ₚ h'.
Proof.
  intros H. apply Swap_inv in H. destruct H as (x & y & Hi & Hj & ->).
  symmetry. apply swapped_Permutation; assumption.
Qed.

Lemma up_unfold (fuel : nat) (h : list A) (j : nat) :
  heap.up less (S fuel) h j =
  if (((j - 1) / 2)%nat =? j)%nat then Ret h else
  b ← heap.Less less h j ((j - 1) / 2)%nat;
  if negb b then Ret h else
  h' ← heap.Swap h ((j - 1) / 2)%nat j;
  heap.up less fuel h' ((j - 1) / 2)%nat.
Proof. reflexivity. Qed.

Lemma down_unfold (fuel : nat) (h : list A) (i n : nat) :
  heap.down less (S fuel) h i n =
  if (n <=? 2 * i + 1)%nat then Ret h else
  b2 ← (if (2 * i + 1 + 1 <? n)%nat then heap.Less less h (2 * i + 1 + 1) (2 * i + 1)
        else Ret false);
  b ← heap.Less less h (if (b2 : bool) then 2 * i + 1 + 1 else 2 * i + 1)%nat i;
  if negb b then Ret h else
  h' ← heap.Swap h i (if (b2 : bool) then 2 * i + 1 + 1 else 2 * i + 1)%nat;
  heap.down less fuel h' (if (b2 : bool) then 2 * i + 1 + 1 else 2 * i + 1)%nat n.
Proof. reflexivity. Qed.

Lemma up_Permutation (fuel : nat) (h h' : list A) (j : nat) :
  heap.up less fuel h j = Ret h' -> h ≡ₚ h'.
Proof.
  revert h j. induction fuel as [|fuel IH]; intros h j; [discriminate|].
  rewrite up_unfold.
  destruct (((j - 1) / 2)%nat =? j)%nat; [intros [= <-]; reflexivity|].
  destruct (heap.Less less h j _) as [b| |]; cbn; try discriminate.
  destruct b; cbn; [|intros [= <-]; reflexivity].
  destruct (heap.Swap h _ j) as [h1| |] eqn:Hs; cbn; try discriminate.
  intros H. rewrite (Swap_Permutation _ _ _ _ Hs). eapply IH; eauto.
Qed.

Lemma down_Permutation (fuel : nat) (h h' : list A) (i n : nat) :
  heap.down less fuel h i n = Ret h' -> h ≡ₚ h'.
Proof.
  revert h i. induction fuel as [|fuel IH]; intros h i; [discriminate|].
  rewrite down_unfold.
  destruct (n <=? 2 * i + 1)%nat; [intros [= <-]; reflexivity|].
  destruct (if (2 * i + 1 + 1 <? n)%nat then _ else _) as [b2| |]; cbn; try discriminate.
  destruct (heap.Less less h _ i) as [b| |]; cbn; try discriminate.
  destruct b; cbn; [|intros [= <-]; reflexivity].
  destruct (heap.Swap h i _) as [h1| |] eqn:Hs; cbn; try discriminate.
  intros H. rewrite (Swap_Permutation _ _ _ _ Hs). eapply IH; eauto.
Qed.

Lemma Push_Permutation (h h' : list A) (x : A) :
  heap.Push less h x = Ret h' -> h' ≡ₚ x :: h.
Proof.
  unfold heap.Push. intros H. apply up_Permutation in H.
  rewrite <- H. symmetry. apply Permutation_cons_append.
Qed.

Lemma Pop_Permutation (h h' : list A) (x : A) :
  heap.Pop less h = Ret (x, h') -> h ≡ₚ x :: h'.
Proof.
  unfold heap.Pop. destruct (length h) as [|n] eqn:Hlen; [discriminate|].
  intros H.
  destruct (heap.Swap h 0 n) as [h1| |] eqn:Hs; cbn [mbind res_bind] in H;
    try discriminate.
  destruct (heap.down less (S n) h1 0 n) as [h2| |] eqn:Hd; cbn [mbind res_bind] in H;
    try discriminate.
  destruct (h2 !! n) as [y|] eqn:Hy; [|discriminate].
  inversion H; subst.
  rewrite (Swap_Permutation _ _ _ _ Hs), (down_Permutation _ _ _ _ _ Hd).
  rewrite <- (take_drop_middle h2 n x Hy) at 1.
  assert (length h2 = S n) as Hl2.
  { rewrite <- (Permutation_length (down_Permutation _ _ _ _ _ Hd)).
    rewrite <- (Permutation_length (Swap_Permutation _ _ _ _ Hs)). exact Hlen. }
  rewrite drop_ge by lia.
  symmetry. apply Permutation_cons_append.
Qed.

End HeapPermutation.

Lemma parent_children (k j : nat) :
  (0 < k)%nat -> ((k - 1) / 2 = j)%nat <-> (k = 2 * j + 1 \/ k = 2 * j + 2)%nat.
Proof.
  intros Hk.
  pose proof (Nat.div_mod_eq (k - 1) 2) as H.
  pose proof (Nat.mod_upper_bound (k - 1) 2 ltac:(lia)) as H'.
  split; [intros <-; lia|].
  intros [->| ->].
  - replace (2 * j + 1 - 1)%nat with (j * 2)%nat by lia. apply Nat.div_mul. lia.
  - replace (2 * j + 2 - 1)%nat with (1 + j * 2)%nat by lia.
    rewrite Nat.div_add by lia. reflexivity.
Qed.

Lemma parent_lt (k : nat) : (0 < k)%nat -> ((k - 1) / 2 < k)%nat.
Proof.
  intros Hk. pose proof (Nat.div_mod_eq (k - 1) 2) as H.
  pose proof (Nat.mod_upper_bound (k - 1) 2 ltac:(lia)) as H'. lia.
Qed.

Lemma parent_fix (j : nat) : ((j - 1) / 2 = j)%nat -> j = 0%nat.
Proof.
  intros H. destruct j as [|j]; [reflexivity|].
  pose proof (parent_lt (S j) ltac:(lia)). lia.
Qed.

Section HeapOrder.
Context {A : Type} (less : A -> A -> res bool) (U : list A).
Hypothesis less_returns : forall a b, a ∈ U -> b ∈ U -> exists r, less a b = Ret r.
Hypothesis less_asym : forall a b, a ∈ U -> b ∈ U -> less a b = Ret true -> less b a = Ret false.
Hypothesis not_above_trans : forall a b c, a ∈ U -> b ∈ U -> c ∈ U ->
  not_above less a b -> not_above less b c -> not_above less a c.

Lemma not_above_refl (a : A) : a ∈ U -> not_above less a a.
Proof.
  intros Ha. unfold not_above. destruct (less_returns a a Ha Ha) as [[|] Hr]; [|exact Hr].
  apply less_asym; assumption.
Qed.

Lemma Less_lookup (h : list A) (i j : nat) (x y : A) :
  h !! i = Some x -> h !! j = Some y -> heap.Less less h i j = less x y.
Proof. intros Hi Hj. unfold heap.Less. rewrite Hi, Hj. reflexivity. Qed.

Lemma Swap_lookup (h : list A) (i j : nat) (x y : A) :
  h !! i = Some x -> h !! j = Some y ->
  heap.Swap h i j = Ret (<[i := y]> (<[j := x]> h)).
Proof. intros Hi Hj. unfold heap.Swap. rewrite Hi, Hj. reflexivity. Qed.

(** [up] restores the order of a slice that is a heap but for the element
    at [j], which may be less than its parent. *)
Lemma up_ordered (fuel : nat) :
  forall (h : list A) (j : nat),
    (j < fuel)%nat -> (j < length h)%nat -> (forall x, x ∈ h -> x ∈ U) ->
    (forall k x y, (0 < k)%nat -> k <> j ->
       h !! k = Some y -> h !! ((k - 1) / 2)%nat = Some x -> not_above less x y) ->
    (forall k x y, (0 < j)%nat -> (0 < k)%nat -> ((k - 1) / 2)%nat = j ->
       h !! k = Some y -> h !! ((j - 1) / 2)%nat = Some x -> not_above less x y) ->
    exists h', heap.up less fuel h j = Ret h' /\ heap_ordered less h'.
Proof.
  induction fuel as [|fuel IH]; intros h j Hfuel Hj HU Hrest Hgrand; [lia|].
  rewrite up_unfold.
  destruct (Nat.eqb_spec ((j - 1) / 2) j) as [Heq|Hne].
  - apply parent_fix in Heq. subst j. exists h. split; [reflexivity|].
    intros k x y Hk Hy Hx. eapply Hrest; eauto. lia.
  - assert (0 < j)%nat as Hj0 by (destruct j; [simpl in Hne; congruence|lia]).
    pose proof (parent_lt j Hj0) as Hlt.
    set (i := ((j - 1) / 2)%nat) in *.
    destruct (lookup_lt_is_Some_2 h j Hj) as [yj Hyj].
    destruct (lookup_lt_is_Some_2 h i ltac:(lia)) as [xi Hxi].
    assert (yj ∈ U) as HyU by (apply HU; eapply list_elem_of_lookup_2; eauto).
    assert (xi ∈ U) as HxU by (apply HU; eapply list_elem_of_lookup_2; eauto).
    rewrite (Less_lookup h j i yj xi Hyj Hxi).
    destruct (less_returns yj xi HyU HxU) as [[|] Hr]; rewrite Hr;
      cbn [mbind res_bind negb].
    + (* the element at j is less than its parent: they change places *)
      rewrite (Swap_lookup h i j xi yj Hxi Hyj). cbn [mbind res_bind].
      pose proof (less_asym _ _ HyU HxU Hr) as Hyx.
      apply IH.
      * lia.
      * rewrite !length_insert. lia.
      * intros x Hx. apply HU.
        rewrite <- (swapped_Permutation h i j xi yj Hxi Hyj). exact Hx.
      * intros k x y Hk Hki.
        rewrite !(swapped_lookup h i j _ xi yj Hxi Hyj).
        destruct (decide (k = i)) as [->|_]; [congruence|].
        destruct (decide (k = j)) as [->|Hkj].
        -- fold i. rewrite decide_True by reflexivity.
           intros [= <-] [= <-]. exact Hyx.
        -- pose proof (parent_lt k Hk).
           destruct (decide (((k - 1) / 2)%nat = i)) as [Hpi|Hpi].
           ++ intros Hy [= <-].
              assert (y ∈ U) by (apply HU; eapply list_elem_of_lookup_2; eauto).
              apply (not_above_trans yj xi y); auto.
              apply (Hrest k); auto. rewrite Hpi. exact Hxi.
           ++ destruct (decide (((k - 1) / 2)%nat = j)) as [Hpj|Hpj].
              ** intros Hy [= <-]. apply (Hgrand k); auto.
              ** intros Hy Hx. apply (Hrest k); auto.
      * intros k x y Hi0 Hk Hpk.
        pose proof (parent_lt i Hi0) as Hlti.
        rewrite !(swapped_lookup h i j _ xi yj Hxi Hyj).
        destruct (decide (k = i)) as [->|_]; [pose proof (parent_lt i Hi0); lia|].
        rewrite (decide_False (P := ((i - 1) / 2)%nat = i)) by lia.
        rewrite (decide_False (P := ((i - 1) / 2)%nat = j)) by lia.
        destruct (decide (k = j)) as [->|Hkj].
        -- intros [= <-] Hx. apply (Hrest i); auto; lia.
        -- intros Hy Hx.
           assert (y ∈ U) by (apply HU; eapply list_elem_of_lookup_2; eauto).
           assert (x ∈ U) by (apply HU; eapply list_elem_of_lookup_2; eauto).
           apply (not_above_trans x xi y); auto.
           ++ apply (Hrest i); auto; lia.
           ++ apply (Hrest k); auto. rewrite Hpk. exact Hxi.
    + (* the element at j is not less than its parent *)
      exists h. split; [reflexivity|].
      intros k x y Hk Hy Hx.
      destruct (decide (k = j)) as [->|Hkj].
      * fold i in Hx. rewrite Hyj in Hy. rewrite Hxi in Hx.
        injection Hy as <-. injection Hx as <-. exact Hr.
      * eapply Hrest; eauto.
Qed.

(** [down] restores the order among the first [n] elements of a slice
    that is a heap there but for the element at [i], which may be above
    its children. *)
Lemma down_ordered (fuel : nat) :
  forall (h : list A) (i n : nat),
    (n - i < fuel)%nat -> (n <= length h)%nat -> (forall x, x ∈ h -> x ∈ U) ->
    (forall k x y, (0 < k)%nat -> (k < n)%nat -> ((k - 1) / 2)%nat <> i ->
       h !! k = Some y -> h !! ((k - 1) / 2)%nat = Some x -> not_above less x y) ->
    (forall k x y, (0 < i)%nat -> (0 < k)%nat -> (k < n)%nat -> ((k - 1) / 2)%nat = i ->
       h !! k = Some y -> h !! ((i - 1) / 2)%nat = Some x -> not_above less x y) ->
    exists h', heap.down less fuel h i n = Ret h' /\
      (forall k, (n <= k)%nat -> h' !! k = h !! k) /\
      (forall k x y, (0 < k)%nat -> (k < n)%nat ->
         h' !! k = Some y -> h' !! ((k - 1) / 2)%nat = Some x -> not_above less x y).
Proof.
  induction fuel as [|fuel IH]; intros h i n Hfuel Hn HU Hrest Hgrand; [lia|].
  rewrite down_unfold.
  destruct (Nat.leb_spec n (2 * i + 1)) as [Hle|Hgt].
  - exists h. split; [reflexivity|]. split; [reflexivity|].
    intros k x y Hk Hkn Hy Hx. apply (Hrest k); auto.
    intros Hp. apply parent_children in Hp; [lia|assumption].
  - destruct (lookup_lt_is_Some_2 h i ltac:(lia)) as [xi Hxi].
    destruct (lookup_lt_is_Some_2 h (2 * i + 1) ltac:(lia)) as [y1 Hy1].
    assert (xi ∈ U) as HxU by (apply HU; eapply list_elem_of_lookup_2; eauto).
    assert (y1 ∈ U) as Hy1U by (apply HU; eapply list_elem_of_lookup_2; eauto).
    (* the smaller child *)
    assert (exists (b2 : bool) yj,
              (if (2 * i + 1 + 1 <? n)%nat
               then heap.Less less h (2 * i + 1 + 1) (2 * i + 1) else Ret false) = Ret b2
              /\ h !! (if b2 then 2 * i + 1 + 1 else 2 * i + 1)%nat = Some yj
              /\ ((if b2 then 2 * i + 1 + 1 else 2 * i + 1) < n)%nat
              /\ forall k y, (0 < k)%nat -> (k < n)%nat -> ((k - 1) / 2)%nat = i ->
                   h !! k = Some y -> not_above less yj y)
      as (b2 & yj & Hb2 & Hyj & Hjn & Hmin).
    { destruct (Nat.ltb_spec (2 * i + 1 + 1) n) as [H2|H2].
      - destruct (lookup_lt_is_Some_2 h (2 * i + 1 + 1) ltac:(lia)) as [y2 Hy2].
        assert (y2 ∈ U) as Hy2U by (apply HU; eapply list_elem_of_lookup_2; eauto).
        rewrite (Less_lookup h _ _ y2 y1 Hy2 Hy1).
        destruct (less_returns y2 y1 Hy2U Hy1U) as [[|] Hr]; rewrite Hr.
        + exists true, y2. split; [reflexivity|]. split; [exact Hy2|]. split; [lia|].
          intros k y Hk Hkn Hp Hy. apply parent_children in Hp; [|assumption].
          destruct Hp as [->| ->].
          * rewrite Hy1 in Hy. injection Hy as <-. apply less_asym; assumption.
          * replace (2 * i + 2)%nat with (2 * i + 1 + 1)%nat in Hy by lia.
            rewrite Hy2 in Hy. injection Hy as <-. apply not_above_refl; assumption.
        + exists false, y1. split; [reflexivity|]. split; [exact Hy1|]. split; [lia|].
          intros k y Hk Hkn Hp Hy. apply parent_children in Hp; [|assumption].
          destruct Hp as [->| ->].
          * rewrite Hy1 in Hy. injection Hy as <-. apply not_above_refl; assumption.
          * replace (2 * i + 2)%nat with (2 * i + 1 + 1)%nat in Hy by lia.
            rewrite Hy2 in Hy. injection Hy as <-. exact Hr.
      - exists false, y1. split; [reflexivity|]. split; [exact Hy1|]. split; [lia|].
        intros k y Hk Hkn Hp Hy. apply parent_children in Hp; [|assumption].
        destruct Hp as [->| ->]; [|lia].
        rewrite Hy1 in Hy. injection Hy as <-. apply not_above_refl; assumption. }
    rewrite Hb2. cbn [mbind res_bind].
    set (j := (if b2 then 2 * i + 1 + 1 else 2 * i + 1)%nat) in *.
    assert (i < j)%nat as Hij by (subst j; destruct b2; lia).
    assert (((j - 1) / 2)%nat = i) as Hpj
      by (apply parent_children; [lia|subst j; destruct b2; lia]).
    assert (yj ∈ U) as HyU by (apply HU; eapply list_elem_of_lookup_2; eauto).
    rewrite (Less_lookup h j i yj xi Hyj Hxi).
    destruct (less_returns yj xi HyU HxU) as [[|] Hr]; rewrite Hr;
      cbn [mbind res_bind negb].
    + (* the smaller child is less than the element at i: they change places *)
      rewrite (Swap_lookup h i j xi yj Hxi Hyj). cbn [mbind res_bind].
      pose proof (less_asym _ _ HyU HxU Hr) as Hyx.
      destruct (IH (<[i := yj]> (<[j := xi]> h)) j n) as (h' & Hd & Hout & Hord).
      * lia.
      * rewrite !length_insert. exact Hn.
      * intros x Hx. apply HU.
        rewrite <- (swapped_Permutation h i j xi yj Hxi Hyj). exact Hx.
      * intros k x y Hk Hkn Hpk.
        rewrite !(swapped_lookup h i j _ xi yj Hxi Hyj).
        pose proof (parent_lt k Hk) as Hltk.
        destruct (decide (k = i)) as [->|Hki].
        -- rewrite (decide_False (P := ((i - 1) / 2)%nat = i)) by lia.
           rewrite (decide_False (P := ((i - 1) / 2)%nat = j)) by lia.
           intros [= <-] Hx. apply (Hgrand j); auto; lia.
        -- destruct (decide (k = j)) as [->|Hkj].
           ++ rewrite Hpj. rewrite decide_True by reflexivity.
              intros [= <-] [= <-]. exact Hyx.
           ++ destruct (decide (((k - 1) / 2)%nat = i)) as [Hpi|Hpi].
              ** intros Hy [= <-]. apply (Hmin k); auto.
              ** rewrite decide_False by exact Hpk.
                 intros Hy Hx. apply (Hrest k); auto.
      * intros k x y Hj0 Hk Hkn Hpk.
        rewrite !(swapped_lookup h i j _ xi yj Hxi Hyj).
        pose proof (parent_lt k Hk) as Hltk.
        rewrite (decide_False (P := k = i)) by lia.
        rewrite (decide_False (P := k = j)) by lia.
        rewrite Hpj. rewrite decide_True by reflexivity.
        intros Hy [= <-]. apply (Hrest k); auto; [lia|]. rewrite Hpk. exact Hyj.
      * exists h'. split; [exact Hd|]. split; [|exact Hord].
        intros k Hk. rewrite (Hout k Hk).
        rewrite (swapped_lookup h i j _ xi yj Hxi Hyj).
        rewrite (decide_False (P := k = i)) by lia.
        rewrite (decide_False (P := k = j)) by lia. reflexivity.
    + (* the element at i is not above its children *)
      exists h. split; [reflexivity|]. split; [reflexivity|].
      intros k x y Hk Hkn Hy Hx.
      destruct (decide (((k - 1) / 2)%nat = i)) as [Hpk|Hpk].
      * rewrite Hpk, Hxi in Hx. injection Hx as <-.
        assert (y ∈ U) by (apply HU; eapply list_elem_of_lookup_2; eauto).
        apply (not_above_trans xi yj y); auto. apply (Hmin k); auto.
      * apply (Hrest k); auto.
Qed.

(** The root of a heap is not above any element. *)
Lemma root_not_above (h : list A) (r : A) :
  (forall x, x ∈ h -> x ∈ U) -> heap_ordered less h -> h !! 0%nat = Some r ->
  forall k y, h !! k = Some y -> not_above less r y.
Proof.
  intros HU Hord Hr k. induction k as [k IH] using lt_wf_ind. intros y Hy.
  assert (r ∈ U) as HrU by (apply HU; eapply list_elem_of_lookup_2; eauto).
  destruct k as [|k].
  - rewrite Hr in Hy. injection Hy as <-. apply not_above_refl. exact HrU.
  - pose proof (parent_lt (S k) ltac:(lia)) as Hlt.
    destruct (lookup_lt_is_Some_2 h ((S k - 1) / 2)%nat) as [x Hx].
    { apply lookup_lt_Some in Hy. lia. }
    assert (y ∈ U) by (apply HU; eapply list_elem_of_lookup_2; eauto).
    assert (x ∈ U) by (apply HU; eapply list_elem_of_lookup_2; eauto).
    apply (not_above_trans r x y); auto.
    + apply (IH _ Hlt x Hx).
    + apply (Hord (S k)); auto. lia.
Qed.

(** [Push] keeps a heap a heap. *)
Lemma Push_ordered (h : list A) (x : A) :
  (forall y, y ∈ h -> y ∈ U) -> x ∈ U -> heap_ordered less h ->
  exists h', heap.Push less h x = Ret h' /\ heap_ordered less h'.
Proof.
  intros HU Hx Hord. unfold heap.Push.
  rewrite length_app. simpl. replace (length h + 1 - 1)%nat with (length h) by lia.
  apply up_ordered.
  - lia.
  - rewrite length_app. simpl. lia.
  - intros y Hy. apply elem_of_app in Hy. destruct Hy as [Hy|Hy]; [auto|].
    apply list_elem_of_singleton in Hy. subst. exact Hx.
  - intros k a b Hk Hkj Hb Ha.
    pose proof (parent_lt k Hk) as Hlt.
    assert (k < length h)%nat as Hkl.
    { apply lookup_lt_Some in Hb. rewrite length_app in Hb. simpl in Hb. lia. }
    rewrite lookup_app_l in Hb by lia. rewrite lookup_app_l in Ha by lia.
    apply (Hord k); auto.
  - intros k a b Hj Hk Hp Hb Ha.
    apply lookup_lt_Some in Hb. rewrite length_app in Hb. simpl in Hb.
    apply parent_children in Hp; [lia|assumption].
Qed.

(** [Pop] returns the root of a heap, which is not above any element, and
    leaves a heap. *)
Lemma Pop_ordered (h : list A) :
  (forall y, y ∈ h -> y ∈ U) -> heap_ordered less h -> h <> [] ->
  exists x h', heap.Pop less h = Ret (x, h') /\ heap_ordered less h' /\
               forall y, y ∈ h -> not_above less x y.
Proof.
  intros HU Hord Hne. unfold heap.Pop.
  destruct (length h) as [|n] eqn:Hlen; [destruct h; [congruence|discriminate]|].
  destruct (lookup_lt_is_Some_2 h 0%nat ltac:(lia)) as [r Hr].
  destruct (lookup_lt_is_Some_2 h n ltac:(lia)) as [z Hz].
  rewrite (Swap_lookup h 0 n r z Hr Hz). cbn [mbind res_bind].
  destruct (down_ordered (S n) (<[0%nat := z]> (<[n := r]> h)) 0 n)
    as (h2 & Hd & Hout & Hord2).
  - lia.
  - rewrite !length_insert. lia.
  - intros x Hx. apply HU.
    rewrite <- (swapped_Permutation h 0 n r z Hr Hz). exact Hx.
  - intros k x y Hk Hkn Hp.
    rewrite !(swapped_lookup h 0 n _ r z Hr Hz).
    pose proof (parent_lt k Hk).
    rewrite (decide_False (P := k = 0%nat)) by lia.
    rewrite (decide_False (P := k = n)) by lia.
    rewrite (decide_False (P := ((k - 1) / 2)%nat = 0%nat)) by exact Hp.
    rewrite (decide_False (P := ((k - 1) / 2)%nat = n)) by lia.
    intros Hy Hx. apply (Hord k); auto.
  - intros k x y Hi. lia.
  - rewrite Hd. cbn [mbind res_bind].
    assert (h2 !! n = Some r) as Hn.
    { rewrite (Hout n) by lia. rewrite (swapped_lookup h 0 n _ r z Hr Hz).
      destruct (decide (n = 0%nat)) as [->|_].
      - rewrite Hr in Hz. congruence.
      - rewrite decide_True by reflexivity. reflexivity. }
    rewrite Hn. exists r, (take n h2). split; [reflexivity|]. split.
    + intros k x y Hk Hy Hx.
      assert (k < n)%nat as Hkn.
      { apply lookup_lt_Some in Hy. rewrite length_take in Hy. lia. }
      pose proof (parent_lt k Hk).
      rewrite lookup_take_lt in Hy by lia. rewrite lookup_take_lt in Hx by lia.
      apply (Hord2 k); auto.
    + intros y Hy. apply list_elem_of_lookup_1 in Hy. destruct Hy as [k Hk].
      apply (root_not_above h r HU Hord Hr k y Hk).
Qed.

End HeapOrder.

Section HeapReturns.
Context {A : Type} (less : A -> A -> res bool) (U : list A).
Hypothesis less_returns : forall a b, a ∈ U -> b ∈ U -> exists r, less a b = Ret r.

Lemma Less_returns (h : list A) (i j : nat) :
  (forall x, x ∈ h -> x ∈ U) -> (i < length h)%nat -> (j < length h)%nat ->
  exists r, heap.Less less h i j = Ret r.
Proof.
  intros HU Hi Hj.
  destruct (lookup_lt_is_Some_2 h i Hi) as [x Hx].
  destruct (lookup_lt_is_Some_2 h j Hj) as [y Hy].
  unfold heap.Less. rewrite Hx, Hy.
  apply less_returns; apply HU; eapply list_elem_of_lookup_2; eauto.
Qed.

Lemma Swap_returns (h : list A) (i j : nat) :
  (i < length h)%nat -> (j < length h)%nat ->
  exists h', heap.Swap h i j = Ret h'.
Proof.
  intros Hi Hj.
  destruct (lookup_lt_is_Some_2 h i Hi) as [x Hx].
  destruct (lookup_lt_is_Some_2 h j Hj) as [y Hy].
  unfold heap.Swap. rewrite Hx, Hy. eauto.
Qed.

Lemma up_returns (fuel : nat) :
  forall (h : list A) (j : nat),
    (j < fuel)%nat -> (j < length h)%nat -> (forall x, x ∈ h -> x ∈ U) ->
    exists h', heap.up less fuel h j = Ret h'.
Proof.
  induction fuel as [|fuel IH]; intros h j Hfuel Hj HU; [lia|].
  rewrite up_unfold.
  destruct (Nat.eqb_spec ((j - 1) / 2) j) as [Heq|Hne]; [eauto|].
  assert (0 < j)%nat as Hj0 by (destruct j; [simpl in Hne; congruence|lia]).
  pose proof (parent_lt j Hj0) as Hlt.
  destruct (Less_returns h j ((j - 1) / 2)%nat HU Hj ltac:(lia)) as [b Hb].
  rewrite Hb. cbn [mbind res_bind]. destruct b; cbn [negb]; [|eauto].
  destruct (Swap_returns h ((j - 1) / 2)%nat j ltac:(lia) Hj) as [h1 Hs].
  rewrite Hs. cbn [mbind res_bind].
  pose proof (Swap_Permutation _ _ _ _ Hs) as Hp.
  apply IH; [lia| |].
  - rewrite <- (Permutation_length Hp). lia.
  - intros x Hx. apply HU. rewrite Hp. exact Hx.
Qed.

Lemma down_returns (fuel : nat) :
  forall (h : list A) (i n : nat),
    (n - i < fuel)%nat -> (n <= length h)%nat -> (forall x, x ∈ h -> x ∈ U) ->
    exists h', heap.down less fuel h i n = Ret h'.
Proof.
  induction fuel as [|fuel IH]; intros h i n Hfuel Hn HU; [lia|].
  rewrite down_unfold.
  destruct (Nat.leb_spec n (2 * i + 1)) as [Hle|Hgt]; [eauto|].
  assert (exists b2, (if (2 * i + 1 + 1 <? n)%nat
                      then heap.Less less h (2 * i + 1 + 1) (2 * i + 1) else Ret false)
                     = Ret b2
                     /\ ((if (b2 : bool) then 2 * i + 1 + 1 else 2 * i + 1) < n)%nat)
    as (b2 & Hb2 & Hjn).
  { destruct (Nat.ltb_spec (2 * i + 1 + 1) n) as [H2|H2].
    - destruct (Less_returns h (2 * i + 1 + 1) (2 * i + 1) HU ltac:(lia) ltac:(lia))
        as [b Hb].
      exists b. split; [exact Hb|destruct b; lia].
    - exists false. split; [reflexivity|lia]. }
  rewrite Hb2. cbn [mbind res_bind].
  set (j := (if b2 then 2 * i + 1 + 1 else 2 * i + 1)%nat) in *.
  assert (i < j)%nat as Hij by (subst j; destruct b2; lia).
  destruct (Less_returns h j i HU ltac:(lia) ltac:(lia)) as [b Hb].
  rewrite Hb. cbn [mbind res_bind]. destruct b; cbn [negb]; [|eauto].
  destruct (Swap_returns h i j ltac:(lia) ltac:(lia)) as [h1 Hs].
  rewrite Hs. cbn [mbind res_bind].
  pose proof (Swap_Permutation _ _ _ _ Hs) as Hp.
  apply IH; [lia| |].
  - rewrite <- (Permutation_length Hp). lia.
  - intros x Hx. apply HU. rewrite Hp. exact Hx.
Qed.

Lemma Push_returns (h : list A) (x : A) :
  (forall y, y ∈ h -> y ∈ U) -> x ∈ U -> exists h', heap.Push less h x = Ret h'.
Proof.
  intros HU Hx. unfold heap.Push. rewrite length_app. simpl.
  apply up_returns; [lia|rewrite length_app; simpl; lia|].
  intros y Hy. apply elem_of_app in Hy. destruct Hy as [Hy|Hy]; [auto|].
  apply list_elem_of_singleton in Hy. subst. exact Hx.
Qed.

Lemma Pop_returns (h : list A) :
  (forall y, y ∈ h -> y ∈ U) -> h <> [] -> exists x h', heap.Pop less h = Ret (x, h').
Proof.
  intros HU Hne. unfold heap.Pop.
  destruct (length h) as [|n] eqn:Hlen; [destruct h; [congruence|discriminate]|].
  destruct (Swap_returns h 0 n ltac:(lia) ltac:(lia)) as [h1 Hs].
  rewrite Hs. cbn [mbind res_bind].
  pose proof (Swap_Permutation _ _ _ _ Hs) as Hp.
  destruct (down_returns (S n) h1 0 n) as [h2 Hd].
  - lia.
  - rewrite <- (Permutation_length Hp). lia.
  - intros x Hx. apply HU. rewrite Hp. exact Hx.
  - rewrite Hd. cbn [mbind res_bind].
    pose proof (down_Permutation _ _ _ _ _ _ Hd) as Hp2.
    destruct (lookup_lt_is_Some_2 h2 n) as [x Hx].
    { rewrite <- (Permutation_length Hp2), <- (Permutation_length Hp). lia. }
    rewrite Hx. eauto.
Qed.

End HeapReturns.

(** * The checks of the comparison *)

Lemma returns_bool_spec (r : res bool) (b : bool) : returns_bool r b = true <-> r = Ret b.
Proof.
  destruct r as [b'| |]; simpl; [|split; discriminate..].
  rewrite Bool.eqb_true_iff. split; congruence.
Qed.

Lemma total_on_spec {A : Type} (less : A -> A -> res bool) (U : list A) :
  total_on less U = true ->
  forall a b, a ∈ U -> b ∈ U -> exists r, less a b = Ret r.
Proof.
  unfold total_on. rewrite forallb_forall. intros H a b Ha Hb.
  apply list_elem_of_In in Ha, Hb.
  specialize (H a Ha). rewrite forallb_forall in H. specialize (H b Hb).
  apply orb_true_iff in H. destruct H as [H|H]; apply returns_bool_spec in H; eauto.
Qed.

Lemma strict_weak_on_spec {A : Type} (less : A -> A -> res bool) (U : list A) :
  strict_weak_on less U = true ->
  (forall a b, a ∈ U -> b ∈ U -> exists r, less a b = Ret r) /\
  (forall a b, a ∈ U -> b ∈ U -> less a b = Ret true -> less b a = Ret false) /\
  (forall a b c, a ∈ U -> b ∈ U -> c ∈ U ->
     not_above less a b -> not_above less b c -> not_above less a c).
Proof.
  unfold strict_weak_on. rewrite forallb_forall. intros H.
  assert (forall a b, a ∈ U -> b ∈ U ->
            (exists r, less a b = Ret r) /\
            (less a b = Ret true -> less b a = Ret false) /\
            (forall c, c ∈ U -> less b a = Ret false -> less c b = Ret false ->
                       less c a = Ret false)) as Hall.
  { intros a b Ha Hb. apply list_elem_of_In in Ha, Hb.
    specialize (H a Ha). rewrite forallb_forall in H. specialize (H b Hb).
    apply andb_true_iff in H. destruct H as [H H3].
    apply andb_true_iff in H. destruct H as [H1 H2].
    split; [|split].
    - apply orb_true_iff in H1.
      destruct H1 as [H1|H1]; apply returns_bool_spec in H1; eauto.
    - intros Hab. apply orb_true_iff in H2. destruct H2 as [H2|H2].
      + apply negb_true_iff in H2. apply returns_bool_spec in Hab. congruence.
      + apply returns_bool_spec. exact H2.
    - intros c Hc Hba Hcb. apply list_elem_of_In in Hc.
      rewrite forallb_forall in H3. specialize (H3 c Hc).
      apply orb_true_iff in H3. destruct H3 as [H3|H3].
      + apply negb_true_iff in H3. apply andb_false_iff in H3.
        apply returns_bool_spec in Hba, Hcb. destruct H3; congruence.
      + apply returns_bool_spec. exact H3. }
  split; [|split].
  - intros a b Ha Hb. apply (Hall a b Ha Hb).
  - intros a b Ha Hb. apply (Hall a b Ha Hb).
  - intros a b c Ha Hb Hc Hab Hbc. unfold not_above in *.
    apply (Hall a b Ha Hb); assumption.
Qed.

(** * Properties of the order plan *)

Section Order.
Context `{X : Externals} {St : Type} `{Child : Plan St}.
Variable U : list OrderPlan.orderRow.
Hypothesis Less_returns_on_U :
  forall a b, a ∈ U -> b ∈ U -> exists r, OrderPlan.Less a b = Ret r.

Abbreviation Less_strict_weak :=
  ((forall a b, a ∈ U -> b ∈ U -> OrderPlan.Less a b = Ret true ->
      OrderPlan.Less b a = Ret false) /\
   (forall a b c, a ∈ U -> b ∈ U -> c ∈ U ->
      not_above OrderPlan.Less a b -> not_above OrderPlan.Less b c ->
      not_above OrderPlan.Less a c)).

(** [prepare] pushes the rows of the child onto the heap and leaves the
    child at its end. *)
Lemma prepare_spec (s s' : St) (rs : list (slice * slice)) :
  yields s rs s' ->
  forall (fuel : nat) (Orders : list OrderField) (pos tot : Z)
         (h0 : list OrderPlan.orderRow),
    (length rs < fuel)%nat ->
    (forall x, x ∈ h0 -> x ∈ U) ->
    (forall r, r ∈ rs -> order_row Orders r ∈ U) ->
    exists h,
      OrderPlan.prepare fuel (order_state Orders s pos tot (Some h0))
      = Ret (None, order_state Orders s' pos (tot + Z.of_nat (length rs)) (Some h))
      /\ h ≡ₚ h0 ++ map (order_row Orders) rs
      /\ (Less_strict_weak -> heap_ordered OrderPlan.Less h0 ->
          heap_ordered OrderPlan.Less h).
Proof.
  induction 1 as [s s' Hn|s s1 s' k v rs Hn Hrow Hrs IH];
    intros fuel Orders pos tot h0 Hfuel Hh0 Hrs'.
  - destruct fuel as [|fuel]; [simpl in Hfuel; lia|].
    exists h0. split; [|split].
    + simpl. rewrite Hn. cbn. rewrite Z.add_0_r. reflexivity.
    + simpl. rewrite app_nil_r. reflexivity.
    + auto.
  - destruct fuel as [|fuel]; [simpl in Hfuel; lia|].
    assert (order_row Orders (k, v) ∈ U) as HxU by (apply Hrs'; left).
    destruct (Push_returns OrderPlan.Less U Less_returns_on_U h0 _ Hh0 HxU) as [h1 Hpush].
    pose proof (Push_Permutation _ _ _ _ Hpush) as Hperm.
    destruct (IH fuel Orders pos (tot + 1) h1) as (h & Hprep & Hph & Hord).
    + simpl in Hfuel. lia.
    + intros x Hx. rewrite Hperm in Hx. apply elem_of_cons in Hx.
      destruct Hx as [->|Hx]; auto.
    + intros r Hr. apply Hrs'. right. exact Hr.
    + exists h. split; [|split].
      * simpl. rewrite Hn. cbn. simpl in Hrow. rewrite Hrow.
        unfold order_row in Hpush. simpl in Hpush. rewrite Hpush. cbn.
        unfold order_state in Hprep. rewrite Hprep.
        replace (tot + 1 + Z.of_nat (length rs))
          with (tot + Z.pos (Pos.of_succ_nat (length rs))) by lia.
        reflexivity.
      * rewrite Hph, Hperm. simpl. rewrite Permutation_middle. reflexivity.
      * intros Hsw Hord0. apply Hord; [exact Hsw|].
        destruct Hsw as [Hasym Htrans].
        destruct (Push_ordered OrderPlan.Less U Less_returns_on_U Hasym Htrans
                    h0 _ Hh0 HxU Hord0) as (h1' & Hpush' & Hord1).
        rewrite Hpush in Hpush'. injection Hpush' as <-. exact Hord1.
Qed.

(** With a total that is not zero, [Next] does not call [prepare]. *)
Lemma OrderPlan_Next_prepared (fuel : nat) (p : OrderPlan.t St) :
  OrderPlan.total p <> 0 ->
  OrderPlan.Next fuel p =
  if OrderPlan.pos p <? OrderPlan.total p then
    match OrderPlan.sorted p with
    | None => Panic "nil pointer dereference"
    | Some h =>
        '(row_, h') ← heap.Pop OrderPlan.Less h;
        Ret ((OrderPlan.key row_, OrderPlan.value_ row_, None),
             order_state (OrderPlan.Orders p) (OrderPlan.ChildPlan p)
               (OrderPlan.pos p + 1) (OrderPlan.total p) (Some h'))
    end
  else finished p.
Proof.
  intros Ht. unfold OrderPlan.Next.
  destruct (Z.eqb_spec (OrderPlan.total p) 0); [contradiction|]. reflexivity.
Qed.

Lemma OrderPlan_Next_keeps_child (fuel : nat) (p q : OrderPlan.t St) (r : row) :
  OrderPlan.total p <> 0 -> OrderPlan.Next fuel p = Ret (r, q) ->
  OrderPlan.ChildPlan q = OrderPlan.ChildPlan p.
Proof.
  intros Ht. rewrite OrderPlan_Next_prepared by exact Ht.
  destruct (OrderPlan.pos p <? OrderPlan.total p).
  - destruct (OrderPlan.sorted p) as [h|]; [|discriminate].
    destruct (heap.Pop OrderPlan.Less h) as [[x h']| |]; cbn; try discriminate.
    intros H. inversion H; subst. reflexivity.
  - intros H. inversion H; subst. reflexivity.
Qed.

(** The prepared plan returns the rows of the heap, root after root. *)
Lemma drain_spec (fuel : nat) (n : nat) :
  forall (h : list OrderPlan.orderRow) (Orders : list OrderField) (c : St) (pos tot : Z),
    length h = n -> tot <> 0 -> tot - pos = Z.of_nat (length h) ->
    (forall x, x ∈ h -> x ∈ U) ->
    (forall x, x ∈ h ->
       is_end (OrderPlan.key x, OrderPlan.value_ x, None) = false) ->
    exists out p',
      yields (P := OrderPlan_plan fuel) (order_state Orders c pos tot (Some h))
        (map row_pair out) p'
      /\ out ≡ₚ h
      /\ (Less_strict_weak -> heap_ordered OrderPlan.Less h ->
          StronglySorted (not_above OrderPlan.Less) out).
Proof.
  induction n as [|n IH]; intros h Orders c pos tot Hlen Htot Hpos HU Hrows.
  - destruct h; [|discriminate]. exists [], (order_state Orders c pos tot (Some [])).
    split; [|split].
    + apply yields_end. cbn [Next OrderPlan_plan].
      rewrite OrderPlan_Next_prepared by exact Htot. simpl in *.
      destruct (Z.ltb_spec pos tot); [lia|reflexivity].
    + reflexivity.
    + intros _ _. constructor.
  - assert (h <> []) as Hne by (destruct h; [discriminate|congruence]).
    destruct (Pop_returns OrderPlan.Less U Less_returns_on_U h HU Hne) as (x & h' & Hpop).
    pose proof (Pop_Permutation _ _ _ _ Hpop) as Hperm.
    assert (length h' = n) as Hlen'.
    { apply Permutation_length in Hperm. simpl in Hperm. lia. }
    destruct (IH h' Orders c (pos + 1) tot Hlen' Htot) as (out & p' & Hyo & Hout & Hsorted).
    + lia.
    + intros y Hy. apply HU. rewrite Hperm. right. exact Hy.
    + intros y Hy. apply Hrows. rewrite Hperm. right. exact Hy.
    + exists (x :: out), p'. split; [|split].
      * simpl. eapply yields_row; [| |exact Hyo].
        -- cbn [Next OrderPlan_plan].
           rewrite OrderPlan_Next_prepared by exact Htot. simpl.
           destruct (Z.ltb_spec pos tot); [|lia].
           rewrite Hpop. reflexivity.
        -- apply Hrows. rewrite Hperm. left.
      * rewrite Hperm, Hout. reflexivity.
      * intros Hsw Hord. destruct Hsw as [Hasym Htrans].
        destruct (Pop_ordered OrderPlan.Less U Less_returns_on_U Hasym Htrans
                    h HU Hord Hne) as (x' & h'' & Hpop' & Hord' & Hmin).
        rewrite Hpop in Hpop'. injection Hpop' as <- <-.
        constructor.
        -- apply Hsorted; [split; assumption|exact Hord'].
        -- apply Forall_forall. intros y Hy. apply Hmin.
           rewrite Hperm. right. rewrite <- Hout. exact Hy.
Qed.

(** The initialised plan over a child that yields [rs]: its first call
    leaves the child at its end, and it yields a permutation of [rs], in
    the order of the comparison when this is a strict weak order. *)
Lemma OrderPlan_yields (fuel : nat) (Orders : list OrderField) (s s' : St)
    (rs : list (slice * slice)) :
  yields s rs s' -> (length rs < fuel)%nat ->
  (forall r, r ∈ rs -> order_row Orders r ∈ U) ->
  exists out p',
    yields (P := OrderPlan_plan fuel) (order_state Orders s 0 0 (Some [])) out p'
    /\ (exists r p1, OrderPlan.Next fuel (order_state Orders s 0 0 (Some [])) = Ret (r, p1)
                     /\ OrderPlan.ChildPlan p1 = s')
    /\ out ≡ₚ rs
    /\ (Less_strict_weak -> StronglySorted (row_not_above Orders) out).
Proof.
  intros Hy Hfuel HrsU.
  assert (forall r, r ∈ rs -> is_end (r.1, r.2, None) = false) as Hnot_end.
  { clear -Hy. induction Hy as [|s s1 s' k v rs Hn Hrow Hrs IH]; intros r Hr.
    - apply elem_of_nil in Hr. contradiction.
    - apply elem_of_cons in Hr. destruct Hr as [->|Hr]; [exact Hrow|auto]. }
  destruct (prepare_spec s s' rs Hy fuel Orders 0 0 [] Hfuel) as (h & Hprep & Hph & Hord).
  { intros x Hx. apply elem_of_nil in Hx. contradiction. }
  { exact HrsU. }
  simpl in Hph.
  destruct rs as [|r0 rs].
  - (* an empty child: the total stays zero *)
    exists [], (order_state Orders s' 0 0 (Some h)).
    assert (OrderPlan.Next fuel (order_state Orders s 0 0 (Some []))
            = Ret (end_of_rows, order_state Orders s' 0 0 (Some h))) as HN.
    { unfold OrderPlan.Next. simpl OrderPlan.total. simpl (0 =? 0).
      rewrite Hprep. reflexivity. }
    split; [apply yields_end; exact HN|].
    split; [eexists; eexists; split; [exact HN|reflexivity]|].
    split; [reflexivity|]. intros _. constructor.
  - set (n := Z.of_nat (length (r0 :: rs))) in *.
    assert (n <> 0) as Hn0 by (subst n; simpl; lia).
    destruct (drain_spec fuel (length h) h Orders s' 0 (0 + n) eq_refl)
      as (out & p' & Hyo & Hout & Hsorted).
    + lia.
    + rewrite (Permutation_length Hph), length_map. subst n. lia.
    + intros x Hx. rewrite Hph in Hx. apply list_elem_of_fmap in Hx.
      destruct Hx as (r & -> & Hr). apply HrsU. exact Hr.
    + intros x Hx. rewrite Hph in Hx. apply list_elem_of_fmap in Hx.
      destruct Hx as (r & -> & Hr). apply (Hnot_end r Hr).
    + assert (OrderPlan.Next fuel (order_state Orders s 0 0 (Some []))
              = OrderPlan.Next fuel (order_state Orders s' 0 (0 + n) (Some h))) as HN.
      { rewrite (OrderPlan_Next_prepared fuel (order_state Orders s' 0 (0 + n) (Some h)))
          by (simpl; lia).
        unfold OrderPlan.Next at 1. simpl OrderPlan.total at 1. simpl (0 =? 0).
        rewrite Hprep. reflexivity. }
      exists (map row_pair out), p'. split; [|split; [|split]].
      * eapply (yields_same_Next (OrderPlan_plan fuel)); [exact HN|exact Hyo].
      * rewrite HN.
        assert (exists r q, OrderPlan.Next fuel (order_state Orders s' 0 (0 + n) (Some h))
                            = Ret (r, q)) as (r & q & Hq)
          by (inversion Hyo; subst; eauto).
        exists r, q. split; [exact Hq|].
        apply OrderPlan_Next_keeps_child in Hq; [exact Hq|simpl; lia].
      * rewrite Hout, Hph. rewrite map_map.
        rewrite (map_ext _ id) by (intros [k v]; reflexivity).
        rewrite map_id. reflexivity.
      * intros Hsw.
        assert (StronglySorted (not_above OrderPlan.Less) out) as Hs.
        { apply Hsorted; [exact Hsw|]. apply Hord; [exact Hsw|].
          intros k x y Hk Hy0. rewrite lookup_nil in Hy0. discriminate. }
        assert (forall x, x ∈ out -> order_row Orders (row_pair x) = x) as Hinv.
        { intros x Hx. rewrite Hout, Hph in Hx. apply list_elem_of_fmap in Hx.
          destruct Hx as ([k v] & -> & _). reflexivity. }
        clear -Hs Hinv. induction Hs as [|x out Hs IH Hall]; simpl; constructor.
        -- apply IH. intros y Hy. apply Hinv. right. exact Hy.
        -- apply Forall_forall. intros y Hy. apply list_elem_of_fmap in Hy.
           destruct Hy as (z & -> & Hz). unfold row_not_above.
           rewrite (Hinv x) by left.
           rewrite (Hinv z) by (right; exact Hz).
           rewrite Forall_forall in Hall. apply Hall. exact Hz.
Qed.

End Order.

(** An integer that the order plan compares is a signed integer of 64
    bits, and [convertToInt] returns it as it is. *)
Lemma ordered_int_converts (k : intkind) (i : Z) :
  ordered_int k i -> convertToInt (VInt k i) = (i, true) /\ is_int64 i = true.
Proof.
  intros (_ & Hkind & Hb). simpl. rewrite Hb. split; [reflexivity|].
  unfold is_int64, MinInt64, MaxInt64 in *.
  destruct k; cbn [in_kind beyond_int64] in Hkind, Hb; try exact Hkind;
    apply andb_true_iff in Hkind as [H1 H2]; apply Z.leb_le in H1;
    apply Z.ltb_lt in H2; try apply Z.ltb_ge in Hb; unfold MaxInt64 in *;
    apply andb_true_iff; split; apply Z.leb_le; lia.
Qed.

(** The type switch of [Less] on two integers that the order plan
    compares. *)
Lemma compare_field_ints (ka kb : intkind) (x y : Z) (reverse : bool) :
  ordered_int ka x -> ordered_int kb y ->
  OrderPlan.compare_field (VInt ka x) (VInt kb y) reverse
  = Some (Ret (compareInt x y reverse)).
Proof.
  intros Hx Hy.
  destruct (ordered_int_converts _ _ Hx) as [Hcx _].
  destruct (ordered_int_converts _ _ Hy) as [Hcy _].
  destruct Hx as (Hk & _ & _).
  unfold OrderPlan.compare_field. rewrite Hcx, Hcy.
  destruct ka; try reflexivity. congruence.
Qed.

(** One step of the loop of [Less], on a field that evaluates on both
    rows. *)
Lemma Less_loop_cons `{X : Externals} (lkv rkv : KVPair) (o : OrderField)
    (os : list OrderField) (lv rv : any) (el er : option error) :
  Execute (Field o) lkv = Ret (lv, el) -> Execute (Field o) rkv = Ret (rv, er) ->
  OrderPlan.Less_loop lkv rkv (o :: os)
  = match OrderPlan.compare_field lv rv (is_DESC (Order o)) with
    | None => Ret false
    | Some c =>
        compare ← c;
        if compare <? 0 then Ret true
        else if compare >? 0 then Ret false
        else OrderPlan.Less_loop lkv rkv os
    end.
Proof. intros Hl Hr. cbn [OrderPlan.Less_loop]. rewrite Hl. cbn. rewrite Hr. reflexivity. Qed.


(** A row whose field is an [uint8] is not less than any other: the type
    switch of [Less] does not list [uint8], and the comparison by this
    field is its default case. *)
Lemma Less_single_uint8 `{X : Externals} (name : string) (f : Expression) (o : OrderType)
    (a b : slice * slice) (na : Z) (ea : option error) (vb : any) (eb : option error) :
  Execute f (NewKVP a.1 a.2) = Ret (VInt Kuint8 na, ea) ->
  Execute f (NewKVP b.1 b.2) = Ret (vb, eb) ->
  OrderPlan.Less (order_row [{| OName := name; Field := f; Order := o |}] a)
                 (order_row [{| OName := name; Field := f; Order := o |}] b)
  = Ret false.
Proof.
  intros Ha Hb. unfold OrderPlan.Less. cbn [OrderPlan.orders order_row
    OrderPlan.key OrderPlan.value_].
  erewrite Less_loop_cons by eassumption. reflexivity.
Qed.

Lemma StronglySorted_weaken {A : Type} (R1 R2 : A -> A -> Prop) (l : list A) :
  (forall a b, a ∈ l -> b ∈ l -> R1 a b -> R2 a b) ->
  StronglySorted R1 l -> StronglySorted R2 l.
Proof.
  intros HR Hs. induction Hs as [|x l Hs IH Hall]; constructor.
  - apply IH. intros a b Ha Hb. apply HR; right; assumption.
  - rewrite Forall_forall in *. intros y Hy. apply HR; [left|right; exact Hy|auto].
Qed.

(** * The statement of the design document on the order plan *)







(** On [rows2] the field of [by_not] is nil on the first row and a
    boolean on the second; the comparison of the second with the first
    enters [compareBool], whose assertion on the nil value fails, and the
    plan yields nothing. *)
Lemma OrderPlan_bool_against_nil_panics :
  OrderPlan.Less (X := X0) (order_row by_not (pair_of "a" "2")) (order_row by_not (pair_of "x" "1"))
  = Panic "interface conversion: interface {} is not bool" /\
  Next (Plan := OrderPlan_plan (X := X0) (Child := list_Plan) 5)
    (order_state by_not rows2 0 0 (Some []))
  = Panic "interface conversion: interface {} is not bool".
Proof. split; vm_compute; reflexivity. Qed.

(** * The end of the stream of the plans with a heap *)

Section OrderFinal.
Context `{X : Externals} {St : Type} `{Child : Plan St}.

Lemma OrderPlan_Init_well_formed (p p' : OrderPlan.t St) (err : option error) :
  OrderPlan.Init p = Ret (err, p') -> order_well_formed p'.
Proof.
  unfold OrderPlan.Init. cbn.
  destruct (Init (OrderPlan.ChildPlan p)) as [[e c]| |]; cbn; try discriminate.
  intros H. inversion H; subst. intros h x [= <-] Hx.
  apply elem_of_nil in Hx. contradiction.
Qed.

(** [prepare] that returns without error has seen the end of the child,
    and has pushed rows only. *)
Lemma prepare_end (fuel : nat) :
  sentinel_is_final Child ->
  forall p p', order_well_formed p ->
    OrderPlan.prepare fuel p = Ret (None, p') ->
    order_well_formed p' /\ (forall n, ended n (OrderPlan.ChildPlan p'))
    /\ OrderPlan.pos p' = OrderPlan.pos p.
Proof.
  intros Hfinal. induction fuel as [|fuel IH]; intros p p' Hwf; simpl; [discriminate|].
  destruct (Next (OrderPlan.ChildPlan p)) as [[r c]| |] eqn:Hc; cbn; try discriminate.
  destruct r as [[k v] [e|]]; [discriminate|].
  destruct (is_end (k, v, None)) eqn:He.
  - intros H. inversion H; subst. split; [|split].
    + intros h x Hs Hx. exact (Hwf h x Hs Hx).
    + simpl. apply is_end_true in He. rewrite He in Hc. eapply Hfinal; eauto.
    + reflexivity.
  - destruct (OrderPlan.sorted p) as [h|] eqn:Hs; [|discriminate].
    destruct (heap.Push OrderPlan.Less h _) as [h'| |] eqn:Hpush; cbn; try discriminate.
    intros H. apply IH in H; [exact H|].
    intros h0 x [= <-] Hx.
    rewrite (Push_Permutation _ _ _ _ Hpush) in Hx. apply elem_of_cons in Hx.
    destruct Hx as [->|Hx]; [exact He|]. exact (Hwf h x Hs Hx).
Qed.

Lemma OrderPlan_Next_end (fuel : nat) (p p' : OrderPlan.t St) :
  sentinel_is_final Child -> order_well_formed p ->
  OrderPlan.Next fuel p = Ret (end_of_rows, p') -> order_done p'.
Proof.
  intros Hfinal Hwf. unfold OrderPlan.Next.
  assert (forall q : OrderPlan.t St, order_well_formed q ->
            (OrderPlan.total q <> 0 \/ forall n, ended n (OrderPlan.ChildPlan q)) ->
            (if OrderPlan.pos q <? OrderPlan.total q then
               match OrderPlan.sorted q with
               | None => Panic "nil pointer dereference"
               | Some h =>
                   '(row_, h') ← heap.Pop OrderPlan.Less h;
                   Ret ((OrderPlan.key row_, OrderPlan.value_ row_, None),
                        {| OrderPlan.Orders := OrderPlan.Orders q;
                           OrderPlan.ChildPlan := OrderPlan.ChildPlan q;
                           OrderPlan.pos := OrderPlan.pos q + 1;
                           OrderPlan.total := OrderPlan.total q;
                           OrderPlan.sorted := Some h' |})
               end
             else finished q) = Ret (end_of_rows, p') -> order_done p') as Hrest.
  { intros q Hq Hdone. destruct (Z.ltb_spec (OrderPlan.pos q) (OrderPlan.total q)).
    - destruct (OrderPlan.sorted q) as [h|] eqn:Hs; [|discriminate].
      destruct (heap.Pop OrderPlan.Less h) as [[x h']| |] eqn:Hpop; cbn; try discriminate.
      unfold end_of_rows. intros Hret. injection Hret as Hk Hv Hp.
      assert (x ∈ h) as Hx by (rewrite (Pop_Permutation _ _ _ _ Hpop); left).
      pose proof (Hq h x Hs Hx) as Hrow. rewrite Hk, Hv in Hrow. discriminate.
    - intros Hret. inversion Hret; subst. split; [lia|exact Hdone]. }
  destruct (Z.eqb_spec (OrderPlan.total p) 0) as [Hz|Hnz].
  - destruct (OrderPlan.prepare fuel p) as [[[e|] p1]| |] eqn:Hprep; cbn;
      try discriminate.
    destruct (prepare_end fuel Hfinal p p1 Hwf Hprep) as (Hwf1 & Hend & _).
    apply Hrest; [exact Hwf1|right; exact Hend].
  - cbn. apply Hrest; [exact Hwf|left; exact Hnz].
Qed.

Lemma OrderPlan_done_Next (fuel : nat) (p : OrderPlan.t St) :
  order_done p ->
  exists p', OrderPlan.Next (S fuel) p = Ret (end_of_rows, p') /\ order_done p'.
Proof.
  intros [Hpos Hdone]. unfold OrderPlan.Next.
  destruct (Z.eqb_spec (OrderPlan.total p) 0) as [Hz|Hnz].
  - destruct Hdone as [Hnz|Hend]; [contradiction|].
    destruct (ended_all_step _ Hend) as (c' & Hc & Hend').
    simpl. rewrite Hc. cbn.
    destruct (Z.ltb_spec (OrderPlan.pos p) (OrderPlan.total p)); [lia|].
    eexists. split; [reflexivity|]. split; [simpl; lia|right; exact Hend'].
  - cbn. destruct (Z.ltb_spec (OrderPlan.pos p) (OrderPlan.total p)); [lia|].
    exists p. split; [reflexivity|]. split; [lia|exact Hdone].
Qed.

Lemma OrderPlan_final (fuel : nat) (p p' : OrderPlan.t St) :
  sentinel_is_final Child -> order_well_formed p ->
  OrderPlan.Next (S fuel) p = Ret (end_of_rows, p') ->
  forall n, ended (P := OrderPlan_plan (S fuel)) n p'.
Proof.
  intros Hfinal Hwf Hn.
  pose proof (OrderPlan_Next_end _ _ _ Hfinal Hwf Hn) as Hd.
  clear Hn Hwf. intros n. revert p' Hd. induction n as [|n IH]; intros p' Hd; [exact I|].
  destruct (OrderPlan_done_Next fuel _ Hd) as (q & Hq & Hdq).
  exists q. split; [exact Hq|apply IH; exact Hdq].
Qed.

End OrderFinal.

Section FinalOrderFinal.
Context `{X : Externals} {St : Type} `{Child : FinalPlan St}.

Lemma final_prepare_end (fuel : nat) :
  Fsentinel_is_final Child ->
  forall p p', FinalOrderPlan.prepare fuel p = Ret (None, p') ->
    forall n, Fended n (FinalOrderPlan.ChildPlan p').
Proof.
  intros Hfinal. induction fuel as [|fuel IH]; intros p p'; simpl; [discriminate|].
  destruct (FNext (FinalOrderPlan.ChildPlan p)) as [[r c]| |] eqn:Hc; cbn;
    try discriminate.
  destruct r as [cols [e|]]; [discriminate|].
  destruct cols as [cs|].
  - destruct (FinalOrderPlan.sorted p) as [h|]; [|discriminate].
    destruct (heap.Push FinalOrderPlan.Less h _) as [h'| |]; cbn; try discriminate.
    apply IH.
  - intros H. inversion H; subst. simpl. eapply Hfinal; eauto.
Qed.

Lemma FinalOrderPlan_Next_end (fuel : nat) (p p' : FinalOrderPlan.t St) :
  Fsentinel_is_final Child ->
  FinalOrderPlan.Next fuel p = Ret (end_of_columns, p') -> final_order_done p'.
Proof.
  intros Hfinal. unfold FinalOrderPlan.Next.
  assert (forall q : FinalOrderPlan.t St,
            (FinalOrderPlan.total q <> 0
             \/ forall n, Fended n (FinalOrderPlan.ChildPlan q)) ->
            (if FinalOrderPlan.pos q <? FinalOrderPlan.total q then
               match FinalOrderPlan.sorted q with
               | None => Panic "nil pointer dereference"
               | Some h =>
                   '(row_, h') ← heap.Pop FinalOrderPlan.Less h;
                   Ret ((Some (FinalOrderPlan.cols row_), None),
                        FinalOrderPlan.with_heap q (FinalOrderPlan.ChildPlan q)
                          (FinalOrderPlan.pos q + 1) (FinalOrderPlan.total q) (Some h'))
               end
             else Ret ((None, None), q)) = Ret (end_of_columns, p') ->
            final_order_done p') as Hrest.
  { intros q Hdone.
    destruct (Z.ltb_spec (FinalOrderPlan.pos q) (FinalOrderPlan.total q)).
    - destruct (FinalOrderPlan.sorted q) as [h|]; [|discriminate].
      destruct (heap.Pop FinalOrderPlan.Less h) as [[x h']| |]; cbn; discriminate.
    - intros Hret. inversion Hret; subst. split; [lia|exact Hdone]. }
  destruct (Z.eqb_spec (FinalOrderPlan.total p) 0) as [Hz|Hnz].
  - destruct (FinalOrderPlan.prepare fuel p) as [[[e|] p1]| |] eqn:Hprep; cbn;
      try discriminate.
    apply Hrest. right. eapply final_prepare_end; eauto.
  - cbn. apply Hrest. left. exact Hnz.
Qed.

Lemma FinalOrderPlan_done_Next (fuel : nat) (p : FinalOrderPlan.t St) :
  final_order_done p ->
  exists p', FinalOrderPlan.Next (S fuel) p = Ret (end_of_columns, p')
             /\ final_order_done p'.
Proof.
  intros [Hpos Hdone]. unfold FinalOrderPlan.Next.
  destruct (Z.eqb_spec (FinalOrderPlan.total p) 0) as [Hz|Hnz].
  - destruct Hdone as [Hnz|Hend]; [contradiction|].
    destruct (Fended_all_step _ Hend) as (c' & Hc & Hend').
    simpl. rewrite Hc. cbn.
    destruct (Z.ltb_spec (FinalOrderPlan.pos p) (FinalOrderPlan.total p)); [lia|].
    eexists. split; [reflexivity|]. split; [simpl; lia|right; exact Hend'].
  - cbn. destruct (Z.ltb_spec (FinalOrderPlan.pos p) (FinalOrderPlan.total p)); [lia|].
    exists p. split; [reflexivity|]. split; [lia|exact Hdone].
Qed.

Lemma FinalOrderPlan_final (fuel : nat) :
  Fsentinel_is_final Child -> Fsentinel_is_final (FinalOrderPlan_plan (S fuel)).
Proof.
  intros Hfinal p p' Hn.
  pose proof (FinalOrderPlan_Next_end _ _ _ Hfinal Hn) as Hd.
  clear Hn. intros n. revert p' Hd. induction n as [|n IH]; intros p' Hd; [exact I|].
  destruct (FinalOrderPlan_done_Next fuel _ Hd) as (q & Hq & Hdq).
  exists q. split; [exact Hq|apply IH; exact Hdq].
Qed.

End FinalOrderFinal.

Section OrderInvariant.
Context `{X : Externals} {St : Type} `{Child : Plan St}.

Lemma prepare_well_formed (fuel : nat) :
  forall (p p' : OrderPlan.t St) (err : option error),
    order_well_formed p -> OrderPlan.prepare fuel p = Ret (err, p') ->
    order_well_formed p'.
Proof.
  induction fuel as [|fuel IH]; intros p p' err Hwf; simpl; [discriminate|].
  destruct (Next (OrderPlan.ChildPlan p)) as [[r c]| |] eqn:Hc; cbn; try discriminate.
  destruct r as [[k v] [e|]].
  - intros H. inversion H; subst. exact Hwf.
  - destruct (is_end (k, v, None)) eqn:He.
    + intros H. inversion H; subst. exact Hwf.
    + destruct (OrderPlan.sorted p) as [h|] eqn:Hs; [|discriminate].
      destruct (heap.Push OrderPlan.Less h _) as [h'| |] eqn:Hpush; cbn;
        try discriminate.
      apply IH. intros h0 x [= <-] Hx.
      rewrite (Push_Permutation _ _ _ _ Hpush) in Hx. apply elem_of_cons in Hx.
      destruct Hx as [->|Hx]; [exact He|]. exact (Hwf h x Hs Hx).
Qed.

(** The rows on the heap stay rows from call to call. *)
Lemma OrderPlan_Next_well_formed (fuel : nat) (p p' : OrderPlan.t St) (r : row) :
  order_well_formed p -> OrderPlan.Next fuel p = Ret (r, p') -> order_well_formed p'.
Proof.
  intros Hwf. unfold OrderPlan.Next.
  destruct (if OrderPlan.total p =? 0 then OrderPlan.prepare fuel p else Ret (None, p))
    as [[e q]| |] eqn:Hq; cbn; try discriminate.
  assert (order_well_formed q) as Hwfq.
  { destruct (OrderPlan.total p =? 0).
    - eapply prepare_well_formed; eauto.
    - inversion Hq; subst. exact Hwf. }
  destruct e as [e|]; [intros H; inversion H; subst; exact Hwfq|].
  destruct (OrderPlan.pos q <? OrderPlan.total q).
  - destruct (OrderPlan.sorted q) as [h|] eqn:Hs; [|discriminate].
    destruct (heap.Pop OrderPlan.Less h) as [[x h']| |] eqn:Hpop; cbn; try discriminate.
    intros H. inversion H; subst. intros h0 y [= <-] Hy.
    apply (Hwfq h y Hs). rewrite (Pop_Permutation _ _ _ _ Hpop). right. exact Hy.
  - intros H. inversion H; subst. exact Hwfq.
Qed.

End OrderInvariant.

Lemma list_Cursor_end_final : cursor_end_is_final list_Cursor.
Proof.
  intros c v c' Hc.
  assert (c' = []) as ->.
  { destruct c as [|[[k w]|e] c]; simpl in Hc; inversion Hc; reflexivity. }
  intros n. induction n as [|n IH]; [exact I|].
  exists None, []. split; [reflexivity|exact IH].
Qed.

(** * The statement of the design document on the end of the stream *)

(** C9, as amended.  Once [Next] has returned the end of the stream, every
    further call returns it: for the empty plan and for multi-get as they
    are; for the full scan when the cursor, once at its end, stays there;
    for the limit plans, and for the order plans (on the heap of which
    there are rows only), when the same holds of their child.  A prefix or
    range scan also ends at a key outside the prefix or beyond [End], with
    the cursor not at its end: when the cursor gives its keys in ascending
    order (and, for the prefix scan, none below the prefix), no further
    call returns a row; each returns the end of the stream or an error of
    the cursor. *)
Theorem end_of_stream_is_final :
  sentinel_is_final EmptyResultPlan_plan /\
  (forall `{X : Externals} (C : Type), sentinel_is_final (MultiGetPlan_plan (C := C))) /\
  (forall `{X : Externals} (C : Type) (Cur : Cursor C) (fuel : nat),
     cursor_end_is_final Cur -> sentinel_is_final (FullScanPlan_plan (S fuel))) /\
  (forall (St : Type) (Child : Plan St),
     sentinel_is_final Child -> sentinel_is_final LimitPlan_plan) /\
  (forall `{X : Externals} (St : Type) (Child : Plan St) (fuel : nat)
          (p p' : OrderPlan.t St),
     sentinel_is_final Child -> order_well_formed p ->
     OrderPlan.Next (S fuel) p = Ret (end_of_rows, p') ->
     forall n, ended (P := OrderPlan_plan (S fuel)) n p') /\
  (forall (St : Type) (Child : FinalPlan St),
     Fsentinel_is_final Child -> Fsentinel_is_final FinalLimitPlan_plan) /\
  (forall `{X : Externals} (St : Type) (Child : FinalPlan St) (fuel : nat),
     Fsentinel_is_final Child -> Fsentinel_is_final (FinalOrderPlan_plan (S fuel))) /\
  (forall `{X : Externals} (C : Type) (Cur : Cursor C) (fuel : nat)
          (p p' : PrefixScanPlan.t C) (c : C),
     cursor_end_is_final Cur ->
     PrefixScanPlan.iter p = Some c ->
     ascending_from c ->
     not_below (String.list_byte_of_string (PrefixScanPlan.Prefix p)) c ->
     PrefixScanPlan.Next (S fuel) p = Ret (end_of_rows, p') ->
     forall n, rowless (P := PrefixScanPlan_plan (S fuel)) n p') /\
  (forall `{X : Externals} (C : Type) (Cur : Cursor C) (fuel : nat)
          (p p' : RangeScanPlan.t C) (c : C),
     cursor_end_is_final Cur ->
     RangeScanPlan.iter p = Some c ->
     ascending_from c ->
     RangeScanPlan.Next (S fuel) p = Ret (end_of_rows, p') ->
     forall n, rowless (P := RangeScanPlan_plan (S fuel)) n p').
Proof.
  split; [exact EmptyResultPlan_final|].
  split; [intros X C; apply MultiGetPlan_final|].
  split; [intros X C Cur fuel; apply FullScanPlan_final|].
  split; [intros St Child; apply LimitPlan_final|].
  split; [intros X St Child fuel p p' Hf Hwf Hn; eapply OrderPlan_final; eauto|].
  split; [intros St Child; apply FinalLimitPlan_final|].
  split; [intros X St Child fuel; apply FinalOrderPlan_final|].
  split.
  - intros X C Cur fuel p p' c. apply PrefixScanPlan_end_rowless.
  - intros X C Cur fuel p p' c. apply RangeScanPlan_end_rowless.
Qed.

(** Multi-get for a key that the store does not hold: the first call
    returns the end of the stream, and so do the two calls after it. *)
Lemma end_of_stream_is_final_witness :
  ended (P := MultiGetPlan_plan (X := X0)) 2 (MultiGetPlan.with_idx get_z 1).
Proof.
  apply (proj1 (proj2 end_of_stream_is_final) X0 (list stored)
           get_z (MultiGetPlan.with_idx get_z 1)).
  vm_compute. reflexivity.
Defined.

(** C9, as stated, fails for the prefix scan.  The list cursor stays at
    its end.  With prefix "a", the first call stops at the key "b" and
    returns the end of the stream; the second call returns the error that
    the cursor gives next, or, with keys out of order, the row "a1". *)
Lemma prefix_scan_end_not_final :
  cursor_end_is_final list_Cursor
  /\ ~ prefix_scan_end_final_at (X := X0) accept_all "a" no_txn store_then_error 1
  /\ ~ prefix_scan_end_final_at (X := X0) accept_all "a" no_txn store_out_of_order 1.
Proof.
  split; [exact list_Cursor_end_final|].
  split; intros H.
  - specialize (H _ eq_refl 1%nat). destruct H as (s' & Hs & _).
    vm_compute in Hs. discriminate.
  - specialize (H _ eq_refl 1%nat). destruct H as (s' & Hs & _).
    vm_compute in Hs. discriminate.
Qed.

(** * Further properties of the evaluator *)

Section EvaluatorLaws.
Context `{X : Externals}.

Lemma execEqual_error_false (L R : res (result any)) (b : bool) (e : error) :
  execEqual L R = Ret (b, Some e) -> b = false.
Proof.
  destruct L as [[vl [el|]]| |]; simpl; try discriminate; [intros [= <- _]; reflexivity|].
  destruct R as [[vr [er|]]| |]; simpl; try discriminate; [intros [= <- _]; reflexivity|].
  destruct vl, vr; simpl;
    repeat match goal with
           | |- context [beyond_int64 ?k ?i] => destruct (beyond_int64 k i); simpl
           end;
    intros [= <- _] || discriminate; reflexivity.
Qed.

Lemma unboxed_false_on_error (r : res (result bool)) (v : any) (err : option error) :
  false_on_error r -> unboxed r = Ret (v, err) -> bool_false_on_error v err.
Proof.
  intros Hr. destruct r as [[b [e|]]| |]; simpl; try discriminate; intros [= <- <-].
  - exists b. split; [reflexivity|]. intros _. eapply Hr. reflexivity.
  - exists b. split; [reflexivity|]. congruence.
Qed.

Lemma execNotEqual_false_on_error (L R : res (result any)) :
  false_on_error (execNotEqual L R).
Proof.
  intros b e. unfold execNotEqual.
  destruct (execEqual L R) as [[ret [e'|]]| |]; simpl; try discriminate.
  intros [= <- _]. reflexivity.
Qed.

Lemma execPrefixMatch_false_on_error (L R : res (result any)) :
  false_on_error (execPrefixMatch L R).
Proof.
  intros b e H. unfold execPrefixMatch in H. cases_of H;
    first [discriminate H | injection H as <- _; reflexivity].
Qed.

Lemma execRegexpMatch_false_on_error (L R : res (result any)) :
  false_on_error (execRegexpMatch L R).
Proof.
  intros b e H. unfold execRegexpMatch in H. cases_of H;
    first [discriminate H | injection H as <- _; reflexivity].
Qed.

Lemma execAnd_false_on_error (L R : res (result any)) : false_on_error (execAnd L R).
Proof.
  intros b e H. unfold execAnd in H. cases_of H;
    first [discriminate H | injection H as <- _; reflexivity].
Qed.

Lemma execOr_false_on_error (L R : res (result any)) : false_on_error (execOr L R).
Proof.
  intros b e H. unfold execOr in H. cases_of H;
    first [discriminate H | injection H as <- _; reflexivity].
Qed.

Lemma execStringIn_loop_bool (ev : Expression -> res (result any)) (left_ : any)
    (l : list Expression) (v : any) (err : option error) :
  execStringIn_loop ev left_ l = Ret (v, err) -> bool_false_on_error v err.
Proof.
  induction l as [|expr rest IH]; simpl; intros H.
  - bool_result H.
  - cases_of H; try (apply IH; exact H); bool_result H.
Qed.

Lemma execNumberIn_loop_bool (ev : Expression -> res (result any)) (left_ : any)
    (l : list Expression) (v : any) (err : option error) :
  execNumberIn_loop ev left_ l = Ret (v, err) -> bool_false_on_error v err.
Proof.
  induction l as [|expr rest IH]; simpl; intros H.
  - bool_result H.
  - cases_of H; try (apply IH; exact H); bool_result H.
Qed.

Lemma execStringIn_bool (L : res (result any)) (Right : Expression)
    (ev : Expression -> res (result any)) (v : any) (err : option error) :
  execStringIn L Right ev = Ret (v, err) -> bool_false_on_error v err.
Proof.
  unfold execStringIn. intros H.
  destruct L as [[left_ [e|]]| |]; simpl in H; try discriminate H; [bool_result H|].
  destruct Right; try bool_result H.
  eapply execStringIn_loop_bool; exact H.
Qed.

Lemma execNumberIn_bool (L : res (result any)) (Right : Expression)
    (ev : Expression -> res (result any)) (v : any) (err : option error) :
  execNumberIn L Right ev = Ret (v, err) -> bool_false_on_error v err.
Proof.
  unfold execNumberIn. intros H.
  destruct L as [[left_ [e|]]| |]; simpl in H; try discriminate H; [bool_result H|].
  destruct Right; try bool_result H.
  eapply execNumberIn_loop_bool; exact H.
Qed.

Lemma execStringBetween_bool (L : res (result any)) (Right : Expression)
    (ev : Expression -> res (result any)) (v : any) (err : option error) :
  execStringBetween L Right ev = Ret (v, err) -> bool_false_on_error v err.
Proof.
  unfold execStringBetween. intros H. cases_of H; bool_result H.
Qed.

Lemma execNumberBetween_bool (L : res (result any)) (Right : Expression)
    (ev : Expression -> res (result any)) (v : any) (err : option error) :
  execNumberBetween L Right ev = Ret (v, err) -> bool_false_on_error v err.
Proof.
  unfold execNumberBetween. intros H. cases_of H; bool_result H.
Qed.

End EvaluatorLaws.

(** X1.  The nodes of equality, of the two matches, of the logical
    operators, of [in] and of [between] evaluate to a boolean, and to
    [false] whenever they return an error. *)
Theorem boolean_operators_return_bool `{X : Externals}
    (op : Operator) (l r : Expression) (kv : KVPair) (v : any) (err : option error) :
  boolean_operator op = true ->
  Execute (BinaryOpExpr op l r) kv = Ret (v, err) ->
  exists b, v = VBool b /\ (err <> None -> b = false).
Proof.
  intros Hop H. cbn [Execute] in H.
  destruct op; try discriminate Hop.
  - eapply unboxed_false_on_error; [|exact H]. intros b e. apply execEqual_error_false.
  - eapply unboxed_false_on_error; [|exact H]. apply execNotEqual_false_on_error.
  - eapply unboxed_false_on_error; [|exact H]. apply execPrefixMatch_false_on_error.
  - eapply unboxed_false_on_error; [|exact H]. apply execRegexpMatch_false_on_error.
  - eapply unboxed_false_on_error; [|exact H]. apply execAnd_false_on_error.
  - eapply unboxed_false_on_error; [|exact H]. apply execOr_false_on_error.
  - destruct (ReturnType l);
      [eapply execStringIn_bool|eapply execNumberIn_bool|eapply execNumberIn_bool];
      exact H.
  - destruct (ReturnType l);
      [eapply execStringBetween_bool|eapply execNumberBetween_bool
      |eapply execNumberBetween_bool]; exact H.
Qed.

(** X2.  [!=] returns exactly when [=] does: the negated boolean when
    [=] returns a boolean without error, and the same value and error when
    [=] returns an error; it panics when [=] panics. *)
Theorem not_equal_negates_equal `{X : Externals} (l r : Expression) (kv : KVPair) :
  (forall b, Execute (BinaryOpExpr NotEq l r) kv = Ret (VBool b, None) <->
             Execute (BinaryOpExpr Eq_ l r) kv = Ret (VBool (negb b), None)) /\
  (forall v e, Execute (BinaryOpExpr NotEq l r) kv = Ret (v, Some e) <->
               Execute (BinaryOpExpr Eq_ l r) kv = Ret (v, Some e)) /\
  (forall msg, Execute (BinaryOpExpr NotEq l r) kv = Panic msg <->
               Execute (BinaryOpExpr Eq_ l r) kv = Panic msg).
Proof.
  cbn [Execute]. unfold execNotEqual.
  pose proof (execEqual_error_false (Execute l kv) (Execute r kv)) as Herr.
  destruct (execEqual (Execute l kv) (Execute r kv)) as [[ret [e|]]| |]; simpl.
  - rewrite (Herr ret e eq_refl).
    repeat split; intros H; try discriminate H; exact H.
  - repeat split; intros H; try discriminate H.
    + injection H as <-. rewrite negb_involutive. reflexivity.
    + injection H as ->. rewrite negb_involutive. reflexivity.
  - repeat split; intros H; try discriminate H; exact H.
  - repeat split; intros H; try discriminate H; exact H.
Qed.

Section Negation.
Context `{X : Externals}.

Lemma Execute_Not_bool (e : Expression) (kv : KVPair) (b : bool) :
  Execute (NotExpr e) kv = Ret (VBool b, None) <-> Execute e kv = Ret (VBool (negb b), None).
Proof.
  cbn [Execute]. unfold execNot.
  destruct (Execute e kv) as [[v [err|]]| |]; simpl; try (split; discriminate).
  destruct v; simpl; try (split; discriminate).
  split; intros [= H].
  - subst b. rewrite negb_involutive. reflexivity.
  - apply (f_equal negb) in H. rewrite negb_involutive in H. subst. reflexivity.
Qed.

Lemma Execute_And_bool (l r : Expression) (kv : KVPair) (b : bool) :
  Execute (BinaryOpExpr And l r) kv = Ret (VBool b, None) <->
  (Execute l kv = Ret (VBool false, None) /\ b = false) \/
  (Execute l kv = Ret (VBool true, None) /\ Execute r kv = Ret (VBool b, None)).
Proof.
  cbn [Execute]. unfold execAnd.
  destruct (Execute l kv) as [[vl [el|]]| |]; simpl;
    try (split; [discriminate|intros [[H _]|[H _]]; discriminate H]).
  destruct vl as [| | | | |[|]| | | |]; simpl;
    try (split; [discriminate|intros [[H _]|[H _]]; discriminate H]).
  - destruct (Execute r kv) as [[vr [er|]]| |]; simpl;
      try (split; [discriminate|intros [[H _]|[_ H]]; discriminate H]).
    destruct vr; simpl;
      try (split; [discriminate|intros [[H _]|[_ H]]; discriminate H]).
    split; [intros [= <-]; right; auto|intros [[H _]|[_ H]]; [discriminate H|exact H]].
  - split; [intros [= <-]; left; auto|intros [[_ ->]|[H _]]; [reflexivity|discriminate H]].
Qed.

Lemma Execute_Or_bool (l r : Expression) (kv : KVPair) (b : bool) :
  Execute (BinaryOpExpr Or l r) kv = Ret (VBool b, None) <->
  (Execute l kv = Ret (VBool true, None) /\ b = true) \/
  (Execute l kv = Ret (VBool false, None) /\ Execute r kv = Ret (VBool b, None)).
Proof.
  cbn [Execute]. unfold execOr.
  destruct (Execute l kv) as [[vl [el|]]| |]; simpl;
    try (split; [discriminate|intros [[H _]|[H _]]; discriminate H]).
  destruct vl as [| | | | |[|]| | | |]; simpl;
    try (split; [discriminate|intros [[H _]|[H _]]; discriminate H]).
  - split; [intros [= <-]; left; auto|intros [[_ ->]|[H _]]; [reflexivity|discriminate H]].
  - destruct (Execute r kv) as [[vr [er|]]| |]; simpl;
      try (split; [discriminate|intros [[H _]|[_ H]]; discriminate H]).
    destruct vr; simpl;
      try (split; [discriminate|intros [[H _]|[_ H]]; discriminate H]).
    split; [intros [= <-]; right; auto|intros [[H _]|[_ H]]; [discriminate H|exact H]].
Qed.

End Negation.

(** X3.  The laws of negation on the results without error: [!e] is
    a boolean exactly when [e] is the opposite one, [!!e] exactly when [e]
    is the same one, and [!(l & r)] and [!l | !r], as [!(l | r)] and
    [!l & !r], return the same boolean, the right operand being evaluated
    in the one exactly when it is in the other. *)
Theorem negation_laws `{X : Externals} (l r : Expression) (kv : KVPair) (b : bool) :
  (Execute (NotExpr l) kv = Ret (VBool b, None) <->
   Execute l kv = Ret (VBool (negb b), None)) /\
  (Execute (NotExpr (NotExpr l)) kv = Ret (VBool b, None) <->
   Execute l kv = Ret (VBool b, None)) /\
  (Execute (NotExpr (BinaryOpExpr And l r)) kv = Ret (VBool b, None) <->
   Execute (BinaryOpExpr Or (NotExpr l) (NotExpr r)) kv = Ret (VBool b, None)) /\
  (Execute (NotExpr (BinaryOpExpr Or l r)) kv = Ret (VBool b, None) <->
   Execute (BinaryOpExpr And (NotExpr l) (NotExpr r)) kv = Ret (VBool b, None)).
Proof.
  split; [apply Execute_Not_bool|]. split; [|split].
  - rewrite !Execute_Not_bool, negb_involutive. reflexivity.
  - rewrite Execute_Not_bool, Execute_And_bool, Execute_Or_bool, !Execute_Not_bool.
    simpl. destruct b; simpl; intuition congruence.
  - rewrite Execute_Not_bool, Execute_Or_bool, Execute_And_bool, !Execute_Not_bool.
    simpl. destruct b; simpl; intuition congruence.
Qed.

(** * The filter adapter *)

Section FilterLaws.
Context `{X : Externals}.

Lemma filterBatch_ok (e : FilterExec) (kvps : list KVPair) (bs : list bool) :
  filterBatch e kvps = Ret (bs, None) <->
  Forall2 (fun kv b => Execute (Expr (Ast e)) kv = Ret (VBool b, None)) kvps bs.
Proof.
  revert bs. induction kvps as [|kvp rest IH]; intros bs; simpl.
  - split; [intros [= <-]; constructor|intros H; inversion H; reflexivity].
  - destruct (Execute (Expr (Ast e)) kvp) as [[v [err|]]| |] eqn:Hx; simpl;
      try (split; [discriminate|intros H; inversion H; congruence]).
    destruct v; simpl; try (split; [discriminate|intros H; inversion H; congruence]).
    destruct (filterBatch e rest) as [[ret [e2|]]| |] eqn:Hrest; simpl.
    + split; [discriminate|]. intros H. inversion H as [|? ? ? bs' _ Hall]; subst.
      apply IH in Hall. discriminate.
    + split.
      * intros [= <-]. constructor; [exact Hx|]. apply IH. reflexivity.
      * intros H. inversion H as [|? b' ? bs' Hb Hall]; subst.
        apply IH in Hall. injection Hall as <-. rewrite Hx in Hb.
        injection Hb as <-. reflexivity.
    + split; [discriminate|]. intros H. inversion H as [|? ? ? bs' _ Hall]; subst.
      apply IH in Hall. discriminate.
    + split; [discriminate|]. intros H. inversion H as [|? ? ? bs' _ Hall]; subst.
      apply IH in Hall. discriminate.
Qed.

Lemma filterBatch_error_nil (e : FilterExec) (kvps : list KVPair) (bs : list bool)
    (err : error) :
  filterBatch e kvps = Ret (bs, Some err) -> bs = [].
Proof.
  destruct kvps as [|kvp rest]; simpl; [discriminate|].
  intros H. unfold mbind, res_bind in H. cases_of H; first [discriminate H | injection H as <- _; reflexivity].
Qed.

Lemma filterBatch_stops (e : FilterExec) (pre post : list KVPair) (kvp : KVPair)
    (bs : list bool) :
  filterBatch e pre = Ret (bs, None) ->
  (forall b, Execute (Expr (Ast e)) kvp <> Ret (VBool b, None)) ->
  filterBatch e (pre ++ kvp :: post) = filterBatch e (pre ++ [kvp]).
Proof.
  revert bs. induction pre as [|x pre IH]; intros bs; simpl.
  - intros _ Hbad.
    destruct (Execute (Expr (Ast e)) kvp) as [[v [err|]]| |]; simpl; try reflexivity.
    destruct v; simpl; try reflexivity. exfalso. eapply Hbad. reflexivity.
  - intros H Hbad.
    destruct (Execute (Expr (Ast e)) x) as [[v [err|]]| |]; simpl in *; try discriminate H.
    destruct v; simpl in *; try discriminate H.
    destruct (filterBatch e pre) as [[ret [e2|]]| |] eqn:Hpre; simpl in H;
      try discriminate H.
    rewrite (IH ret eq_refl Hbad). reflexivity.
Qed.

End FilterLaws.

(** X4.  [filterBatch] returns the booleans of the rows, one for
    each row and in their order, exactly when the expression evaluates to
    a boolean without error on every row; beside an error it returns no
    booleans; and the rows after the first one on which the expression
    does not give a boolean play no part in the result.  [Filter] returns
    the boolean of its row on the same condition, and panics only when the
    evaluation does. *)
Theorem filter_row_by_row `{X : Externals} (e : FilterExec) :
  (forall kvps bs,
     filterBatch e kvps = Ret (bs, None) <->
     Forall2 (fun kv b => Execute (Expr (Ast e)) kv = Ret (VBool b, None)) kvps bs) /\
  (forall kvps bs err, filterBatch e kvps = Ret (bs, Some err) -> bs = []) /\
  (forall pre post kvp bs,
     filterBatch e pre = Ret (bs, None) ->
     (forall b, Execute (Expr (Ast e)) kvp <> Ret (VBool b, None)) ->
     filterBatch e (pre ++ kvp :: post) = filterBatch e (pre ++ [kvp])) /\
  (forall kvp b,
     Filter e kvp = Ret (b, None) <-> Execute (Expr (Ast e)) kvp = Ret (VBool b, None)) /\
  (forall kvp msg, Filter e kvp = Panic msg -> Execute (Expr (Ast e)) kvp = Panic msg).
Proof.
  split; [apply filterBatch_ok|]. split; [apply filterBatch_error_nil|].
  split; [apply filterBatch_stops|]. split.
  - intros kvp b. unfold Filter. simpl.
    destruct (Execute (Expr (Ast e)) kvp) as [[v [err|]]| |]; simpl;
      try (split; discriminate).
    destruct v; simpl; try (split; discriminate).
    split; intros [= <-]; reflexivity.
  - intros kvp msg. unfold Filter. simpl.
    destruct (Execute (Expr (Ast e)) kvp) as [[v [err|]]| |]; simpl; try discriminate.
    + destruct v; simpl; discriminate.
    + intros [= ->]. reflexivity.
Qed.

(** * Membership *)

Section Membership.
Context `{X : Externals}.

Lemma execStringCompare_eq_text (a b : any) :
  is_text a = true -> is_text b = true ->
  execStringCompare a b "=" = (Equal (bytes_of a) (bytes_of b), None).
Proof. destruct a, b; simpl; try discriminate; reflexivity. Qed.

Lemma execNumberCompare_eq_int (a b : any) :
  converts_to_int a = true -> converts_to_int b = true ->
  execNumberCompare a b "=" = (int_of a =? int_of b, None).
Proof.
  unfold converts_to_int, int_of, execNumberCompare.
  destruct (convertToInt a) as [ia [|]], (convertToInt b) as [ib [|]];
    simpl; try discriminate; reflexivity.
Qed.

Lemma execStringIn_loop_values (kv : KVPair) (left_ : any) (es : list Expression)
    (vs : list any) :
  is_text left_ = true ->
  Forall2 (element_of TSTR is_text kv) es vs ->
  execStringIn_loop (fun x => Execute x kv) left_ es
  = Ret (VBool (existsb (fun v => Equal (bytes_of left_) (bytes_of v)) vs), None).
Proof.
  intros Hl. induction 1 as [|e v es vs (Htp & Hx & Hv) _ IH]; simpl; [reflexivity|].
  rewrite Htp, Hx. simpl. rewrite (execStringCompare_eq_text _ _ Hl Hv).
  destruct (Equal (bytes_of left_) (bytes_of v)); [reflexivity|exact IH].
Qed.

Lemma int64_value_converts (v : any) :
  int64_value v = true ->
  converts_to_int v = true /\ is_int64 (int_of v) = true
  /\ exists k, v = VInt k (int_of v).
Proof.
  destruct v as [| | |k i| | | | | |]; try discriminate. intros H.
  apply andb_true_iff in H as [Hkind Hb]. apply negb_true_iff in Hb.
  unfold converts_to_int, int_of. simpl. rewrite Hb. simpl.
  split; [reflexivity|]. split; [|exists k; reflexivity].
  unfold is_int64, MinInt64, MaxInt64 in *.
  destruct k; cbn [in_kind beyond_int64] in Hkind, Hb; try exact Hkind;
    apply andb_true_iff in Hkind as [H1 H2]; apply Z.leb_le in H1;
    apply Z.ltb_lt in H2; try apply Z.ltb_ge in Hb; unfold MaxInt64 in *;
    apply andb_true_iff; split; apply Z.leb_le; lia.
Qed.

Lemma execNumberIn_loop_values (kv : KVPair) (left_ : any) (es : list Expression)
    (vs : list any) :
  int64_value left_ = true ->
  Forall2 (element_of TNUMBER int64_value kv) es vs ->
  execNumberIn_loop (fun x => Execute x kv) left_ es
  = Ret (VBool (existsb (fun v => int_of left_ =? int_of v) vs), None).
Proof.
  intros Hl. apply int64_value_converts in Hl as [Hl _].
  induction 1 as [|e v es vs (Htp & Hx & Hv) _ IH]; simpl; [reflexivity|].
  apply int64_value_converts in Hv as [Hv _].
  rewrite Htp, Hx. simpl. rewrite (execNumberCompare_eq_int _ _ Hl Hv).
  destruct (int_of left_ =? int_of v); [reflexivity|exact IH].
Qed.

Lemma execStringIn_loop_first (kv : KVPair) (left_ : any) (pre post : list Expression)
    (m : Expression) (vs : list any) (vm : any) :
  is_text left_ = true ->
  Forall2 (element_of TSTR is_text kv) pre vs ->
  existsb (fun v => Equal (bytes_of left_) (bytes_of v)) vs = false ->
  element_of TSTR is_text kv m vm ->
  Equal (bytes_of left_) (bytes_of vm) = true ->
  execStringIn_loop (fun x => Execute x kv) left_ (pre ++ m :: post)
  = Ret (VBool true, None).
Proof.
  intros Hl Hpre. induction Hpre as [|e v es vs (Htp & Hx & Hv) _ IH]; simpl.
  - intros _ (Htp & Hx & Hv) Heq. rewrite Htp, Hx. simpl.
    rewrite (execStringCompare_eq_text _ _ Hl Hv), Heq. reflexivity.
  - intros Hnone Hm Heq. apply orb_false_iff in Hnone. destruct Hnone as [Hne Hnone].
    rewrite Htp, Hx. simpl. rewrite (execStringCompare_eq_text _ _ Hl Hv), Hne.
    apply IH; assumption.
Qed.

End Membership.

(** X5.  [in] over a list of strings, the left operand being a string
    by its declared type and by its value: when every element declares a
    string and evaluates to one, the result is whether the bytes of the
    left value equal those of some element, false for the empty list; and
    an element that equals the left value decides the result as true
    whatever follows it in the list, the elements before it being strings
    that differ.  With a left operand that does not declare a string and
    whose value is an integer, the same over a list of integers: the
    result is whether the left integer equals some element.  The integers
    are of whatever Go type, and are to convert to signed integers of 64
    bits, which an [uint] or [uint64] above the greatest [int64] does
    not; each is then the integer that [convertToInt] returns. *)
Theorem in_is_membership `{X : Externals} (l : Expression) (kv : KVPair) (vl : any) :
  Execute l kv = Ret (vl, None) ->
  (ReturnType l = TSTR -> is_text vl = true ->
     (forall es vs, Forall2 (element_of TSTR is_text kv) es vs ->
        Execute (BinaryOpExpr In_ l (ListExpr es)) kv
        = Ret (VBool (existsb (fun v => Equal (bytes_of vl) (bytes_of v)) vs), None)) /\
     (forall pre m post vs vm,
        Forall2 (element_of TSTR is_text kv) pre vs ->
        existsb (fun v => Equal (bytes_of vl) (bytes_of v)) vs = false ->
        element_of TSTR is_text kv m vm ->
        Equal (bytes_of vl) (bytes_of vm) = true ->
        Execute (BinaryOpExpr In_ l (ListExpr (pre ++ m :: post))) kv
        = Ret (VBool true, None))) /\
  (ReturnType l <> TSTR -> int64_value vl = true ->
     (forall es vs, Forall2 (element_of TNUMBER int64_value kv) es vs ->
        Execute (BinaryOpExpr In_ l (ListExpr es)) kv
        = Ret (VBool (existsb (fun v => int_of vl =? int_of v) vs), None)) /\
     (forall v, int64_value v = true ->
        is_int64 (int_of v) = true /\ exists k, v = VInt k (int_of v))).
Proof.
  intros Hl. split.
  - intros Htp Hv. split.
    + intros es vs Hes. cbn [Execute]. rewrite Htp, Hl. simpl.
      apply execStringIn_loop_values; assumption.
    + intros pre m post vs vm Hpre Hnone Hm Heq. cbn [Execute]. rewrite Htp, Hl. simpl.
      eapply execStringIn_loop_first; eassumption.
  - intros Htp Hv. split.
    + intros es vs Hes. cbn [Execute]. rewrite Hl.
      destruct (ReturnType l); [congruence| |]; simpl;
        apply execNumberIn_loop_values; assumption.
    + intros v Hv'. apply int64_value_converts in Hv'. tauto.
Qed.

(** The key k1 is in the list a, k1; the element after it is no string. *)
Lemma in_is_membership_witness :
  @Execute X0
    (BinaryOpExpr In_ (FieldExpr KeyKW)
       (ListExpr ([StringExpr "a"] ++ StringExpr "k1" :: [NumberExpr 3])))
    row_true
  = Ret (VBool true, None).
Proof.
  refine (proj2 (proj1 (in_is_membership (X := X0) (FieldExpr KeyKW) row_true
                          (VBytes (B "k1")) eq_refl) eq_refl eq_refl)
            [StringExpr "a"] (StringExpr "k1") [NumberExpr 3]
            [VBytes (B "a")] (VBytes (B "k1")) _ eq_refl _ eq_refl).
  - repeat constructor.
  - repeat constructor.
Defined.

(** * Access along a path *)

Section AccessPath.
Context `{X : Externals}.

Lemma access_missing (e f : Expression) (kv : KVPair) :
  is_accessor f = true -> Execute e kv = missing ->
  Execute (FieldAccessExpr e f) kv = missing.
Proof.
  intros Hf He. cbn [Execute]. rewrite He. destruct f; try discriminate Hf; reflexivity.
Qed.

Lemma access_path_missing (path : list Expression) :
  forall (e : Expression) (kv : KVPair),
    forallb is_accessor path = true -> Execute e kv = missing ->
    Execute (access_path e path) kv = missing.
Proof.
  induction path as [|f path IH]; intros e kv Hp He; [exact He|].
  simpl in Hp. apply andb_true_iff in Hp. destruct Hp as [Hf Hp].
  unfold access_path. simpl. apply IH; [exact Hp|].
  apply access_missing; assumption.
Qed.

End AccessPath.

(** X6.  An access that misses returns the empty string, and so does
    every access below it: along a path of keys and positions, once the
    base is the empty string, or a map that does not hold the first key,
    or a list that is not longer than the first position, the access
    returns the empty string without error, whatever the rest of the path
    is, negative positions included. *)
Theorem missing_field_propagates `{X : Externals} (e : Expression)
    (path : list Expression) (kv : KVPair) :
  forallb is_accessor path = true ->
  (Execute e kv = Ret (VString "", None) ->
     Execute (access_path e path) kv = Ret (VString "", None)) /\
  (forall m k,
     Execute e kv = Ret (VMap m, None) \/ Execute e kv = Ret (VJSON m, None) ->
     m !! k = None ->
     Execute (access_path e (StringExpr k :: path)) kv = Ret (VString "", None)) /\
  (forall l i,
     Execute e kv = Ret (VList l, None) -> Z.of_nat (length l) <= i ->
     Execute (access_path e (NumberExpr i :: path)) kv = Ret (VString "", None)).
Proof.
  intros Hp. split; [|split].
  - apply access_path_missing. exact Hp.
  - intros m k He Hk. unfold access_path. simpl.
    apply (access_path_missing path _ kv Hp).
    cbn [Execute]. destruct He as [-> | ->]; simpl; rewrite Hk; reflexivity.
  - intros l i He Hi. unfold access_path. simpl.
    apply (access_path_missing path _ kv Hp).
    cbn [Execute]. rewrite He. simpl.
    destruct (Z.ltb_spec i (Z.of_nat (length l))); [lia|reflexivity].
Qed.

(** The list of one element has no position 1; the accesses below it, by
    the key a and by the position -1, return the empty string. *)
Lemma missing_field_propagates_witness :
  @Execute X0
    (access_path held_list [NumberExpr 1; StringExpr "a"; NumberExpr (-1)]) row_true
  = Ret (VString "", None).
Proof.
  apply (proj2 (proj2 (missing_field_propagates (X := X0) held_list
                         [StringExpr "a"; NumberExpr (-1)] row_true eq_refl))
           [VInt Kint 1] 1 eq_refl).
  simpl. lia.
Defined.

(** * Evaluation without calls *)

(** Induction on expressions, with the hypothesis on the elements of a
    list and on the arguments of a call. *)
Lemma Expression_nested_ind (P : Expression -> Prop) :
  (forall d, P (StringExpr d)) ->
  (forall f, P (FieldExpr f)) ->
  (forall op l r, P l -> P r -> P (BinaryOpExpr op l r)) ->
  (forall r, P r -> P (NotExpr r)) ->
  (forall n args res, Forall P args -> P (FunctionCallExpr n args res)) ->
  (forall d, P (NameExpr d)) ->
  (forall i, P (NumberExpr i)) ->
  (forall f, P (FloatExpr f)) ->
  (forall b, P (BoolExpr b)) ->
  (forall l, Forall P l -> P (ListExpr l)) ->
  (forall l f, P l -> P f -> P (FieldAccessExpr l f)) ->
  forall e, P e.
Proof.
  intros HS HF HB HN HC HNm HNu HFl HBo HL HA.
  fix IH 1. intros [d|f|op l r|r|n args res|d|i|f|b|l|l f].
  - apply HS.
  - apply HF.
  - apply HB; apply IH.
  - apply HN; apply IH.
  - apply HC. induction args as [|a args IHargs]; constructor; [apply IH|exact IHargs].
  - apply HNm.
  - apply HNu.
  - apply HFl.
  - apply HBo.
  - apply HL. induction l as [|a l IHl]; constructor; [apply IH|exact IHl].
  - apply HA; apply IH.
Qed.

Section CallFree.
Context `{X : Externals}.
Hypothesis math : math_returns_scalars X.

Lemma unboxed_scalar (r : res (result bool)) :
  (exists b e, r = Ret (b, e)) ->
  exists v err, unboxed r = Ret (v, err) /\ is_scalar v = true.
Proof. intros (b & e & ->). returned. Qed.

Lemma execEqual_returns (vl vr : any) (el er : option error) :
  exists b e, execEqual (Ret (vl, el)) (Ret (vr, er)) = Ret (b, e).
Proof.
  destruct el, er, vl, vr; simpl; eauto;
    repeat match goal with
           | |- context [beyond_int64 ?k ?i] => destruct (beyond_int64 k i); simpl
           end; eauto.
Qed.

Lemma execNotEqual_returns (vl vr : any) (el er : option error) :
  exists b e, execNotEqual (Ret (vl, el)) (Ret (vr, er)) = Ret (b, e).
Proof.
  unfold execNotEqual. destruct (execEqual_returns vl vr el er) as (b & [e|] & ->);
    simpl; eauto.
Qed.

Lemma execPrefixMatch_returns (vl vr : any) (el er : option error) :
  exists b e, execPrefixMatch (Ret (vl, el)) (Ret (vr, er)) = Ret (b, e).
Proof. destruct el, er, vl, vr; simpl; eauto. Qed.

Lemma execRegexpMatch_returns (vl vr : any) (el er : option error) :
  exists b e, execRegexpMatch (Ret (vl, el)) (Ret (vr, er)) = Ret (b, e).
Proof.
  destruct el, er, vl, vr; simpl; eauto;
    match goal with |- context [regexp_Compile ?s] => destruct (regexp_Compile s) as [re [e|]] end;
    eauto.
Qed.

Lemma execAnd_returns (vl vr : any) (el er : option error) :
  exists b e, execAnd (Ret (vl, el)) (Ret (vr, er)) = Ret (b, e).
Proof. destruct el, er, vl as [| | | | |[|]| | | |], vr; simpl; eauto. Qed.

Lemma execOr_returns (vl vr : any) (el er : option error) :
  exists b e, execOr (Ret (vl, el)) (Ret (vr, er)) = Ret (b, e).
Proof. destruct el, er, vl as [| | | | |[|]| | | |], vr; simpl; eauto. Qed.

Lemma execStringIn_loop_returns (kv : KVPair) (left_ : any) (es : list Expression) :
  Forall (returns_scalar kv) es ->
  exists b err, execStringIn_loop (fun x => Execute x kv) left_ es = Ret (VBool b, err).
Proof.
  induction 1 as [|e es (v & err & He & _) _ IH]; simpl; [eauto|].
  destruct (negb (Type_eqb (ReturnType e) TSTR)); [eauto|].
  rewrite He. simpl. destruct err; [eauto|].
  destruct (execStringCompare left_ v "=") as [cmp [e2|]]; [eauto|].
  destruct cmp; [eauto|exact IH].
Qed.

Lemma execNumberIn_loop_returns (kv : KVPair) (left_ : any) (es : list Expression) :
  Forall (returns_scalar kv) es ->
  exists b err, execNumberIn_loop (fun x => Execute x kv) left_ es = Ret (VBool b, err).
Proof.
  induction 1 as [|e es (v & err & He & _) _ IH]; simpl; [eauto|].
  destruct (negb (Type_eqb (ReturnType e) TNUMBER)); [eauto|].
  rewrite He. simpl. destruct err; [eauto|].
  destruct (execNumberCompare left_ v "=") as [cmp [e2|]]; [eauto|].
  destruct cmp; [eauto|exact IH].
Qed.

Lemma execStringBetween_returns (kv : KVPair) (vl : any) (el : option error)
    (r : Expression) :
  elements_return kv r ->
  exists b err,
    execStringBetween (Ret (vl, el)) r (fun x => Execute x kv) = Ret (VBool b, err).
Proof.
  intros Hr. unfold execStringBetween. simpl. destruct el; [eauto|].
  destruct r as [| | | | | | | | |es|]; eauto.
  destruct es as [|lexpr [|uexpr [|x es]]]; eauto.
  simpl in Hr. inversion Hr as [|? ? (lv & le & Hlx & _) Hr']; subst.
  inversion Hr' as [|? ? (uv & ue & Hux & _) _]; subst.
  destruct (negb (Type_eqb (ReturnType lexpr) TSTR)); [eauto|].
  destruct (negb (Type_eqb (ReturnType uexpr) TSTR)); [eauto|].
  rewrite Hlx. simpl. destruct le; [eauto|]. rewrite Hux. simpl. destruct ue; [eauto|].
  destruct (execStringCompare lv uv "<") as [cmp [e|]]; [eauto|].
  destruct (negb cmp); [eauto|].
  destruct (execStringCompare lv vl "<=") as [lcmp [e|]]; [eauto|].
  destruct (negb lcmp); [eauto|].
  destruct (execStringCompare vl uv "<=") as [ucmp [e|]]; eauto.
Qed.

Lemma execNumberBetween_returns (kv : KVPair) (vl : any) (el : option error)
    (r : Expression) :
  elements_return kv r ->
  exists b err,
    execNumberBetween (Ret (vl, el)) r (fun x => Execute x kv) = Ret (VBool b, err).
Proof.
  intros Hr. unfold execNumberBetween. simpl. destruct el; [eauto|].
  destruct r as [| | | | | | | | |es|]; eauto.
  destruct es as [|lexpr [|uexpr [|x es]]]; eauto.
  simpl in Hr. inversion Hr as [|? ? (lv & le & Hlx & _) Hr']; subst.
  inversion Hr' as [|? ? (uv & ue & Hux & _) _]; subst.
  destruct (negb (Type_eqb (ReturnType lexpr) TNUMBER)); [eauto|].
  destruct (negb (Type_eqb (ReturnType uexpr) TNUMBER)); [eauto|].
  rewrite Hlx. simpl. destruct le; [eauto|]. rewrite Hux. simpl. destruct ue; [eauto|].
  destruct (execNumberCompare lv uv "<") as [cmp [e|]]; [eauto|].
  destruct (negb cmp); [eauto|].
  destruct (execNumberCompare lv vl "<=") as [lcmp [e|]]; [eauto|].
  destruct (negb lcmp); [eauto|].
  destruct (execNumberCompare vl uv "<=") as [ucmp [e|]]; eauto.
Qed.

Lemma execFieldAccess_scalar (vl : any) (el : option error) (f : Expression) :
  is_scalar vl = true ->
  exists v err, execFieldAccess (Ret (vl, el)) f = Ret (v, err) /\ is_scalar v = true.
Proof.
  intros Hs. unfold execFieldAccess. simpl. destruct el; [returned|].
  destruct f; try returned.
  - destruct vl; try discriminate Hs; simpl; try returned.
    destruct (String.eqb s ""); returned.
  - destruct vl; try discriminate Hs; simpl; try returned.
    destruct (String.eqb s ""); returned.
Qed.

Lemma BinaryOpExpr_scalar (kv : KVPair) (op : Operator) (l r : Expression) :
  returns_scalar kv l -> returns_scalar kv r -> elements_return kv r ->
  returns_scalar kv (BinaryOpExpr op l r).
Proof.
  intros (vl & el & Hl & _) (vr & er & Hr & _) Hes.
  unfold returns_scalar. cbn [Execute]. rewrite Hl, Hr.
  destruct op.
  - apply unboxed_scalar, execEqual_returns.
  - apply unboxed_scalar, execNotEqual_returns.
  - apply unboxed_scalar, execPrefixMatch_returns.
  - apply unboxed_scalar, execRegexpMatch_returns.
  - apply unboxed_scalar, execAnd_returns.
  - apply unboxed_scalar, execOr_returns.
  - destruct (Type_eqb (ReturnType l) TSTR).
    + unfold execStringConcate. simpl. destruct el; [returned|]. destruct er; returned.
    + unfold execMath. simpl. destruct el; [returned|]. destruct er; [returned|].
      apply math.
  - unfold execMath. simpl. destruct el; [returned|]. destruct er; [returned|]. apply math.
  - unfold execMath. simpl. destruct el; [returned|]. destruct er; [returned|]. apply math.
  - unfold execMath. simpl. destruct el; [returned|]. destruct er; [returned|]. apply math.
  - destruct (ReturnType l); unfold execStringCompare_m, execNumberCompare_m; simpl;
      destruct el; try returned; destruct er; returned.
  - destruct (ReturnType l); unfold execStringCompare_m, execNumberCompare_m; simpl;
      destruct el; try returned; destruct er; returned.
  - destruct (ReturnType l); unfold execStringCompare_m, execNumberCompare_m; simpl;
      destruct el; try returned; destruct er; returned.
  - destruct (ReturnType l); unfold execStringCompare_m, execNumberCompare_m; simpl;
      destruct el; try returned; destruct er; returned.
  - assert (forall es, r = ListExpr es -> Forall (returns_scalar kv) es) as Hlist.
    { intros es ->. exact Hes. }
    destruct (ReturnType l); unfold execStringIn, execNumberIn; simpl;
      (destruct el; [returned|]); destruct r; try returned;
      [destruct (execStringIn_loop_returns kv vl List (Hlist _ eq_refl)) as (b & e & ->)
      |destruct (execNumberIn_loop_returns kv vl List (Hlist _ eq_refl)) as (b & e & ->)
      |destruct (execNumberIn_loop_returns kv vl List (Hlist _ eq_refl)) as (b & e & ->)];
      returned.
  - destruct (ReturnType l);
      [destruct (execStringBetween_returns kv vl el r Hes) as (b & e & ->)
      |destruct (execNumberBetween_returns kv vl el r Hes) as (b & e & ->)
      |destruct (execNumberBetween_returns kv vl el r Hes) as (b & e & ->)];
      returned.
  - returned.
Qed.

Lemma call_free_returns (kv : KVPair) (e : Expression) :
  call_free e = true -> returns_scalar kv e /\ elements_return kv e.
Proof.
  induction e as [d|f|op l r IHl IHr|r IHr|n args res _|d|i|f|b|l IHl|l f IHl IHf]
    using Expression_nested_ind; simpl; intros Hcf.
  - split; [returned|exact I].
  - split; [|exact I]. destruct f; returned.
  - apply andb_true_iff in Hcf. destruct Hcf as [Hcl Hcr].
    split; [|exact I]. apply BinaryOpExpr_scalar; [apply IHl|apply IHr|apply IHr]; assumption.
  - split; [|exact I]. destruct (proj1 (IHr Hcf)) as (v & err & Hr & _).
    unfold returns_scalar. cbn [Execute]. rewrite Hr. unfold execNot. simpl.
    destruct err; [returned|]. destruct v; returned.
  - discriminate Hcf.
  - split; [returned|exact I].
  - split; [returned|exact I].
  - split; [returned|exact I].
  - split; [returned|exact I].
  - split; [returned|].
    rewrite forallb_forall in Hcf. rewrite Forall_forall in IHl |- *.
    intros x Hx. apply IHl; [exact Hx|]. apply Hcf. apply list_elem_of_In. exact Hx.
  - apply andb_true_iff in Hcf. destruct Hcf as [Hcl Hcf'].
    split; [|exact I]. destruct (proj1 (IHl Hcl)) as (v & err & Hl & Hs).
    unfold returns_scalar. cbn [Execute]. rewrite Hl.
    apply execFieldAccess_scalar. exact Hs.
Qed.

End CallFree.

(** X7.  Arithmetic returning, and returning scalars, the
    evaluation of an expression without a call node returns on every row:
    it does not panic, and its value is neither a list nor a map. *)
Theorem call_free_never_panics `{X : Externals} (e : Expression) (kv : KVPair) :
  math_returns_scalars X ->
  call_free e = true ->
  exists v err, Execute e kv = Ret (v, err) /\ is_scalar v = true.
Proof. intros Hm Hcf. apply (call_free_returns Hm kv e Hcf). Qed.

(** An access by a negative position into a name that is not a list. *)
Lemma call_free_never_panics_witness :
  exists v err,
    @Execute X0
      (BinaryOpExpr Or (FieldAccessExpr (NameExpr "") (NumberExpr (-1)))
         (BinaryOpExpr Div (NumberExpr 1) (NumberExpr 0))) row_true
    = Ret (v, err) /\ is_scalar v = true.
Proof.
  apply (call_free_never_panics (X := X0)).
  - intros a b op. eexists _, _. split; reflexivity.
  - reflexivity.
Defined.

(** * What the scans return of the rows of the cursor *)

(** A plan whose [Next] is that of another plan on a part of its state
    yields what the other yields. *)
Lemma yields_lift {S1 S2 : Type} (P1 : Plan S1) (P2 : Plan S2) (inj : S1 -> S2) :
  (forall s, @Next _ P2 (inj s) = '(r, s') ← @Next _ P1 s; Ret (r, inj s')) ->
  forall s rs s', @yields _ P1 s rs s' -> @yields _ P2 (inj s) rs (inj s').
Proof.
  intros Hsim s rs s'. induction 1 as [s s' Hn|s s1 s' k v rs Hn Hrow Hrs IH].
  - apply yields_end. rewrite Hsim, Hn. reflexivity.
  - eapply yields_row; [|exact Hrow|exact IH]. rewrite Hsim, Hn. reflexivity.
Qed.

Section ScanRows.
Context `{X : Externals} {C : Type} `{Cur : Cursor C}.
Variable stop : list byte -> bool.
Variable f : FilterExec.

(** One call of the loop on a cursor that gives [rows]: the first row
    before the stop that the filter accepts, or the end of the stream. *)
Lemma scan_loop_gives (c c_end : C) (rows : list (list byte * slice)) :
  cursor_gives c rows c_end ->
  Forall (decides f) (before_stop stop rows) ->
  forall fuel, (length rows < fuel)%nat ->
    match List.filter (accepts f) (before_stop stop rows) with
    | [] => exists c', scan_loop stop fuel f c = Ret (end_of_rows, c')
    | r :: out =>
        exists c' rows',
          scan_loop stop fuel f c = Ret ((Some r.1, r.2, None), c')
          /\ cursor_gives c' rows' c_end
          /\ (length rows' < length rows)%nat
          /\ List.filter (accepts f) (before_stop stop rows') = out
          /\ Forall (decides f) (before_stop stop rows')
    end.
Proof.
  induction 1 as [c c' v Hc|c c' c'' k v rows Hc Hrows IH]; intros Hdec fuel Hfuel.
  - simpl. destruct fuel as [|fuel]; [simpl in Hfuel; lia|].
    simpl. rewrite Hc. eexists. reflexivity.
  - destruct fuel as [|fuel]; [simpl in Hfuel; lia|].
    simpl in Hfuel. simpl scan_loop. rewrite Hc. simpl before_stop.
    destruct (stop k) eqn:Hstop; [simpl; eexists; reflexivity|].
    simpl in Hdec. rewrite Hstop in Hdec.
    inversion Hdec as [|? ? (b & Hb) Hdec']; subst. simpl in Hb.
    simpl List.filter. unfold accepts at 1. simpl. rewrite Hb. simpl.
    destruct b.
    + exists c', rows. repeat split; auto.
    + specialize (IH Hdec' fuel ltac:(lia)).
      destruct (List.filter (accepts f) (before_stop stop rows)) as [|r out].
      * exact IH.
      * destruct IH as (c1 & rows' & H1 & H2 & H3 & H4 & H5).
        exists c1, rows'. repeat split; auto.
Qed.

Lemma scan_plan_yields (fuel : nat) (n : nat) :
  forall (c c_end : C) (rows : list (list byte * slice)),
    (length rows <= n)%nat ->
    cursor_gives c rows c_end ->
    Forall (decides f) (before_stop stop rows) ->
    (length rows < fuel)%nat ->
    exists c', yields (P := scan_plan stop fuel f) c (scanned stop f rows) c'.
Proof.
  induction n as [|n IH]; intros c c_end rows Hn Hrows Hdec Hfuel;
    pose proof (scan_loop_gives c c_end rows Hrows Hdec fuel Hfuel) as Hcall;
    unfold scanned;
    destruct (List.filter (accepts f) (before_stop stop rows)) as [|r out] eqn:Hout.
  - destruct Hcall as [c' Hc']. exists c'. apply yields_end. exact Hc'.
  - destruct Hcall as (c' & rows' & _ & _ & Hlt & _). lia.
  - destruct Hcall as [c' Hc']. exists c'. apply yields_end. exact Hc'.
  - destruct Hcall as (c' & rows' & Hc' & Hrows' & Hlt & Hout' & Hdec').
    destruct (IH c' c_end rows' ltac:(lia) Hrows' Hdec' ltac:(lia)) as [c'' Hy].
    unfold scanned in Hy. rewrite Hout' in Hy.
    exists c''. simpl. eapply yields_row; [exact Hc'|reflexivity|exact Hy].
Qed.

End ScanRows.

(** Among ascending keys, the keys before the first that stops the scan
    are the keys that do not stop it, when the stopping keys are closed
    upwards. *)
Lemma before_stop_filter (stop : list byte -> bool) (good : list byte -> Prop)
    (rows : list (list byte * slice)) :
  (forall k1 k2, good k1 -> good k2 -> stop k1 = true -> Compare k1 k2 <= 0 ->
                 stop k2 = true) ->
  ascending_rows rows -> Forall (fun r => good r.1) rows ->
  before_stop stop rows = List.filter (fun r => negb (stop r.1)) rows.
Proof.
  intros Hup. induction rows as [|r rows IH]; intros Hasc Hgood; simpl; [reflexivity|].
  inversion Hasc as [|? ? Hasc' Hle]; subst. inversion Hgood as [|? ? Hg Hgood']; subst.
  destruct (stop r.1) eqn:Hstop; simpl.
  - clear IH Hasc Hgood Hasc'. induction rows as [|r2 rows IH2]; simpl; [reflexivity|].
    inversion Hle as [|? ? Hle1 Hle']; subst.
    inversion Hgood' as [|? ? Hg2 Hgood'']; subst.
    rewrite (Hup r.1 r2.1 Hg Hg2 Hstop Hle1). simpl.
    apply IH2; assumption.
  - f_equal. apply IH; assumption.
Qed.

(** X8.  A full scan over a cursor that gives the rows [rows] and
    then ends, with a filter that returns a boolean on each of them,
    yields the rows that the filter accepts, all of them and in the order
    of the cursor, then the end of the stream. *)
Theorem full_scan_yields_accepted_rows `{X : Externals} {C : Type} `{Cur : Cursor C}
    (p : FullScanPlan.t C) (c c_end : C) (rows : list (list byte * slice)) (fuel : nat) :
  FullScanPlan.iter p = Some c ->
  cursor_gives c rows c_end ->
  Forall (decides (FullScanPlan.Filter_ p)) rows ->
  (length rows < fuel)%nat ->
  exists p',
    yields (P := FullScanPlan_plan fuel) p
      (map as_pair (List.filter (accepts (FullScanPlan.Filter_ p)) rows)) p'.
Proof.
  intros Hit Hrows Hdec Hfuel.
  assert (before_stop (fun _ => false) rows = rows) as Hall.
  { clear. induction rows as [|r rows IH]; simpl; [reflexivity|]. f_equal. exact IH. }
  destruct (scan_plan_yields (fun _ => false) (FullScanPlan.Filter_ p) fuel
              (length rows) c c_end rows (le_n _) Hrows) as [c' Hy];
    [rewrite Hall; exact Hdec|exact Hfuel|].
  unfold scanned in Hy. rewrite Hall in Hy.
  set (inj := fun c0 : C =>
    {| FullScanPlan.Txn_ := FullScanPlan.Txn_ p;
       FullScanPlan.Filter_ := FullScanPlan.Filter_ p;
       FullScanPlan.iter := Some c0 |}).
  exists (inj c'). replace p with (inj c) by (destruct p; simpl in *; subst; reflexivity).
  revert Hy. apply (yields_lift (scan_plan _ fuel _) (FullScanPlan_plan fuel) inj).
  intros s. cbn [Next FullScanPlan_plan scan_plan]. unfold FullScanPlan.Next. simpl.
  rewrite FullScanPlan_loop_scan. reflexivity.
Qed.

(** The full scan of the store a1, a2, b1 under the filter [value = "y"]
    yields the row a2. *)
Lemma full_scan_yields_accepted_rows_witness :
  exists p',
    yields (P := FullScanPlan_plan (X := X0) 4) (full_scan_of value_is_y store3)
      [pair_of "a2" "y"] p'.
Proof.
  refine (full_scan_yields_accepted_rows (X := X0) (full_scan_of value_is_y store3)
            store3 [] rows_of_store3 4 eq_refl _ _ _).
  - repeat (eapply cursor_gives_row; [reflexivity|]).
    eapply cursor_gives_end with (v := None). reflexivity.
  - repeat constructor; eexists; vm_compute; reflexivity.
  - simpl. lia.
Defined.

Lemma filter_filter {A : Type} (g h : A -> bool) (l : list A) :
  List.filter h (List.filter g l) = List.filter (fun x => g x && h x) l.
Proof.
  induction l as [|x l IH]; simpl; [reflexivity|].
  destruct (g x); simpl; [|exact IH]. destruct (h x); [f_equal|]; exact IH.
Qed.

Lemma before_stop_never (rows : list (list byte * slice)) :
  before_stop (fun _ => false) rows = rows.
Proof. induction rows as [|r rows IH]; simpl; [reflexivity|]. f_equal. exact IH. Qed.

(** X9.  A prefix scan over a cursor that gives the rows [rows]
    and then ends yields, of the rows before the first one whose key does
    not start with the prefix, those that the filter accepts, in the order
    of the cursor, then the end of the stream.  When the keys of the
    cursor are in ascending order and none is below the prefix, these are
    all the rows of the cursor that start with the prefix and that the
    filter accepts. *)
Theorem prefix_scan_yields_prefixed_rows `{X : Externals} {C : Type} `{Cur : Cursor C}
    (p : PrefixScanPlan.t C) (c c_end : C) (rows : list (list byte * slice))
    (fuel : nat) :
  let pb := String.list_byte_of_string (PrefixScanPlan.Prefix p) in
  let f := PrefixScanPlan.Filter_ p in
  let stop := fun k => negb (HasPrefix k pb) in
  PrefixScanPlan.iter p = Some c ->
  cursor_gives c rows c_end ->
  Forall (decides f) (before_stop stop rows) ->
  (length rows < fuel)%nat ->
  (exists p', yields (P := PrefixScanPlan_plan fuel) p (scanned stop f rows) p') /\
  (ascending_rows rows -> rows_not_below pb rows ->
   scanned stop f rows
   = map as_pair (List.filter (fun r => HasPrefix r.1 pb && accepts f r) rows)).
Proof.
  intros pb f stop Hit Hrows Hdec Hfuel. split.
  - destruct (scan_plan_yields stop f fuel (length rows) c c_end rows (le_n _) Hrows
                Hdec Hfuel) as [c' Hy].
    exists (PrefixScanPlan.with_iter p (Some c')).
    replace p with (PrefixScanPlan.with_iter p (Some c))
      by (destruct p; simpl in *; subst; reflexivity).
    revert Hy.
    apply (yields_lift (scan_plan stop fuel f) (PrefixScanPlan_plan fuel)
             (fun c0 => PrefixScanPlan.with_iter p (Some c0))).
    intros s. cbn [Next PrefixScanPlan_plan scan_plan]. unfold PrefixScanPlan.Next. simpl.
    rewrite PrefixScanPlan_loop_scan. reflexivity.
  - intros Hasc Hlow. unfold scanned.
    rewrite (before_stop_filter stop (fun k => Compare pb k <= 0) rows); try assumption.
    + rewrite filter_filter. f_equal. apply filter_ext. intros r. unfold stop.
      rewrite negb_involutive. reflexivity.
    + intros k1 k2 H1 _ Hs Hle. unfold stop in *.
      apply negb_true_iff in Hs. apply negb_true_iff.
      eapply HasPrefix_upward; eassumption.
Qed.

(** The prefix scan of the store a1, a2, b1 with the prefix a, every row
    accepted. *)
Lemma prefix_scan_yields_prefixed_rows_witness :
  exists p',
    yields (P := PrefixScanPlan_plan (X := X0) 4)
      (prefix_scan_of accept_all "a" store3)
      [pair_of "a1" "x"; pair_of "a2" "y"] p'.
Proof.
  refine (proj1 (prefix_scan_yields_prefixed_rows (X := X0)
                   (prefix_scan_of accept_all "a" store3) store3 [] rows_of_store3 4
                   eq_refl _ _ _)).
  - repeat (eapply cursor_gives_row; [reflexivity|]).
    eapply cursor_gives_end with (v := None). reflexivity.
  - repeat constructor; eexists; vm_compute; reflexivity.
  - simpl. lia.
Defined.

(** X10.  A range scan over a cursor that gives the rows [rows]
    and then ends yields, of the rows before the first one whose key is
    greater than [End], those that the filter accepts, then the end of the
    stream: a key equal to [End] does not stop it, and without [End]
    nothing does.  When the keys of the cursor are in ascending order,
    these are all the rows of the cursor with a key up to [End] that the
    filter accepts. *)
Theorem range_scan_yields_rows_up_to_End `{X : Externals} {C : Type} `{Cur : Cursor C}
    (p : RangeScanPlan.t C) (c c_end : C) (rows : list (list byte * slice))
    (fuel : nat) :
  let f := RangeScanPlan.Filter_ p in
  let stop := RangeScanPlan.beyond (RangeScanPlan.End_ p) in
  RangeScanPlan.iter p = Some c ->
  cursor_gives c rows c_end ->
  Forall (decides f) (before_stop stop rows) ->
  (length rows < fuel)%nat ->
  (exists p', yields (P := RangeScanPlan_plan fuel) p (scanned stop f rows) p') /\
  (forall e, RangeScanPlan.End_ p = Some e -> stop e = false) /\
  (RangeScanPlan.End_ p = None ->
   scanned stop f rows = map as_pair (List.filter (accepts f) rows)) /\
  (ascending_rows rows ->
   scanned stop f rows
   = map as_pair (List.filter (fun r => negb (stop r.1) && accepts f r) rows)).
Proof.
  intros f stop Hit Hrows Hdec Hfuel. split; [|split; [|split]].
  - destruct (scan_plan_yields stop f fuel (length rows) c c_end rows (le_n _) Hrows
                Hdec Hfuel) as [c' Hy].
    exists (RangeScanPlan.with_iter p (Some c')).
    replace p with (RangeScanPlan.with_iter p (Some c))
      by (destruct p; simpl in *; subst; reflexivity).
    revert Hy.
    apply (yields_lift (scan_plan stop fuel f) (RangeScanPlan_plan fuel)
             (fun c0 => RangeScanPlan.with_iter p (Some c0))).
    intros s. cbn [Next RangeScanPlan_plan scan_plan]. unfold RangeScanPlan.Next. simpl.
    rewrite RangeScanPlan_loop_scan. reflexivity.
  - intros e He. unfold stop. rewrite He. simpl. rewrite Compare_refl. reflexivity.
  - intros He. unfold scanned, stop. rewrite He. simpl.
    rewrite before_stop_never. reflexivity.
  - intros Hasc. unfold scanned.
    rewrite (before_stop_filter stop (fun _ => True) rows); try assumption.
    + rewrite filter_filter. reflexivity.
    + intros k1 k2 _ _ Hs Hle. eapply beyond_upward; eassumption.
    + clear. induction rows; constructor; auto.
Qed.

(** The range scan of the store a1, a2, b1 up to the key a2, every row
    accepted: the row a2 is the last. *)
Lemma range_scan_yields_rows_up_to_End_witness :
  exists p',
    yields (P := RangeScanPlan_plan (X := X0) 4)
      (range_scan_of accept_all None (Some (B "a2")) store3)
      [pair_of "a1" "x"; pair_of "a2" "y"] p'.
Proof.
  refine (proj1 (range_scan_yields_rows_up_to_End (X := X0)
                   (range_scan_of accept_all None (Some (B "a2")) store3)
                   store3 [] rows_of_store3 4 eq_refl _ _ _)).
  - repeat (eapply cursor_gives_row; [reflexivity|]).
    eapply cursor_gives_end with (v := None). reflexivity.
  - repeat constructor; eexists; vm_compute; reflexivity.
  - simpl. lia.
Defined.

(** * Multi-get *)

Section MultiGet.
Context `{X : Externals} {C : Type}.
Variable p : MultiGetPlan.t C.
Hypothesis numKeys_length :
  MultiGetPlan.numKeys p = Z.of_nat (length (MultiGetPlan.Keys p)).

Abbreviation at_idx := (MultiGetPlan.with_idx p).
Abbreviation fetch := (fetched (MultiGetPlan.Txn_ p) (MultiGetPlan.Filter_ p)).
Abbreviation can_get := (gettable (MultiGetPlan.Txn_ p) (MultiGetPlan.Filter_ p)).

(** From the position [i] on, the plan yields what the keys from [i] on
    give. *)
Lemma MultiGetPlan_yields_from (ks : list string) :
  forall i : Z,
    0 <= i -> drop (Z.to_nat i) (MultiGetPlan.Keys p) = ks ->
    Forall can_get ks ->
    exists p', yields (P := MultiGetPlan_plan) (at_idx i) (omap fetch ks) p'.
Proof.
  induction ks as [|k ks IH]; intros i Hi Hdrop Hget.
  - exists (at_idx i). apply yields_end.
    cbn [Next MultiGetPlan_plan]. unfold MultiGetPlan.Next. simpl.
    assert (length (MultiGetPlan.Keys p) <= Z.to_nat i)%nat as Hlen.
    { apply (f_equal length) in Hdrop. rewrite length_drop in Hdrop. simpl in Hdrop. lia. }
    replace (Z.to_nat (MultiGetPlan.numKeys p - i)) with 0%nat by lia.
    reflexivity.
  - assert (MultiGetPlan.Keys p !! Z.to_nat i = Some k) as Hk.
    { pose proof (lookup_drop (MultiGetPlan.Keys p) (Z.to_nat i) 0) as H0.
      rewrite Hdrop, Nat.add_0_r in H0. symmetry. exact H0. }
    assert (drop (Z.to_nat (i + 1)) (MultiGetPlan.Keys p) = ks) as Hdrop'.
    { replace (Z.to_nat (i + 1)) with (S (Z.to_nat i)) by lia.
      apply (f_equal (drop 1)) in Hdrop. rewrite drop_drop in Hdrop. simpl in Hdrop.
      rewrite drop_0 in Hdrop. rewrite <- Hdrop. f_equal. lia. }
    inversion Hget as [|? ? (val & Hval & Hdec) Hget']; subst.
    destruct (IH (i + 1) ltac:(lia) eq_refl Hget') as [p' Hp'].
    pose proof (lookup_lt_Some _ _ _ Hk) as Hlt.
    assert (@Next _ MultiGetPlan_plan (at_idx i)
            = match fetch k with
              | Some r => Ret ((r.1, r.2, None), at_idx (i + 1))
              | None => @Next _ MultiGetPlan_plan (at_idx (i + 1))
              end) as Hnext.
    { cbn [Next MultiGetPlan_plan]. unfold MultiGetPlan.Next. simpl.
      replace (Z.to_nat (MultiGetPlan.numKeys p - i))
        with (S (Z.to_nat (MultiGetPlan.numKeys p - (i + 1)))) by lia.
      simpl. destruct (Z.ltb_spec i 0); [lia|]. rewrite Hk. simpl.
      unfold fetched. fold (B k). rewrite Hval.
      destruct val as [v|]; [|reflexivity].
      destruct (Hdec v eq_refl) as [b Hb]. unfold accepts. simpl in Hb |- *.
      rewrite Hb. simpl. destruct b; reflexivity. }
    simpl omap. destruct (fetch k) as [r|] eqn:Hr.
    + exists p'. destruct r as [rk rv]. eapply yields_row; [exact Hnext| |exact Hp'].
      unfold fetched in Hr. destruct (Get _ _) as [[v|] [e|]]; try discriminate Hr.
      destruct (accepts _ _); [|discriminate Hr]. injection Hr as <- <-. reflexivity.
    + exists p'. eapply yields_same_Next; [exact Hnext|exact Hp'].
Qed.

End MultiGet.

(** X11.  A multi-get plan whose [numKeys] is the number of its
    keys yields, for the keys from its position on and in their order, the
    key and the value of each key that the store holds a value for and
    that the filter accepts, then the end of the stream; a key that is
    listed twice is looked up twice.  The store is to return no error for
    these keys, and the filter a boolean on the rows found. *)
Theorem multi_get_yields_found_keys `{X : Externals} {C : Type} (p : MultiGetPlan.t C) :
  MultiGetPlan.numKeys p = Z.of_nat (length (MultiGetPlan.Keys p)) ->
  0 <= MultiGetPlan.idx p ->
  Forall (gettable (MultiGetPlan.Txn_ p) (MultiGetPlan.Filter_ p))
         (drop (Z.to_nat (MultiGetPlan.idx p)) (MultiGetPlan.Keys p)) ->
  exists p',
    yields (P := MultiGetPlan_plan) p
      (omap (fetched (MultiGetPlan.Txn_ p) (MultiGetPlan.Filter_ p))
            (drop (Z.to_nat (MultiGetPlan.idx p)) (MultiGetPlan.Keys p))) p'.
Proof.
  intros Hnum Hidx Hget.
  destruct (MultiGetPlan_yields_from p Hnum _ (MultiGetPlan.idx p) Hidx eq_refl Hget)
    as [p' Hp'].
  exists p'. destruct p; exact Hp'.
Qed.

(** The keys b, z, a, b over the store of a and b, in the order of the
    list: z gives nothing, b comes twice. *)
Lemma multi_get_yields_found_keys_witness :
  exists p',
    yields (P := MultiGetPlan_plan (X := X0))
      {| MultiGetPlan.Txn_ := txn_ab; MultiGetPlan.Filter_ := accept_all;
         MultiGetPlan.Keys := ["b"; "z"; "a"; "b"]%string;
         MultiGetPlan.numKeys := 4; MultiGetPlan.idx := 0 |}
      [pair_of "b" "2"; pair_of "a" "1"; pair_of "b" "2"] p'.
Proof.
  refine (multi_get_yields_found_keys (X := X0)
            {| MultiGetPlan.Txn_ := txn_ab; MultiGetPlan.Filter_ := accept_all;
               MultiGetPlan.Keys := ["b"; "z"; "a"; "b"]%string;
               MultiGetPlan.numKeys := 4; MultiGetPlan.idx := 0 |} eq_refl _ _).
  - simpl. lia.
  - repeat constructor; eexists; (split; [reflexivity|]);
      intros v [= <-] || intros v [=]; eexists; vm_compute; reflexivity.
Defined.

(** * The order of the keys of a multi-get *)

Lemma Compare_antisym (a b : list byte) : Compare b a = - Compare a b.
Proof.
  revert b. induction a as [|x a IH]; intros [|y b]; simpl; try reflexivity.
  unfold cmp_byte. rewrite (N.compare_antisym (Byte.to_N x) (Byte.to_N y)).
  destruct (Byte.to_N x ?= Byte.to_N y)%N; simpl; [apply IH|reflexivity|reflexivity].
Qed.

Lemma insert_String_Permutation (k : string) (l : list string) :
  insert_String k l ≡ₚ k :: l.
Proof.
  induction l as [|x l IH]; simpl; [reflexivity|].
  destruct (Compare (B k) (B x) <=? 0); [reflexivity|].
  rewrite IH. apply perm_swap.
Qed.

Lemma sort_Strings_Permutation (keys : list string) : sort_Strings keys ≡ₚ keys.
Proof.
  induction keys as [|k keys IH]; simpl; [reflexivity|].
  rewrite insert_String_Permutation, IH. reflexivity.
Qed.

Lemma insert_String_sorted (k : string) (l : list string) :
  StronglySorted (fun a b => Compare (B a) (B b) <= 0) l ->
  StronglySorted (fun a b => Compare (B a) (B b) <= 0) (insert_String k l).
Proof.
  induction 1 as [|x l Hl IH Hx]; simpl; [repeat constructor|].
  destruct (Z.leb_spec (Compare (B k) (B x)) 0) as [Hle|Hgt].
  - constructor; [constructor; assumption|].
    constructor; [exact Hle|].
    rewrite Forall_forall in Hx. rewrite Forall_forall. intros y Hy.
    eapply Compare_le_trans; [exact Hle|apply Hx; exact Hy].
  - constructor; [exact IH|].
    rewrite Forall_forall in Hx. rewrite Forall_forall. intros y Hy.
    rewrite insert_String_Permutation in Hy. apply elem_of_cons in Hy.
    destruct Hy as [->|Hy]; [|apply Hx; exact Hy].
    rewrite (Compare_antisym (B k) (B x)). lia.
Qed.

Lemma sort_Strings_sorted (keys : list string) :
  StronglySorted (fun a b => Compare (B a) (B b) <= 0) (sort_Strings keys).
Proof.
  induction keys as [|k keys IH]; simpl; [constructor|].
  apply insert_String_sorted. exact IH.
Qed.

Lemma fetched_key `{X : Externals} {C : Type} (t : Txn C) (f : FilterExec) (k : string)
    (r : slice * slice) :
  fetched t f k = Some r -> contents r.1 = B k.
Proof.
  unfold fetched. destruct (Get t (B k)) as [[v|] [e|]]; try discriminate.
  destruct (accepts f _); [|discriminate]. intros [= <-]. reflexivity.
Qed.

Lemma omap_fetched_sorted `{X : Externals} {C : Type} (t : Txn C) (f : FilterExec)
    (keys : list string) :
  StronglySorted (fun a b => Compare (B a) (B b) <= 0) keys ->
  StronglySorted key_le (omap (fetched t f) keys).
Proof.
  induction 1 as [|k keys Hs IH Hk]; simpl; [constructor|].
  destruct (fetched t f k) as [r|] eqn:Hr; [|exact IH].
  constructor; [exact IH|].
  rewrite Forall_forall in Hk. rewrite Forall_forall. intros r2 Hr2.
  apply list_elem_of_omap in Hr2. destruct Hr2 as (k2 & Hk2 & Hf2).
  unfold key_le. rewrite (fetched_key _ _ _ _ Hr), (fetched_key _ _ _ _ Hf2).
  apply Hk. exact Hk2.
Qed.

Lemma multi_get_yields_from_start `{X : Externals} {C : Type}
    (t : Txn C) (f : FilterExec) (keys : list string) :
  Forall (gettable t f) keys ->
  exists p',
    yields (P := MultiGetPlan_plan)
      {| MultiGetPlan.Txn_ := t; MultiGetPlan.Filter_ := f; MultiGetPlan.Keys := keys;
         MultiGetPlan.idx := 0; MultiGetPlan.numKeys := Z.of_nat (length keys) |}
      (omap (fetched t f) keys) p'.
Proof.
  intros Hget.
  apply (MultiGetPlan_yields_from
           {| MultiGetPlan.Txn_ := t; MultiGetPlan.Filter_ := f; MultiGetPlan.Keys := keys;
              MultiGetPlan.idx := 0; MultiGetPlan.numKeys := Z.of_nat (length keys) |}
           eq_refl keys 0 ltac:(lia) eq_refl Hget).
Qed.

(** X12.  The plan that [NewMultiGetPlan] builds yields its
    rows in ascending order of their keys, however the keys were listed:
    the rows are those that the listed keys give, a key that is listed
    twice giving its row twice. *)
Theorem new_multi_get_yields_in_key_order `{X : Externals} {C : Type}
    (t : Txn C) (f : FilterExec) (keys : list string) :
  Forall (gettable t f) keys ->
  exists out p',
    yields (P := MultiGetPlan_plan) (NewMultiGetPlan t f keys) out p'
    /\ out ≡ₚ omap (fetched t f) keys
    /\ StronglySorted key_le out.
Proof.
  intros Hget.
  destruct (multi_get_yields_from_start t f (sort_Strings keys)) as [p' Hp'].
  { rewrite Forall_forall in Hget. rewrite Forall_forall. intros k Hk. apply Hget.
    rewrite <- (sort_Strings_Permutation keys). exact Hk. }
  exists (omap (fetched t f) (sort_Strings keys)), p'. split; [exact Hp'|]. split.
  - rewrite (sort_Strings_Permutation keys). reflexivity.
  - apply omap_fetched_sorted, sort_Strings_sorted.
Qed.

(** The keys b, z, a, b, sorted to a, b, b, z. *)
Lemma new_multi_get_yields_in_key_order_witness :
  exists out p',
    yields (P := MultiGetPlan_plan (X := X0))
      (NewMultiGetPlan txn_ab accept_all ["b"; "z"; "a"; "b"]%string) out p'
    /\ out ≡ₚ [pair_of "b" "2"; pair_of "a" "1"; pair_of "b" "2"]
    /\ StronglySorted key_le out.
Proof.
  refine (new_multi_get_yields_in_key_order (X := X0) txn_ab accept_all
            ["b"; "z"; "a"; "b"]%string _).
  repeat constructor; eexists; (split; [reflexivity|]);
    intros v [= <-] || intros v [=]; eexists; vm_compute; reflexivity.
Defined.

(** * Further properties of the limit *)

Section LimitMore.
Context {St : Type} `{Child : Plan St}.

(** Whatever the signs of [Start] and [Count] are. *)
Lemma limit_yields_any_bounds (s s' : St) (rs : list (slice * slice)) (start count : Z) :
  yields s rs s' ->
  exists p', yields (P := LimitPlan_plan) (limit_state start count 0 0 s)
               (take (Z.to_nat count) (drop (Z.to_nat start) rs)) p'.
Proof.
  intros Hy.
  destruct (LimitPlan_skip_spec (Z.to_nat start) s s' rs Hy start count 0 0) as [H1 H2].
  destruct (Nat.le_gt_cases (Z.to_nat start) (length rs)) as [Hle|Hgt].
  - destruct (H1 Hle) as (sn & Hsn & Heq).
    destruct (limit_yields_skipped sn s' _ Hsn start count 0 (0 + Z.of_nat (Z.to_nat start)))
      as [p' Hp']; [lia|].
    exists p'. rewrite Z.sub_0_r in Hp'.
    eapply yields_same_Next; [|exact Hp'].
    change (@Next _ LimitPlan_plan ?p) with (LimitPlan.Next p).
    rewrite (LimitPlan_Next_skipped start count 0 (0 + Z.of_nat (Z.to_nat start))) by lia.
    rewrite <- Heq. unfold LimitPlan.Next. simpl.
    rewrite Z.sub_0_r. reflexivity.
  - rewrite drop_ge by lia. rewrite take_nil.
    eexists. apply yields_end.
    change (@Next _ LimitPlan_plan ?p) with (LimitPlan.Next p).
    unfold LimitPlan.Next. simpl. rewrite Z.sub_0_r.
    rewrite (H2 Hgt). reflexivity.
Qed.

(** Past the rows to discard, the plan passes on the rows that its child
    has, as long as it has not returned [Count]. *)
Lemma limit_produces_skipped (s s' : St) (rs : list (slice * slice)) :
  produces s rs s' ->
  forall start count cur sk, start <= sk -> Z.of_nat (length rs) <= count - cur ->
    produces (P := LimitPlan_plan) (limit_state start count cur sk s) rs
      (limit_state start count (cur + Z.of_nat (length rs)) sk s').
Proof.
  induction 1 as [s|s s1 s' k v rs Hn Hrow Hrs IH]; intros start count cur sk Hsk Hlen.
  - simpl. rewrite Z.add_0_r. constructor.
  - simpl in Hlen.
    eapply produces_row; [|exact Hrow|].
    + change (@Next _ LimitPlan_plan ?p) with (LimitPlan.Next p).
      rewrite LimitPlan_Next_skipped by assumption.
      unfold LimitPlan.yield. simpl.
      destruct (Z.geb_spec cur count); [lia|].
      rewrite Hn. simpl. simpl in Hrow. rewrite Hrow. reflexivity.
    + specialize (IH start count (cur + 1) sk Hsk ltac:(lia)).
      replace (cur + Z.of_nat (length ((k, v) :: rs)))
        with (cur + 1 + Z.of_nat (length rs)) by (simpl; lia).
      exact IH.
Qed.

Lemma produces_same_Next {S1 : Type} (P1 : Plan S1) (p q p' : S1)
    (k : slice) (v : slice) (out : list (slice * slice)) :
  @Next _ P1 p = @Next _ P1 q ->
  @produces _ P1 q ((k, v) :: out) p' -> @produces _ P1 p ((k, v) :: out) p'.
Proof.
  intros Heq Hy. inversion Hy; subst.
  eapply produces_row; [rewrite Heq| |]; eassumption.
Qed.

(** The first call discards [Start] rows of a child that has them, and
    goes on as the plan that has discarded them does. *)
Lemma LimitPlan_Next_after_skip (s sn : St) (rs : list (slice * slice))
    (start count : Z) :
  0 <= start -> produces s rs sn -> Z.of_nat (length rs) = start ->
  @Next _ LimitPlan_plan (limit_state start count 0 0 s)
  = @Next _ LimitPlan_plan (limit_state start count 0 start sn).
Proof.
  intros Hs Hp Hlen.
  change (@Next _ LimitPlan_plan ?p) with (LimitPlan.Next p).
  rewrite (LimitPlan_Next_skipped start count 0 start) by lia.
  unfold LimitPlan.Next. simpl. rewrite Z.sub_0_r.
  rewrite (LimitPlan_skip_produces (Z.to_nat start) s sn rs Hp ltac:(lia)).
  replace (0 + Z.of_nat (Z.to_nat start)) with start by lia. reflexivity.
Qed.

(** The loop that discards rows returns the error of the child that fails
    before it has given them all. *)
Lemma LimitPlan_skip_error (n : nat) :
  forall (s s1 s2 : St) (rs : list (slice * slice)) (k v : slice) (e : error),
    produces s rs s1 -> Next s1 = Ret ((k, v, Some e), s2) -> (length rs < n)%nat ->
    forall start count cur sk,
      LimitPlan.skip n (limit_state start count cur sk s)
      = failed (Some e) (limit_state start count cur (sk + Z.of_nat (length rs)) s2).
Proof.
  induction n as [|n IH]; intros s s1 s2 rs k v e Hp He Hlen start count cur sk; [lia|].
  inversion Hp as [|s0 s3 s0' k0 v0 rs' Hn Hrow Hrs]; subst.
  - simpl. rewrite He. simpl. rewrite Z.add_0_r. reflexivity.
  - simpl in Hlen. simpl. rewrite Hn. simpl. simpl in Hrow. rewrite Hrow.
    pose proof (IH s3 s1 s2 rs' k v e Hrs He ltac:(lia) start count cur (sk + 1)) as Heq.
    unfold limit_state in Heq. simpl. rewrite Heq.
    replace (sk + 1 + Z.of_nat (length rs'))
      with (sk + Z.pos (Pos.of_succ_nat (length rs'))) by lia.
    reflexivity.
Qed.

End LimitMore.

(** X13.  A negative [Start] discards nothing and a [Count] that
    is not positive returns nothing: over a child that yields the rows
    [rs], the limit plan yields the first [Count] rows of [rs] when
    [Start <= 0], and no row when [Count <= 0]. *)
Theorem limit_negative_bounds_act_as_zero {St : Type} `{Child : Plan St}
    (s s' : St) (rs : list (slice * slice)) (start count : Z) :
  yields s rs s' ->
  (start <= 0 ->
     exists p', yields (P := LimitPlan_plan) (limit_state start count 0 0 s)
                  (take (Z.to_nat count) rs) p') /\
  (count <= 0 ->
     exists p', yields (P := LimitPlan_plan) (limit_state start count 0 0 s) [] p').
Proof.
  intros Hy. destruct (limit_yields_any_bounds s s' rs start count Hy) as [p' Hp'].
  split; intros Hneg; exists p'.
  - replace (Z.to_nat start) with 0%nat in Hp' by lia. rewrite drop_0 in Hp'. exact Hp'.
  - replace (Z.to_nat count) with 0%nat in Hp' by lia. exact Hp'.
Qed.

(** Limit(Start=-3, Count=2) over five rows yields the first two. *)
Lemma limit_negative_bounds_act_as_zero_witness :
  exists p', yields (P := LimitPlan_plan) (limit_state (-3) 2 0 0 five_rows)
               [pair_of "k1" "v1"; pair_of "k2" "v2"] p'.
Proof.
  apply (proj1 (limit_negative_bounds_act_as_zero (Child := list_Plan)
                  five_rows [] _ (-3) 2 five_rows_yields)).
  lia.
Defined.

Lemma produces_then_end {S1 : Type} (P1 : Plan S1) (p p1 p2 : S1)
    (rs : list (slice * slice)) :
  @produces _ P1 p rs p1 -> @Next _ P1 p1 = Ret (end_of_rows, p2) ->
  @yields _ P1 p rs p2.
Proof.
  induction 1 as [s|s s1 s' k v rs Hn Hrow Hrs IH]; intros Hend.
  - apply yields_end. exact Hend.
  - eapply yields_row; [exact Hn|exact Hrow|apply IH; exact Hend].
Qed.

(** X14.  The limit plan takes no more than [Start + Count] rows
    from its child: over a child that has that many rows to give, it
    yields the last [Count] of them, then the end of the stream, and
    leaves the child in the state after these rows; from then on [Next]
    returns the end of the stream and does not change the state, the child
    is not called again. *)
Theorem limit_stops_pulling {St : Type} `{Child : Plan St}
    (s s' : St) (rs : list (slice * slice)) (start count : Z) :
  0 <= start -> 0 <= count ->
  produces s rs s' -> Z.of_nat (length rs) = start + count ->
  exists p',
    yields (P := LimitPlan_plan) (limit_state start count 0 0 s)
      (drop (Z.to_nat start) rs) p'
    /\ LimitPlan.ChildPlan p' = s'
    /\ @Next _ LimitPlan_plan p' = Ret (end_of_rows, p').
Proof.
  intros Hs Hc Hp Hlen.
  destruct (produces_app_inv _ (Z.to_nat start) s s' rs Hp ltac:(lia)) as (sn & H1 & H2).
  pose proof (limit_produces_skipped sn s' _ H2 start count 0 start ltac:(lia)) as Hq.
  rewrite length_drop in Hq. specialize (Hq ltac:(lia)).
  assert (length (take (Z.to_nat start) rs) = Z.to_nat start) as Htake
    by (rewrite length_take; lia).
  pose proof (LimitPlan_Next_after_skip s sn (take (Z.to_nat start) rs) start count
                Hs H1 ltac:(lia)) as Hfirst.
  set (p' := limit_state start count (0 + Z.of_nat (length rs - Z.to_nat start)) start s').
  assert (@Next _ LimitPlan_plan p' = Ret (end_of_rows, p')) as Hend.
  { change (@Next _ LimitPlan_plan ?p) with (LimitPlan.Next p). unfold p'.
    rewrite LimitPlan_Next_skipped by lia. unfold LimitPlan.yield. simpl.
    destruct (Z.geb_spec (0 + Z.of_nat (length rs - Z.to_nat start)) count);
      [reflexivity|lia]. }
  exists p'. split; [|split; [reflexivity|exact Hend]].
  destruct (drop (Z.to_nat start) rs) as [|[k v] out] eqn:Hdrop.
  - inversion H2; subst. apply yields_end. rewrite Hfirst.
    assert (limit_state start count 0 start s' = p') as ->; [|exact Hend].
    apply (f_equal length) in Hdrop. rewrite length_drop in Hdrop. simpl in Hdrop.
    unfold p', limit_state. f_equal. lia.
  - eapply produces_then_end; [|exact Hend].
    eapply produces_same_Next; [exact Hfirst|exact Hq].
Qed.

(** Limit(Start=1, Count=1) over the child that fails after its second
    row: the failure is not reached. *)
Lemma limit_stops_pulling_witness :
  exists p',
    yields (P := LimitPlan_plan) (limit_state 1 1 0 0 two_rows_then_error)
      [pair_of "k2" "v2"] p'
    /\ LimitPlan.ChildPlan p' = [(Some (B "k3"), None, errors_New "io")]
    /\ @Next _ LimitPlan_plan p' = Ret (end_of_rows, p').
Proof.
  apply (limit_stops_pulling (Child := list_Plan) two_rows_then_error
           [(Some (B "k3"), None, errors_New "io")]
           [pair_of "k1" "v1"; pair_of "k2" "v2"] 1 1); try lia.
  - repeat (eapply produces_row; [reflexivity|reflexivity|]). constructor.
  - reflexivity.
Defined.

(** X15.  The error of the child is the error of the limit plan,
    with a nil key and a nil value: over a child that gives the rows [rs]
    and then fails, fewer than [Start + Count] rows, the limit plan
    returns the rows of [rs] after the first [Start], then the error of
    the child, and its child is then in the state that the failing call
    left. *)
Theorem limit_returns_child_error {St : Type} `{Child : Plan St}
    (s s1 s2 : St) (rs : list (slice * slice)) (k v : slice) (e : error)
    (start count : Z) :
  0 <= start -> 0 <= count ->
  produces s rs s1 -> Next s1 = Ret ((k, v, Some e), s2) ->
  Z.of_nat (length rs) < start + count ->
  exists p1 p2,
    produces (P := LimitPlan_plan) (limit_state start count 0 0 s)
      (drop (Z.to_nat start) rs) p1
    /\ @Next _ LimitPlan_plan p1 = Ret ((None, None, Some e), p2)
    /\ LimitPlan.ChildPlan p2 = s2.
Proof.
  intros Hs Hc Hp He Hlen.
  destruct (Z.lt_ge_cases (Z.of_nat (length rs)) start) as [Hshort|Hlong].
  - rewrite drop_ge by lia.
    exists (limit_state start count 0 0 s). eexists. split; [constructor|].
    change (@Next _ LimitPlan_plan ?p) with (LimitPlan.Next p).
    unfold LimitPlan.Next. simpl. rewrite Z.sub_0_r.
    rewrite (LimitPlan_skip_error (Z.to_nat start) s s1 s2 rs k v e Hp He ltac:(lia)).
    split; reflexivity.
  - destruct (produces_app_inv _ (Z.to_nat start) s s1 rs Hp ltac:(lia))
      as (sn & H1 & H2).
    pose proof (limit_produces_skipped sn s1 _ H2 start count 0 start ltac:(lia)) as Hq.
    rewrite length_drop in Hq. specialize (Hq ltac:(lia)).
    assert (length (take (Z.to_nat start) rs) = Z.to_nat start) as Htake
      by (rewrite length_take; lia).
    pose proof (LimitPlan_Next_after_skip s sn (take (Z.to_nat start) rs) start count
                  Hs H1 ltac:(lia)) as Hfirst.
    set (cur := 0 + Z.of_nat (length rs - Z.to_nat start)) in *.
    assert (@Next _ LimitPlan_plan (limit_state start count cur start s1)
            = Ret ((None, None, Some e), limit_state start count cur start s2)) as Herr.
    { change (@Next _ LimitPlan_plan ?p) with (LimitPlan.Next p).
      rewrite LimitPlan_Next_skipped by lia. unfold LimitPlan.yield. simpl.
      destruct (Z.geb_spec cur count); [unfold cur in *; lia|].
      rewrite He. reflexivity. }
    destruct (drop (Z.to_nat start) rs) as [|[k0 v0] out] eqn:Hdrop.
    + inversion H2; subst. apply (f_equal length) in Hdrop.
      rewrite length_drop in Hdrop. simpl in Hdrop.
      exists (limit_state start count 0 0 s), (limit_state start count cur start s2).
      split; [constructor|]. split; [|reflexivity].
      rewrite Hfirst. unfold cur in *. rewrite Hdrop in *. exact Herr.
    + exists (limit_state start count cur start s1), (limit_state start count cur start s2).
      split; [|split; [exact Herr|reflexivity]].
      eapply produces_same_Next; [exact Hfirst|exact Hq].
Qed.

(** Limit(Start=1, Count=5) over the child that fails after its second
    row: the second row, then the error. *)
Lemma limit_returns_child_error_witness :
  exists p1 p2,
    produces (P := LimitPlan_plan) (limit_state 1 5 0 0 two_rows_then_error)
      [pair_of "k2" "v2"] p1
    /\ @Next _ LimitPlan_plan p1 = Ret ((None, None, errors_New "io"), p2)
    /\ LimitPlan.ChildPlan p2 = [].
Proof.
  apply (limit_returns_child_error (Child := list_Plan) two_rows_then_error
           [(Some (B "k3"), None, errors_New "io")] []
           [pair_of "k1" "v1"; pair_of "k2" "v2"] (Some (B "k3")) None
           (errorString "io") 1 5); try lia.
  - repeat (eapply produces_row; [reflexivity|reflexivity|]). constructor.
  - reflexivity.
  - simpl. lia.
Defined.

(** * The limit on columns *)

Section FinalLimit.
Context {St : Type} `{Child : FinalPlan St}.

Abbreviation final_limit_yields := (Fyields (P := FinalLimitPlan_plan)).

Lemma FinalLimitPlan_Next_skipped (start count cur sk : Z) (s : St) (names : list string) :
  start <= sk ->
  FinalLimitPlan.Next (final_limit_state start count cur sk s names)
  = FinalLimitPlan.yield (final_limit_state start count cur sk s names).
Proof.
  intros H. unfold FinalLimitPlan.Next. simpl.
  replace (Z.to_nat (start - sk)) with 0%nat by lia. reflexivity.
Qed.

Lemma final_limit_yields_skipped (s s' : St) (rs : list (list Column)) :
  Fyields s rs s' ->
  forall start count cur sk names, start <= sk ->
    exists p', final_limit_yields (final_limit_state start count cur sk s names)
                 (take (Z.to_nat (count - cur)) rs) p'
               /\ FinalLimitPlan.FieldNames p' = names.
Proof.
  induction 1 as [s s' Hn|s s1 s' cols rs Hn Hrs IH];
    intros start count cur sk names Hsk.
  - rewrite take_nil.
    assert (exists p', FinalLimitPlan.yield (final_limit_state start count cur sk s names)
                       = Ret (end_of_columns, p')
                       /\ FinalLimitPlan.FieldNames p' = names) as (p' & Hp' & Hnames).
    { unfold FinalLimitPlan.yield. simpl.
      destruct (cur >=? count); [eexists; split; reflexivity|].
      rewrite Hn. eexists; split; reflexivity. }
    exists p'. split; [|exact Hnames]. apply Fyields_end.
    change (@FNext _ FinalLimitPlan_plan ?p) with (FinalLimitPlan.Next p).
    rewrite FinalLimitPlan_Next_skipped by assumption. exact Hp'.
  - destruct (Z.geb_spec cur count) as [Hge|Hlt].
    + replace (Z.to_nat (count - cur)) with 0%nat by lia. simpl.
      eexists. split.
      * apply Fyields_end.
        change (@FNext _ FinalLimitPlan_plan ?p) with (FinalLimitPlan.Next p).
        rewrite FinalLimitPlan_Next_skipped by assumption.
        unfold FinalLimitPlan.yield. simpl.
        destruct (Z.geb_spec cur count); [reflexivity|lia].
      * reflexivity.
    + replace (Z.to_nat (count - cur)) with (S (Z.to_nat (count - (cur + 1)))) by lia.
      simpl.
      destruct (IH start count (cur + 1) sk names Hsk) as (p' & Hp' & Hnames).
      exists p'. split; [|exact Hnames]. eapply Fyields_row; [|exact Hp'].
      change (@FNext _ FinalLimitPlan_plan ?p) with (FinalLimitPlan.Next p).
      rewrite FinalLimitPlan_Next_skipped by assumption.
      unfold FinalLimitPlan.yield. simpl.
      destruct (Z.geb_spec cur count); [lia|].
      rewrite Hn. reflexivity.
Qed.

Lemma FinalLimitPlan_skip_spec (n : nat) :
  forall (s s' : St) (rs : list (list Column)), Fyields s rs s' ->
  forall start count cur sk names,
    ((n <= length rs)%nat ->
       exists sn, Fyields sn (drop n rs) s' /\
         FinalLimitPlan.skip n (final_limit_state start count cur sk s names)
         = FinalLimitPlan.yield
             (final_limit_state start count cur (sk + Z.of_nat n) sn names)) /\
    ((length rs < n)%nat ->
       FinalLimitPlan.skip n (final_limit_state start count cur sk s names)
       = Ret (end_of_columns,
              final_limit_state start count cur (sk + Z.of_nat (length rs)) s' names)).
Proof.
  induction n as [|n IH]; intros s s' rs Hy start count cur sk names.
  - split; [|lia]. intros _. exists s. split; [exact Hy|].
    simpl. rewrite Z.add_0_r. reflexivity.
  - inversion Hy as [s0 s0' Hn|s0 s1 s0' cols rs' Hn Hrs]; subst.
    + split; [simpl; lia|]. intros _. simpl. rewrite Hn. simpl.
      rewrite Z.add_0_r. reflexivity.
    + destruct (IH s1 s' rs' Hrs start count cur (sk + 1) names) as [IH1 IH2].
      split.
      * intros Hlen. simpl in Hlen.
        destruct IH1 as (sn & Hsn & Heq); [lia|].
        exists sn. split; [exact Hsn|].
        simpl. rewrite Hn. simpl.
        unfold final_limit_state in Heq. simpl. rewrite Heq.
        replace (sk + 1 + Z.of_nat n) with (sk + Z.pos (Pos.of_succ_nat n)) by lia.
        reflexivity.
      * intros Hlen. simpl in Hlen.
        simpl. rewrite Hn. simpl.
        unfold final_limit_state in IH2. simpl. rewrite IH2 by lia.
        replace (sk + 1 + Z.of_nat (length rs'))
          with (sk + Z.pos (Pos.of_succ_nat (length rs'))) by lia.
        reflexivity.
Qed.

Lemma Fyields_same_Next {S1 : Type} (P1 : FinalPlan S1) (p q p' : S1)
    (out : list (list Column)) :
  @FNext _ P1 p = @FNext _ P1 q -> @Fyields _ P1 q out p' -> @Fyields _ P1 p out p'.
Proof.
  intros Heq Hy. inversion Hy; subst.
  - apply Fyields_end. rewrite Heq. assumption.
  - eapply Fyields_row; [rewrite Heq|]; eassumption.
Qed.

End FinalLimit.

(** X16.  The limit on columns, over a child that yields the
    rows [rs] and then ends: it yields the rows of [rs] after the first
    [Start], up to [Count] of them and in the order of the child, then the
    end of the stream, nothing when the child has no more than [Start]
    rows; a bound that is negative counts as zero.  Its field names are
    those that it was given. *)
Theorem final_limit_discards_start_then_yields_count {St : Type} `{Child : FinalPlan St}
    (s s' : St) (rs : list (list Column)) (start count : Z) (names : list string) :
  Fyields s rs s' ->
  exists p',
    Fyields (P := FinalLimitPlan_plan) (final_limit_state start count 0 0 s names)
      (take (Z.to_nat count) (drop (Z.to_nat start) rs)) p'
    /\ FieldNameList (FinalPlan := FinalLimitPlan_plan) p' = names.
Proof.
  intros Hy.
  destruct (FinalLimitPlan_skip_spec (Z.to_nat start) s s' rs Hy start count 0 0 names)
    as [H1 H2].
  destruct (Nat.le_gt_cases (Z.to_nat start) (length rs)) as [Hle|Hgt].
  - destruct (H1 Hle) as (sn & Hsn & Heq).
    destruct (final_limit_yields_skipped sn s' _ Hsn start count 0
                (0 + Z.of_nat (Z.to_nat start)) names)
      as (p' & Hp' & Hnames); [lia|].
    exists p'. split; [|exact Hnames]. rewrite Z.sub_0_r in Hp'.
    eapply Fyields_same_Next; [|exact Hp'].
    change (@FNext _ FinalLimitPlan_plan ?p) with (FinalLimitPlan.Next p).
    rewrite (FinalLimitPlan_Next_skipped start count 0 (0 + Z.of_nat (Z.to_nat start)))
      by lia.
    rewrite <- Heq. unfold FinalLimitPlan.Next. simpl.
    rewrite Z.sub_0_r. reflexivity.
  - rewrite drop_ge by lia. rewrite take_nil.
    eexists. split.
    + apply Fyields_end.
      change (@FNext _ FinalLimitPlan_plan ?p) with (FinalLimitPlan.Next p).
      unfold FinalLimitPlan.Next. simpl. rewrite Z.sub_0_r.
      rewrite (H2 Hgt). reflexivity.
    + reflexivity.
Qed.

(** Limit(Start=1, Count=2) over four rows of columns yields the second
    and the third. *)
Lemma final_limit_discards_start_then_yields_count_witness :
  exists p',
    Fyields (P := FinalLimitPlan_plan)
      (final_limit_state 1 2 0 0 four_column_rows ["n"%string])
      [[B "2"]; [B "3"]] p'
    /\ FieldNameList (FinalPlan := FinalLimitPlan_plan) p' = ["n"%string].
Proof.
  apply (final_limit_discards_start_then_yields_count (Child := list_FinalPlan)
           four_column_rows [] [[B "1"]; [B "2"]; [B "3"]; [B "4"]] 1 2 ["n"%string]).
  repeat (eapply Fyields_row; [reflexivity|]).
  apply Fyields_end. reflexivity.
Defined.

(** * Orders by one field of bytes *)

Lemma compares_bytes_strict_weak {A : Type} (less : A -> A -> res bool) (U : list A)
    (val : A -> list byte) (desc : bool) :
  compares_bytes less U val desc ->
  (forall a b, a ∈ U -> b ∈ U -> exists r, less a b = Ret r) /\
  (forall a b, a ∈ U -> b ∈ U -> less a b = Ret true -> less b a = Ret false) /\
  (forall a b c, a ∈ U -> b ∈ U -> c ∈ U ->
     not_above less a b -> not_above less b c -> not_above less a c) /\
  (forall a b, a ∈ U -> b ∈ U -> not_above less a b -> bytes_le desc (val a) (val b)).
Proof.
  intros Hless. split; [|split; [|split]].
  - intros a b Ha Hb. rewrite (Hless a b Ha Hb). eauto.
  - intros a b Ha Hb. rewrite (Hless a b Ha Hb), (Hless b a Hb Ha).
    intros [= H]. f_equal. destruct desc.
    + apply Z.ltb_lt in H. apply Z.ltb_ge. rewrite (Compare_antisym (val b) (val a)). lia.
    + apply Z.ltb_lt in H. apply Z.ltb_ge. rewrite (Compare_antisym (val a) (val b)). lia.
  - intros a b c Ha Hb Hc. unfold not_above.
    rewrite (Hless b a Hb Ha), (Hless c b Hc Hb), (Hless c a Hc Ha).
    intros [= H1] [= H2]. f_equal. destruct desc.
    + apply Z.ltb_ge in H1, H2. apply Z.ltb_ge.
      rewrite (Compare_antisym (val c) (val a)).
      rewrite (Compare_antisym (val b) (val a)) in H1.
      rewrite (Compare_antisym (val c) (val b)) in H2.
      pose proof (Compare_le_trans (val c) (val b) (val a)). lia.
    + apply Z.ltb_ge in H1, H2. apply Z.ltb_ge.
      rewrite (Compare_antisym (val a) (val c)).
      rewrite (Compare_antisym (val a) (val b)) in H1.
      rewrite (Compare_antisym (val b) (val c)) in H2.
      pose proof (Compare_le_trans (val a) (val b) (val c)). lia.
  - intros a b Ha Hb. unfold not_above, bytes_le. rewrite (Hless b a Hb Ha).
    intros [= H]. destruct desc.
    + apply Z.ltb_ge in H. rewrite (Compare_antisym (val a) (val b)). lia.
    + apply Z.ltb_ge in H. rewrite (Compare_antisym (val b) (val a)). lia.
Qed.

(** The comparison by one field that is a string or a byte slice on both
    rows is the comparison of the bytes, in the direction of the field. *)
Lemma Less_single_bytes `{X : Externals} (name : string) (f : Expression) (o : OrderType)
    (a b : slice * slice) (va vb : any) (ea eb : option error) :
  Execute f (NewKVP a.1 a.2) = Ret (va, ea) ->
  Execute f (NewKVP b.1 b.2) = Ret (vb, eb) ->
  is_text va = true -> is_text vb = true ->
  OrderPlan.Less (order_row [{| OName := name; Field := f; Order := o |}] a)
                 (order_row [{| OName := name; Field := f; Order := o |}] b)
  = Ret (if is_DESC o then Compare (bytes_of vb) (bytes_of va) <? 0
         else Compare (bytes_of va) (bytes_of vb) <? 0).
Proof.
  intros Ha Hb Hta Htb. unfold OrderPlan.Less. simpl. rewrite Ha. cbn. rewrite Hb. cbn.
  assert (OrderPlan.compare_field va vb (is_DESC o)
          = Some (Ret (compareBytes (bytes_of va) (bytes_of vb) (is_DESC o)))) as ->
    by (destruct va; try discriminate Hta; reflexivity).
  cbn. unfold compareBytes.
  rewrite (Compare_antisym (bytes_of va) (bytes_of vb)).
  destruct (is_DESC o).
  - destruct (Z.ltb_spec (0 - Compare (bytes_of va) (bytes_of vb)) 0);
      destruct (Z.ltb_spec (- Compare (bytes_of va) (bytes_of vb)) 0); try lia;
      try reflexivity.
    destruct (0 - Compare (bytes_of va) (bytes_of vb) >? 0); reflexivity.
  - destruct (Z.ltb_spec (Compare (bytes_of va) (bytes_of vb)) 0); [reflexivity|].
    destruct (Compare (bytes_of va) (bytes_of vb) >? 0); reflexivity.
Qed.

(** X17.  Ordered by one field that evaluates to a string or a
    byte slice on every row of the child, errors beside the value or not,
    the order plan yields the rows of the child in the order of the bytes
    of the field: ascending for [ASC], descending for [DESC]. *)
Theorem order_by_bytes_sorts `{X : Externals} {St : Type} `{Child : Plan St}
    (name : string) (f : Expression) (o : OrderType) (s s' : St)
    (rs : list (slice * slice)) (fuel : nat) (val : slice * slice -> list byte) :
  yields s rs s' -> (length rs < fuel)%nat ->
  (forall r, r ∈ rs ->
     exists v e, Execute f (NewKVP r.1 r.2) = Ret (v, e)
                 /\ is_text v = true /\ bytes_of v = val r) ->
  exists out p',
    yields (P := OrderPlan_plan fuel)
      (order_state [{| OName := name; Field := f; Order := o |}] s 0 0 (Some [])) out p'
    /\ out ≡ₚ rs
    /\ StronglySorted (fun a b => bytes_le (is_DESC o) (val a) (val b)) out.
Proof.
  intros Hy Hfuel Hval.
  set (Orders := [{| OName := name; Field := f; Order := o |}]).
  set (U := map (order_row Orders) rs).
  assert (compares_bytes OrderPlan.Less U (fun x => val (row_pair x)) (is_DESC o)) as Hcmp.
  { intros a b Ha Hb. apply list_elem_of_fmap in Ha, Hb.
    destruct Ha as ([ka va] & -> & Ha). destruct Hb as ([kb vb] & -> & Hb).
    destruct (Hval _ Ha) as (xa & ea & Hxa & Hta & Hva).
    destruct (Hval _ Hb) as (xb & eb & Hxb & Htb & Hvb).
    unfold row_pair, order_row. simpl OrderPlan.key. simpl OrderPlan.value_.
    rewrite <- Hva, <- Hvb.
    apply (Less_single_bytes name f o (ka, va) (kb, vb) xa xb ea eb Hxa Hxb Hta Htb). }
  destruct (compares_bytes_strict_weak _ _ _ _ Hcmp) as (Hret & Hasym & Htrans & Hle).
  destruct (OrderPlan_yields U Hret fuel Orders s s' rs Hy Hfuel)
    as (out & p' & Hyo & _ & Hperm & Hsorted).
  { intros r Hr. apply list_elem_of_fmap. eauto. }
  exists out, p'. split; [exact Hyo|]. split; [exact Hperm|].
  apply (StronglySorted_weaken (row_not_above Orders)).
  - intros [ka va] [kb vb] Ha Hb Hab. rewrite Hperm in Ha, Hb.
    apply (Hle (order_row Orders (ka, va)) (order_row Orders (kb, vb))).
    + apply list_elem_of_fmap. eauto.
    + apply list_elem_of_fmap. eauto.
    + exact Hab.
  - apply Hsorted. split; assumption.
Qed.

(** The rows k2, k3, k1 by their key, descending. *)
Lemma order_by_bytes_sorts_witness :
  exists out p',
    yields (P := OrderPlan_plan (X := X0) 4)
      (order_state (by_key DESC) [kv_row "k2" "b"; kv_row "k3" "c"; kv_row "k1" "a"]
         0 0 (Some [])) out p'
    /\ out ≡ₚ [pair_of "k2" "b"; pair_of "k3" "c"; pair_of "k1" "a"]
    /\ StronglySorted (fun a b => bytes_le true (contents a.1) (contents b.1)) out.
Proof.
  refine (order_by_bytes_sorts (X := X0) (Child := list_Plan) "key" (FieldExpr KeyKW) DESC
            [kv_row "k2" "b"; kv_row "k3" "c"; kv_row "k1" "a"] []
            [pair_of "k2" "b"; pair_of "k3" "c"; pair_of "k1" "a"] 4
            (fun r => contents r.1) _ _ _).
  - repeat (eapply yields_row; [reflexivity|reflexivity|]). apply yields_end. reflexivity.
  - simpl. lia.
  - intros r Hr. eexists _, _. split; [reflexivity|]. split; reflexivity.
Defined.

(** * The order plan over a child that fails *)

Section OrderError.
Context `{X : Externals} {St : Type} `{Child : Plan St}.
Variable U : list OrderPlan.orderRow.
Hypothesis Less_returns_on_U :
  forall a b, a ∈ U -> b ∈ U -> exists r, OrderPlan.Less a b = Ret r.

(** [prepare] over a child that fails returns the error; the rows that
    the child gave before are on the heap, and counted. *)
Lemma prepare_error_spec (s s1 s2 : St) (rs : list (slice * slice)) (k v : slice)
    (e : error) :
  produces s rs s1 -> Next s1 = Ret ((k, v, Some e), s2) ->
  forall (fuel : nat) (Orders : list OrderField) (pos tot : Z)
         (h0 : list OrderPlan.orderRow),
    (length rs < fuel)%nat ->
    (forall x, x ∈ h0 -> x ∈ U) ->
    (forall r, r ∈ rs -> order_row Orders r ∈ U) ->
    exists h,
      OrderPlan.prepare fuel (order_state Orders s pos tot (Some h0))
      = Ret (Some e, order_state Orders s2 pos (tot + Z.of_nat (length rs)) (Some h))
      /\ h ≡ₚ h0 ++ map (order_row Orders) rs.
Proof.
  intros Hp He. induction Hp as [s|s s3 s1 k0 v0 rs Hn Hrow Hrs IH];
    intros fuel Orders pos tot h0 Hfuel Hh0 Hrs'.
  - destruct fuel as [|fuel]; [simpl in Hfuel; lia|].
    exists h0. split.
    + simpl. rewrite He. cbn. rewrite Z.add_0_r. reflexivity.
    + simpl. rewrite app_nil_r. reflexivity.
  - destruct fuel as [|fuel]; [simpl in Hfuel; lia|].
    assert (order_row Orders (k0, v0) ∈ U) as HxU by (apply Hrs'; left).
    destruct (Push_returns OrderPlan.Less U Less_returns_on_U h0 _ Hh0 HxU) as [h1 Hpush].
    pose proof (Push_Permutation _ _ _ _ Hpush) as Hperm.
    destruct (IH He fuel Orders pos (tot + 1) h1) as (h & Hprep & Hph).
    + simpl in Hfuel. lia.
    + intros x Hx. rewrite Hperm in Hx. apply elem_of_cons in Hx.
      destruct Hx as [->|Hx]; auto.
    + intros r Hr. apply Hrs'. right. exact Hr.
    + exists h. split.
      * simpl. rewrite Hn. cbn. simpl in Hrow. rewrite Hrow.
        unfold order_row in Hpush. simpl in Hpush. rewrite Hpush. cbn.
        unfold order_state in Hprep. rewrite Hprep.
        replace (tot + 1 + Z.of_nat (length rs))
          with (tot + Z.pos (Pos.of_succ_nat (length rs))) by lia.
        reflexivity.
      * rewrite Hph, Hperm. simpl. rewrite Permutation_middle. reflexivity.
Qed.

Lemma OrderPlan_Next_keeps_total (fuel : nat) (p q : OrderPlan.t St) (r : row) :
  OrderPlan.total p <> 0 -> OrderPlan.Next fuel p = Ret (r, q) ->
  OrderPlan.total q = OrderPlan.total p.
Proof.
  intros Ht. rewrite OrderPlan_Next_prepared by exact Ht.
  destruct (OrderPlan.pos p <? OrderPlan.total p).
  - destruct (OrderPlan.sorted p) as [h|]; [|discriminate].
    destruct (heap.Pop OrderPlan.Less h) as [[x h']| |]; cbn; try discriminate.
    intros H. inversion H; subst. reflexivity.
  - intros H. inversion H; subst. reflexivity.
Qed.

(** A prepared plan does not call its child. *)
Lemma OrderPlan_prepared_keeps_child (fuel : nat) (p p' : OrderPlan.t St)
    (out : list (slice * slice)) :
  yields (P := OrderPlan_plan fuel) p out p' -> OrderPlan.total p <> 0 ->
  OrderPlan.ChildPlan p' = OrderPlan.ChildPlan p.
Proof.
  induction 1 as [p p' Hn|p p1 p' k v out Hn Hrow Hout IH]; intros Ht.
  - cbn [Next OrderPlan_plan] in Hn.
    apply (OrderPlan_Next_keeps_child fuel p p' _ Ht Hn).
  - cbn [Next OrderPlan_plan] in Hn.
    rewrite IH.
    + apply (OrderPlan_Next_keeps_child fuel p p1 _ Ht Hn).
    + rewrite (OrderPlan_Next_keeps_total _ _ _ _ Ht Hn). exact Ht.
Qed.

Lemma OrderPlan_after_error (fuel : nat) (Orders : list OrderField) (s s1 s2 : St)
    (rs : list (slice * slice)) (k v : slice) (e : error) :
  produces s rs s1 -> Next s1 = Ret ((k, v, Some e), s2) ->
  (length rs < fuel)%nat ->
  (forall r, r ∈ rs -> order_row Orders r ∈ U) ->
  (rs = [] ->
     OrderPlan.Next fuel (order_state Orders s 0 0 (Some []))
     = Ret ((None, None, Some e), order_state Orders s2 0 0 (Some []))) /\
  (rs <> [] ->
     exists p1 out p',
       OrderPlan.Next fuel (order_state Orders s 0 0 (Some []))
       = Ret ((None, None, Some e), p1)
       /\ yields (P := OrderPlan_plan fuel) p1 out p'
       /\ out ≡ₚ rs
       /\ OrderPlan.ChildPlan p' = s2).
Proof.
  intros Hp He Hfuel HrsU.
  assert (forall r, r ∈ rs -> is_end (r.1, r.2, None) = false) as Hnot_end.
  { clear -Hp. induction Hp as [|s s1 s' k v rs Hn Hrow Hrs IH]; intros r Hr.
    - apply elem_of_nil in Hr. contradiction.
    - apply elem_of_cons in Hr. destruct Hr as [->|Hr]; [exact Hrow|auto]. }
  destruct (prepare_error_spec s s1 s2 rs k v e Hp He fuel Orders 0 0 [] Hfuel)
    as (h & Hprep & Hph).
  { intros x Hx. apply elem_of_nil in Hx. contradiction. }
  { exact HrsU. }
  simpl in Hph.
  assert (OrderPlan.Next fuel (order_state Orders s 0 0 (Some []))
          = Ret ((None, None, Some e),
                 order_state Orders s2 0 (0 + Z.of_nat (length rs)) (Some h))) as HN.
  { unfold OrderPlan.Next. simpl OrderPlan.total. simpl (0 =? 0).
    rewrite Hprep. reflexivity. }
  split.
  - intros ->. rewrite HN. simpl in Hph. apply Permutation_nil_r in Hph. subst h.
    reflexivity.
  - intros Hne.
    set (n := Z.of_nat (length rs)) in *.
    assert (n <> 0) as Hn0 by (subst n; destruct rs; [congruence|simpl; lia]).
    destruct (drain_spec U Less_returns_on_U fuel (length h) h Orders s2 0 (0 + n) eq_refl)
      as (out & p' & Hyo & Hout & _).
    + lia.
    + rewrite (Permutation_length Hph), length_map. subst n. lia.
    + intros x Hx. rewrite Hph in Hx. apply list_elem_of_fmap in Hx.
      destruct Hx as (r & -> & Hr). apply HrsU. exact Hr.
    + intros x Hx. rewrite Hph in Hx. apply list_elem_of_fmap in Hx.
      destruct Hx as (r & -> & Hr). apply (Hnot_end r Hr).
    + exists (order_state Orders s2 0 (0 + n) (Some h)), (map row_pair out), p'.
      split; [exact HN|]. split; [exact Hyo|]. split.
      * rewrite Hout, Hph. rewrite map_map.
        rewrite (map_ext _ id) by (intros [k0 v0]; reflexivity).
        rewrite map_id. reflexivity.
      * apply (OrderPlan_prepared_keeps_child fuel _ _ _ Hyo). simpl. lia.
Qed.

End OrderError.

(** X18.  The order plan over a child that fails after the rows
    [rs]: the first call returns the error of the child.  When the child
    had given no row, the plan is as before but for its child, and the
    next call reads the child again.  When it had given rows, the plan
    does not read the child again: it yields the rows read before the
    error, a permutation of [rs], then the end of the stream, with no
    further error.  The comparison is to return on every pair of the
    rows. *)
Theorem order_plan_keeps_rows_read_before_error `{X : Externals} {St : Type}
    `{Child : Plan St} (Orders : list OrderField) (s s1 s2 : St)
    (rs : list (slice * slice)) (k v : slice) (e : error) (fuel : nat) :
  produces s rs s1 -> Next s1 = Ret ((k, v, Some e), s2) ->
  (length rs < fuel)%nat ->
  total_on OrderPlan.Less (map (order_row Orders) rs) = true ->
  (rs = [] ->
     OrderPlan.Next fuel (order_state Orders s 0 0 (Some []))
     = Ret ((None, None, Some e), order_state Orders s2 0 0 (Some []))) /\
  (rs <> [] ->
     exists p1 out p',
       OrderPlan.Next fuel (order_state Orders s 0 0 (Some []))
       = Ret ((None, None, Some e), p1)
       /\ yields (P := OrderPlan_plan fuel) p1 out p'
       /\ out ≡ₚ rs
       /\ OrderPlan.ChildPlan p' = s2).
Proof.
  intros Hp He Hfuel Htotal.
  pose proof (total_on_spec _ _ Htotal) as Hret.
  apply (OrderPlan_after_error (map (order_row Orders) rs) Hret fuel Orders s s1 s2 rs k v e
           Hp He Hfuel).
  intros r Hr. apply list_elem_of_fmap. eauto.
Qed.

(** The child that fails after its third row, ordered by the key: the
    error first, then the three rows. *)
Lemma order_plan_keeps_rows_read_before_error_witness :
  exists p1 out p',
    OrderPlan.Next (X := X0) (Child := list_Plan) 4
      (order_state (by_key ASC) three_rows_then_error 0 0 (Some []))
    = Ret ((None, None, errors_New "io"), p1)
    /\ yields (P := OrderPlan_plan (X := X0) 4) p1 out p'
    /\ out ≡ₚ [pair_of "k2" "b"; pair_of "k3" "c"; pair_of "k1" "a"]
    /\ OrderPlan.ChildPlan p' = [].
Proof.
  refine (proj2 (order_plan_keeps_rows_read_before_error (X := X0) (Child := list_Plan)
                   (by_key ASC) three_rows_then_error
                   [(None, None, errors_New "io")] []
                   [pair_of "k2" "b"; pair_of "k3" "c"; pair_of "k1" "a"]
                   None None (errorString "io") 4 _ eq_refl _ _) _).
  - repeat (eapply produces_row; [reflexivity|reflexivity|]). constructor.
  - simpl. lia.
  - vm_compute. reflexivity.
  - discriminate.
Defined.

(** * The direction of a comparison *)

Lemma compareInt_reverse (a b : Z) : compareInt a b true = compareInt b a false.
Proof.
  unfold compareInt. rewrite (Z.eqb_sym b a).
  destruct (a =? b); [reflexivity|]. rewrite Z.gtb_ltb. reflexivity.
Qed.

(** X19.  Each of the comparisons of two values for [DESC] is the
    comparison for [ASC] of the same values in the other order: of
    integers, of floats, of byte slices and of booleans, and of columns as
    booleans and as numbers. *)
Theorem descending_compares_swapped `{X : Externals} :
  (forall a b, compareInt a b true = compareInt b a false) /\
  (forall a b, compareFloat a b true = compareFloat b a false) /\
  (forall a b, compareBytes a b true = compareBytes b a false) /\
  (forall a b, compareBools a b true = compareBools b a false) /\
  (forall a b, FinalOrderPlan.compareBool a b true = FinalOrderPlan.compareBool b a false) /\
  (forall a b, FinalOrderPlan.compareNumber a b true
               = FinalOrderPlan.compareNumber b a false).
Proof.
  split; [exact compareInt_reverse|]. split; [|split; [|split; [|split]]].
  - intros a b. unfold compareFloat. rewrite (float_eqb_sym a b). reflexivity.
  - intros a b. unfold compareBytes. rewrite (Compare_antisym a b). lia.
  - intros a b. unfold compareBools. apply compareInt_reverse.
  - intros a b. unfold FinalOrderPlan.compareBool, compareBools. apply compareInt_reverse.
  - intros a b. unfold FinalOrderPlan.compareNumber.
    destruct (ParseInt (String.string_of_list_byte a)) as [la|],
             (ParseInt (String.string_of_list_byte b)) as [lb|];
      try (apply compareInt_reverse);
      destruct (ParseFloat (String.string_of_list_byte a)) as [fa|],
               (ParseFloat (String.string_of_list_byte b)) as [fb|];
      try reflexivity;
      unfold compareFloat; rewrite (float_eqb_sym a b) || rewrite (float_eqb_sym fa fb);
      reflexivity.
Qed.

(** * The order plan on columns: [Init] *)

Lemma findOrderIdx_from_first (fname : string) (names : list string) :
  forall i idx, FinalOrderPlan.findOrderIdx_from i fname names = (idx, None) ->
    first_index names fname (idx - i).
Proof.
  induction names as [|fn rest IH]; intros i idx; simpl; [discriminate|].
  destruct (String.eqb_spec fname fn) as [->|Hne].
  - intros [= <-]. replace (i - i) with 0 by lia. split; [lia|]. split; [reflexivity|].
    intros j Hj. simpl in Hj. lia.
  - intros H. destruct (IH _ _ H) as (H0 & Hat & Hfirst).
    replace (idx - i) with (Z.succ (idx - (i + 1))) by lia.
    split; [lia|]. rewrite Z2Nat.inj_succ by lia. split; [exact Hat|].
    intros [|j] Hj; simpl; [congruence|]. apply Hfirst. lia.
Qed.

Lemma Init_loop_resolves `{X : Externals} {St : Type} (p : FinalOrderPlan.t St)
    (os : list OrderField) :
  forall ps ts ps' ts',
    FinalOrderPlan.Init_loop p os ps ts = (None, (ps', ts')) ->
    exists idxs,
      ps' = ps ++ idxs /\ ts' = ts ++ map (fun o => ReturnType (Field o)) os
      /\ Forall2 (fun o idx => first_index (FinalOrderPlan.FieldNames p) (OName o) idx)
                 os idxs.
Proof.
  induction os as [|o rest IH]; intros ps ts ps' ts'; simpl.
  - intros [= <- <-]. exists []. rewrite !app_nil_r. repeat split. constructor.
  - unfold FinalOrderPlan.findOrderIdx.
    destruct (FinalOrderPlan.findOrderIdx_from 0 (OName o) (FinalOrderPlan.FieldNames p))
      as [idx [e|]] eqn:Hf; [discriminate|].
    intros H. destruct (IH _ _ _ _ H) as (idxs & -> & -> & Hall).
    exists (idx :: idxs). rewrite <- !app_assoc. simpl. repeat split.
    constructor; [|exact Hall].
    apply findOrderIdx_from_first in Hf. rewrite Z.sub_0_r in Hf. exact Hf.
Qed.

Lemma FinalOrderPlan_Init_ok `{X : Externals} {St : Type} `{Child : FinalPlan St}
    (p p' : FinalOrderPlan.t St) :
  FinalOrderPlan.Init p = Ret (None, p') ->
  FinalOrderPlan.Orders p' = FinalOrderPlan.Orders p
  /\ FinalOrderPlan.FieldNames p' = FinalOrderPlan.FieldNames p
  /\ FinalOrderPlan.pos p' = 0 /\ FinalOrderPlan.total p' = 0
  /\ FinalOrderPlan.sorted p' = Some []
  /\ Forall2 (fun o idx => first_index (FinalOrderPlan.FieldNames p) (OName o) idx)
             (FinalOrderPlan.Orders p) (FinalOrderPlan.orderPos_ p')
  /\ FinalOrderPlan.orderTypes_ p'
     = map (fun o => ReturnType (Field o)) (FinalOrderPlan.Orders p).
Proof.
  unfold FinalOrderPlan.Init.
  destruct (FinalOrderPlan.Init_loop p (FinalOrderPlan.Orders p) [] [])
    as [[e|] [ps ts]] eqn:Hloop; simpl; [discriminate|].
  destruct (FInit (FinalOrderPlan.ChildPlan p)) as [[e c]| |]; simpl; try discriminate.
  intros [= <-]. simpl.
  destruct (Init_loop_resolves p _ _ _ _ _ Hloop) as (idxs & -> & -> & Hall).
  simpl. repeat split; assumption.
Qed.

(** X20.  [FinalOrderPlan.Init] that returns no error has resolved
    every order field: the position that it records for the field is the
    first position of the name of the field among the field names, and the
    type that it records is the declared type of the expression of the
    field; the heap is empty and the counters are zero.  When it returns
    an error, its child is as it was: it has not been initialised. *)
Theorem final_order_Init_resolves_names `{X : Externals} {St : Type} `{Child : FinalPlan St}
    (p p' : FinalOrderPlan.t St) :
  (FinalOrderPlan.Init p = Ret (None, p') ->
     Forall2 (fun o idx => first_index (FinalOrderPlan.FieldNames p) (OName o) idx)
             (FinalOrderPlan.Orders p) (FinalOrderPlan.orderPos_ p')
     /\ FinalOrderPlan.orderTypes_ p'
        = map (fun o => ReturnType (Field o)) (FinalOrderPlan.Orders p)
     /\ FinalOrderPlan.sorted p' = Some []
     /\ FinalOrderPlan.pos p' = 0 /\ FinalOrderPlan.total p' = 0
     /\ FinalOrderPlan.Orders p' = FinalOrderPlan.Orders p
     /\ FinalOrderPlan.FieldNames p' = FinalOrderPlan.FieldNames p) /\
  (forall e, FinalOrderPlan.Init p = Ret (Some e, p') ->
     FinalOrderPlan.ChildPlan p' = FinalOrderPlan.ChildPlan p
     /\ FinalOrderPlan.sorted p' = FinalOrderPlan.sorted p).
Proof.
  split.
  - intros H. apply FinalOrderPlan_Init_ok in H. tauto.
  - intros e. unfold FinalOrderPlan.Init.
    destruct (FinalOrderPlan.Init_loop p (FinalOrderPlan.Orders p) [] [])
      as [[e'|] [ps ts]]; simpl.
    + intros [= _ <-]. split; reflexivity.
    + destruct (FInit (FinalOrderPlan.ChildPlan p)) as [[e2 c]| |]; simpl; discriminate.
Qed.

(** The field b among the names a, b, b: the position 1. *)
Lemma final_order_Init_resolves_names_witness :
  exists p',
    FinalOrderPlan.Init (X := X0) (final_order_of by_name_b ["a"; "b"; "b"]%string [])
    = Ret (None, p')
    /\ Forall2 (fun o idx => first_index ["a"; "b"; "b"]%string (OName o) idx)
               by_name_b (FinalOrderPlan.orderPos_ p').
Proof.
  eexists. split; [reflexivity|].
  apply (proj1 (final_order_Init_resolves_names (X := X0)
                  (final_order_of by_name_b ["a"; "b"; "b"]%string []) _)).
  reflexivity.
Defined.

(** * The order plan on columns: the comparison *)

Lemma at_lookup {A : Type} (l : list A) (i : Z) (x : A) :
  0 <= i -> l !! Z.to_nat i = Some x -> FinalOrderPlan.at_ l i = Ret x.
Proof.
  intros Hi Hx. unfold FinalOrderPlan.at_.
  destruct (Z.ltb_spec i 0); [lia|]. rewrite Hx. reflexivity.
Qed.

Lemma Less_loop_returns `{X : Externals} (l r : FinalOrderPlan.orderColumnsRow)
    (os : list OrderField) :
  forall i, 0 <= i ->
    (forall j, (j < length os)%nat ->
       exists idx tp,
         FinalOrderPlan.orderPos l !! (Z.to_nat i + j)%nat = Some idx
         /\ 0 <= idx
         /\ (Z.to_nat idx < length (FinalOrderPlan.cols l))%nat
         /\ (Z.to_nat idx < length (FinalOrderPlan.cols r))%nat
         /\ FinalOrderPlan.orderTypes l !! (Z.to_nat i + j)%nat = Some tp) ->
    exists b, FinalOrderPlan.Less_loop l r i os = Ret b.
Proof.
  induction os as [|o rest IH]; intros i Hi Hall; simpl; [eauto|].
  destruct (Hall 0%nat ltac:(simpl; lia)) as (idx & tp & Hp & H0 & Hl & Hr & Ht).
  rewrite Nat.add_0_r in Hp, Ht.
  destruct (lookup_lt_is_Some_2 _ _ Hl) as [lval Hlval].
  destruct (lookup_lt_is_Some_2 _ _ Hr) as [rval Hrval].
  rewrite (at_lookup _ _ _ Hi Hp). cbn.
  rewrite (at_lookup _ _ _ H0 Hlval). cbn.
  rewrite (at_lookup _ _ _ H0 Hrval). cbn.
  rewrite (at_lookup _ _ _ Hi Ht). cbn.
  match goal with |- context [if ?c <? 0 then _ else _] => destruct (c <? 0); [eauto|];
    destruct (c >? 0); [eauto|] end.
  apply IH; [lia|]. intros j Hj.
  destruct (Hall (S j) ltac:(simpl; lia)) as (idx' & tp' & Hp' & H0' & Hl' & Hr' & Ht').
  exists idx', tp'. replace (Z.to_nat (i + 1) + j)%nat with (Z.to_nat i + S j)%nat by lia.
  auto.
Qed.

Lemma FinalOrderPlan_Less_returns `{X : Externals} {St : Type} `{Child : FinalPlan St}
    (p p' : FinalOrderPlan.t St) (a b : list Column) :
  FinalOrderPlan.Init p = Ret (None, p') ->
  (length (FinalOrderPlan.FieldNames p) <= length a)%nat ->
  (length (FinalOrderPlan.FieldNames p) <= length b)%nat ->
  exists r, FinalOrderPlan.Less (columns_row p' a) (columns_row p' b) = Ret r.
Proof.
  intros Hinit Ha Hb.
  destruct (FinalOrderPlan_Init_ok p p' Hinit) as (HO & _ & _ & _ & _ & Hpos & Htypes).
  unfold FinalOrderPlan.Less. apply Less_loop_returns; [lia|].
  simpl. intros j Hj. rewrite HO in Hj.
  destruct (lookup_lt_is_Some_2 _ _ Hj) as [o Ho].
  destruct (Forall2_lookup_l _ _ _ _ _ Hpos Ho) as (idx & Hidx & H0 & Hname & _).
  exists idx, (ReturnType (Field o)).
  pose proof (lookup_lt_Some _ _ _ Hname) as Hlt.
  split; [exact Hidx|]. split; [exact H0|]. split; [lia|]. split; [lia|].
  rewrite Htypes, list_lookup_fmap, Ho. reflexivity.
Qed.

(** X21.  After an [Init] without error, the comparison of two rows
    of columns returns, whatever the columns hold, when each row has a
    column for every field name: no position of an order field is out of
    the range of the row. *)
Theorem final_order_Less_returns_on_wide_rows `{X : Externals} {St : Type}
    `{Child : FinalPlan St} (p p' : FinalOrderPlan.t St) (a b : list Column) :
  FinalOrderPlan.Init p = Ret (None, p') ->
  (length (FinalOrderPlan.FieldNames p) <= length a)%nat ->
  (length (FinalOrderPlan.FieldNames p) <= length b)%nat ->
  exists r, FinalOrderPlan.Less (columns_row p' a) (columns_row p' b) = Ret r.
Proof. apply FinalOrderPlan_Less_returns. Qed.

(** Two rows of two columns under the order by the second name. *)
Lemma final_order_Less_returns_on_wide_rows_witness :
  exists p' r,
    FinalOrderPlan.Init (X := X0) (final_order_of by_name_b ["a"; "b"]%string [])
    = Ret (None, p')
    /\ FinalOrderPlan.Less (X := X0) (columns_row p' [B "k2"; B "y"])
         (columns_row p' [B "k1"; B "x"]) = Ret r.
Proof.
  let r := eval vm_compute in
    (FinalOrderPlan.Init (X := X0) (final_order_of by_name_b ["a"; "b"]%string [])) in
  match r with Ret (None, ?q) => exists q end.
  match goal with |- exists r, ?I = Ret (None, ?q) /\ _ =>
    assert (I = Ret (None, q)) as Hinit by (vm_compute; reflexivity);
    destruct (final_order_Less_returns_on_wide_rows (X := X0)
                (final_order_of by_name_b ["a"; "b"]%string []) q
                [B "k2"; B "y"] [B "k1"; B "x"] Hinit) as [r Hr]; [simpl; lia..|];
    exists r; split; [exact Hinit|exact Hr]
  end.
Defined.

(** * The order plan on columns: the rows in order *)

Section FinalOrder.
Context `{X : Externals} {St : Type} `{Child : FinalPlan St}.
Variable U : list FinalOrderPlan.orderColumnsRow.
Hypothesis Less_returns_on_U :
  forall a b, a ∈ U -> b ∈ U -> exists r, FinalOrderPlan.Less a b = Ret r.

Abbreviation columns_strict_weak :=
  ((forall a b, a ∈ U -> b ∈ U -> FinalOrderPlan.Less a b = Ret true ->
      FinalOrderPlan.Less b a = Ret false) /\
   (forall a b c, a ∈ U -> b ∈ U -> c ∈ U ->
      not_above FinalOrderPlan.Less a b -> not_above FinalOrderPlan.Less b c ->
      not_above FinalOrderPlan.Less a c)).

(** [prepare] pushes the rows of the child onto the heap and leaves the
    child at its end. *)
Lemma final_prepare_spec (p : FinalOrderPlan.t St) (s s' : St) (rs : list (list Column)) :
  Fyields s rs s' ->
  forall (fuel : nat) (pos tot : Z) (h0 : list FinalOrderPlan.orderColumnsRow),
    (length rs < fuel)%nat ->
    (forall x, x ∈ h0 -> x ∈ U) ->
    (forall r, r ∈ rs -> columns_row p r ∈ U) ->
    exists h,
      FinalOrderPlan.prepare fuel (FinalOrderPlan.with_heap p s pos tot (Some h0))
      = Ret (None, FinalOrderPlan.with_heap p s' pos (tot + Z.of_nat (length rs)) (Some h))
      /\ h ≡ₚ h0 ++ map (columns_row p) rs
      /\ (columns_strict_weak -> heap_ordered FinalOrderPlan.Less h0 ->
          heap_ordered FinalOrderPlan.Less h).
Proof.
  induction 1 as [s s' Hn|s s1 s' cs rs Hn Hrs IH];
    intros fuel pos tot h0 Hfuel Hh0 Hrs'.
  - destruct fuel as [|fuel]; [simpl in Hfuel; lia|].
    exists h0. split; [|split].
    + simpl. rewrite Hn. cbn. rewrite Z.add_0_r. reflexivity.
    + simpl. rewrite app_nil_r. reflexivity.
    + auto.
  - destruct fuel as [|fuel]; [simpl in Hfuel; lia|].
    assert (columns_row p cs ∈ U) as HxU by (apply Hrs'; left).
    destruct (Push_returns FinalOrderPlan.Less U Less_returns_on_U h0 _ Hh0 HxU)
      as [h1 Hpush].
    pose proof (Push_Permutation _ _ _ _ Hpush) as Hperm.
    destruct (IH fuel pos (tot + 1) h1) as (h & Hprep & Hph & Hord).
    + simpl in Hfuel. lia.
    + intros x Hx. rewrite Hperm in Hx. apply elem_of_cons in Hx.
      destruct Hx as [->|Hx]; auto.
    + intros r Hr. apply Hrs'. right. exact Hr.
    + exists h. split; [|split].
      * simpl. rewrite Hn. cbn.
        unfold columns_row in Hpush. rewrite Hpush. cbn.
        replace (tot + Z.of_nat (S (length rs))) with (tot + 1 + Z.of_nat (length rs))
          by lia.
        exact Hprep.
      * rewrite Hph, Hperm. simpl. rewrite Permutation_middle. reflexivity.
      * intros Hsw Hord0. apply Hord; [exact Hsw|].
        destruct Hsw as [Hasym Htrans].
        destruct (Push_ordered FinalOrderPlan.Less U Less_returns_on_U Hasym Htrans
                    h0 _ Hh0 HxU Hord0) as (h1' & Hpush' & Hord1).
        rewrite Hpush in Hpush'. injection Hpush' as <-. exact Hord1.
Qed.

Lemma FinalOrderPlan_Next_prepared (fuel : nat) (p : FinalOrderPlan.t St) :
  FinalOrderPlan.total p <> 0 ->
  FinalOrderPlan.Next fuel p =
  if FinalOrderPlan.pos p <? FinalOrderPlan.total p then
    match FinalOrderPlan.sorted p with
    | None => Panic "nil pointer dereference"
    | Some h =>
        '(row_, h') ← heap.Pop FinalOrderPlan.Less h;
        Ret ((Some (FinalOrderPlan.cols row_), None),
             FinalOrderPlan.with_heap p (FinalOrderPlan.ChildPlan p)
               (FinalOrderPlan.pos p + 1) (FinalOrderPlan.total p) (Some h'))
    end
  else Ret ((None, None), p).
Proof.
  intros Ht. unfold FinalOrderPlan.Next.
  destruct (Z.eqb_spec (FinalOrderPlan.total p) 0); [contradiction|]. reflexivity.
Qed.

(** The prepared plan returns the rows of the heap, root after root. *)
Lemma final_drain_spec (p : FinalOrderPlan.t St) (fuel : nat) (n : nat) :
  forall (h : list FinalOrderPlan.orderColumnsRow) (c : St) (pos tot : Z),
    length h = n -> tot <> 0 -> tot - pos = Z.of_nat (length h) ->
    (forall x, x ∈ h -> x ∈ U) ->
    exists out p',
      Fyields (P := FinalOrderPlan_plan fuel)
        (FinalOrderPlan.with_heap p c pos tot (Some h))
        (map FinalOrderPlan.cols out) p'
      /\ out ≡ₚ h
      /\ (columns_strict_weak -> heap_ordered FinalOrderPlan.Less h ->
          StronglySorted (not_above FinalOrderPlan.Less) out).
Proof.
  induction n as [|n IH]; intros h c pos tot Hlen Htot Hpos HU.
  - destruct h; [|discriminate].
    exists [], (FinalOrderPlan.with_heap p c pos tot (Some [])).
    split; [|split].
    + apply Fyields_end. cbn [FNext FinalOrderPlan_plan].
      rewrite FinalOrderPlan_Next_prepared by exact Htot. simpl in *.
      destruct (Z.ltb_spec pos tot); [lia|reflexivity].
    + reflexivity.
    + intros _ _. constructor.
  - assert (h <> []) as Hne by (destruct h; [discriminate|congruence]).
    destruct (Pop_returns FinalOrderPlan.Less U Less_returns_on_U h HU Hne)
      as (x & h' & Hpop).
    pose proof (Pop_Permutation _ _ _ _ Hpop) as Hperm.
    assert (length h' = n) as Hlen'.
    { apply Permutation_length in Hperm. simpl in Hperm. lia. }
    destruct (IH h' c (pos + 1) tot Hlen' Htot) as (out & p' & Hyo & Hout & Hsorted).
    + lia.
    + intros y Hy. apply HU. rewrite Hperm. right. exact Hy.
    + exists (x :: out), p'. split; [|split].
      * simpl. eapply Fyields_row; [|exact Hyo].
        cbn [FNext FinalOrderPlan_plan].
        rewrite FinalOrderPlan_Next_prepared by exact Htot. simpl.
        destruct (Z.ltb_spec pos tot); [|lia].
        rewrite Hpop. reflexivity.
      * rewrite Hperm, Hout. reflexivity.
      * intros Hsw Hord. destruct Hsw as [Hasym Htrans].
        destruct (Pop_ordered FinalOrderPlan.Less U Less_returns_on_U Hasym Htrans
                    h HU Hord Hne) as (x' & h'' & Hpop' & Hord' & Hmin).
        rewrite Hpop in Hpop'. injection Hpop' as <- <-.
        constructor.
        -- apply Hsorted; [split; assumption|exact Hord'].
        -- apply Forall_forall. intros y Hy. apply Hmin.
           rewrite Hperm. right. rewrite <- Hout. exact Hy.
Qed.

(** The plan with an empty heap and zero counters over a child that
    yields [rs]: it yields a permutation of [rs], in the order of the
    comparison when this is a strict weak order. *)
Lemma FinalOrderPlan_yields (p : FinalOrderPlan.t St) (fuel : nat) (s s' : St)
    (rs : list (list Column)) :
  Fyields s rs s' -> (length rs < fuel)%nat ->
  (forall r, r ∈ rs -> columns_row p r ∈ U) ->
  exists out p',
    Fyields (P := FinalOrderPlan_plan fuel)
      (FinalOrderPlan.with_heap p s 0 0 (Some [])) out p'
    /\ out ≡ₚ rs
    /\ (columns_strict_weak -> StronglySorted (columns_not_above p) out).
Proof.
  intros Hy Hfuel HrsU.
  destruct (final_prepare_spec p s s' rs Hy fuel 0 0 [] Hfuel) as (h & Hprep & Hph & Hord).
  { intros x Hx. apply elem_of_nil in Hx. contradiction. }
  { exact HrsU. }
  simpl in Hph.
  destruct rs as [|r0 rs].
  - exists [], (FinalOrderPlan.with_heap p s' 0 0 (Some h)).
    split; [|split; [reflexivity|intros _; constructor]].
    apply Fyields_end. cbn [FNext FinalOrderPlan_plan].
    unfold FinalOrderPlan.Next. simpl FinalOrderPlan.total. simpl (0 =? 0).
    rewrite Hprep. reflexivity.
  - set (n := Z.of_nat (length (r0 :: rs))) in *.
    assert (n <> 0) as Hn0 by (subst n; simpl; lia).
    destruct (final_drain_spec p fuel (length h) h s' 0 (0 + n) eq_refl)
      as (out & p' & Hyo & Hout & Hsorted).
    + lia.
    + rewrite (Permutation_length Hph), length_map. subst n. lia.
    + intros x Hx. rewrite Hph in Hx. apply list_elem_of_fmap in Hx.
      destruct Hx as (r & -> & Hr). apply HrsU. exact Hr.
    + assert (FinalOrderPlan.Next fuel (FinalOrderPlan.with_heap p s 0 0 (Some []))
              = FinalOrderPlan.Next fuel (FinalOrderPlan.with_heap p s' 0 (0 + n) (Some h)))
        as HN.
      { rewrite (FinalOrderPlan_Next_prepared fuel
                   (FinalOrderPlan.with_heap p s' 0 (0 + n) (Some h))) by (simpl; lia).
        unfold FinalOrderPlan.Next at 1. simpl FinalOrderPlan.total at 1. simpl (0 =? 0).
        rewrite Hprep. reflexivity. }
      exists (map FinalOrderPlan.cols out), p'. split; [|split].
      * eapply (Fyields_same_Next (FinalOrderPlan_plan fuel)); [exact HN|exact Hyo].
      * rewrite Hout, Hph. rewrite map_map.
        rewrite (map_ext _ id) by (intros cs; reflexivity).
        rewrite map_id. reflexivity.
      * intros Hsw.
        assert (StronglySorted (not_above FinalOrderPlan.Less) out) as Hs.
        { apply Hsorted; [exact Hsw|]. apply Hord; [exact Hsw|].
          intros k x y Hk Hy0. rewrite lookup_nil in Hy0. discriminate. }
        assert (forall x, x ∈ out -> columns_row p (FinalOrderPlan.cols x) = x) as Hinv.
        { intros x Hx. rewrite Hout, Hph in Hx. apply list_elem_of_fmap in Hx.
          destruct Hx as (cs & -> & _). reflexivity. }
        clear -Hs Hinv. induction Hs as [|x out Hs IH Hall]; simpl; constructor.
        -- apply IH. intros y Hy. apply Hinv. right. exact Hy.
        -- apply Forall_forall. intros y Hy. apply list_elem_of_fmap in Hy.
           destruct Hy as (z & -> & Hz). unfold columns_not_above.
           rewrite (Hinv x) by left.
           rewrite (Hinv z) by (right; exact Hz).
           rewrite Forall_forall in Hall. apply Hall. exact Hz.
Qed.

End FinalOrder.

(** The comparison by one column of strings is the comparison of the
    bytes of the column, in the direction of the field. *)
Lemma Less_single_column `{X : Externals} {St : Type} (p : FinalOrderPlan.t St)
    (o : OrderField) (idx : Z) (a b : list Column) :
  FinalOrderPlan.Orders p = [o] -> FinalOrderPlan.orderPos_ p = [idx] ->
  FinalOrderPlan.orderTypes_ p = [TSTR] -> 0 <= idx ->
  (Z.to_nat idx < length a)%nat -> (Z.to_nat idx < length b)%nat ->
  FinalOrderPlan.Less (columns_row p a) (columns_row p b)
  = Ret (if is_DESC (Order o) then Compare (column idx b) (column idx a) <? 0
         else Compare (column idx a) (column idx b) <? 0).
Proof.
  intros HO HP HT H0 Ha Hb. unfold FinalOrderPlan.Less, columns_row. simpl.
  rewrite HO, HP, HT. simpl.
  destruct (lookup_lt_is_Some_2 _ _ Ha) as [ca Hca].
  destruct (lookup_lt_is_Some_2 _ _ Hb) as [cb Hcb].
  rewrite (at_lookup _ _ _ H0 Hca). cbn. rewrite (at_lookup _ _ _ H0 Hcb). cbn.
  unfold column, Column in *. rewrite Hca, Hcb. simpl. unfold compareBytes.
  rewrite (Compare_antisym ca cb).
  destruct (is_DESC (Order o)).
  - destruct (Z.ltb_spec (0 - Compare ca cb) 0);
      destruct (Z.ltb_spec (- Compare ca cb) 0); try lia; try reflexivity.
    destruct (0 - Compare ca cb >? 0); reflexivity.
  - destruct (Z.ltb_spec (Compare ca cb) 0); [reflexivity|].
    destruct (Compare ca cb >? 0); reflexivity.
Qed.

(** X22.  The order plan on columns, with an empty heap and zero
    counters, over a child that yields the rows [rs] and then ends, the
    comparison returning on every pair of them: it yields a permutation of
    [rs], in non-decreasing order of the comparison when the comparison is
    a strict weak order on the rows.  It is one for a single order field
    of the declared type string, whose column every row has: the rows then
    come in the order of the bytes of this column, ascending for [ASC] and
    descending for [DESC]. *)
Theorem final_order_plan_yields_sorted_permutation `{X : Externals} {St : Type}
    `{Child : FinalPlan St} (p : FinalOrderPlan.t St) (s s' : St)
    (rs : list (list Column)) (fuel : nat) :
  Fyields s rs s' -> (length rs < fuel)%nat ->
  total_on FinalOrderPlan.Less (map (columns_row p) rs) = true ->
  exists out p',
    Fyields (P := FinalOrderPlan_plan fuel)
      (FinalOrderPlan.with_heap p s 0 0 (Some [])) out p'
    /\ out ≡ₚ rs
    /\ (strict_weak_on FinalOrderPlan.Less (map (columns_row p) rs) = true ->
        StronglySorted (columns_not_above p) out)
    /\ (forall o idx,
          FinalOrderPlan.Orders p = [o] -> FinalOrderPlan.orderPos_ p = [idx] ->
          FinalOrderPlan.orderTypes_ p = [TSTR] -> 0 <= idx ->
          (forall r, r ∈ rs -> (Z.to_nat idx < length r)%nat) ->
          StronglySorted
            (fun a b => bytes_le (is_DESC (Order o)) (column idx a) (column idx b)) out).
Proof.
  intros Hy Hfuel Htotal.
  pose proof (total_on_spec _ _ Htotal) as Hret.
  destruct (FinalOrderPlan_yields (map (columns_row p) rs) Hret p fuel s s' rs Hy Hfuel)
    as (out & p' & Hyo & Hperm & Hsorted).
  { intros r Hr. apply list_elem_of_fmap. eauto. }
  exists out, p'. split; [exact Hyo|]. split; [exact Hperm|]. split.
  - intros Hsw. apply strict_weak_on_spec in Hsw. apply Hsorted. tauto.
  - intros o idx HO HP HT H0 Hwide.
    assert (compares_bytes FinalOrderPlan.Less (map (columns_row p) rs)
              (fun x => column idx (FinalOrderPlan.cols x)) (is_DESC (Order o))) as Hcmp.
    { intros a b Ha Hb. apply list_elem_of_fmap in Ha, Hb.
      destruct Ha as (ca & -> & Ha). destruct Hb as (cb & -> & Hb).
      apply Less_single_column; auto. }
    destruct (compares_bytes_strict_weak _ _ _ _ Hcmp) as (_ & Hasym & Htrans & Hle).
    apply (StronglySorted_weaken (columns_not_above p)).
    + intros a b Ha Hb Hab. rewrite Hperm in Ha, Hb.
      apply (Hle (columns_row p a) (columns_row p b)).
      * apply list_elem_of_fmap. eauto.
      * apply list_elem_of_fmap. eauto.
      * exact Hab.
    + apply Hsorted. split; assumption.
Qed.

(** Three rows of two columns by their second column. *)
Lemma final_order_plan_yields_sorted_permutation_witness :
  exists out p',
    Fyields (P := FinalOrderPlan_plan (X := X0) 4) by_b_plan out p'
    /\ out ≡ₚ [[B "k2"; B "y"]; [B "k3"; B "z"]; [B "k1"; B "x"]]
    /\ StronglySorted (fun a b => bytes_le false (column 1 a) (column 1 b)) out.
Proof.
  destruct (final_order_plan_yields_sorted_permutation (X := X0) (Child := list_FinalPlan)
              by_b_plan three_column_rows []
              [[B "k2"; B "y"]; [B "k3"; B "z"]; [B "k1"; B "x"]] 4)
    as (out & p' & Hy & Hperm & _ & Hsorted).
  - repeat (eapply Fyields_row; [reflexivity|]). apply Fyields_end. reflexivity.
  - simpl. lia.
  - vm_compute. reflexivity.
  - exists out, p'. split; [exact Hy|]. split; [exact Hperm|].
    apply (Hsorted _ 1 eq_refl eq_refl eq_refl ltac:(lia)).
    intros r Hr. repeat (apply elem_of_cons in Hr; destruct Hr as [->|Hr]; [simpl; lia|]).
    apply elem_of_nil in Hr. contradiction.
Defined.

(** * Orders by fields of integers *)

Lemma lex_ltb_asym (x y : list Z) : lex_ltb x y = true -> lex_ltb y x = false.
Proof.
  revert y. induction x as [|a x IH]; intros [|b y]; simpl; try discriminate; auto.
  destruct (Z.ltb_spec a b), (Z.ltb_spec b a); try lia; auto; discriminate.
Qed.

Lemma lex_ltb_trans (x : list Z) :
  forall y z, length x = length y -> length y = length z ->
    lex_ltb y x = false -> lex_ltb z y = false -> lex_ltb z x = false.
Proof.
  induction x as [|a x IH]; intros [|b y] [|c z]; simpl; try discriminate; auto.
  intros Hxy Hyz.
  destruct (Z.ltb_spec b a), (Z.ltb_spec a b), (Z.ltb_spec c b), (Z.ltb_spec b c),
    (Z.ltb_spec c a), (Z.ltb_spec a c); try lia; try discriminate; auto.
  apply IH; lia.
Qed.

Lemma compares_keys_strict_weak {A : Type} (less : A -> A -> res bool) (U : list A)
    (key : A -> list Z) (n : nat) :
  compares_keys less U key n ->
  (forall a b, a ∈ U -> b ∈ U -> exists r, less a b = Ret r) /\
  (forall a b, a ∈ U -> b ∈ U -> less a b = Ret true -> less b a = Ret false) /\
  (forall a b c, a ∈ U -> b ∈ U -> c ∈ U ->
     not_above less a b -> not_above less b c -> not_above less a c) /\
  (forall a b, a ∈ U -> b ∈ U -> not_above less a b -> lex_ltb (key b) (key a) = false).
Proof.
  intros [Hlen Hless]. split; [|split; [|split]].
  - intros a b Ha Hb. rewrite (Hless a b Ha Hb). eauto.
  - intros a b Ha Hb. rewrite (Hless a b Ha Hb), (Hless b a Hb Ha).
    intros [= H]. f_equal. apply lex_ltb_asym. exact H.
  - intros a b c Ha Hb Hc. unfold not_above.
    rewrite (Hless b a Hb Ha), (Hless c b Hc Hb), (Hless c a Hc Ha).
    intros [= H1] [= H2]. f_equal.
    apply (lex_ltb_trans (key a) (key b) (key c)); auto;
      rewrite !Hlen by assumption; reflexivity.
  - intros a b Ha Hb. unfold not_above. rewrite (Hless b a Hb Ha).
    intros [= H]. exact H.
Qed.

Lemma compareInt_signed (o : OrderField) (x y : Z) :
  (compareInt x y (is_DESC (Order o)) <? 0) = (signed o x <? signed o y)
  /\ (compareInt x y (is_DESC (Order o)) >? 0) = (signed o y <? signed o x).
Proof.
  unfold compareInt, signed.
  destruct (is_DESC (Order o)); destruct (Z.eqb_spec x y); subst; simpl.
  - rewrite !Z.ltb_irrefl. auto.
  - rewrite Z.gtb_ltb. destruct (Z.ltb_spec y x); simpl; split;
      first [reflexivity
            | symmetry; first [apply Z.ltb_lt; lia | apply Z.ltb_ge; lia]].
  - rewrite !Z.ltb_irrefl. auto.
  - destruct (Z.ltb_spec x y); simpl; split;
      first [reflexivity
            | symmetry; first [apply Z.ltb_lt; lia | apply Z.ltb_ge; lia]].
Qed.

(** The loop of [Less] on two rows whose fields are integers is the
    lexicographic comparison of the integers in the directions of the
    fields. *)
Lemma Less_loop_lex `{X : Externals} (os : list OrderField) (a b : slice * slice)
    (va vb : OrderField -> Z) :
  int_fields os va a -> int_fields os vb b ->
  OrderPlan.Less_loop (NewKVP a.1 a.2) (NewKVP b.1 b.2) os
  = Ret (lex_ltb (int_keys os va) (int_keys os vb)).
Proof.
  induction os as [|o os IH]; intros Ha Hb; [reflexivity|].
  inversion Ha as [|? ? (ka & ea & Hxa & Hka) Ha']; subst.
  inversion Hb as [|? ? (kb & eb & Hxb & Hkb) Hb']; subst.
  rewrite (Less_loop_cons _ _ _ _ _ _ _ _ Hxa Hxb).
  rewrite (compare_field_ints _ _ _ _ _ Hka Hkb).
  destruct (compareInt_signed o (va o) (vb o)) as [H1 H2].
  cbn [mbind res_bind int_keys map lex_ltb]. rewrite H1, H2.
  destruct (signed o (va o) <? signed o (vb o)); [reflexivity|].
  destruct (signed o (vb o) <? signed o (va o)); [reflexivity|].
  apply IH; assumption.
Qed.

(** X23.  Ordered by fields that evaluate on every row of the child,
    errors beside the value or not, to integers that the comparison takes
    for integers, of whatever integer type but [uint8], and that convert
    to signed integers of 64 bits, the order plan yields the rows of the
    child in lexicographic order of these integers, field after field,
    each ascending for [ASC] and descending for [DESC]: a later field
    decides between rows that the fields before it do not tell apart. *)
Theorem order_by_ints_sorts_lexicographically `{X : Externals} {St : Type}
    `{Child : Plan St} (Orders : list OrderField) (s s' : St)
    (rs : list (slice * slice)) (fuel : nat) (val : slice * slice -> OrderField -> Z) :
  yields s rs s' -> (length rs < fuel)%nat ->
  (forall r, r ∈ rs -> int_fields Orders (val r) r) ->
  exists out p',
    yields (P := OrderPlan_plan fuel) (order_state Orders s 0 0 (Some [])) out p'
    /\ out ≡ₚ rs
    /\ StronglySorted
         (fun a b => lex_ltb (int_keys Orders (val b)) (int_keys Orders (val a)) = false)
         out.
Proof.
  intros Hy Hfuel Hval.
  set (U := map (order_row Orders) rs).
  assert (compares_keys OrderPlan.Less U (fun x => int_keys Orders (val (row_pair x)))
            (length Orders)) as Hcmp.
  { split.
    - intros a _. unfold int_keys. apply length_map.
    - intros a b Ha Hb. apply list_elem_of_fmap in Ha, Hb.
      destruct Ha as ([ka va] & -> & Ha). destruct Hb as ([kb vb] & -> & Hb).
      unfold OrderPlan.Less, row_pair, order_row. simpl.
      apply (Less_loop_lex Orders (ka, va) (kb, vb)); [apply (Hval _ Ha)|apply (Hval _ Hb)]. }
  destruct (compares_keys_strict_weak _ _ _ _ Hcmp) as (Hret & Hasym & Htrans & Hle).
  destruct (OrderPlan_yields U Hret fuel Orders s s' rs Hy Hfuel)
    as (out & p' & Hyo & _ & Hperm & Hsorted).
  { intros r Hr. apply list_elem_of_fmap. eauto. }
  exists out, p'. split; [exact Hyo|]. split; [exact Hperm|].
  apply (StronglySorted_weaken (row_not_above Orders)).
  - intros [ka va] [kb vb] Ha Hb Hab. rewrite Hperm in Ha, Hb.
    apply (Hle (order_row Orders (ka, va)) (order_row Orders (kb, vb))).
    + apply list_elem_of_fmap. eauto.
    + apply list_elem_of_fmap. eauto.
    + exact Hab.
  - apply Hsorted. split; assumption.
Qed.

(** Three rows by the integer of the value, descending, then by the
    integer of the key. *)
Lemma order_by_ints_sorts_lexicographically_witness :
  exists out p',
    yields (P := OrderPlan_plan (X := X0) 4)
      (order_state by_int_desc_then_key rows_of_pairs 0 0 (Some [])) out p'
    /\ out ≡ₚ [pair_of "2" "5"; pair_of "1" "7"; pair_of "1" "5"]
    /\ StronglySorted
         (fun a b => lex_ltb (int_keys by_int_desc_then_key (pair_ints b))
                             (int_keys by_int_desc_then_key (pair_ints a)) = false) out.
Proof.
  refine (order_by_ints_sorts_lexicographically (X := X0) (Child := list_Plan)
            by_int_desc_then_key rows_of_pairs []
            [pair_of "2" "5"; pair_of "1" "7"; pair_of "1" "5"] 4 pair_ints _ _ _).
  - repeat (eapply yields_row; [reflexivity|reflexivity|]). apply yields_end. reflexivity.
  - simpl. lia.
  - intros r Hr.
    repeat (apply elem_of_cons in Hr; destruct Hr as [->|Hr];
            [repeat (constructor;
                     [exists Kint64, None; split;
                      [reflexivity|split; [discriminate|split; reflexivity]]|]);
             constructor|]).
    apply elem_of_nil in Hr. contradiction.
Defined.

(** * The counters and the heap of the order plan *)

Section OrderInStep.
Context `{X : Externals} {St : Type} `{Child : Plan St}.

Lemma prepare_in_step (fuel : nat) :
  forall (p p' : OrderPlan.t St) (err : option error),
    order_in_step p -> OrderPlan.prepare fuel p = Ret (err, p') -> order_in_step p'.
Proof.
  induction fuel as [|fuel IH]; intros p p' err (h & Hh & Hpos & Hlen); simpl;
    [discriminate|].
  destruct (Next (OrderPlan.ChildPlan p)) as [[[[k v] e] c]| |]; cbn; try discriminate.
  destruct e as [e|]; [intros H; injection H as _ <-; exists h; auto|].
  match goal with |- (if ?b then _ else _) = _ -> _ =>
    destruct b; [intros H; injection H as _ <-; exists h; auto|] end.
  rewrite Hh.
  destruct (heap.Push OrderPlan.Less h _) as [h1| |] eqn:Hpush; cbn; try discriminate.
  apply IH. exists h1. simpl. split; [reflexivity|]. split; [exact Hpos|].
  rewrite (Permutation_length (Push_Permutation _ _ _ _ Hpush)). simpl. lia.
Qed.

Lemma OrderPlan_Next_in_step (fuel : nat) (p p' : OrderPlan.t St) (r : row) :
  order_in_step p -> OrderPlan.Next fuel p = Ret (r, p') -> order_in_step p'.
Proof.
  intros Hp. unfold OrderPlan.Next.
  destruct (if OrderPlan.total p =? 0 then OrderPlan.prepare fuel p else Ret (None, p))
    as [[err p1]| |] eqn:Hprep; cbn; try discriminate.
  assert (order_in_step p1) as (h & Hh & Hpos & Hlen).
  { destruct (OrderPlan.total p =? 0).
    - eapply prepare_in_step; eassumption.
    - injection Hprep as _ <-. exact Hp. }
  destruct err as [e|]; [intros H; injection H as _ <-; exists h; auto|].
  destruct (Z.ltb_spec (OrderPlan.pos p1) (OrderPlan.total p1)) as [Hlt|Hge].
  - rewrite Hh.
    destruct (heap.Pop OrderPlan.Less h) as [[x h']| |] eqn:Hpop; cbn; try discriminate.
    intros H; injection H as _ <-. exists h'. simpl. split; [reflexivity|]. split; [lia|].
    pose proof (Permutation_length (Pop_Permutation _ _ _ _ Hpop)) as Hl. simpl in Hl. lia.
  - intros H; injection H as _ <-. exists h; auto.
Qed.

End OrderInStep.

(** X24.  The counters of the order plan and its heap stay in
    step: after [Init], and after every call of [Next] that returns, with
    a row, an error or the end of the stream, the heap holds as many rows
    as [total] exceeds [pos], which is not negative; so where [Next] pops
    the heap, [pos] being less than [total], the heap is not empty. *)
Theorem order_counters_and_heap_in_step `{X : Externals} {St : Type} `{Child : Plan St}
    (fuel : nat) (p p' : OrderPlan.t St) :
  (forall err, OrderPlan.Init p = Ret (err, p') -> order_in_step p') /\
  (forall r, order_in_step p -> OrderPlan.Next fuel p = Ret (r, p') -> order_in_step p') /\
  (order_in_step p -> OrderPlan.pos p < OrderPlan.total p ->
     exists x h, OrderPlan.sorted p = Some (x :: h)).
Proof.
  split; [|split].
  - intros err. unfold OrderPlan.Init. cbn.
    destruct (Init (OrderPlan.ChildPlan p)) as [[e c]| |]; cbn; try discriminate.
    intros H; injection H as _ <-. exists []. simpl. repeat split; lia.
  - intros r. apply OrderPlan_Next_in_step.
  - intros (h & Hh & Hpos & Hlen) Hlt. destruct h as [|x h]; [simpl in Hlen; lia|eauto].
Qed.

(** The plan over the child that fails after its third row, after its
    first call. *)
Lemma order_counters_and_heap_in_step_witness :
  exists r p',
    OrderPlan.Next (X := X0) (Child := list_Plan) 4
      (order_state (by_key ASC) three_rows_then_error 0 0 (Some [])) = Ret (r, p')
    /\ order_in_step p'.
Proof.
  let v := eval vm_compute in
    (OrderPlan.Next (X := X0) (Child := list_Plan) 4
       (order_state (by_key ASC) three_rows_then_error 0 0 (Some []))) in
  match v with Ret (?r, ?q) => exists r, q end.
  match goal with |- ?N = Ret (?r, ?q) /\ _ =>
    assert (N = Ret (r, q)) as Hnext by (vm_compute; reflexivity);
    split; [exact Hnext|];
    apply (proj1 (proj2 (order_counters_and_heap_in_step (X := X0) (Child := list_Plan) 4
                           (order_state (by_key ASC) three_rows_then_error 0 0 (Some []))
                           q)) r); [|exact Hnext]
  end.
  exists []. simpl. repeat split; lia.
Defined.

(** * Operands that fail *)

(** X25.  The error of the left operand is the error of every
    binary operator that the evaluator knows: the right operand is not
    evaluated, whatever its evaluation would do.  For the operators other
    than the logical ones, [in] and [between], the error of the right
    operand is the error of the operator when the left operand evaluates
    without error. *)
Theorem operand_errors_propagate `{X : Externals} (op : Operator) (l r : Expression)
    (kv : KVPair) (e : error) :
  (forall vl, known_operator op = true -> Execute l kv = Ret (vl, Some e) ->
     exists v, Execute (BinaryOpExpr op l r) kv = Ret (v, Some e)) /\
  (forall vl vr, strict_operator op = true ->
     Execute l kv = Ret (vl, None) -> Execute r kv = Ret (vr, Some e) ->
     exists v, Execute (BinaryOpExpr op l r) kv = Ret (v, Some e)).
Proof.
  split.
  - intros vl Hop Hl. cbn [Execute]. rewrite Hl.
    destruct op; try discriminate Hop; try (eexists; reflexivity);
      destruct (ReturnType l); simpl; eexists; reflexivity.
  - intros vl vr Hop Hl Hr. cbn [Execute]. rewrite Hl, Hr.
    destruct op; try discriminate Hop; try (eexists; reflexivity);
      destruct (ReturnType l); simpl; eexists; reflexivity.
Qed.

(** The right operand of the example panics when it is evaluated; the
    left one fails. *)
Lemma operand_errors_propagate_witness :
  exists v,
    @Execute X0
      (BinaryOpExpr Eq_ (FieldExpr OtherKW) (FieldAccessExpr held_list (NumberExpr (-1))))
      row_true
    = Ret (v, errors_New "Invalid Field").
Proof.
  apply (proj1 (operand_errors_propagate (X := X0) Eq_ (FieldExpr OtherKW)
                  (FieldAccessExpr held_list (NumberExpr (-1))) row_true
                  (errorString "Invalid Field")) VNil); reflexivity.
Defined.

(** * A row on which the filter fails *)

Section ScanErrors.
Context `{X : Externals} {C : Type} `{Cur : Cursor C}.
Variables (stop : list byte -> bool) (f : FilterExec).

(** The loop goes over the rows that the filter rejects and returns the
    error of the filter on the first row on which it fails; the cursor
    is left behind this row. *)
Lemma scan_loop_filter_error (pre : list (list byte * slice)) (bad : list byte * slice)
    (c c1 : C) (b : bool) (e : error) (fuel : nat) :
  cursor_reads c (pre ++ [bad]) c1 ->
  Forall (fun r => stop r.1 = false) (pre ++ [bad]) ->
  Forall (fun r => Filter f (NewKVP (Some r.1) r.2) = Ret (false, None)) pre ->
  Filter f (NewKVP (Some bad.1) bad.2) = Ret (b, Some e) ->
  (length pre < fuel)%nat ->
  scan_loop stop fuel f c = Ret ((None, None, Some e), c1).
Proof.
  revert c fuel. induction pre as [|r pre IH]; intros c fuel Hc Hstop Hrej Hbad Hfuel.
  - destruct fuel as [|fuel]; [simpl in Hfuel; lia|].
    simpl in Hc. inversion Hc as [|? c' ? k v ? Hnext Hrest]; subst.
    inversion Hrest; subst.
    inversion Hstop as [|? ? Hs _]; subst. simpl in Hs, Hbad.
    simpl. rewrite Hnext, Hs, Hbad. reflexivity.
  - destruct fuel as [|fuel]; [simpl in Hfuel; lia|].
    simpl in Hc. inversion Hc as [|? c' ? k v ? Hnext Hrest]; subst.
    inversion Hstop as [|? ? Hs Hstop']; subst.
    inversion Hrej as [|? ? Hr Hrej']; subst. simpl in Hs, Hr.
    simpl scan_loop. rewrite Hnext, Hs, Hr. simpl.
    apply IH; try assumption. simpl in Hfuel. lia.
Qed.

End ScanErrors.

(** X26.  A scan whose filter fails on a row returns the error of
    the filter, without a row, after it has gone over the rows before it
    that the filter rejects; its cursor is left behind the row of the
    error, so the next call goes on with the row after it.  For the
    prefix scan the rows up to this one have the prefix, for the range
    scan none of them is beyond [End]. *)
Theorem scans_return_filter_error `{X : Externals} {C : Type} `{Cur : Cursor C}
    (f : FilterExec) (pre : list (list byte * slice)) (bad : list byte * slice)
    (c c1 : C) (b : bool) (e : error) (fuel : nat) :
  cursor_reads c (pre ++ [bad]) c1 ->
  Forall (fun r => Filter f (NewKVP (Some r.1) r.2) = Ret (false, None)) pre ->
  Filter f (NewKVP (Some bad.1) bad.2) = Ret (b, Some e) ->
  (length pre < fuel)%nat ->
  (forall txn,
     FullScanPlan.Next fuel
       {| FullScanPlan.Txn_ := txn; FullScanPlan.Filter_ := f; FullScanPlan.iter := Some c |}
     = Ret ((None, None, Some e),
            {| FullScanPlan.Txn_ := txn; FullScanPlan.Filter_ := f;
               FullScanPlan.iter := Some c1 |})) /\
  (forall txn prefix,
     Forall (fun r => HasPrefix r.1 (String.list_byte_of_string prefix) = true)
       (pre ++ [bad]) ->
     PrefixScanPlan.Next fuel
       {| PrefixScanPlan.Txn_ := txn; PrefixScanPlan.Filter_ := f;
          PrefixScanPlan.Prefix := prefix; PrefixScanPlan.iter := Some c |}
     = Ret ((None, None, Some e),
            {| PrefixScanPlan.Txn_ := txn; PrefixScanPlan.Filter_ := f;
               PrefixScanPlan.Prefix := prefix; PrefixScanPlan.iter := Some c1 |})) /\
  (forall txn start end_,
     Forall (fun r => RangeScanPlan.beyond end_ r.1 = false) (pre ++ [bad]) ->
     RangeScanPlan.Next fuel
       {| RangeScanPlan.Txn_ := txn; RangeScanPlan.Filter_ := f;
          RangeScanPlan.Start := start; RangeScanPlan.End_ := end_;
          RangeScanPlan.iter := Some c |}
     = Ret ((None, None, Some e),
            {| RangeScanPlan.Txn_ := txn; RangeScanPlan.Filter_ := f;
               RangeScanPlan.Start := start; RangeScanPlan.End_ := end_;
               RangeScanPlan.iter := Some c1 |})).
Proof.
  intros Hc Hrej Hbad Hfuel. split; [|split].
  - intros txn. unfold FullScanPlan.Next. simpl.
    rewrite FullScanPlan_loop_scan.
    rewrite (scan_loop_filter_error (fun _ => false) f pre bad c c1 b e fuel);
      try assumption; [reflexivity|].
    clear. induction (pre ++ [bad]); constructor; [reflexivity|assumption].
  - intros txn prefix Hpre. unfold PrefixScanPlan.Next. simpl.
    rewrite PrefixScanPlan_loop_scan.
    rewrite (scan_loop_filter_error _ f pre bad c c1 b e fuel);
      try assumption; [reflexivity|].
    eapply Forall_impl; [exact Hpre|]. intros r Hr. simpl in Hr |- *.
    rewrite Hr. reflexivity.
  - intros txn start end_ Hend. unfold RangeScanPlan.Next. simpl.
    rewrite RangeScanPlan_loop_scan.
    rewrite (scan_loop_filter_error _ f pre bad c c1 b e fuel);
      try assumption; reflexivity.
Qed.

(** The full scan of the store a, b, c with the values 0, x, 1 under the
    filter [int(value) = 1] rejects the first row and fails on the
    second; the third is left to the next call. *)
Lemma scans_return_filter_error_witness :
  FullScanPlan.Next (X := X0) 2 (full_scan_of value_is_one store_with_text)
  = Ret ((None, None, errors_New "int: not an integer"),
         full_scan_of value_is_one [kv "c" "1"]).
Proof.
  refine (proj1 (scans_return_filter_error (X := X0) value_is_one
            [(B "a", Some (B "0"))] (B "b", Some (B "x"))
            store_with_text [kv "c" "1"] false (errorString "int: not an integer") 2
            _ _ _ _) no_txn).
  - repeat (eapply cursor_reads_row; [reflexivity|]). apply cursor_reads_nil.
  - repeat constructor.
  - vm_compute. reflexivity.
  - simpl. lia.
Defined.

(** * Equality on a field that fails *)

(** [=] whose left operand is an unknown field returns [false] with the
    error of the field. *)
Lemma boolean_operators_return_bool_witness :
  exists b, (VBool false : any) = VBool b
            /\ (errors_New "Invalid Field" <> None -> b = false).
Proof.
  apply (boolean_operators_return_bool (X := X0) Eq_ (FieldExpr OtherKW) (NumberExpr 1)
           row_true (VBool false) (errors_New "Invalid Field")); reflexivity.
Defined.
